(** * Game review: move classification and the Stockfish adapter

    A shallow embedding of [src/lib/analysis.ts] (the classification engine,
    module [Analysis]), [src/lib/stockfish.ts] (the engine adapter, modules
    [Regex] and [Stockfish], and [Async] for the [await] of
    [analyzePosition]) and of the forced-move test of
    [src/hooks/useStockfish.ts], followed by the properties proved of them;
    then of the code around them: the analysis hook ([Hook]), PGN parsing,
    the evaluation bar ([Bar]), the board area ([Board]), the move list
    ([MovePanel]), the classification summary ([Summary]) and the game list
    ([ChessCom]).

    Conventions.
    - What the code calls but does not define is a parameter: chess.js
      ([ChessApi], [ChessReplay]), the engine behind the hook (the answer to
      each request) and the network (the answer to each URL).
    - The calls the hook makes on React state setters are recorded in order.
    - A string is a sequence of code units below 256.
    - The numbers the code handles in [Evaluation] records are produced by
      [parseInt(_, 10)] on digit strings, so they are integers: they are
      modelled as [Z].  On integers [Math.round] is the identity.  The
      model is exact up to [Number.MAX_SAFE_INTEGER]; a longer numeral,
      which JavaScript rounds to a double, is read exactly by the model, so
      a statement that reads numerals back bounds them.
    - [winChance] goes through [Math.exp]; it is modelled over the real
      numbers, i.e. up to the rounding of IEEE doubles.
    - chess.js is an external library: it is a parameter ([ChessApi]).
    - A JavaScript exception is an explicit outcome ([Throw]). *)

From Stdlib Require Import ZArith Reals Lra Lia Bool List String Ascii DecimalString DecimalPos Sorted.
From stdpp Require Import gmap.
Import ListNotations.

Open Scope string_scope.
Open Scope Z_scope.

(** ** Evaluation (src/lib/stockfish.ts) *)

Record Evaluation := mkEvaluation {
  cp : option Z;
  mate : option Z;
  depth : Z;
  nodes : option Z;
  bestMove : option string;
  pv : option string
}.

(** The object literal [{ depth: d }]. *)
Definition depthOnly (d : Z) : Evaluation :=
  {| cp := None; mate := None; depth := d; nodes := None;
     bestMove := None; pv := None |}.

(** A JavaScript call either returns or throws. *)
Inductive outcome (A : Type) : Type :=
| Ok (a : A)
| Throw (msg : string).
Arguments Ok {A} a.
Arguments Throw {A} msg.

(** ** String helpers of the JavaScript runtime *)

Definition startsWith (s p : string) : bool := String.prefix p s.

Definition endsWith (s p : string) : bool :=
  let n := String.length s in
  let k := String.length p in
  (k <=? n)%nat && String.eqb (String.substring (n - k) k s) p.

(** ** chess.js, as far as the code calls it *)

Inductive Color := w | b.
Inductive PieceSymbol := p_ | n_ | b_ | r_ | q_ | k_.

Record Piece := mkPiece { ptype : PieceSymbol; pcolor : Color }.

(** [newChess fen] is [new Chess(fen)]: [None] when the constructor throws
    on a string it does not accept.  [isGameOver_no_moves] records that
    chess.js reports a position without legal moves (checkmate or stalemate)
    as over. *)
Record ChessApi := mkChessApi {
  Chess : Type;
  newChess : string -> option Chess;
  board : Chess -> list (list (option Piece));
  moves : Chess -> list string;
  isGameOver : Chess -> bool;
  isGameOver_no_moves : forall g, moves g = [] -> isGameOver g = true
}.

Module Analysis.

Inductive MoveClassification :=
| brilliant | great | best | excellent | good
| inaccuracy | mistake | blunder | book | forced
| null.

Record ParsedMove := mkParsedMove {
  index : Z;
  ply : Z;
  san : string;
  lan : string;
  fenBefore : string;
  fenAfter : string;
  turn : Color
}.

Definition PIECE_VALUE (t : PieceSymbol) : Z :=
  match t with
  | p_ => 1 | n_ => 3 | b_ => 3 | r_ => 5 | q_ => 9 | k_ => 0
  end.

Record Material := mkMaterial { white : Z; black : Z }.

(** The two nested loops of [materialByColor], over an already built board. *)
Definition materialOfRow (acc : Material) (row : list (option Piece)) : Material :=
  fold_left
    (fun m sq =>
       match sq with
       | None => m
       | Some piece =>
           let value := PIECE_VALUE (ptype piece) in
           match pcolor piece with
           | w => {| white := white m + value; black := black m |}
           | b => {| white := white m; black := black m + value |}
           end
       end)
    row acc.

Definition materialOfBoard (rows : list (list (option Piece))) : Material :=
  fold_left materialOfRow rows {| white := 0; black := 0 |}.

(** [evalToCpFromTurnPerspective] *)
Definition evalToCpFromTurnPerspective (evalData : Evaluation) : Z :=
  match mate evalData with
  | Some m =>
      let sign := Z.sgn m in
      let distance := Z.max 1 (Z.abs m) in
      sign * (10000 - distance * 10)
  | None =>
      match cp evalData with
      | Some c => c
      | None => 0
      end
  end.

(** [winChance], over the reals. *)
Definition winChance (cp : R) : R :=
  (50 + 50 * (2 / (1 + exp (- 0.00368208 * cp)) - 1))%R.

(** [Math.round], on an integer. *)
Definition Math_round (n : Z) : Z := n.

(** [x > y] on the reals as a boolean. *)
Definition Rgtb (x y : R) : bool := if Rgt_dec x y then true else false.

Record Verdict := mkVerdict {
  classification : MoveClassification;
  centipawnLoss : Z
}.

(** The argument of [classifyMove]; [bestMoveLan] is its [bestMove], renamed
    since [Evaluation] has a field of that name. *)
Record Params := mkParams {
  move : ParsedMove;
  evalBefore : Evaluation;
  evalAfter : Evaluation;
  bestMoveLan : string;
  openingPlyLimit : Z;
  secondBestEval : option Evaluation;
  isOnlyLegalMove : option bool
}.

(** [classification !== 'brilliant'] is [negb (isBrilliant classification)]. *)
Definition isBrilliant (c : MoveClassification) : bool :=
  match c with brilliant => true | _ => false end.

(** Truthiness of an optional boolean ([undefined] is falsy). *)
Definition truthy (o : option bool) : bool :=
  match o with Some v => v | None => false end.

(** The threshold ladder of [classifyMove] (the [if]/[else if] chain). *)
Definition ladder (cpl scoreBefore : Z) (wcLoss : R) (isBest : bool)
  : MoveClassification :=
  if (250 <? cpl) || Rgtb wcLoss 30 then
    if scoreBefore <? -500 then
      if cpl <=? 100 then good
      else if cpl <=? 250 then mistake
      else blunder
    else blunder
  else if (100 <? cpl) || Rgtb wcLoss 20 then
    if (scoreBefore <? -400) && (cpl <=? 150) then inaccuracy else mistake
  else if (30 <? cpl) || Rgtb wcLoss 10 then inaccuracy
  else if 10 <? cpl then good
  else if 0 <? cpl then excellent
  else if isBest then best else excellent.

Section WithChess.

Variable api : ChessApi.

(** [materialByColor]: throws when [new Chess(fen)] does. *)
Definition materialByColor (fen : string) : option Material :=
  match newChess api fen with
  | Some g => Some (materialOfBoard (board api g))
  | None => None
  end.

(** The forced-move test of [analyzeGame] (pass 2), with its [try]/[catch]. *)
Definition onlyLegalMove (m : ParsedMove) : bool :=
  match newChess api (fenBefore m) with
  | Some g => (length (moves api g) <=? 1)%nat
  | None => false
  end.

Definition pick (c : Color) (m : Material) : Z :=
  match c with w => white m | b => black m end.

Definition other (c : Color) : Color :=
  match c with w => b | b => w end.

Definition classifyMove (params : Params) : outcome Verdict :=
  let move := move params in
  let isCheckmate := endsWith (san move) "#" in
  if isCheckmate then Ok {| classification := best; centipawnLoss := 0 |}
  else
    let gameOverAfter :=
      match newChess api (fenAfter move) with
      | Some after => isGameOver api after
      | None => false
      end in
    if gameOverAfter then Ok {| classification := best; centipawnLoss := 0 |}
    else
      let scoreBefore := evalToCpFromTurnPerspective (evalBefore params) in
      let scoreAfter := - evalToCpFromTurnPerspective (evalAfter params) in
      let cpl := Z.max 0 (scoreBefore - scoreAfter) in
      let isBest := String.eqb (lan move) (bestMoveLan params) in
      if truthy (isOnlyLegalMove params) then
        Ok {| classification := forced; centipawnLoss := 0 |}
      else if (ply move <=? openingPlyLimit params) && (cpl <=? 25) then
        Ok {| classification := book; centipawnLoss := cpl |}
      else
        let wcBefore := winChance (IZR scoreBefore) in
        let wcAfter := winChance (IZR scoreAfter) in
        let wcLoss := (wcBefore - wcAfter)%R in
        let classification := ladder cpl scoreBefore wcLoss isBest in
        let classification :=
          if isBest && (cpl <=? 10) then best else classification in
        match materialByColor (fenBefore move), materialByColor (fenAfter move) with
        | Some beforeMaterial, Some afterMaterial =>
            let moverColor := turn move in
            let moverBefore := pick moverColor beforeMaterial in
            let moverAfter := pick moverColor afterMaterial in
            let opponentBefore := pick (other moverColor) beforeMaterial in
            let opponentAfter := pick (other moverColor) afterMaterial in
            let materialSacrificed := moverBefore - moverAfter in
            let materialCaptured := opponentBefore - opponentAfter in
            let netSacrifice := materialSacrificed - materialCaptured in
            let classification :=
              if isBest && (2 <=? netSacrifice) && (cpl <=? 15)
                 && (scoreBefore <? 600) && (-300 <? scoreBefore)
                 && (-50 <? scoreAfter)
              then brilliant else classification in
            let classification :=
              if negb (isBrilliant classification) && isBest && (cpl <=? 10) then
                match secondBestEval params with
                | Some sbe =>
                    let secondBestScore := - evalToCpFromTurnPerspective sbe in
                    let delta := secondBestScore - scoreAfter in
                    if (150 <=? delta) && (-200 <? scoreBefore) then great
                    else classification
                | None => classification
                end
              else classification in
            Ok {| classification := classification;
                  centipawnLoss := Math_round cpl |}
        | _, _ => Throw "Invalid FEN"
        end.

End WithChess.

End Analysis.

(** ** The regular expressions of [parseInfoLine]

    A backtracking matcher for the fragment of JavaScript regular
    expressions the adapter uses: literals, character classes, greedy [+] on
    a class, greedy [?], sequence, alternation, [\b], [^], [$] (without the
    [m] flag) and capturing groups.  Lines are strings of code units below
    256. *)

Module Regex.

Definition code (c : ascii) : nat := nat_of_ascii c.

Definition between (lo hi : nat) (c : ascii) : bool :=
  (lo <=? code c)%nat && (code c <=? hi)%nat.

(** [\d] *)
Definition isDigit (c : ascii) : bool := between 48 57 c.

(** [\w] *)
Definition isWord (c : ascii) : bool :=
  between 97 122 c || between 65 90 c || isDigit c || (code c =? 95)%nat.

(** [\s]: tab, line feed, vertical tab, form feed, carriage return, space
    and no-break space. *)
Definition isSpace (c : ascii) : bool :=
  between 9 13 c || (code c =? 32)%nat || (code c =? 160)%nat.

(** [.]: anything but a line terminator. *)
Definition isDot (c : ascii) : bool :=
  negb ((code c =? 10)%nat || (code c =? 13)%nat).

Definition oneOf (cs : string) (c : ascii) : bool :=
  existsb (Ascii.eqb c) (list_ascii_of_string cs).

Inductive re :=
| Eps
| Chr (c : ascii)
| Cls (f : ascii -> bool)
| Plus (f : ascii -> bool)
| Opt (r : re)
| Seq (r1 r2 : re)
| Alt (r1 r2 : re)
| WordB
| Bol
| Eol
| Grp (r : re).

Fixpoint lit (cs : list ascii) : re :=
  match cs with
  | [] => Eps
  | c :: cs' => Seq (Chr c) (lit cs')
  end.

(** A literal word. *)
Definition Lit (s : string) : re := lit (list_ascii_of_string s).

(** [r1 r2 ... rn] *)
Definition seqs (rs : list re) : re := fold_right Seq Eps rs.

Definition wordOpt (o : option ascii) : bool :=
  match o with Some c => isWord c | None => false end.

Section Matcher.

Context {A : Type}.

(** A continuation receives the character before the current position, the
    rest of the input and the captures so far (in order of completion). *)
Definition cont := option ascii -> list ascii -> list (list ascii) -> option A.

(** Greedy [f*]: the longest run first, then shorter ones. *)
Fixpoint star (f : ascii -> bool) (prev : option ascii) (s : list ascii)
  (caps : list (list ascii)) (k : cont) : option A :=
  match s with
  | c :: s' =>
      if f c then
        match star f (Some c) s' caps k with
        | Some a => Some a
        | None => k prev s caps
        end
      else k prev s caps
  | [] => k prev s caps
  end.

Fixpoint run (r : re) (prev : option ascii) (s : list ascii)
  (caps : list (list ascii)) (k : cont) : option A :=
  match r with
  | Eps => k prev s caps
  | Chr c =>
      match s with
      | d :: s' => if Ascii.eqb c d then k (Some d) s' caps else None
      | [] => None
      end
  | Cls f =>
      match s with
      | d :: s' => if f d then k (Some d) s' caps else None
      | [] => None
      end
  | Plus f =>
      match s with
      | d :: s' => if f d then star f (Some d) s' caps k else None
      | [] => None
      end
  | Opt r1 =>
      match run r1 prev s caps k with
      | Some a => Some a
      | None => k prev s caps
      end
  | Seq r1 r2 =>
      run r1 prev s caps (fun prev' s' caps' => run r2 prev' s' caps' k)
  | Alt r1 r2 =>
      match run r1 prev s caps k with
      | Some a => Some a
      | None => run r2 prev s caps k
      end
  | WordB =>
      if xorb (wordOpt prev) (wordOpt (head s)) then k prev s caps else None
  | Bol =>
      match prev with None => k prev s caps | Some _ => None end
  | Eol =>
      match s with [] => k prev s caps | _ :: _ => None end
  | Grp r1 =>
      run r1 prev s caps
        (fun prev' s' caps' =>
           k prev' s' (caps' ++ [firstn (length s - length s') s])%list)
  end.

End Matcher.

(** [r.exec(line)], as the list of captured groups of the leftmost match. *)
Fixpoint search (r : re) (prev : option ascii) (s : list ascii)
  : option (list (list ascii)) :=
  match run r prev s [] (fun _ _ caps => Some caps) with
  | Some caps => Some caps
  | None =>
      match s with
      | [] => None
      | c :: s' => search r (Some c) s'
      end
  end.

Definition exec (r : re) (line : string) : option (list (list ascii)) :=
  search r None (list_ascii_of_string line).

(** [r.test(line)] *)
Definition test (r : re) (line : string) : bool :=
  match exec r line with Some _ => true | None => false end.

(** [match[1]] *)
Definition group1 (caps : list (list ascii)) : list ascii := nth 0%nat caps [].

(** [parseInt(s, 10)] on a capture of [-?\d+].  The value is the exact
    integer; JavaScript returns the nearest double, which is the same number
    up to [Number.MAX_SAFE_INTEGER] in magnitude. *)
Definition digitsToZ (cs : list ascii) : Z :=
  fold_left (fun acc c => 10 * acc + Z.of_nat (code c - 48)) cs 0.

Definition parseInt (cs : list ascii) : Z :=
  match cs with
  | c :: cs' => if Ascii.eqb c "-" then - digitsToZ cs' else digitsToZ cs
  | [] => 0
  end.

Fixpoint dropSpaces (cs : list ascii) : list ascii :=
  match cs with
  | c :: cs' => if isSpace c then dropSpaces cs' else cs
  | [] => []
  end.

(** [s.trim()] *)
Definition trim (cs : list ascii) : list ascii :=
  rev (dropSpaces (rev (dropSpaces cs))).

(** [s.split(/\s+/)[0]] for a trimmed [s]. *)
Fixpoint firstToken (cs : list ascii) : list ascii :=
  match cs with
  | c :: cs' => if isSpace c then [] else c :: firstToken cs'
  | [] => []
  end.

(** [line.split(' ')[1]]: [None] when [line] has no space. *)
Fixpoint untilSpace (cs : list ascii) : list ascii :=
  match cs with
  | c :: cs' => if Ascii.eqb c " " then [] else c :: untilSpace cs'
  | [] => []
  end.

Fixpoint secondField (cs : list ascii) : option (list ascii) :=
  match cs with
  | c :: cs' => if Ascii.eqb c " " then Some (untilSpace cs') else secondField cs'
  | [] => None
  end.

End Regex.

(** ** The engine adapter (src/lib/stockfish.ts)

    The adapter is a state machine driven by four kinds of events: a line
    from the worker ([handleMessage]), a call of [analyzePosition], the
    expiry of a timer ([fireTimeout]) and teardown ([quit], [onerror]).
    What it does to the outside world (commands posted to the worker,
    promises settled) is recorded, in order, in [effects].  A request's
    promise is identified by the id of the timer created with it. *)

Module Stockfish.

Import Regex.

(** The fields [depth], [moveTimeMs], [timeoutMs] and [multiPv] of the
    source, prefixed since [Evaluation] and [PendingAnalysis] have fields of
    the same names. *)
Record AnalyzeOptions := mkAnalyzeOptions {
  optDepth : option Z;
  optMoveTimeMs : option Z;
  optTimeoutMs : option Z;
  optMultiPv : option Z
}.

Record PendingAnalysis := mkPending {
  results : gmap Z Evaluation;
  multiPv : Z;
  timeoutId : nat
}.

Inductive Effect :=
| PostMessage (cmd : string)
| Resolved (request : nat) (evs : list Evaluation)
| Rejected (request : nat) (reason : string)
| ReadyResolved
| Terminated.

(** An armed timer: its delay and the [multiPv] its callback closes over. *)
Record Timer := mkTimer { delay : Z; closureMultiPv : Z }.

Record Engine := mkEngine {
  worker : bool;
  ready : bool;
  resolveReady : bool;
  pending : option PendingAnalysis;
  timers : gmap nat Timer;
  nextTimer : nat;
  effects : list Effect
}.

Definition Unavailable : string := "Stockfish worker unavailable.".
Definition Cancelled : string := "Cancelled by a new analysis request.".
Definition Timeout : string := "Stockfish timed out without an evaluation.".
Definition EngineTerminated : string := "Engine terminated.".

Definition emit (e : Effect) (st : Engine) : Engine :=
  let 'mkEngine wk rd rr pd tm nt ef := st in
  mkEngine wk rd rr pd tm nt (ef ++ [e]).

(** [this.worker?.postMessage(cmd)] *)
Definition post (cmd : string) (st : Engine) : Engine :=
  if worker st then emit (PostMessage cmd) st else st.

Definition setPending (o : option PendingAnalysis) (st : Engine) : Engine :=
  let 'mkEngine wk rd rr _ tm nt ef := st in
  mkEngine wk rd rr o tm nt ef.

Definition clearTimeout (id : nat) (st : Engine) : Engine :=
  let 'mkEngine wk rd rr pd tm nt ef := st in
  mkEngine wk rd rr pd (delete id tm) nt ef.

(** [setTimeout(callback, ms)]: a fresh id. *)
Definition setTimeout (t : Timer) (st : Engine) : nat * Engine :=
  let 'mkEngine wk rd rr pd tm nt ef := st in
  (nt, mkEngine wk rd rr pd (<[nt := t]> tm) (S nt) ef).

(** [this.ready = true; this.resolveReady = null] *)
Definition markReady (st : Engine) : Engine :=
  let 'mkEngine wk _ _ pd tm nt ef := st in
  mkEngine wk true false pd tm nt ef.

(** [this.worker = null] *)
Definition dropWorker (st : Engine) : Engine :=
  let 'mkEngine _ rd rr pd tm nt ef := st in
  mkEngine false rd rr pd tm nt ef.

(** The constructor, in a browser. *)
Definition newEngine : Engine :=
  post "uci"
    {| worker := true; ready := false; resolveReady := true; pending := None;
       timers := ∅; nextTimer := 0%nat; effects := [] |}.

(** *** parseInfoLine *)

Definition reDepth : re := seqs [WordB; Lit "depth"; Plus isSpace; Grp (Plus isDigit)].
Definition reBound : re := seqs [WordB; Grp (Alt (Lit "upperbound") (Lit "lowerbound")); WordB].
Definition reCp : re :=
  seqs [WordB; Lit "score"; Plus isSpace; Lit "cp"; Plus isSpace;
        Grp (Seq (Opt (Chr "-")) (Plus isDigit))].
Definition reMate : re :=
  seqs [WordB; Lit "score"; Plus isSpace; Lit "mate"; Plus isSpace;
        Grp (Seq (Opt (Chr "-")) (Plus isDigit))].
Definition reNodes : re := seqs [WordB; Lit "nodes"; Plus isSpace; Grp (Plus isDigit)].
Definition rePv : re := seqs [WordB; Lit "pv"; Plus isSpace; Grp (Plus isDot); Eol].
Definition reMultipv : re := seqs [WordB; Lit "multipv"; Plus isSpace; Grp (Plus isDigit)].
(** [/^[a-h][1-8][a-h][1-8][qrbn]?$/] *)
Definition reLan : re :=
  seqs [Bol; Cls (oneOf "abcdefgh"); Cls (oneOf "12345678");
        Cls (oneOf "abcdefgh"); Cls (oneOf "12345678");
        Opt (Cls (oneOf "qrbn")); Eol].

Definition capturedInt (r : re) (line : string) : option Z :=
  match exec r line with
  | Some caps => Some (parseInt (group1 caps))
  | None => None
  end.

Definition parseInfoLine (line : string) : option (Evaluation * Z) :=
  match capturedInt reDepth line with
  | None => None
  | Some d =>
      if test reBound line then None
      else
        let cpMatch := capturedInt reCp line in
        let mateMatch := capturedInt reMate line in
        let nodesMatch := capturedInt reNodes line in
        let pvMatch := exec rePv line in
        let multipvMatch := capturedInt reMultipv line in
        let evaluation :=
          {| cp := cpMatch; mate := mateMatch; depth := d; nodes := nodesMatch;
             bestMove :=
               match pvMatch with
               | Some caps =>
                   let first := string_of_list_ascii (firstToken (trim (group1 caps))) in
                   if negb (String.eqb first "") && test reLan first
                   then Some first else None
               | None => None
               end;
             pv :=
               match pvMatch with
               | Some caps => Some (string_of_list_ascii (trim (group1 caps)))
               | None => None
               end |} in
        let pvIndex := match multipvMatch with Some i => i | None => 1 end in
        Some (evaluation, pvIndex)
  end.

(** *** handleMessage *)

(** [results.get(i) ?? { depth: 0 }] *)
Definition lineOrDefault (res : gmap Z Evaluation) (i : Z) : Evaluation :=
  match res !! i with Some ev => ev | None => depthOnly 0 end.

(** The indices [1 .. multiPv] of the [for] loops. *)
Definition lineIndices (multiPv : Z) : list Z :=
  map Z.of_nat (seq 1 (Z.to_nat multiPv)).

(** A string is truthy when it is defined and not empty. *)
Definition truthyStr (o : option string) : bool :=
  match o with Some s => negb (String.eqb s "") | None => false end.

Definition withBestMove (mv : option string) (ev : Evaluation) : Evaluation :=
  {| cp := cp ev; mate := mate ev; depth := depth ev; nodes := nodes ev;
     bestMove := if truthyStr (bestMove ev) then bestMove ev else mv;
     pv := pv ev |}.

(** The evaluations a [bestmove] line resolves the request with. *)
Definition finalResults (p : PendingAnalysis) (mv : option string) : list Evaluation :=
  map (fun i =>
         let ev := lineOrDefault (results p) i in
         if (i =? 1) && truthyStr mv
            && negb (String.eqb (default "" mv) "(none)")
         then withBestMove mv ev else ev)
      (lineIndices (multiPv p)).

Definition storeInfo (line : string) (p : PendingAnalysis) : PendingAnalysis :=
  match parseInfoLine line with
  | Some (ev, pvIdx) =>
      match results p !! pvIdx with
      | Some existing =>
          if depth existing <=? depth ev
          then {| results := <[pvIdx := ev]> (results p);
                  multiPv := multiPv p; timeoutId := timeoutId p |}
          else p
      | None =>
          {| results := <[pvIdx := ev]> (results p);
             multiPv := multiPv p; timeoutId := timeoutId p |}
      end
  | None => p
  end.

Definition handleMessage (line : string) (st : Engine) : Engine :=
  if String.eqb line "uciok" then
    post "isready" (post "setoption name Hash value 32" st)
  else if String.eqb line "readyok" then
    if resolveReady st then emit ReadyResolved (markReady st) else markReady st
  else
    match pending st with
    | Some p =>
        if startsWith line "info " then setPending (Some (storeInfo line p)) st
        else if startsWith line "bestmove" then
          let mv := option_map string_of_list_ascii
                      (secondField (list_ascii_of_string line)) in
          setPending None
            (emit (Resolved (timeoutId p) (finalResults p mv))
               (clearTimeout (timeoutId p) st))
        else st
    | None => st
    end.

(** *** analyzePosition, its timeout, quit and onerror *)

Definition showZ (n : Z) : string := DecimalString.NilZero.string_of_int (Z.to_int n).

(** [resolve] or [reject] of the timed-out request, on the assembled lines. *)
Definition hasScore (ev : Evaluation) : bool :=
  match cp ev, mate ev with
  | None, None => false
  | _, _ => true
  end.

Definition bestEffort (res : gmap Z Evaluation) (multiPv : Z) : list Evaluation :=
  map (lineOrDefault res) (lineIndices multiPv).

(** The callback given to [setTimeout], run when timer [id] expires.  A
    cleared timer never runs its callback. *)
Definition fireTimeout (id : nat) (st : Engine) : Engine :=
  match timers st !! id with
  | None => st
  | Some t =>
      let st := clearTimeout id st in
      match pending st with
      | None => st
      | Some p =>
          let st := post "stop" st in
          let evs := bestEffort (results p) (closureMultiPv t) in
          let st := setPending None st in
          match evs with
          | ev :: _ =>
              if hasScore ev then emit (Resolved id evs) st
              else emit (Rejected id Timeout) st
          | [] => emit (Rejected id Timeout) st
          end
      end
  end.

Inductive callOutcome :=
| Started (request : nat) (st : Engine)
| Threw (reason : string)
| AwaitingReady.

(** [analyzePosition] as one step: the call together with its continuation
    after [await this.readyPromise], for a call on a ready adapter whose
    caller does nothing else before the continuation runs.  A call made
    before [readyok] is only marked as suspended ([AwaitingReady]); what
    becomes of it, and of a call whose caller goes on before the
    continuation runs, is modelled in [Async] below. *)
Definition analyzePosition (fen : string) (options : AnalyzeOptions) (st : Engine)
  : callOutcome :=
  if negb (worker st) then Threw Unavailable
  else
    let depth := default 18 (optDepth options) in
    let timeoutMs := default 8000 (optTimeoutMs options) in
    let moveTimeMs := optMoveTimeMs options in
    let multiPv := default 1 (optMultiPv options) in
    if negb (ready st) then AwaitingReady
    else
      let st := post "stop" st in
      let st :=
        match pending st with
        | Some p =>
            setPending None
              (emit (Rejected (timeoutId p) Cancelled)
                 (clearTimeout (timeoutId p) st))
        | None => st
        end in
      let '(id, st) := setTimeout {| delay := timeoutMs; closureMultiPv := multiPv |} st in
      let st :=
        setPending (Some {| results := ∅; multiPv := multiPv; timeoutId := id |}) st in
      let st := post ("setoption name MultiPV value " ++ showZ multiPv) st in
      let st := post ("position fen " ++ fen) st in
      let st :=
        post (match moveTimeMs with
              | Some ms => if ms =? 0 then "go depth " ++ showZ depth
                           else "go movetime " ++ showZ ms
              | None => "go depth " ++ showZ depth
              end) st in
      Started id st.

Definition rejectPending (reason : string) (st : Engine) : Engine :=
  match pending st with
  | Some p =>
      setPending None
        (emit (Rejected (timeoutId p) reason) (clearTimeout (timeoutId p) st))
  | None => st
  end.

(** [worker.onerror] *)
Definition onerror (error : string) (st : Engine) : Engine :=
  rejectPending error st.

Definition quit (st : Engine) : Engine :=
  let st := rejectPending EngineTerminated st in
  let st := post "quit" st in
  let st := if worker st then emit Terminated st else st in
  dropWorker st.

(** The character before the position reached after [pre]. *)
Definition lastBefore (prev : option ascii) (pre : list ascii) : option ascii :=
  fold_left (fun _ c => Some c) pre prev.

(** [line] contains [word] as a word of its own: delimited on each side by
    an end of the line or by a character that is not a word character. *)
Definition containsWord (word line : string) : Prop :=
  exists pre post,
    list_ascii_of_string line = (pre ++ list_ascii_of_string word ++ post)%list /\
    wordOpt (lastBefore None pre) = false /\
    wordOpt (head post) = false.

(** The events that drive the adapter, and a run over a list of them.  In
    a run every call is one step; the runs in which calls and their
    continuations are apart are those of [Async]. *)
Inductive Event :=
| Line (line : string)
| Analyze (fen : string) (options : AnalyzeOptions)
| TimerExpired (id : nat)
| WorkerError (error : string)
| Quit.

Definition step (st : Engine) (e : Event) : Engine :=
  match e with
  | Line line => handleMessage line st
  | Analyze fen options =>
      match analyzePosition fen options st with
      | Started _ st' => st'
      | _ => st
      end
  | TimerExpired id => fireTimeout id st
  | WorkerError error => onerror error st
  | Quit => quit st
  end.

Definition runEvents (es : list Event) (st : Engine) : Engine := fold_left step es st.

(** Feeding worker lines only. *)
Definition feed (lines : list string) (st : Engine) : Engine :=
  fold_left (fun s line => handleMessage line s) lines st.

(** The invariant of reachable states: the only armed timer is the pending
    request's, it closes over that request's [multiPv], and a request is
    pending only on a ready engine with a worker. *)
Definition wf (st : Engine) : Prop :=
  match pending st with
  | Some p =>
      worker st = true /\ ready st = true /\
      (timeoutId p < nextTimer st)%nat /\
      exists ms, timers st = {[ timeoutId p := {| delay := ms; closureMultiPv := multiPv p |} ]}
  | None => timers st = ∅
  end.

End Stockfish.

(** ** A stand-in for chess.js on a few positions

    Closed examples need a concrete [ChessApi].  [Sample.api] knows the
    positions listed in [Sample.known]: the board is read off the placement
    field of the FEN, the legal moves are tabulated, and a position is over
    when it has no legal move.  Every other string is rejected, as an
    ill-formed FEN is by [new Chess]. *)

Module Sample.

Definition pieceOfChar (c : ascii) : option Piece :=
  let mk t col := Some {| ptype := t; pcolor := col |} in
  if Ascii.eqb c "p" then mk p_ b else if Ascii.eqb c "n" then mk n_ b
  else if Ascii.eqb c "b" then mk b_ b else if Ascii.eqb c "r" then mk r_ b
  else if Ascii.eqb c "q" then mk q_ b else if Ascii.eqb c "k" then mk k_ b
  else if Ascii.eqb c "P" then mk p_ w else if Ascii.eqb c "N" then mk n_ w
  else if Ascii.eqb c "B" then mk b_ w else if Ascii.eqb c "R" then mk r_ w
  else if Ascii.eqb c "Q" then mk q_ w else if Ascii.eqb c "K" then mk k_ w
  else None.

Fixpoint parseRank (cs : list ascii) : option (list (option Piece)) :=
  match cs with
  | [] => Some []
  | c :: cs' =>
      match parseRank cs' with
      | None => None
      | Some rest =>
          if Regex.between 49 56 c
          then Some (repeat None (Regex.code c - 48) ++ rest)%list
          else match pieceOfChar c with
               | Some piece => Some (Some piece :: rest)
               | None => None
               end
      end
  end.

(** Splits the placement field (up to the first space) at the slashes. *)
Fixpoint ranks (cs : list ascii) (cur : list ascii) : list (list ascii) :=
  match cs with
  | [] => [rev cur]
  | c :: cs' =>
      if Ascii.eqb c " " then [rev cur]
      else if Ascii.eqb c "/" then rev cur :: ranks cs' []
      else ranks cs' (c :: cur)
  end.

Fixpoint parseRanks (rs : list (list ascii)) : option (list (list (option Piece))) :=
  match rs with
  | [] => Some []
  | r :: rs' =>
      match parseRank r, parseRanks rs' with
      | Some row, Some rows =>
          if (length row =? 8)%nat then Some (row :: rows) else None
      | _, _ => None
      end
  end.

Definition parsePlacement (fen : string) : option (list (list (option Piece))) :=
  match parseRanks (ranks (list_ascii_of_string fen) []) with
  | Some rows => if (length rows =? 8)%nat then Some rows else None
  | None => None
  end.

Record Game := mkGame {
  gboard : list (list (option Piece));
  gmoves : list string
}.

(** After 1. e4 e5, White to move. *)
Definition fenOpen : string :=
  "rnbqkbnr/pppp1ppp/8/4p3/4P3/8/PPPP1PPP/RNBQKBNR w KQkq - 0 2".
(** The same position once White's king bishop has gone to a6 and been
    taken by the b-pawn. *)
Definition fenBishopGone : string :=
  "rnbqkbnr/p1pp1ppp/p7/4p3/4P3/8/PPPP1PPP/RNBQK1NR w KQkq - 0 3".
(** Before and after 2... Qh4 mate. *)
Definition fenBeforeMate : string :=
  "rnbqkbnr/pppp1ppp/8/4p3/6P1/5P2/PPPPP2P/RNBQKBNR b KQkq - 0 2".
Definition fenMated : string :=
  "rnb1kbnr/pppp1ppp/8/4p3/6Pq/5P2/PPPPP2P/RNBQKBNR w KQkq - 1 3".
(** Before and after a queen move that stalemates Black. *)
Definition fenBeforeStalemate : string := "7k/5K2/8/8/8/8/8/6Q1 w - - 0 1".
Definition fenStalemate : string := "7k/5K2/6Q1/8/8/8/8/8 b - - 1 1".
(** White's king has the single move Ka2. *)
Definition fenOnlyMove : string := "1r5k/8/8/8/8/8/8/K7 w - - 0 1".
Definition fenAfterOnlyMove : string := "1r5k/8/8/8/8/8/K7/8 b - - 1 1".
(** An endgame at move 40 with White to move, and the position right after
    40. Ba6: the bishop stands on a6, where the b-pawn can take it. *)
Definition fenEndgame : string := "6k1/1p4pp/8/8/8/8/6PP/5BK1 w - - 0 40".
Definition fenBishopEnPrise : string := "6k1/1p4pp/B7/8/8/8/6PP/6K1 b - - 1 40".

Definition pawnMoves14 : list string :=
  ["a3"; "a4"; "b3"; "b4"; "c3"; "c4"; "d3"; "d4";
   "f3"; "f4"; "g3"; "g4"; "h3"; "h4"].

Definition known : list (string * list string) :=
  [ (fenOpen,
     pawnMoves14 ++ ["Nf3"; "Nh3"; "Ne2"; "Na3"; "Nc3"; "Be2"; "Bd3"; "Bc4";
                     "Bb5"; "Ba6"; "Qe2"; "Qf3"; "Qg4"; "Qh5"; "Ke2"]);
    (fenBishopGone,
     pawnMoves14 ++ ["Nf3"; "Nh3"; "Ne2"; "Na3"; "Nc3";
                     "Qe2"; "Qf3"; "Qg4"; "Qh5"; "Ke2"; "Kf1"]);
    (fenBeforeMate,
     ["a6"; "a5"; "b6"; "b5"; "c6"; "c5"; "d6"; "d5"; "e4"; "f6"; "f5"; "g6";
      "g5"; "h6"; "h5"; "Na6"; "Nc6"; "Nf6"; "Nh6"; "Ne7"; "Be7"; "Bd6"; "Bc5";
      "Bb4"; "Ba3"; "Qe7"; "Qf6"; "Qg5"; "Qh4#"; "Ke7"]);
    (fenMated, []);
    (fenBeforeStalemate,
     ["Qa1+"; "Qb1"; "Qc1"; "Qd1"; "Qe1"; "Qf1"; "Qh1+"; "Qg2"; "Qg3"; "Qg4";
      "Qg5"; "Qg6"; "Qg7#"; "Qg8#"; "Qh2+"; "Qf2"; "Qe3"; "Qd4+"; "Qc5";
      "Qb6"; "Qa7"; "Ke6"; "Ke7"; "Ke8"; "Kf6"; "Kf8"; "Kg6"]);
    (fenStalemate, []);
    (fenOnlyMove, ["Ka2"]);
    (fenAfterOnlyMove,
     ["Ra8"; "Rc8"; "Rd8"; "Re8"; "Rf8"; "Rg8"; "Rb7"; "Rb6"; "Rb5"; "Rb4";
      "Rb3"; "Rb2+"; "Rb1"; "Kg8"; "Kg7"; "Kh7"]);
    (fenEndgame,
     ["g3"; "g4"; "h3"; "h4"; "Be2"; "Bd3"; "Bc4+"; "Bb5"; "Ba6"; "Kf2"; "Kh1"]);
    (fenBishopEnPrise,
     ["b6"; "b5"; "bxa6"; "g6"; "g5"; "h6"; "h5"; "Kf8"; "Kf7"; "Kh8"]) ]%list.

Fixpoint assoc (fen : string) (table : list (string * list string))
  : option (list string) :=
  match table with
  | [] => None
  | (key, ms) :: table' => if String.eqb key fen then Some ms else assoc fen table'
  end.

Definition newGame (fen : string) : option Game :=
  match assoc fen known, parsePlacement fen with
  | Some ms, Some rows => Some {| gboard := rows; gmoves := ms |}
  | _, _ => None
  end.

Definition over (g : Game) : bool :=
  match gmoves g with [] => true | _ :: _ => false end.

Definition over_no_moves (g : Game) : gmoves g = [] -> over g = true.
Proof. unfold over. intros ->. reflexivity. Defined.

Definition api : ChessApi :=
  {| Chess := Game; newChess := newGame; board := gboard; moves := gmoves;
     isGameOver := over; isGameOver_no_moves := over_no_moves |}.

End Sample.

(** ** What the statements speak about, and example inputs *)

Import Analysis Regex Stockfish.

(** The quantities the statements below speak about, named as the locals of
    [classifyMove]. *)
Definition scoreBeforeMover (params : Params) : Z :=
  evalToCpFromTurnPerspective (evalBefore params).

Definition scoreAfterMover (params : Params) : Z :=
  - evalToCpFromTurnPerspective (evalAfter params).

Definition isBestMove (params : Params) : bool :=
  String.eqb (lan (move params)) (bestMoveLan params).

Definition netSacrifice (mover : Color) (beforeMaterial afterMaterial : Material) : Z :=
  (pick mover beforeMaterial - pick mover afterMaterial)
  - (pick (other mover) beforeMaterial - pick (other mover) afterMaterial).

(** The move ends the game: the two early returns of [classifyMove]. *)
Definition endsGame (api : ChessApi) (m : ParsedMove) : bool :=
  endsWith (san m) "#"
  || match newChess api (fenAfter m) with
     | Some after => isGameOver api after
     | None => false
     end.

(** A [ParsedMove] as [parsePgnMoves] builds it: its two positions are FEN
    strings printed by chess.js, which [new Chess] accepts. *)
Definition validMove (api : ChessApi) (m : ParsedMove) : Prop :=
  is_Some (newChess api (fenBefore m)) /\ is_Some (newChess api (fenAfter m)).

Definition goodOrBetter (c : MoveClassification) : bool :=
  match c with
  | brilliant | great | best | excellent | good => true
  | _ => false
  end.

Definition tenLabels : list MoveClassification :=
  [brilliant; great; best; excellent; good; book; inaccuracy; mistake; blunder; forced].

(** The call of [classifyMove] in pass 2 of [analyzeGame]. *)
Definition pass2Verdict (api : ChessApi) (m : ParsedMove)
  (evBefore evAfterMove : Evaluation) (openingPlyLimit : Z)
  (secondBest : option Evaluation) : outcome Verdict :=
  classifyMove api
    {| move := m; evalBefore := evBefore; evalAfter := evAfterMove;
       bestMoveLan := default "" (bestMove evBefore);
       openingPlyLimit := openingPlyLimit; secondBestEval := secondBest;
       isOnlyLegalMove := Some (onlyLegalMove api m) |}.

(** Example inputs. *)
Definition cpEval (c d : Z) : Evaluation :=
  {| cp := Some c; mate := None; depth := d; nodes := None;
     bestMove := None; pv := None |}.

(** White's bishop goes to a6 and is taken.  A stand-in input of
    [classifyMove]: [fenAfter] shows the board two plies later, once the
    bishop is gone.  [parsePgnMoves] never builds such a move, since between
    the positions just before and just after a move the mover's own material
    does not drop; [bishopSacrifice] below is the move as it records it. *)
Definition bishopMove : ParsedMove :=
  {| index := 2; ply := 3; san := "Ba6"; lan := "f1a6";
     fenBefore := Sample.fenOpen; fenAfter := Sample.fenBishopGone; turn := w |}.

(** Score 120 before and 40 after for the mover. *)
Definition sacrifice_120_40 : Params :=
  {| move := bishopMove; evalBefore := cpEval 120 18; evalAfter := cpEval (-40) 18;
     bestMoveLan := "f1a6"; openingPlyLimit := 10; secondBestEval := None;
     isOnlyLegalMove := Some false |}.

(** Score 120 before and 115 after, in the opening and past it. *)
Definition sacrifice_120_115 (limit : Z) : Params :=
  {| move := bishopMove; evalBefore := cpEval 120 18; evalAfter := cpEval (-115) 18;
     bestMoveLan := "f1a6"; openingPlyLimit := limit; secondBestEval := None;
     isOnlyLegalMove := Some false |}.

(** A bishop sacrifice as [parsePgnMoves] records it: at move 40 White's
    bishop goes from f1 to a6 and is left en prise.  [fenAfter] is the
    position right after the move, the bishop still on the board. *)
Definition bishopSacrifice : ParsedMove :=
  {| index := 78; ply := 79; san := "Ba6"; lan := "f1a6";
     fenBefore := Sample.fenEndgame; fenAfter := Sample.fenBishopEnPrise;
     turn := w |}.

(** The sacrifice as the preferred move, past the opening limit and not
    forced, with score 120 before and 115 after for the mover, and with
    score 120 before and 40 after. *)
Definition enPrise_120_115 : Params :=
  {| move := bishopSacrifice; evalBefore := cpEval 120 18;
     evalAfter := cpEval (-115) 18; bestMoveLan := "f1a6"; openingPlyLimit := 12;
     secondBestEval := None; isOnlyLegalMove := Some false |}.

Definition enPrise_120_40 : Params :=
  {| move := bishopSacrifice; evalBefore := cpEval 120 18;
     evalAfter := cpEval (-40) 18; bestMoveLan := "f1a6"; openingPlyLimit := 12;
     secondBestEval := None; isOnlyLegalMove := Some false |}.

Definition mateMove : ParsedMove :=
  {| index := 3; ply := 4; san := "Qh4#"; lan := "d8h4";
     fenBefore := Sample.fenBeforeMate; fenAfter := Sample.fenMated; turn := b |}.

(** The mating move, with evaluations that would make it a blunder and a
    different preferred move. *)
Definition mateParams : Params :=
  {| move := mateMove; evalBefore := cpEval 500 18; evalAfter := cpEval 700 18;
     bestMoveLan := "b8c6"; openingPlyLimit := 10; secondBestEval := None;
     isOnlyLegalMove := Some false |}.

Definition stalemateMove : ParsedMove :=
  {| index := 80; ply := 81; san := "Qg6"; lan := "g1g6";
     fenBefore := Sample.fenBeforeStalemate; fenAfter := Sample.fenStalemate;
     turn := w |}.

Definition onlyMove : ParsedMove :=
  {| index := 90; ply := 91; san := "Ka2"; lan := "a1a2";
     fenBefore := Sample.fenOnlyMove; fenAfter := Sample.fenAfterOnlyMove;
     turn := w |}.

(** A stalemating move that throws away a won game, is not the preferred
    move and is flagged as forced. *)
Definition stalemateParams : Params :=
  {| move := stalemateMove; evalBefore := cpEval 9000 18; evalAfter := cpEval 0 18;
     bestMoveLan := "g1g7"; openingPlyLimit := 10; secondBestEval := None;
     isOnlyLegalMove := Some true |}.

Definition quietParams : Params :=
  {| move := bishopMove; evalBefore := cpEval 30 18; evalAfter := cpEval (-20) 18;
     bestMoveLan := "g1f3"; openingPlyLimit := 2; secondBestEval := None;
     isOnlyLegalMove := Some false |}.

Definition onlyMoveParams : Params :=
  {| move := onlyMove; evalBefore := cpEval (-300) 18; evalAfter := cpEval 900 18;
     bestMoveLan := "a1a2"; openingPlyLimit := 10; secondBestEval := None;
     isOnlyLegalMove := Some true |}.

Definition loss10Params : Params :=
  {| move := bishopMove; evalBefore := cpEval 35 18; evalAfter := cpEval (-25) 18;
     bestMoveLan := "g1f3"; openingPlyLimit := 2; secondBestEval := None;
     isOnlyLegalMove := Some false |}.

(** Example adapter states: a ready engine, then a request for two lines
    with one progress line retained at depth 12. *)
Definition readyEngine : Engine := feed ["uciok"; "readyok"] newEngine.

Definition twoLines : AnalyzeOptions :=
  {| optDepth := Some 14; optMoveTimeMs := None; optTimeoutMs := Some 5000;
     optMultiPv := Some 2 |}.

Definition searching : Engine :=
  runEvents [Analyze Sample.fenOpen twoLines;
             Line "info depth 12 seldepth 16 multipv 1 score cp 35 nodes 4100 pv g1f3 b8c6"]
    readyEngine.

Definition retained12 : PendingAnalysis :=
  {| results :=
       {[ 1 := {| cp := Some 35; mate := None; depth := 12; nodes := Some 4100;
                  bestMove := Some "g1f3"; pv := Some "g1f3 b8c6" |} ]};
     multiPv := 2; timeoutId := 0%nat |}.

(** ** Further code of src/lib/analysis.ts *)

(** [countLegalMoves], with its fallback. *)
Definition countLegalMoves (api : ChessApi) (fen : string) : Z :=
  match newChess api fen with
  | Some g => Z.of_nat (length (moves api g))
  | None => 20
  end.

(** The ladder of [classifyMove] read as thresholds on the loss alone: the
    tests on the win-chance loss and the downgrade of a blunder left out. *)
Definition ladderByLoss (cpl scoreBefore : Z) (isBest : bool) : MoveClassification :=
  if 250 <? cpl then blunder
  else if 100 <? cpl then
    if (scoreBefore <? -400) && (cpl <=? 150) then inaccuracy else mistake
  else if 30 <? cpl then inaccuracy
  else if 10 <? cpl then good
  else if 0 <? cpl then excellent
  else if isBest then best else excellent.

(** The value of what stands on a square, counted for one colour. *)
Definition valueFor (c : Color) (sq : option Piece) : Z :=
  match sq with
  | Some piece =>
      match c, pcolor piece with
      | w, w | b, b => PIECE_VALUE (ptype piece)
      | _, _ => 0
      end
  | None => 0
  end.

Definition sumZ (l : list Z) : Z := fold_right Z.add 0 l.

(** The centipawn loss [classifyMove] reports on its non-terminal,
    non-forced paths. *)
Definition lossOf (params : Params) : Z :=
  Z.max 0 (scoreBeforeMover params - scoreAfterMover params).

(** The condition of the brilliant override, on the two material counts. *)
Definition brilliantCondition (params : Params) (beforeMaterial afterMaterial : Material)
  : bool :=
  isBestMove params
  && (2 <=? netSacrifice (turn (move params)) beforeMaterial afterMaterial)
  && (lossOf params <=? 15)
  && (scoreBeforeMover params <? 600) && (-300 <? scoreBeforeMover params)
  && (-50 <? scoreAfterMover params).

(** The condition of the great override (when the move is not brilliant). *)
Definition greatCondition (params : Params) : bool :=
  isBestMove params && (lossOf params <=? 10)
  && match secondBestEval params with
     | Some sbe =>
         (150 <=? - evalToCpFromTurnPerspective sbe - scoreAfterMover params)
         && (-200 <? scoreBeforeMover params)
     | None => false
     end.


(** The verdict of [classifyMove] as a decision table on the loss, the
    scores and the flags, without the win chance. *)
Definition verdictTable (api : ChessApi) (params : Params)
  (beforeMaterial afterMaterial : Material) : Verdict :=
  if endsGame api (move params) then
    {| classification := best; centipawnLoss := 0 |}
  else if truthy (isOnlyLegalMove params) then
    {| classification := forced; centipawnLoss := 0 |}
  else if (ply (move params) <=? openingPlyLimit params) && (lossOf params <=? 25) then
    {| classification := book; centipawnLoss := lossOf params |}
  else
    {| classification :=
         if brilliantCondition params beforeMaterial afterMaterial then brilliant
         else if greatCondition params then great
         else if isBestMove params && (lossOf params <=? 10) then best
         else ladderByLoss (lossOf params) (scoreBeforeMover params) (isBestMove params);
       centipawnLoss := lossOf params |}.


(** ** What the adapter statements speak about *)

(** Effect [e] settles (resolves or rejects) the promise of request [id]. *)
Definition settles (id : nat) (e : Effect) : bool :=
  match e with
  | Resolved request _ | Rejected request _ => (request =? id)%nat
  | _ => false
  end.

Definition settledCount (id : nat) (effs : list Effect) : nat :=
  length (List.filter (settles id) effs).

(** The invariant behind single settlement: no promise is settled twice,
    and neither the pending request nor a request yet to come is settled. *)
Definition settledOnce (st : Engine) : Prop :=
  (forall id, (settledCount id (effects st) <= 1)%nat) /\
  (forall id, (nextTimer st <= id)%nat -> settledCount id (effects st) = 0%nat) /\
  (forall p, pending st = Some p -> settledCount (timeoutId p) (effects st) = 0%nat).

Definition isReadyResolved (e : Effect) : bool :=
  match e with ReadyResolved => true | _ => false end.

Definition isLine (line : string) (e : Event) : bool :=
  match e with Line l => String.eqb l line | _ => false end.


(** A regular expression without capturing group. *)
Fixpoint noGroup (r : re) : bool :=
  match r with
  | Grp _ => false
  | Opt r1 => noGroup r1
  | Seq r1 r2 | Alt r1 r2 => noGroup r1 && noGroup r2
  | _ => true
  end.

(** The principal variation [p] starts with the move [mv]: after [mv] it
    ends or goes on with white space. *)
Definition startsWithMove (p mv : string) : Prop :=
  exists rest, p = mv ++ rest /\
    (rest = "" \/ exists c rest', rest = String c rest' /\ isSpace c = true).

(** What holds of an evaluation parsed from an info line and of the index
    it is retained at: index, depth and node count are not negative; a best
    move is in long algebraic form and is the first move of the principal
    variation, which is then present. *)
Definition wellFormedLine (i : Z) (ev : Evaluation) : Prop :=
  0 <= i /\ 0 <= depth ev /\
  (forall n, nodes ev = Some n -> 0 <= n) /\
  (forall mv, bestMove ev = Some mv -> test reLan mv = true) /\
  (is_Some (bestMove ev) -> is_Some (pv ev)) /\
  (forall mv, bestMove ev = Some mv ->
     exists p, pv ev = Some p /\ startsWithMove p mv).


Definition readyCount (effs : list Effect) : nat :=
  length (List.filter isReadyResolved effs).


(** The continuation with which [search] starts a match: accept, and return
    the captures. *)
Definition k0 : @cont (list (list ascii)) := fun _ _ caps => Some caps.

(** ** The analysis hook (src/hooks/useStockfish.ts)

    [analyzeGame] awaits the adapter's [analyzePosition] one call at a time
    and reports through React state setters.  The adapter and the worker
    behind it are an oracle [engine]: the answer to the [n]-th call, either
    the list the promise resolves with or the error it rejects with.  The
    calls the hook makes, on the adapter and on the setters, are recorded in
    order; [try]/[catch] and [try]/[finally] are combinators of a monad of
    state and exceptions.  [undefined] array elements are [None], and a
    property read off [undefined] throws [TypeError]. *)

Module Hook.

Record AnalysisMap := mkAnalysisMap {
  evaluations : gmap Z Evaluation;
  classifications : gmap Z MoveClassification;
  bestMoves : gmap Z string;
  centipawnLoss : gmap Z Z;
  winChances : gmap Z R
}.

Definition emptyAnalysis : AnalysisMap :=
  {| evaluations := ∅; classifications := ∅; bestMoves := ∅;
     centipawnLoss := ∅; winChances := ∅ |}.

Inductive Call :=
| SetIsAnalyzing (value : bool)
| SetProgress (value : R)
| SetAnalysis (value : AnalysisMap)
| AnalyzePosition (fen : string) (options : AnalyzeOptions).

Record Run := mkRun {
  requests : nat;
  calls : list Call
}.

Definition TypeError : string := "TypeError".

Definition M (A : Type) : Type := Run -> outcome A * Run.

Definition ret {A : Type} (a : A) : M A := fun s => (Ok a, s).

Definition throw {A : Type} (msg : string) : M A := fun s => (Throw msg, s).

Definition bind {A B : Type} (m : M A) (f : A -> M B) : M B :=
  fun s =>
    match m s with
    | (Ok a, s') => f a s'
    | (Throw e, s') => (Throw e, s')
    end.

(** [try { m } catch { h }] *)
Definition catch {A : Type} (m : M A) (h : M A) : M A :=
  fun s =>
    match m s with
    | (Ok a, s') => (Ok a, s')
    | (Throw _, s') => h s'
    end.

(** [try { m } finally { f }] *)
Definition finally {A : Type} (m : M A) (f : M unit) : M A :=
  fun s =>
    match m s with
    | (r, s') =>
        match f s' with
        | (Ok _, s'') => (r, s'')
        | (Throw e, s'') => (Throw e, s'')
        end
    end.

Notation "'let!' x ':=' m 'in' k" := (bind m (fun x => k))
  (at level 10, x name, m at level 100, k at level 200).

Definition call (c : Call) : M unit :=
  fun s => (Ok tt, {| requests := requests s; calls := calls s ++ [c] |}).

(** A call of a function that may throw. *)
Definition lift {A : Type} (r : outcome A) : M A := fun s => (r, s).

(** The options of the two kinds of request. *)
Definition firstPass : AnalyzeOptions :=
  {| optDepth := Some 18; optMoveTimeMs := None; optTimeoutMs := Some 8000;
     optMultiPv := Some 1 |}.

Definition secondPass : AnalyzeOptions :=
  {| optDepth := Some 14; optMoveTimeMs := None; optTimeoutMs := Some 5000;
     optMultiPv := Some 2 |}.

Section WithEngine.

Variable api : ChessApi.
Variable engine : nat -> string -> AnalyzeOptions -> outcome (list Evaluation).

(** [await engineRef.current.analyzePosition(fen, options)] *)
Definition request (fen : string) (options : AnalyzeOptions) : M (list Evaluation) :=
  fun s =>
    (engine (requests s) fen options,
     {| requests := S (requests s);
        calls := calls s ++ [AnalyzePosition fen options] |}).

(** Pass 1, from move [i] on; the two arrays grow by [push]. *)
Fixpoint pass1 (totalSteps : Z) (i : Z) (moves : list ParsedMove)
  (positionEvals afterEvals : list (option Evaluation))
  : M (list (option Evaluation) * list (option Evaluation)) :=
  match moves with
  | [] => ret (positionEvals, afterEvals)
  | move :: rest =>
      let! beforeResults := request (fenBefore move) firstPass in
      let positionEvals := (positionEvals ++ [beforeResults !! 0%nat])%list in
      let! afterResults := request (fenAfter move) firstPass in
      let afterEvals := (afterEvals ++ [afterResults !! 0%nat])%list in
      let! _ := call (SetProgress (IZR (i * 2 + 2) / IZR totalSteps * 100)) in
      pass1 totalSteps (i + 1) rest positionEvals afterEvals
  end.

(** The quick two-line request of pass 2; its failure is swallowed. *)
Definition secondBest (move : ParsedMove) (bestMove : string) : M (option Evaluation) :=
  if String.eqb (lan move) bestMove then
    catch
      (let! mpvResults := request (fenBefore move) secondPass in
       ret match mpvResults !! 1%nat with
           | Some ev => if hasScore ev then Some ev else None
           | None => None
           end)
      (ret None)
  else ret None.

(** The white-perspective score after the move. *)
Definition whiteCp (move : ParsedMove) (evalAfterMove : Evaluation) : Z :=
  let cpAfter := evalToCpFromTurnPerspective evalAfterMove in
  match turn move with w => - cpAfter | b => cpAfter end.

(** The five assignments at key [move.index]. *)
Definition record (move : ParsedMove) (evalAfterMove : Evaluation) (bestMove : string)
  (verdict : Verdict) (maps : AnalysisMap) : AnalysisMap :=
  {| evaluations := <[index move := evalAfterMove]> (evaluations maps);
     classifications := <[index move := classification verdict]> (classifications maps);
     bestMoves := <[index move := bestMove]> (bestMoves maps);
     centipawnLoss := <[index move := Analysis.centipawnLoss verdict]> (centipawnLoss maps);
     winChances :=
       <[index move := winChance (IZR (whiteCp move evalAfterMove))]> (winChances maps) |}.

(** Pass 2, from move [i] on; [maps] are the five local records. *)
Fixpoint pass2 (openingPlyLimit : Z) (i : nat) (moves : list ParsedMove)
  (positionEvals afterEvals : list (option Evaluation)) (maps : AnalysisMap)
  : M AnalysisMap :=
  match moves with
  | [] => ret maps
  | move :: rest =>
      match mjoin (positionEvals !! i) with
      | None => throw TypeError
      | Some evalBefore =>
          let bestMove := default "" (bestMove evalBefore) in
          let isOnlyLegalMove := onlyLegalMove api move in
          let! secondBestEval := secondBest move bestMove in
          match mjoin (afterEvals !! i) with
          | None => throw TypeError
          | Some evalAfterMove =>
              let! verdict :=
                lift (classifyMove api
                        {| Analysis.move := move;
                           evalBefore := evalBefore;
                           evalAfter := evalAfterMove;
                           bestMoveLan := bestMove;
                           Analysis.openingPlyLimit := openingPlyLimit;
                           secondBestEval := secondBestEval;
                           isOnlyLegalMove := Some isOnlyLegalMove |}) in
              let maps := record move evalAfterMove bestMove verdict maps in
              let! _ := call (SetAnalysis maps) in
              pass2 openingPlyLimit (S i) rest positionEvals afterEvals maps
          end
      end
  end.

(** The [try] block of [analyzeGame]. *)
Definition bothPasses (moves : list ParsedMove) (openingPlyLimit : Z) : M unit :=
  let totalSteps := Z.of_nat (length moves) * 2 in
  let! evals := pass1 totalSteps 0 moves [] [] in
  let! _ := pass2 openingPlyLimit 0 moves (fst evals) (snd evals) emptyAnalysis in
  call (SetProgress 100).

(** [analyzeGame(moves, openingPlyLimit = 10)]; [engineRef] tells whether
    [engineRef.current] is set. *)
Definition analyzeGame (engineRef : bool) (moves : list ParsedMove)
  (openingPlyLimit : option Z) : M unit :=
  if negb engineRef || (length moves =? 0)%nat then ret tt
  else
    let! _ := call (SetIsAnalyzing true) in
    let! _ := call (SetProgress 0) in
    let! _ := call (SetAnalysis emptyAnalysis) in
    finally
      (bothPasses moves (default 10 openingPlyLimit))
      (call (SetIsAnalyzing false)).

Definition start : Run := {| requests := 0; calls := [] |}.

End WithEngine.

End Hook.


(** What a run of the hook shows: its engine requests, the maps it
    publishes, and the calls of pass 1. *)
Definition requestsOf (cs : list Hook.Call) : list (string * AnalyzeOptions) :=
  flat_map (fun c => match c with
                     | Hook.AnalyzePosition fen options => [(fen, options)]
                     | _ => []
                     end) cs.

Definition published (cs : list Hook.Call) : list Hook.AnalysisMap :=
  flat_map (fun c => match c with Hook.SetAnalysis a => [a] | _ => [] end) cs.

Fixpoint pass1Calls (totalSteps : Z) (i : Z) (moves : list ParsedMove) : list Hook.Call :=
  match moves with
  | [] => []
  | m :: rest =>
      Hook.AnalyzePosition (fenBefore m) Hook.firstPass
      :: Hook.AnalyzePosition (fenAfter m) Hook.firstPass
      :: Hook.SetProgress (IZR (i * 2 + 2) / IZR totalSteps * 100)
      :: pass1Calls totalSteps (i + 1) rest
  end.

(** A call made between the first and the last of a run. *)
Definition during (c : Hook.Call) : Prop :=
  match c with
  | Hook.SetIsAnalyzing _ => False
  | Hook.SetProgress p => (0 <= p <= 100)%R
  | _ => True
  end.

(** A computation of the hook only adds calls, none of them on
    [setIsAnalyzing], and counts its requests. *)
Definition appends {A : Type} (m : Hook.M A) : Prop :=
  forall s, exists l,
    Hook.calls (m s).2 = (Hook.calls s ++ l)%list /\ Forall during l /\
    Hook.requests (m s).2 = (Hook.requests s + length (requestsOf l))%nat.

(** The state in which the [try] block of [analyzeGame] starts. *)
Definition afterResets : Hook.Run :=
  {| Hook.requests := 0;
     Hook.calls := [Hook.SetIsAnalyzing true; Hook.SetProgress 0;
                    Hook.SetAnalysis Hook.emptyAnalysis] |}.

(** The moves, from move [i] on, that are the preferred move of the
    evaluation before them. *)
Fixpoint bestPlayed (before : nat -> Evaluation) (i : nat) (moves : list ParsedMove)
  : list ParsedMove :=
  match moves with
  | [] => []
  | m :: rest =>
      (if String.eqb (lan m) (default "" (bestMove (before i))) then [m] else [])
      ++ bestPlayed before (S i) rest
  end.

(** The second line of an answer, as pass 2 uses it. *)
Definition secondOf (answer : outcome (list Evaluation)) : option Evaluation :=
  match answer with
  | Ok l =>
      match l !! 1%nat with
      | Some ev => if hasScore ev then Some ev else None
      | None => None
      end
  | Throw _ => None
  end.

(** The five entries of move [m] in a published map. *)
Definition entryFor (api : ChessApi) (limit : Z) (m : ParsedMove)
  (evBefore evAfterMove : Evaluation) (secondBest : option Evaluation)
  (a : Hook.AnalysisMap) : Prop :=
  Hook.evaluations a !! index m = Some evAfterMove /\
  Hook.bestMoves a !! index m = Some (default "" (bestMove evBefore)) /\
  Hook.winChances a !! index m
  = Some (winChance (IZR (match turn m with
                          | w => - evalToCpFromTurnPerspective evAfterMove
                          | b => evalToCpFromTurnPerspective evAfterMove
                          end))) /\
  exists v,
    pass2Verdict api m evBefore evAfterMove limit secondBest = Ok v /\
    Hook.classifications a !! index m = Some (classification v) /\
    Hook.centipawnLoss a !! index m = Some (centipawnLoss v).

Definition sameAt (k : Z) (a a' : Hook.AnalysisMap) : Prop :=
  Hook.evaluations a !! k = Hook.evaluations a' !! k /\
  Hook.classifications a !! k = Hook.classifications a' !! k /\
  Hook.bestMoves a !! k = Hook.bestMoves a' !! k /\
  Hook.centipawnLoss a !! k = Hook.centipawnLoss a' !! k /\
  Hook.winChances a !! k = Hook.winChances a' !! k.

(** The answers of pass 1 are [before j] and [after j] for move [j]. *)
Definition firstPassAnswers (engine : nat -> string -> AnalyzeOptions -> outcome (list Evaluation))
  (before after : nat -> Evaluation) (moves : list ParsedMove) : Prop :=
  forall j m, moves !! j = Some m ->
    (exists l, engine (2 * j)%nat (fenBefore m) Hook.firstPass = Ok l /\
               l !! 0%nat = Some (before j)) /\
    (exists l, engine (2 * j + 1)%nat (fenAfter m) Hook.firstPass = Ok l /\
               l !! 0%nat = Some (after j)).


(** Example engines: one that answers every request with one line, and one
    that answers the first request and rejects the second. *)
Definition steadyEngine (n : nat) (fen : string) (options : AnalyzeOptions)
  : outcome (list Evaluation) :=
  if Nat.even n then Ok [cpEval 30 18] else Ok [cpEval (-20) 18].

Definition failingEngine (n : nat) (fen : string) (options : AnalyzeOptions)
  : outcome (list Evaluation) :=
  if (n <? 1)%nat then Ok [cpEval 30 18] else Throw Timeout.


(** ** [parsePgnMoves] (src/lib/analysis.ts)

    The part of chess.js the function uses: [loadPgn] followed by
    [history({ verbose: true })], which may throw, and a replay game with
    [fen], [turn] and [move], which throws on a move that is not legal. *)

Record VerboseMove := mkVerboseMove {
  vSan : string;
  vLan : string
}.

Record ChessReplay := mkChessReplay {
  Game : Type;
  initialGame : Game;
  loadPgn : string -> outcome (list VerboseMove);
  fen : Game -> string;
  turnOf : Game -> Color;
  play : Game -> VerboseMove -> outcome Game
}.

Section WithReplay.

Variable chess : ChessReplay.

(** The body of [verbose.forEach], from [index] on. *)
Fixpoint replayFrom (index : Z) (replay : Game chess) (verbose : list VerboseMove)
  (parsed : list ParsedMove) : outcome (list ParsedMove) :=
  match verbose with
  | [] => Ok parsed
  | move :: rest =>
      let fenBefore := fen chess replay in
      let turn := turnOf chess replay in
      match play chess replay move with
      | Throw e => Throw e
      | Ok replay =>
          replayFrom (index + 1) replay rest
            (parsed ++ [{| Analysis.index := index; ply := index + 1;
                           san := vSan move; lan := vLan move;
                           fenBefore := fenBefore; fenAfter := fen chess replay;
                           Analysis.turn := turn |}])
      end
  end.

Definition parsePgnMoves (pgn : string) : outcome (list ParsedMove) :=
  match loadPgn chess pgn with
  | Throw e => Throw e
  | Ok verbose => replayFrom 0 (initialGame chess) verbose []
  end.

End WithReplay.

(** An example replay: the bishop move from the opening position, the game
    being the number of moves played. *)
Definition sampleReplay : ChessReplay :=
  {| Game := nat;
     initialGame := 0%nat;
     loadPgn := fun pgn =>
       if String.eqb pgn "1. Ba6" then Ok [{| vSan := "Ba6"; vLan := "f1a6" |}]
       else Throw "Invalid PGN";
     fen := fun g => match g with O => Sample.fenOpen | _ => Sample.fenBishopGone end;
     turnOf := fun g => if Nat.even g then w else b;
     play := fun g _ => Ok (S g) |}.

(** The bishop move as the first move of a game. *)
Definition bishopMoveAt0 : ParsedMove :=
  {| index := 0; ply := 1; san := "Ba6"; lan := "f1a6";
     fenBefore := Sample.fenOpen; fenAfter := Sample.fenBishopGone; turn := w |}.


(** ** The evaluation bar (src/app/page.tsx, src/components/EvaluationBar.tsx) *)

Module Bar.

(** [evalForBar] of the page: the current evaluation turned to White's
    side; [currentMove] is [null] before the first move. *)
Definition evalForBar (currentEval : option Evaluation) (currentMove : option ParsedMove)
  : option Evaluation :=
  match currentEval with
  | None => None
  | Some ev =>
      let turnAfter :=
        match currentMove with
        | Some m => match turn m with w => b | b => w end
        | None => w
        end in
      let cp := evalToCpFromTurnPerspective ev in
      let whiteCp := match turnAfter with w => cp | b => - cp end in
      Some {| cp := Some whiteCp;
              mate := match mate ev with
                      | Some m => Some (match turnAfter with w => m | b => - m end)
                      | None => None
                      end;
              depth := depth ev; nodes := nodes ev;
              bestMove := bestMove ev; pv := pv ev |}
  end.

(** [getWhiteCp] *)
Definition getWhiteCp (evaluation : option Evaluation) (turnAfter : Color) : Z :=
  match evaluation with
  | None => 0
  | Some ev =>
      let cp := evalToCpFromTurnPerspective ev in
      match turnAfter with w => cp | b => - cp end
  end.

(** The score [EvaluationBar] computes from its evaluation. *)
Definition barCp (evaluation : option Evaluation) : Z :=
  match evaluation with
  | Some ev =>
      match mate ev with
      | Some m => Z.sgn m * (10000 - Z.abs m * 10)
      | None => default 0 (cp ev)
      end
  | None => 0
  end.

Definition clamped (cp : Z) : Z := Z.max (-1500) (Z.min 1500 cp).

Definition whiteFill (cp : Z) : R := (50 + IZR (clamped cp) / 1500 * 45)%R.

Definition clampedFill (cp : Z) : R := Rmax 5 (Rmin 95 (whiteFill cp)).

End Bar.


(** ** The board area (src/components/ChessBoardArea.tsx) *)

Module Board.

Record Squares := mkSquares {
  from : string;
  to : string
}.

(** [s.slice(start, end)] for [0 <= start <= end]. *)
Definition slice (start stop : nat) (s : string) : string :=
  substring start (stop - start) s.

(** [lanToSquares] *)
Definition lanToSquares (lan : string) : option Squares :=
  if negb (test reLan lan) then None
  else Some {| from := slice 0 2 lan; to := slice 2 4 lan |}.

Inductive Orientation := White | Black.

(** A JavaScript number that may be [NaN] ([None]). *)
Definition number := option R.

(** [square.charCodeAt(0)] *)
Definition charCodeAt0 (square : string) : number :=
  match square with
  | String c _ => Some (IZR (Z.of_nat (code c)))
  | EmptyString => None
  end.

(** [Number(square[1])]: a digit is its value, white space is 0, anything
    else and a missing character are [NaN]. *)
Definition Number1 (square : string) : number :=
  match square with
  | String _ (String c _) =>
      if isDigit c then Some (IZR (Z.of_nat (code c - 48)))
      else if isSpace c then Some 0%R
      else None
  | _ => None
  end.

Record Position := mkPosition {
  x : number;
  y : number
}.

(** [squareToPosition] *)
Definition squareToPosition (square : string) (orientation : Orientation) : Position :=
  let file := option_map (fun c => (c - 97)%R) (charCodeAt0 square) in
  let rank := option_map (fun n => (n - 1)%R) (Number1 square) in
  {| x := match orientation with
          | White => option_map (fun f => (f * 12.5)%R) file
          | Black => option_map (fun f => ((7 - f) * 12.5)%R) file
          end;
     y := match orientation with
          | White => option_map (fun r => ((7 - r) * 12.5)%R) rank
          | Black => option_map (fun r => (r * 12.5)%R) rank
          end |}.

(** [navigate] of a board with [movesLength] moves: the index it passes to
    [onMoveIndexChange]. *)
Definition navigate (movesLength : Z) (index : Z) : Z :=
  if movesLength =? 0 then -1
  else Z.min (movesLength - 1) (Z.max (-1) index).

Inductive Key := ArrowRight | ArrowLeft | Home | End_.

(** [onKeyDown] *)
Definition onKeyDown (movesLength : Z) (currentMoveIndex : Z) (key : Key) : Z :=
  match key with
  | ArrowRight => navigate movesLength (currentMoveIndex + 1)
  | ArrowLeft => navigate movesLength (currentMoveIndex - 1)
  | Home => navigate movesLength (-1)
  | End_ => navigate movesLength (movesLength - 1)
  end.

(** [currentMove]: the move shown, if any. *)
Definition currentMove (moves : list ParsedMove) (currentMoveIndex : Z)
  : option ParsedMove :=
  if 0 <=? currentMoveIndex then moves !! Z.to_nat currentMoveIndex else None.

End Board.

(** The name of the square in file [f] and rank [r], both counted from 0. *)
Definition squareName (f r : nat) : string :=
  String (ascii_of_nat (97 + f)) (String (ascii_of_nat (49 + r)) EmptyString).

(** Where the square in file [f] and rank [r] is drawn. *)
Definition drawnAt (f r : nat) (orientation : Board.Orientation) : Board.Position :=
  match orientation with
  | Board.White =>
      {| Board.x := Some (INR f * 12.5)%R; Board.y := Some ((7 - INR r) * 12.5)%R |}
  | Board.Black =>
      {| Board.x := Some ((7 - INR f) * 12.5)%R; Board.y := Some (INR r * 12.5)%R |}
  end.


(** ** The opening limit of the page (src/app/page.tsx) *)

(** The double quote. *)
Definition dquote : ascii := ascii_of_nat 34.

(** The expression of [openingPlyFromPgn]: an ECO tag, its code being a
    letter from A to E and two digits between double quotes. *)
Definition reECO : re :=
  seqs [Chr "["%char; Lit "ECO"; Plus isSpace; Chr dquote; Cls (oneOf "ABCDE");
        Cls isDigit; Cls isDigit; Chr dquote; Chr "]"%char].

Definition openingPlyFromPgn (pgn : string) : Z :=
  let hasECO := test reECO pgn in
  if hasECO then 12 else 8.

(** A PGN text with an ECO tag of code [c d1 d2] after [pre], the tag name
    and the code separated by [spaces]. *)
Definition withECO (pre spaces : list ascii) (c d1 d2 : ascii) (post : list ascii)
  : string :=
  string_of_list_ascii
    (pre ++ list_ascii_of_string "[ECO" ++ spaces
     ++ dquote :: c :: d1 :: d2 :: dquote :: "]"%char :: post)%list.


(** ** The move list (src/components/MovePanel.tsx) *)

Module MovePanel.

Record Pair := mkPair {
  moveNumber : Z;
  white : option ParsedMove;
  black : option ParsedMove
}.

(** [Math.ceil(ply / 2)] on an integer. *)
Definition ceilHalf (ply : Z) : Z := (ply + 1) / 2.

(** The loop that groups the moves into rows, from the move at the head of
    [moves] on; taking a black move into the row of the white move before it
    skips one index. *)
Fixpoint pairs (moves : list ParsedMove) : list Pair :=
  match moves with
  | [] => []
  | move :: rest =>
      match turn move with
      | w =>
          match rest with
          | next :: rest' =>
              match turn next with
              | b =>
                  {| moveNumber := ceilHalf (ply move);
                     white := Some move; black := Some next |} :: pairs rest'
              | w =>
                  {| moveNumber := ceilHalf (ply move);
                     white := Some move; black := None |} :: pairs rest
              end
          | [] =>
              [{| moveNumber := ceilHalf (ply move);
                  white := Some move; black := None |}]
          end
      | b =>
          {| moveNumber := ceilHalf (ply move);
             white := None; black := Some move |} :: pairs rest
      end
  end.

End MovePanel.

(** The moves of a row, in order. *)
Definition movesOf (p : MovePanel.Pair) : list ParsedMove :=
  (option_list (MovePanel.white p) ++ option_list (MovePanel.black p))%list.

(** A game from the first ply on, White and Black in turn. *)
Definition fromFirstPly (moves : list ParsedMove) : Prop :=
  forall i m, moves !! i = Some m ->
    ply m = Z.of_nat i + 1 /\ turn m = if Nat.even i then w else b.


(** ** The classification summary (src/app/page.tsx) *)

Module Summary.

(** A label as the string it is at run time; [null] is no string. *)
Definition labelName (cl : MoveClassification) : option string :=
  match cl with
  | brilliant => Some "brilliant" | great => Some "great" | best => Some "best"
  | excellent => Some "excellent" | good => Some "good"
  | inaccuracy => Some "inaccuracy" | mistake => Some "mistake"
  | blunder => Some "blunder" | book => Some "book" | forced => Some "forced"
  | null => None
  end.

(** A label is truthy, [null] is not. *)
Definition isLabel (cl : MoveClassification) : bool :=
  match labelName cl with Some _ => true | None => false end.

Definition CL_ORDER : list MoveClassification :=
  [brilliant; great; best; excellent; good; book; inaccuracy; mistake; blunder; forced].

(** [classificationCounts], over [Object.values(classifications)]. *)
Definition classificationCounts (values : list MoveClassification) : gmap string Z :=
  fold_left
    (fun counts cl =>
       match labelName cl with
       | Some name => <[name := default 0 (counts !! name) + 1]> counts
       | None => counts
       end)
    values ∅.

(** The items of the summary: a label and its count, for the labels of
    [CL_ORDER] whose count is not 0. *)
Definition summary (values : list MoveClassification) : list (MoveClassification * Z) :=
  flat_map
    (fun cl =>
       let count :=
         match labelName cl with
         | Some name => default 0 (classificationCounts values !! name)
         | None => 0
         end in
       if (count =? 0) || negb (isLabel cl) then [] else [(cl, count)])
    CL_ORDER.

End Summary.

(** How often [cl] occurs in [values]. *)
Definition occurrences (cl : MoveClassification) (values : list MoveClassification) : Z :=
  Z.of_nat (length (List.filter
                      (fun v => match Summary.labelName v, Summary.labelName cl with
                                | Some a, Some c => String.eqb a c
                                | _, _ => false
                                end) values)).

(** The values that are a label. *)
Definition classified (values : list MoveClassification) : Z :=
  Z.of_nat (length (List.filter Summary.isLabel values)).


(** A request for at least one line, and a resolution that carries at least
    one evaluation. *)
Definition asksForLines (e : Event) : Prop :=
  match e with
  | Analyze _ options => 1 <= default 1 (optMultiPv options)
  | _ => True
  end.

Definition delivers (e : Effect) : Prop :=
  match e with
  | Resolved _ evs => evs <> []
  | _ => True
  end.


(** ** Info lines as the engine prints them *)

Inductive Score :=
| Cp (centipawns : Z)
| Mate (moves : Z).

Record InfoFields := mkInfoFields {
  iDepth : Z;
  iSelDepth : Z;
  iMultiPv : Z;
  iScore : Score;
  iNodes : Z;
  iNps : Z;
  iHashfull : Z;
  iTbhits : Z;
  iTime : Z;
  iPv : list string
}.

(** Words joined by single spaces. *)
Fixpoint unwords (ws : list string) : string :=
  match ws with
  | [] => ""
  | [x] => x
  | x :: rest => x ++ " " ++ unwords rest
  end.

Definition showScore (s : Score) : string :=
  match s with
  | Cp c => "cp " ++ showZ c
  | Mate m => "mate " ++ showZ m
  end.

(** The line of the UCI protocol that reports [f]. *)
Definition infoLine (f : InfoFields) : string :=
  "info depth " ++ showZ (iDepth f) ++ " seldepth " ++ showZ (iSelDepth f)
  ++ " multipv " ++ showZ (iMultiPv f) ++ " score " ++ showScore (iScore f)
  ++ " nodes " ++ showZ (iNodes f) ++ " nps " ++ showZ (iNps f)
  ++ " hashfull " ++ showZ (iHashfull f) ++ " tbhits " ++ showZ (iTbhits f)
  ++ " time " ++ showZ (iTime f) ++ " pv " ++ unwords (iPv f).

(** [Number.MAX_SAFE_INTEGER], 2^53 - 1: up to it every integer is a
    double, and [parseInt] returns it exactly. *)
Definition MAX_SAFE_INTEGER : Z := 9007199254740991.

(** The counters of [f] are not negative, and those [parseInfoLine] reads
    (depth, line index and node count) are safe integers. *)
Definition counters (f : InfoFields) : Prop :=
  0 <= iDepth f <= MAX_SAFE_INTEGER /\ 0 <= iSelDepth f /\
  0 <= iMultiPv f <= MAX_SAFE_INTEGER /\ 0 <= iNodes f <= MAX_SAFE_INTEGER /\
  0 <= iNps f /\ 0 <= iHashfull f /\ 0 <= iTbhits f /\ 0 <= iTime f.

(** The score of [f] is a safe integer. *)
Definition safeScore (f : InfoFields) : Prop :=
  match iScore f with
  | Cp x | Mate x => - MAX_SAFE_INTEGER <= x <= MAX_SAFE_INTEGER
  end.

(** A character that starts none of the words [parseInfoLine] looks for and
    is part of none. *)
Definition quiet (c : ascii) : bool :=
  isDigit c || Ascii.eqb c " " || Ascii.eqb c "-".

(** A character of a move in long algebraic form. *)
Definition moveChar (c : ascii) : bool := oneOf "abcdefgh12345678qrbn" c.

(** [parseInt] from an accumulator. *)
Definition digitsFrom (acc : Z) (cs : list ascii) : Z :=
  fold_left (fun acc c => 10 * acc + Z.of_nat (code c - 48)) cs acc.

(** The characters of a principal variation. *)
Definition pvChar (c : ascii) : bool := moveChar c || Ascii.eqb c " ".

Definition str (s : string) : list ascii := list_ascii_of_string s.

(** The characters of an info line: the words of the protocol, the
    numerals and the principal variation. *)
Definition lineChars (D SD I W C N P H TB T PV : list ascii) : list ascii :=
  (str "info depth " ++ D ++ str " seldepth " ++ SD ++ str " multipv " ++ I
   ++ str " score " ++ W ++ " "%char :: C ++ str " nodes " ++ N ++ str " nps " ++ P
   ++ str " hashfull " ++ H ++ str " tbhits " ++ TB ++ str " time " ++ T
   ++ str " pv " ++ PV)%list.

Definition numeral (ds : list ascii) : Prop :=
  ds <> [] /\ Forall (fun c => isDigit c = true) ds.

Definition signedNumeral (cs : list ascii) : Prop :=
  exists sign d ds, cs = (sign ++ d :: ds)%list /\ (sign = [] \/ sign = ["-"%char]) /\
                    Forall (fun c => isDigit c = true) (d :: ds).


(** An example report. *)
Definition sampleInfo : InfoFields :=
  {| iDepth := 12; iSelDepth := 16; iMultiPv := 1; iScore := Cp (-35);
     iNodes := 4100; iNps := 512500; iHashfull := 0; iTbhits := 0; iTime := 8;
     iPv := ["g1f3"; "b8c6"] |}.


(** ** The game list (src/lib/chess-api.ts)

    The network is an oracle: what [fetch(url)] and then [response.json()]
    give.  A body is read through its two optional fields only.  The
    requests of [Promise.all] run together, so when several fail the
    rejection is one of their errors: a rejected call lists the
    candidates. *)

Module ChessCom.

Record Player := mkPlayer {
  username : string;
  rating : Z;
  result : string
}.

Record ChessGame := mkChessGame {
  url : string;
  uuid : string;
  pgn : string;
  time_control : string;
  end_time : Z;
  rated : bool;
  white : Player;
  black : Player
}.

Record Body := mkBody {
  archives : option (list string);
  games : option (list (option ChessGame))
}.

Inductive Fetched :=
| Failed (error : string)
| NotOk
| Json (data : Body).

Inductive Settled :=
| Resolves (games : list ChessGame)
| Rejects (reasons : list string).

Definition NotFound : string := "User not found or Chess.com API unavailable.".

(** [c.toLowerCase()] on a code unit below 256. *)
Definition lower (c : ascii) : ascii :=
  if between 65 90 c || (between 192 222 c && negb (code c =? 215)%nat)
  then ascii_of_nat (code c + 32) else c.

Definition toLowerCase (s : list ascii) : list ascii := map lower s.

(** [l.slice(-n)] *)
Definition lastN {A : Type} (n : nat) (l : list A) : list A :=
  skipn (length l - n) l.

(** [game?.pgn] *)
Definition hasPgn (game : option ChessGame) : bool :=
  match game with
  | Some g => negb (String.eqb (pgn g) "")
  | None => false
  end.

(** The games of a batch that pass the filter. *)
Definition withPgn (batch : list (option ChessGame)) : list ChessGame :=
  omap (fun game => if hasPgn game then game else None) batch.

(** [sort((a, b) => b.end_time - a.end_time)]: a stable sort, latest first. *)
Fixpoint insertGame (g : ChessGame) (l : list ChessGame) : list ChessGame :=
  match l with
  | [] => [g]
  | h :: t => if end_time h <=? end_time g then g :: h :: t else h :: insertGame g t
  end.

Definition sortGames (l : list ChessGame) : list ChessGame :=
  fold_right insertGame [] l.

Section WithNetwork.

Variable fetch : string -> Fetched.

Definition fetchArchive (url : string) : outcome (list (option ChessGame)) :=
  match fetch url with
  | Failed e => Throw e
  | NotOk => Ok []
  | Json data => Ok (default [] (games data))
  end.

Definition errorsOf {A : Type} (rs : list (outcome A)) : list string :=
  omap (fun r => match r with Throw e => Some e | Ok _ => None end) rs.

Definition valuesOf {A : Type} (rs : list (outcome A)) : list A :=
  omap (fun r => match r with Ok a => Some a | Throw _ => None end) rs.

Definition archivesUrl (profile : list ascii) : string :=
  "https://api.chess.com/pub/player/" ++ string_of_list_ascii profile
  ++ "/games/archives".

(** [fetchPlayerGames]: how the promise settles, and the URLs requested. *)
Definition fetchPlayerGames (username : string) : Settled * list string :=
  let profile := toLowerCase (trim (list_ascii_of_string username)) in
  match profile with
  | [] => (Resolves [], [])
  | _ :: _ =>
      match fetch (archivesUrl profile) with
      | Failed e => (Rejects [e], [archivesUrl profile])
      | NotOk => (Rejects [NotFound], [archivesUrl profile])
      | Json archivesData =>
          let archives := default [] (archives archivesData) in
          if (length archives =? 0)%nat then (Resolves [], [archivesUrl profile])
          else
            let recentArchives := rev (lastN 6 archives) in
            let batches := map fetchArchive recentArchives in
            (match errorsOf batches with
             | [] => Resolves (sortGames (withPgn (concat (valuesOf batches))))
             | e :: es => Rejects (e :: es)
             end,
             archivesUrl profile :: recentArchives)
      end
  end.

End WithNetwork.

End ChessCom.

(** Latest first. *)
Definition latestFirst (a b : ChessCom.ChessGame) : Prop :=
  ChessCom.end_time b <= ChessCom.end_time a.

(** An example network: one player with one archive of two games, one of
    them without moves. *)
Definition gameAt (t : Z) (moves : string) : ChessCom.ChessGame :=
  {| ChessCom.url := "https://www.chess.com/game/live/1"; ChessCom.uuid := "1";
     ChessCom.pgn := moves; ChessCom.time_control := "600"; ChessCom.end_time := t;
     ChessCom.rated := true;
     ChessCom.white := {| ChessCom.username := "anna"; ChessCom.rating := 1500;
                          ChessCom.result := "win" |};
     ChessCom.black := {| ChessCom.username := "ben"; ChessCom.rating := 1480;
                          ChessCom.result := "resigned" |} |}.

Definition sampleNetwork (url : string) : ChessCom.Fetched :=
  if String.eqb url "https://api.chess.com/pub/player/anna/games/archives"
  then ChessCom.Json {| ChessCom.archives := Some ["archive/2024/01"];
                        ChessCom.games := None |}
  else if String.eqb url "archive/2024/01"
  then ChessCom.Json {| ChessCom.archives := None;
                        ChessCom.games := Some [Some (gameAt 100 "1. e4 e5");
                                                None;
                                                Some (gameAt 300 "");
                                                Some (gameAt 200 "1. d4 d5")] |}
  else ChessCom.NotOk.


(** ** The adapter with its [await] (src/lib/stockfish.ts)

    [analyzePosition] is an [async] function: it tests the worker, reads its
    options and then always yields at [await this.readyPromise].  What
    follows the [await] runs later as a microtask: at once after the code
    that is running when the promise is already resolved, and after the
    [readyok] handler when it is not.  Between the call and its continuation
    the caller can go on, with further calls or with [quit].

    [Async] models this.  A suspended call is the closure of its
    continuation.  Calls that wait for readiness are kept in [waiting];
    continuations that are due are kept in [microtasks], in the order in
    which they run.  A task of the event loop (a worker message, a timer, a
    worker error) starts only when no microtask is due, so it first runs
    those that are.  The caller's own actions ([CallAnalyze], [CallQuit]) can
    come at any point, also between two continuations.  What becomes of the
    promise of each call is recorded in [outcomes]. *)

Module Async.

Definition NotReady : string := "Stockfish is not ready.".

(** [analyzePosition] after its test of [this.ready]: the earlier request is
    cancelled, the timer armed, the request installed and the search
    started.  The worker is not tested again: on an adapter without worker
    the commands are dropped, the request and its timer are installed all
    the same. *)
Definition startRequest (fen : string) (options : AnalyzeOptions) (st : Engine)
  : nat * Engine :=
  let depth := default 18 (optDepth options) in
  let timeoutMs := default 8000 (optTimeoutMs options) in
  let moveTimeMs := optMoveTimeMs options in
  let multiPv := default 1 (optMultiPv options) in
  let st := post "stop" st in
  let st := rejectPending Cancelled st in
  let '(id, st) := setTimeout {| delay := timeoutMs; closureMultiPv := multiPv |} st in
  let st :=
    setPending (Some {| results := ∅; multiPv := multiPv; timeoutId := id |}) st in
  let st := post ("setoption name MultiPV value " ++ showZ multiPv) st in
  let st := post ("position fen " ++ fen) st in
  let st :=
    post (match moveTimeMs with
          | Some ms => if ms =? 0 then "go depth " ++ showZ depth
                       else "go movetime " ++ showZ ms
          | None => "go depth " ++ showZ depth
          end) st in
  (id, st).

(** A call suspended at the [await]: its number and the arguments its
    continuation closes over. *)
Record Suspended := mkSuspended {
  sCall : nat;
  sFen : string;
  sOptions : AnalyzeOptions
}.

(** What the promise returned by a call has come to: rejected by a [throw]
    of the function, or resolved with the promise of a request, which the
    adapter settles later. *)
Inductive Outcome :=
| Throws (reason : string)
| Returns (request : nat).

Record Adapter := mkAdapter {
  engine : Engine;
  waiting : list Suspended;
  microtasks : list Suspended;
  calls : nat;
  outcomes : list (nat * Outcome)
}.

Definition fresh : Adapter :=
  {| engine := newEngine; waiting := []; microtasks := []; calls := 0%nat;
     outcomes := [] |}.

(** The continuation of a suspended call. *)
Definition resume (s : Suspended) (a : Adapter) : Adapter :=
  let 'mkAdapter st wt mt n out := a in
  if ready st then
    let '(id, st') := startRequest (sFen s) (sOptions s) st in
    mkAdapter st' wt mt n (out ++ [(sCall s, Returns id)])
  else mkAdapter st wt mt n (out ++ [(sCall s, Throws NotReady)]).

(** The continuations that are due run, in order. *)
Definition drain (a : Adapter) : Adapter :=
  let 'mkAdapter st wt mt n out := a in
  fold_left (fun a' s => resume s a') mt (mkAdapter st wt [] n out).

(** A task of the event loop that runs [handler] on the adapter. *)
Definition task (handler : Engine -> Engine) (a : Adapter) : Adapter :=
  let 'mkAdapter st wt mt n out := drain a in
  mkAdapter (handler st) wt mt n out.

Inductive Input :=
| Message (line : string)
| TimerFired (id : nat)
| WorkerFailed (error : string)
| CallAnalyze (fen : string) (options : AnalyzeOptions)
| CallQuit
| Microtask.

Definition react (a : Adapter) (e : Input) : Adapter :=
  match e with
  | Message line =>
      let 'mkAdapter st wt mt n out := drain a in
      if String.eqb line "readyok" && resolveReady st
      then mkAdapter (handleMessage line st) [] (mt ++ wt) n out
      else mkAdapter (handleMessage line st) wt mt n out
  | TimerFired id => task (fireTimeout id) a
  | WorkerFailed error => task (onerror error) a
  | CallAnalyze fen options =>
      let 'mkAdapter st wt mt n out := a in
      if negb (worker st) then
        mkAdapter st wt mt (S n) (out ++ [(n, Throws Unavailable)])
      else
        let s := {| sCall := n; sFen := fen; sOptions := options |} in
        if resolveReady st then mkAdapter st (wt ++ [s]) mt (S n) out
        else mkAdapter st wt (mt ++ [s]) (S n) out
  | CallQuit =>
      let 'mkAdapter st wt mt n out := a in
      mkAdapter (quit st) wt mt n out
  | Microtask =>
      let 'mkAdapter st wt mt n out := a in
      match mt with
      | [] => a
      | s :: rest => resume s (mkAdapter st wt rest n out)
      end
  end.

Definition reacts (es : list Input) (a : Adapter) : Adapter := fold_left react es a.

End Async.

(** The event is the line [readyok] from the worker. *)
Definition isReadyok (e : Async.Input) : bool :=
  match e with
  | Async.Message line => String.eqb line "readyok"
  | _ => false
  end.

(** An effect that reaches neither the worker nor its lifetime: no command
    posted, no termination. *)
Definition silent (e : Effect) : bool :=
  match e with
  | PostMessage _ | Terminated => false
  | _ => true
  end.

(** The only armed timer is the pending request's, and it closes over that
    request's [multiPv]. *)
Definition armed (st : Engine) : Prop :=
  match pending st with
  | Some p =>
      (timeoutId p < nextTimer st)%nat /\
      exists ms, timers st = {[ timeoutId p := {| delay := ms; closureMultiPv := multiPv p |} ]}
  | None => timers st = ∅
  end.

(** The commands that start a search. *)
Definition searchCommands (fen : string) (options : AnalyzeOptions) : list Effect :=
  [PostMessage ("setoption name MultiPV value " ++ showZ (default 1 (optMultiPv options)));
   PostMessage ("position fen " ++ fen);
   PostMessage (match optMoveTimeMs options with
                | Some ms => if ms =? 0
                             then "go depth " ++ showZ (default 18 (optDepth options))
                             else "go movetime " ++ showZ ms
                | None => "go depth " ++ showZ (default 18 (optDepth options))
                end)].

(** What a continuation adds to the effects on a ready adapter: [stop], the
    cancellation of the earlier request, the commands of the search; the
    commands only when there is a worker. *)
Definition startEffects (fen : string) (options : AnalyzeOptions) (st : Engine)
  : list Effect :=
  ((if worker st then [PostMessage "stop"] else [])
   ++ match pending st with
      | Some p => [Rejected (timeoutId p) Cancelled]
      | None => []
      end
   ++ (if worker st then searchCommands fen options else []))%list.

(** The events of the atomic model that are handlers of the event loop or
    [quit]: all but the call. *)
Definition handlerEvent (e : Stockfish.Event) : bool :=
  match e with Analyze _ _ => false | _ => true end.

(** An event of the atomic model, as events of the asynchronous one: the
    continuation of a call runs right after the call. *)
Definition asyncOf (e : Stockfish.Event) : list Async.Input :=
  match e with
  | Line line => [Async.Message line]
  | Analyze fen options => [Async.CallAnalyze fen options; Async.Microtask]
  | TimerExpired id => [Async.TimerFired id]
  | WorkerError error => [Async.WorkerFailed error]
  | Quit => [Async.CallQuit]
  end.

(** The invariant of the states the asynchronous adapter reaches: readiness
    and its promise agree, the promise was resolved once if at all, the
    timers are those of [armed], a request is pending only once ready; until
    then no continuation is due and every outcome is the unavailable error;
    afterwards no call waits; and no call has thrown the not-ready error. *)
Definition inv (a : Async.Adapter) : Prop :=
  let st := Async.engine a in
  resolveReady st = negb (ready st) /\
  readyCount (effects st) = (if ready st then 1 else 0)%nat /\
  armed st /\
  (ready st = false -> pending st = None) /\
  (ready st = false ->
   Async.microtasks a = [] /\
   Forall (fun o => snd o = Async.Throws Unavailable) (Async.outcomes a)) /\
  (ready st = true -> Async.waiting a = []) /\
  Forall (fun o => snd o <> Async.Throws Async.NotReady) (Async.outcomes a).

(** [st'] comes after [st] on an adapter without worker: nothing was posted
    and nothing terminated in between. *)
Definition quietly (st st' : Engine) : Prop :=
  worker st' = false /\
  exists l, effects st' = (effects st ++ l)%list /\ forallb silent l = true.

(** No worker, no request, no timer and no suspended call. *)
Definition idle (a : Async.Adapter) : Prop :=
  worker (Async.engine a) = false /\ pending (Async.engine a) = None /\
  timers (Async.engine a) = ∅ /\
  Async.waiting a = [] /\ Async.microtasks a = [].

(** Every evaluation retained for the pending request is well formed. *)
Definition retainedWellFormed (st : Engine) : Prop :=
  forall p i ev, pending st = Some p -> results p !! i = Some ev -> wellFormedLine i ev.


(** * Properties *)

(** ** Normalisation and win chance *)

Module AnalysisFacts.

Lemma Rgtb_false (x y : R) : (x <= y)%R -> Rgtb x y = false.
Proof.
  intros Hle. unfold Rgtb. destruct (Rgt_dec x y) as [Hgt | _]; [lra | reflexivity].
Qed.

Lemma Rgtb_true (x y : R) : (y < x)%R -> Rgtb x y = true.
Proof.
  intros Hlt. unfold Rgtb. destruct (Rgt_dec x y) as [_ | Hn]; [reflexivity | lra].
Qed.

(** The logistic form of [winChance]. *)
Lemma winChance_logistic (x : R) :
  winChance x = (100 / (1 + exp (- 0.00368208 * x)))%R.
Proof.
  unfold winChance.
  pose proof (exp_pos (- 0.00368208 * x)) as Hpos.
  field. lra.
Qed.

(** [exp x <= 1 / (1 - x)] below 1. *)
Lemma exp_times_one_minus (x : R) : (x < 1)%R -> (exp x * (1 - x) <= 1)%R.
Proof.
  intros Hx.
  pose proof (exp_ineq1_le (- x)) as Hlow.
  pose proof (exp_pos x) as Hpos.
  assert (Hinv : (exp x * exp (- x) = 1)%R).
  { rewrite <- exp_plus. replace (x + - x)%R with 0%R by lra. apply exp_0. }
  rewrite <- Hinv.
  apply Rmult_le_compat_l; lra.
Qed.

(** A drop of [a - b >= 0] centipawns costs at most
    [25 * (exp (0.00368208 * (a - b)) - 1)] points of win chance. *)
Lemma winChance_drop_bound (a b : R) :
  (b <= a)%R ->
  (winChance a - winChance b <= 25 * (exp (0.00368208 * (a - b)) - 1))%R.
Proof.
  intros Hba. rewrite !winChance_logistic.
  set (u := exp (- 0.00368208 * a)).
  set (c := exp (0.00368208 * (a - b))).
  assert (Hu : (0 < u)%R) by apply exp_pos.
  assert (Hc : (1 <= c)%R).
  { unfold c. rewrite <- exp_0.
    destruct (Req_dec (0.00368208 * (a - b)) 0) as [-> | Hne]; [lra |].
    left. apply exp_increasing. nra. }
  assert (Hv : exp (- 0.00368208 * b) = (u * c)%R).
  { unfold u, c. rewrite <- exp_plus. f_equal. lra. }
  rewrite Hv. clearbody u c.
  assert (Huc : (0 < u * c)%R) by nra.
  assert (Heq : (100 / (1 + u) - 100 / (1 + u * c)
                 = 100 * u * (c - 1) / ((1 + u) * (1 + u * c)))%R).
  { field. lra. }
  rewrite Heq.
  assert (Hden : (0 < (1 + u) * (1 + u * c))%R) by nra.
  apply (Rmult_le_reg_r ((1 + u) * (1 + u * c))); [exact Hden |].
  unfold Rdiv. rewrite Rmult_assoc, Rinv_l by lra.
  assert (H1 : (0 <= (c - 1) * ((1 - u) * (1 - u)))%R).
  { apply Rmult_le_pos; [lra | apply (Rle_0_sqr (1 - u))]. }
  assert (H2 : (0 <= (c - 1) * (c - 1) * (u * (1 + u)))%R).
  { apply Rmult_le_pos; [apply (Rle_0_sqr (c - 1)) | apply Rmult_le_pos; lra]. }
  lra.
Qed.

(** Ten centipawns cost less than ten points of win chance. *)
Lemma winChance_drop_10 (a b : Z) :
  a - b = 10 -> (winChance (IZR a) - winChance (IZR b) <= 10)%R.
Proof.
  intros Hab.
  assert (Hd : (IZR a - IZR b = 10)%R).
  { rewrite <- minus_IZR, Hab. reflexivity. }
  pose proof (winChance_drop_bound (IZR a) (IZR b) ltac:(lra)) as Hbound.
  rewrite Hd in Hbound.
  pose proof (exp_times_one_minus (0.00368208 * 10) ltac:(lra)) as Hexp.
  pose proof (exp_pos (0.00368208 * 10)) as Hpos.
  nra.
Qed.

Lemma exp_monotone (x y : R) : (x <= y)%R -> (exp x <= exp y)%R.
Proof.
  intros [Hlt | ->]; [left; apply exp_increasing, Hlt | right; reflexivity].
Qed.

(** Up to a hundred centipawns cost at most twenty points of win chance. *)
Lemma winChance_drop_100 (a b : Z) :
  0 <= a - b <= 100 -> (winChance (IZR a) - winChance (IZR b) <= 20)%R.
Proof.
  intros [Hlo Hhi].
  assert (Hd : (0 <= IZR a - IZR b <= 100)%R).
  { rewrite <- minus_IZR. split; apply IZR_le; assumption. }
  pose proof (winChance_drop_bound (IZR a) (IZR b) ltac:(lra)) as Hbound.
  pose proof (exp_monotone (0.00368208 * (IZR a - IZR b)) (0.00368208 * 100)
                ltac:(lra)) as Hmono.
  pose proof (exp_times_one_minus (0.00368208 * 100) ltac:(lra)) as Hexp.
  pose proof (exp_pos (0.00368208 * 100)) as Hpos.
  nra.
Qed.

End AnalysisFacts.

(** ** The classification engine *)

Import AnalysisFacts.

Lemma endsGame_false (api : ChessApi) (m : ParsedMove) :
  endsGame api m = false ->
  endsWith (san m) "#" = false /\
  match newChess api (fenAfter m) with
  | Some after => isGameOver api after
  | None => false
  end = false.
Proof. unfold endsGame. intros H. apply orb_false_iff in H. exact H. Qed.

(** Unfolds [classifyMove] past its two terminal returns. *)
Ltac past_terminal H :=
  let Hsan := fresh "Hsan" in
  let Hover := fresh "Hover" in
  destruct (endsGame_false _ _ H) as [Hsan Hover];
  unfold classifyMove; cbv zeta; rewrite Hsan, Hover.

(** C2. A move whose SAN ends in [#], or whose resulting position is over
    for chess.js (in particular when it has no legal move), is classified
    [best] with loss 0, whatever the evaluations, the preferred move, the
    forced flag, the ply and the material are. *)
Theorem terminal_move_is_best (api : ChessApi) (params : Params) :
  endsWith (san (move params)) "#" = true \/
  (exists after, newChess api (fenAfter (move params)) = Some after /\
                 (moves api after = [] \/ isGameOver api after = true)) ->
  classifyMove api params = Ok {| classification := best; centipawnLoss := 0 |}.
Proof.
  intros Hend. unfold classifyMove; cbv zeta.
  destruct (endsWith (san (move params)) "#") eqn:Hsan; [reflexivity |].
  destruct Hend as [Hmate | (after & Hnew & Hover)]; [discriminate |].
  rewrite Hnew.
  assert (Hgo : isGameOver api after = true).
  { destruct Hover as [Hnone | Hgo]; [apply isGameOver_no_moves, Hnone | exact Hgo]. }
  rewrite Hgo. reflexivity.
Qed.

Lemma terminal_move_is_best_witness :
  classifyMove Sample.api mateParams
  = Ok {| classification := best; centipawnLoss := 0 |}
  /\ classifyMove Sample.api stalemateParams
     = Ok {| classification := best; centipawnLoss := 0 |}.
Proof.
  split.
  - apply terminal_move_is_best. left. reflexivity.
  - apply terminal_move_is_best. right.
    eexists. split; [vm_compute; reflexivity | left; reflexivity].
Defined.

(** C3. When the flag [isOnlyLegalMove] is set and the move does not end the
    game, the verdict is [forced] with loss 0, whatever the preferred move,
    the ply and the evaluations are; and pass 2 of [analyzeGame] sets the
    flag whenever the position before the move has at most one legal move. *)
Theorem forced_move_is_forced (api : ChessApi) (params : Params) :
  endsGame api (move params) = false ->
  (isOnlyLegalMove params = Some true ->
   classifyMove api params = Ok {| classification := forced; centipawnLoss := 0 |})
  /\
  (forall g evBefore evAfterMove limit secondBest,
     newChess api (fenBefore (move params)) = Some g ->
     (length (moves api g) <= 1)%nat ->
     pass2Verdict api (move params) evBefore evAfterMove limit secondBest
     = Ok {| classification := forced; centipawnLoss := 0 |}).
Proof.
  intros Hgo. split.
  - intros Hflag. past_terminal Hgo. rewrite Hflag. reflexivity.
  - intros g evBefore evAfterMove limit secondBest Hnew Hlen.
    destruct (endsGame_false _ _ Hgo) as [Hsan Hover].
    unfold pass2Verdict, classifyMove; cbv zeta.
    cbn [Analysis.move isOnlyLegalMove truthy].
    rewrite Hsan, Hover.
    unfold onlyLegalMove. rewrite Hnew.
    apply Nat.leb_le in Hlen. rewrite Hlen. reflexivity.
Qed.

Lemma forced_move_is_forced_witness :
  classifyMove Sample.api onlyMoveParams
  = Ok {| classification := forced; centipawnLoss := 0 |}
  /\ pass2Verdict Sample.api onlyMove (cpEval (-300) 18) (cpEval 900 18) 10 None
     = Ok {| classification := forced; centipawnLoss := 0 |}.
Proof.
  destruct (forced_move_is_forced Sample.api onlyMoveParams) as [Hflag Hpass].
  - vm_compute. reflexivity.
  - split.
    + apply Hflag. reflexivity.
    + eapply (Hpass _ (cpEval (-300) 18) (cpEval 900 18) 10 None).
      * vm_compute. reflexivity.
      * vm_compute. lia.
Defined.

(** A loss above 30 and up to 100 is an [inaccuracy] (book does not apply
    above 25, and a drop of up to 100 centipawns costs at most 20 points of
    win chance). *)
Lemma loss_31_100_inaccuracy (api : ChessApi) (params : Params)
  (beforeMaterial afterMaterial : Material) :
  endsGame api (move params) = false ->
  truthy (isOnlyLegalMove params) = false ->
  materialByColor api (fenBefore (move params)) = Some beforeMaterial ->
  materialByColor api (fenAfter (move params)) = Some afterMaterial ->
  30 < scoreBeforeMover params - scoreAfterMover params <= 100 ->
  classifyMove api params
  = Ok {| classification := inaccuracy;
          centipawnLoss := scoreBeforeMover params - scoreAfterMover params |}.
Proof.
  intros Hgo Hforced Hbm Ham [Hlo Hhi].
  past_terminal Hgo.
  unfold scoreBeforeMover, scoreAfterMover in *.
  rewrite Hforced, Hbm, Ham.
  set (sb := evalToCpFromTurnPerspective (evalBefore params)) in *.
  set (sa := - evalToCpFromTurnPerspective (evalAfter params)) in *.
  pose proof (winChance_drop_100 sb sa ltac:(lia)) as Hwc.
  replace (Z.max 0 (sb - sa)) with (sb - sa) by lia.
  set (d := sb - sa) in *.
  assert (H25 : (d <=? 25) = false) by (apply Z.leb_gt; lia).
  assert (H10 : (d <=? 10) = false) by (apply Z.leb_gt; lia).
  assert (H15 : (d <=? 15) = false) by (apply Z.leb_gt; lia).
  rewrite H25, H10, H15, !andb_false_r. cbv iota.
  unfold ladder.
  assert (H250 : (250 <? d) = false) by (apply Z.ltb_ge; lia).
  assert (H100 : (100 <? d) = false) by (apply Z.ltb_ge; lia).
  assert (H30 : (30 <? d) = true) by (apply Z.ltb_lt; lia).
  rewrite H250, H100, H30.
  rewrite (Rgtb_false _ 30) by lra. rewrite (Rgtb_false _ 20) by lra.
  reflexivity.
Qed.

Lemma ladder_not_brilliant (cpl scoreBefore : Z) (wcLoss : R) (isBest : bool) :
  ladder cpl scoreBefore wcLoss isBest <> brilliant.
Proof. unfold ladder. repeat case_match; discriminate. Qed.

(** [classifyMove] answers [brilliant] only when the material counts of the
    positions before and after the move differ by a net sacrifice of 2 or
    more. *)
Lemma brilliant_needs_net_sacrifice (api : ChessApi) (params : Params)
  (beforeMaterial afterMaterial : Material) (v : Verdict) :
  materialByColor api (fenBefore (move params)) = Some beforeMaterial ->
  materialByColor api (fenAfter (move params)) = Some afterMaterial ->
  classifyMove api params = Ok v ->
  classification v = brilliant ->
  2 <= netSacrifice (turn (move params)) beforeMaterial afterMaterial.
Proof.
  intros Hbm Ham Hv Hb.
  destruct (Z_le_gt_dec 2 (netSacrifice (turn (move params)) beforeMaterial afterMaterial))
    as [Hle | Hlt]; [assumption | exfalso].
  unfold netSacrifice in Hlt. apply Z.gt_lt, Z.leb_gt in Hlt.
  unfold classifyMove in Hv; cbv zeta in Hv.
  rewrite Hbm, Ham, Hlt, andb_false_r in Hv. cbn [andb] in Hv.
  pose proof (ladder_not_brilliant
    (Z.max 0 (evalToCpFromTurnPerspective (evalBefore params)
              - - evalToCpFromTurnPerspective (evalAfter params)))
    (evalToCpFromTurnPerspective (evalBefore params))
    (winChance (IZR (evalToCpFromTurnPerspective (evalBefore params)))
     - winChance (IZR (- evalToCpFromTurnPerspective (evalAfter params))))
    (String.eqb (lan (move params)) (bestMoveLan params))) as Hlad.
  set (lad := ladder _ _ _ _) in *.
  repeat (case_match; simplify_eq; cbn in Hb; try discriminate); congruence.
Qed.

(** C1.  The code on a bishop sacrifice as [parsePgnMoves] records it.  The
    move 40. Ba6 leaves the bishop en prise; it is the preferred move, past
    the opening limit, neither ending the game nor forced.  The material
    counts of the positions before and after the move are the same (5 for
    White, 3 for Black), since the bishop is still on the board, so the net
    sacrifice [classifyMove] computes is 0 and not the 3 points given up.
    With score 120 before and 115 after for the mover (a loss of 5) the
    verdict is [best] with loss 5, not [brilliant]; with score 120 before
    and 40 after the loss is 80 and the verdict is [inaccuracy]. *)
Theorem en_prise_sacrifice_is_best :
  isBestMove enPrise_120_115 = true /\
  materialByColor Sample.api (fenBefore bishopSacrifice)
  = Some {| white := 5; black := 3 |} /\
  materialByColor Sample.api (fenAfter bishopSacrifice)
  = Some {| white := 5; black := 3 |} /\
  netSacrifice (turn bishopSacrifice) {| white := 5; black := 3 |}
    {| white := 5; black := 3 |} = 0 /\
  scoreBeforeMover enPrise_120_115 = 120 /\
  scoreAfterMover enPrise_120_115 = 115 /\
  endsGame Sample.api bishopSacrifice = false /\
  truthy (isOnlyLegalMove enPrise_120_115) = false /\
  openingPlyLimit enPrise_120_115 < ply bishopSacrifice /\
  classifyMove Sample.api enPrise_120_115
  = Ok {| classification := best; centipawnLoss := 5 |} /\
  scoreBeforeMover enPrise_120_40 = 120 /\
  scoreAfterMover enPrise_120_40 = 40 /\
  classifyMove Sample.api enPrise_120_40
  = Ok {| classification := inaccuracy; centipawnLoss := 80 |}.
Proof.
  split_and!; try (vm_compute; reflexivity); try reflexivity.
  exact (loss_31_100_inaccuracy Sample.api enPrise_120_40
           {| white := 5; black := 3 |} {| white := 5; black := 3 |}
           ltac:(vm_compute; reflexivity) eq_refl ltac:(vm_compute; reflexivity)
           ltac:(vm_compute; reflexivity)
           ltac:(vm_compute; split; [reflexivity | discriminate])).
Qed.

Lemma ladder_not_null (cpl scoreBefore : Z) (wcLoss : R) (isBest : bool) :
  ladder cpl scoreBefore wcLoss isBest <> null.
Proof. unfold ladder. repeat case_match; discriminate. Qed.

Lemma label_in_ten (c : MoveClassification) : c <> null -> In c tenLabels.
Proof. destruct c; simpl; intuition congruence. Qed.

(** C9. Past the terminal, forced and opening checks, a loss of exactly 10
    never yields [inaccuracy], [mistake] or [blunder]: a valid move gets a
    verdict, and every verdict has loss 10 and a label that is [good] or
    better. *)
Theorem loss_10_good_or_better (api : ChessApi) (params : Params) :
  endsGame api (move params) = false ->
  truthy (isOnlyLegalMove params) = false ->
  openingPlyLimit params < ply (move params) ->
  scoreBeforeMover params - scoreAfterMover params = 10 ->
  (validMove api (move params) -> exists v, classifyMove api params = Ok v)
  /\
  (forall v, classifyMove api params = Ok v ->
     centipawnLoss v = 10 /\
     goodOrBetter (classification v) = true /\
     classification v <> inaccuracy /\
     classification v <> mistake /\
     classification v <> blunder).
Proof.
  intros Hgo Hforced Hply Hloss.
  past_terminal Hgo.
  unfold scoreBeforeMover, scoreAfterMover in Hloss.
  rewrite Hforced.
  apply Z.leb_gt in Hply. rewrite Hply.
  set (sb := evalToCpFromTurnPerspective (evalBefore params)) in *.
  set (sa := - evalToCpFromTurnPerspective (evalAfter params)) in *.
  pose proof (winChance_drop_10 sb sa Hloss) as Hwc.
  replace (Z.max 0 (sb - sa)) with 10 by lia.
  assert (Hladder : forall isBest,
             ladder 10 sb (winChance (IZR sb) - winChance (IZR sa)) isBest
             = excellent).
  { intros isBest. unfold ladder.
    rewrite (Rgtb_false _ 30), (Rgtb_false _ 20), (Rgtb_false _ 10) by lra.
    reflexivity. }
  rewrite Hladder. cbn [andb].
  unfold materialByColor. split.
  - intros [[g1 Hg1] [g2 Hg2]]. rewrite Hg1, Hg2. eexists. reflexivity.
  - intros v Hv.
    repeat case_match; simplify_eq; cbn;
      (split; [reflexivity | split; [reflexivity | repeat split; discriminate]]).
Qed.

Lemma loss_10_good_or_better_witness :
  exists v, classifyMove Sample.api loss10Params = Ok v /\
            centipawnLoss v = 10 /\ goodOrBetter (classification v) = true.
Proof.
  destruct (loss_10_good_or_better Sample.api loss10Params) as [Hlive Hsafe].
  - vm_compute. reflexivity.
  - reflexivity.
  - vm_compute. reflexivity.
  - reflexivity.
  - destruct Hlive as [v Hv].
    + split; eexists; vm_compute; reflexivity.
    + exists v. destruct (Hsafe v Hv) as (Hl & Hg & _). auto.
Defined.

(** C10. [classifyMove] returns a verdict for every valid move, and every
    verdict it returns carries one of the ten labels, never [null], and a
    loss that is not negative.  (There is no verdict only when
    [materialByColor] is reached with a string that [new Chess] rejects.) *)
Theorem classifyMove_label_and_loss (api : ChessApi) (params : Params) :
  (validMove api (move params) -> exists v, classifyMove api params = Ok v)
  /\
  (forall v, classifyMove api params = Ok v ->
     In (classification v) tenLabels /\
     classification v <> null /\
     0 <= centipawnLoss v).
Proof.
  split.
  - intros [[g1 Hg1] [g2 Hg2]].
    unfold classifyMove; cbv zeta. unfold materialByColor.
    rewrite Hg1, Hg2. repeat case_match; eexists; reflexivity.
  - intros v Hv.
    assert (Hnn : classification v <> null /\ 0 <= centipawnLoss v).
    { revert Hv. unfold classifyMove; cbv zeta.
      set (sb := evalToCpFromTurnPerspective (evalBefore params)).
      set (sa := - evalToCpFromTurnPerspective (evalAfter params)).
      pose proof (ladder_not_null (Z.max 0 (sb - sa)) sb
                    (winChance (IZR sb) - winChance (IZR sa))
                    (String.eqb (lan (move params)) (bestMoveLan params))) as Hl.
      set (c0 := ladder _ _ _ _) in *. clearbody c0.
      pose proof (Z.le_max_l 0 (sb - sa)) as Hmax.
      set (cpl := Z.max 0 (sb - sa)) in *. clearbody cpl.
      intros Hv.
      repeat case_match; simplify_eq; cbn; split; (discriminate || lia || assumption). }
    destruct Hnn as [Hnull Hloss].
    split; [apply label_in_ten, Hnull | split; assumption].
Qed.

Lemma classifyMove_label_and_loss_witness :
  exists v, classifyMove Sample.api quietParams = Ok v /\
            In (classification v) tenLabels /\ 0 <= centipawnLoss v.
Proof.
  destruct (classifyMove_label_and_loss Sample.api quietParams) as [Hlive Hsafe].
  destruct Hlive as [v Hv].
  - split; eexists; vm_compute; reflexivity.
  - exists v. destruct (Hsafe v Hv) as (Hin & _ & Hloss). auto.
Defined.

(** C7, as stated, fails: a mate in 2 is normalised to 9980, below 9990,
    and a mate distance of 1000 is normalised to 0, which has no sign. *)
Lemma mate_2_below_9990 :
  evalToCpFromTurnPerspective
    {| cp := Some 50; mate := Some 2; depth := 18; nodes := None;
       bestMove := None; pv := None |} = 9980
  /\ ~ 9990 <= Z.abs 9980
  /\ evalToCpFromTurnPerspective
       {| cp := None; mate := Some 1000; depth := 18; nodes := None;
          bestMove := None; pv := None |} = 0
  /\ Z.sgn 0 <> Z.sgn 1000.
Proof. repeat split; try reflexivity; [lia | discriminate]. Qed.

(** C7, amended.  An evaluation with mate value [m], with or without a
    centipawn value, is normalised to [sgn m * (10000 - 10 * max 1 |m|)];
    for [1 <= |m| <= 999] the result has the sign of [m] and a magnitude
    between 10 and 9990, which reaches 9990 exactly when [|m| = 1]. *)
Theorem mate_normalisation (e : Evaluation) (m : Z) :
  mate e = Some m ->
  evalToCpFromTurnPerspective e = Z.sgn m * (10000 - 10 * Z.max 1 (Z.abs m))
  /\
  (1 <= Z.abs m <= 999 ->
   Z.sgn (evalToCpFromTurnPerspective e) = Z.sgn m /\
   10 <= Z.abs (evalToCpFromTurnPerspective e) <= 9990 /\
   (9990 <= Z.abs (evalToCpFromTurnPerspective e) <-> Z.abs m = 1)).
Proof.
  intros Hm. unfold evalToCpFromTurnPerspective. rewrite Hm. cbv zeta.
  split; [ring |].
  intros Hrange. destruct m as [| q | q]; cbn [Z.sgn Z.abs] in *; lia.
Qed.

Lemma mate_normalisation_witness :
  evalToCpFromTurnPerspective
    {| cp := Some 50; mate := Some (-3); depth := 18; nodes := None;
       bestMove := None; pv := None |} = -9970
  /\ Z.sgn (evalToCpFromTurnPerspective
              {| cp := Some 50; mate := Some (-3); depth := 18; nodes := None;
                 bestMove := None; pv := None |}) = Z.sgn (-3).
Proof.
  destruct (mate_normalisation
              {| cp := Some 50; mate := Some (-3); depth := 18; nodes := None;
                 bestMove := None; pv := None |} (-3) eq_refl) as [Heq Hrange].
  split.
  - rewrite Heq. reflexivity.
  - apply Hrange. vm_compute. split; discriminate.
Defined.

(** C8. [winChance 0 = 50], and [winChance] is symmetric about 0: the win
    chances of [cp] and [- cp] add up to 100 (over the reals, that is, up to
    the rounding of floating-point arithmetic). *)
Theorem winChance_symmetric :
  winChance 0 = 50%R /\
  forall cp : R, (winChance cp + winChance (- cp) = 100)%R.
Proof.
  split.
  - unfold winChance. rewrite Rmult_0_r, exp_0. lra.
  - intros c. rewrite !winChance_logistic.
    replace (- 0.00368208 * - c)%R with (- (- 0.00368208 * c))%R by lra.
    rewrite exp_Ropp.
    pose proof (exp_pos (- 0.00368208 * c)) as Hpos.
    field. lra.
Qed.

(** ** The adapter *)

Module StockfishFacts.

(** *** Fields after an update *)

Ltac by_fields st := destruct st; reflexivity.

Lemma worker_emit e st : worker (emit e st) = worker st.
Proof. by_fields st. Qed.
Lemma ready_emit e st : ready (emit e st) = ready st.
Proof. by_fields st. Qed.
Lemma pending_emit e st : pending (emit e st) = pending st.
Proof. by_fields st. Qed.
Lemma timers_emit e st : timers (emit e st) = timers st.
Proof. by_fields st. Qed.
Lemma nextTimer_emit e st : nextTimer (emit e st) = nextTimer st.
Proof. by_fields st. Qed.
Lemma effects_emit e st : effects (emit e st) = (effects st ++ [e])%list.
Proof. by_fields st. Qed.

Lemma worker_setPending o st : worker (setPending o st) = worker st.
Proof. by_fields st. Qed.
Lemma ready_setPending o st : ready (setPending o st) = ready st.
Proof. by_fields st. Qed.
Lemma pending_setPending o st : pending (setPending o st) = o.
Proof. by_fields st. Qed.
Lemma timers_setPending o st : timers (setPending o st) = timers st.
Proof. by_fields st. Qed.
Lemma nextTimer_setPending o st : nextTimer (setPending o st) = nextTimer st.
Proof. by_fields st. Qed.
Lemma effects_setPending o st : effects (setPending o st) = effects st.
Proof. by_fields st. Qed.

Lemma worker_clearTimeout id st : worker (clearTimeout id st) = worker st.
Proof. by_fields st. Qed.
Lemma ready_clearTimeout id st : ready (clearTimeout id st) = ready st.
Proof. by_fields st. Qed.
Lemma pending_clearTimeout id st : pending (clearTimeout id st) = pending st.
Proof. by_fields st. Qed.
Lemma timers_clearTimeout id st : timers (clearTimeout id st) = delete id (timers st).
Proof. by_fields st. Qed.
Lemma nextTimer_clearTimeout id st : nextTimer (clearTimeout id st) = nextTimer st.
Proof. by_fields st. Qed.
Lemma effects_clearTimeout id st : effects (clearTimeout id st) = effects st.
Proof. by_fields st. Qed.

Lemma worker_markReady st : worker (markReady st) = worker st.
Proof. by_fields st. Qed.
Lemma ready_markReady st : ready (markReady st) = true.
Proof. by_fields st. Qed.
Lemma pending_markReady st : pending (markReady st) = pending st.
Proof. by_fields st. Qed.
Lemma timers_markReady st : timers (markReady st) = timers st.
Proof. by_fields st. Qed.
Lemma nextTimer_markReady st : nextTimer (markReady st) = nextTimer st.
Proof. by_fields st. Qed.

Lemma pending_dropWorker st : pending (dropWorker st) = pending st.
Proof. by_fields st. Qed.
Lemma timers_dropWorker st : timers (dropWorker st) = timers st.
Proof. by_fields st. Qed.

Lemma worker_post cmd st : worker (post cmd st) = worker st.
Proof. unfold post. destruct (worker st) eqn:Hw; [rewrite worker_emit |]; exact Hw. Qed.
Lemma ready_post cmd st : ready (post cmd st) = ready st.
Proof. unfold post. destruct (worker st); [apply ready_emit | reflexivity]. Qed.
Lemma pending_post cmd st : pending (post cmd st) = pending st.
Proof. unfold post. destruct (worker st); [apply pending_emit | reflexivity]. Qed.
Lemma timers_post cmd st : timers (post cmd st) = timers st.
Proof. unfold post. destruct (worker st); [apply timers_emit | reflexivity]. Qed.
Lemma nextTimer_post cmd st : nextTimer (post cmd st) = nextTimer st.
Proof. unfold post. destruct (worker st); [apply nextTimer_emit | reflexivity]. Qed.
Lemma effects_post cmd st :
  worker st = true -> effects (post cmd st) = (effects st ++ [PostMessage cmd])%list.
Proof. intros Hw. unfold post. rewrite Hw. apply effects_emit. Qed.

Lemma worker_setTimeout t st : worker (snd (setTimeout t st)) = worker st.
Proof. by_fields st. Qed.
Lemma ready_setTimeout t st : ready (snd (setTimeout t st)) = ready st.
Proof. by_fields st. Qed.
Lemma pending_setTimeout t st : pending (snd (setTimeout t st)) = pending st.
Proof. by_fields st. Qed.
Lemma timers_setTimeout t st :
  timers (snd (setTimeout t st)) = <[nextTimer st := t]> (timers st).
Proof. by_fields st. Qed.
Lemma nextTimer_setTimeout t st : nextTimer (snd (setTimeout t st)) = S (nextTimer st).
Proof. by_fields st. Qed.
Lemma effects_setTimeout t st : effects (snd (setTimeout t st)) = effects st.
Proof. by_fields st. Qed.
Lemma id_setTimeout t st : fst (setTimeout t st) = nextTimer st.
Proof. by_fields st. Qed.

Create Rewrite HintDb engine.

#[export] Hint Rewrite
  worker_emit ready_emit pending_emit timers_emit nextTimer_emit effects_emit
  worker_setPending ready_setPending pending_setPending timers_setPending
  nextTimer_setPending effects_setPending
  worker_clearTimeout ready_clearTimeout pending_clearTimeout timers_clearTimeout
  nextTimer_clearTimeout effects_clearTimeout
  worker_markReady ready_markReady pending_markReady timers_markReady
  nextTimer_markReady pending_dropWorker timers_dropWorker
  worker_post ready_post pending_post timers_post nextTimer_post
  worker_setTimeout ready_setTimeout pending_setTimeout timers_setTimeout
  nextTimer_setTimeout effects_setTimeout id_setTimeout : engine.

Ltac fields := autorewrite with engine.

Lemma info_not_handshake (line : string) :
  startsWith line "info " = true ->
  String.eqb line "uciok" = false /\ String.eqb line "readyok" = false
  /\ startsWith line "bestmove" = false.
Proof.
  unfold startsWith. destruct line as [| c line]; [discriminate |].
  cbn [String.prefix]. destruct (ascii_dec "i" c) as [<- | _]; [| discriminate].
  intros _. repeat split; reflexivity.
Qed.

Lemma bestmove_not_handshake (line : string) :
  startsWith line "bestmove" = true ->
  String.eqb line "uciok" = false /\ String.eqb line "readyok" = false
  /\ startsWith line "info " = false.
Proof.
  unfold startsWith. destruct line as [| c line]; [discriminate |].
  cbn [String.prefix]. destruct (ascii_dec "b" c) as [<- | _]; [| discriminate].
  intros _. repeat split; reflexivity.
Qed.

(** What a worker line does to a pending request. *)
Lemma handleMessage_pending (line : string) (st : Engine) (p : PendingAnalysis) :
  pending st = Some p ->
  pending (handleMessage line st) = Some p
  \/ (startsWith line "info " = true /\
      pending (handleMessage line st) = Some (storeInfo line p))
  \/ (startsWith line "bestmove" = true /\ pending (handleMessage line st) = None).
Proof.
  intros Hp. unfold handleMessage.
  destruct (String.eqb line "uciok"); [left; fields; exact Hp |].
  destruct (String.eqb line "readyok");
    [left; destruct (resolveReady st); fields; exact Hp |].
  rewrite Hp.
  destruct (startsWith line "info "); [right; left; split; fields; reflexivity |].
  destruct (startsWith line "bestmove"); [right; right; split; fields; reflexivity |].
  left; exact Hp.
Qed.

Lemma storeInfo_same_request (line : string) (p : PendingAnalysis) :
  timeoutId (storeInfo line p) = timeoutId p /\
  multiPv (storeInfo line p) = multiPv p.
Proof. unfold storeInfo. repeat case_match; split; reflexivity. Qed.

(** One info line: every index keeps its evaluation or takes the parsed
    one, and the parsed one is taken only at its own index and only when its
    depth is at least the retained depth. *)
Lemma storeInfo_lookup (line : string) (p : PendingAnalysis) (i : Z) :
  results (storeInfo line p) !! i = results p !! i
  \/ exists ev, parseInfoLine line = Some (ev, i) /\
                results (storeInfo line p) !! i = Some ev /\
                forall old, results p !! i = Some old -> depth old <= depth ev.
Proof.
  unfold storeInfo.
  destruct (parseInfoLine line) as [[ev pvIdx] |] eqn:Hparse; [| left; reflexivity].
  destruct (decide (pvIdx = i)) as [-> | Hne].
  - destruct (results p !! i) as [existing |] eqn:Hex.
    + destruct (depth existing <=? depth ev) eqn:Hd.
      * right. exists ev. cbn. rewrite lookup_insert_eq.
        repeat split. intros old [= <-]. apply Z.leb_le, Hd.
      * left. exact Hex.
    + right. exists ev. cbn. rewrite lookup_insert_eq.
      repeat split. intros old Hold. discriminate.
  - left. repeat case_match; cbn; rewrite ?lookup_insert_ne by exact Hne; reflexivity.
Qed.

Lemma storeInfo_depth (line : string) (p : PendingAnalysis) (i : Z) (ev : Evaluation) :
  results p !! i = Some ev ->
  exists ev', results (storeInfo line p) !! i = Some ev' /\ depth ev <= depth ev'.
Proof.
  intros Hev.
  destruct (storeInfo_lookup line p i) as [Hsame | (ev' & _ & Hnew & Hd)].
  - exists ev. rewrite Hsame. split; [exact Hev | lia].
  - exists ev'. split; [exact Hnew | apply Hd, Hev].
Qed.

(** A line carrying [upperbound] or [lowerbound] parses to nothing. *)
Lemma parseInfoLine_bound (line : string) :
  test reBound line = true -> parseInfoLine line = None.
Proof.
  intros Hb. unfold parseInfoLine. rewrite Hb.
  destruct (capturedInt reDepth line); reflexivity.
Qed.

Lemma storeInfo_bound (line : string) (p : PendingAnalysis) :
  test reBound line = true -> storeInfo line p = p.
Proof. intros Hb. unfold storeInfo. rewrite (parseInfoLine_bound line Hb). reflexivity. Qed.

Lemma feed_cons (line : string) (lines : list string) (st : Engine) :
  feed (line :: lines) st = feed lines (handleMessage line st).
Proof. reflexivity. Qed.

Lemma feed_no_pending (lines : list string) :
  forall st, pending st = None -> pending (feed lines st) = None.
Proof.
  induction lines as [| line lines IH]; intros st Hst; [exact Hst |].
  rewrite feed_cons. apply IH.
  unfold handleMessage. rewrite Hst.
  repeat case_match; fields; exact Hst.
Qed.

(** While the same request stays pending, the depth retained at an index
    never decreases. *)
Lemma feed_depth (lines : list string) :
  forall (st : Engine) (p p' : PendingAnalysis),
    pending st = Some p ->
    pending (feed lines st) = Some p' ->
    timeoutId p' = timeoutId p /\
    forall i ev, results p !! i = Some ev ->
                 exists ev', results p' !! i = Some ev' /\ depth ev <= depth ev'.
Proof.
  induction lines as [| line lines IH]; intros st p p' Hp Hp'.
  - cbn in Hp'. rewrite Hp in Hp'. injection Hp' as <-.
    split; [reflexivity |]. intros i ev Hev. exists ev. split; [exact Hev | lia].
  - rewrite feed_cons in Hp'.
    destruct (handleMessage_pending line st p Hp) as [Hsame | [[_ Hinfo] | [_ Hnone]]].
    + exact (IH _ _ _ Hsame Hp').
    + destruct (IH _ _ _ Hinfo Hp') as [Hid Hmono].
      destruct (storeInfo_same_request line p) as [Hid' _].
      split; [congruence |].
      intros i ev Hev.
      destruct (storeInfo_depth line p i ev Hev) as (ev1 & Hev1 & Hd1).
      destruct (Hmono i ev1 Hev1) as (ev2 & Hev2 & Hd2).
      exists ev2. split; [exact Hev2 | lia].
    + rewrite (feed_no_pending lines _ Hnone) in Hp'. discriminate.
Qed.

(** *** Lines that carry a bound *)

Lemma search_skip (r : re) (pre rest : list ascii) :
  forall prev,
    run r (lastBefore prev pre) rest [] (fun _ _ caps => Some caps) <> None ->
    search r prev (pre ++ rest) <> None.
Proof.
  induction pre as [| c pre IH]; intros prev Hrun.
  - cbn [app lastBefore fold_left] in *.
    destruct rest as [| d rest]; cbn [search];
      destruct (run r prev _ [] _); congruence.
  - cbn [app search].
    destruct (run r prev _ [] _); [discriminate |].
    apply IH. exact Hrun.
Qed.

Lemma bound_word_found (line : string) :
  containsWord "upperbound" line \/ containsWord "lowerbound" line ->
  test reBound line = true.
Proof.
  intros Hword. unfold test, exec.
  assert (Hfound : search reBound None (list_ascii_of_string line) <> None).
  { destruct Hword as [(pre & post & -> & Hpre & Hpost)
                      | (pre & post & -> & Hpre & Hpost)];
      apply search_skip; cbn; rewrite Hpre, Hpost; cbn; discriminate. }
  destruct (search reBound None (list_ascii_of_string line)); congruence.
Qed.

(** *** The invariant *)

Lemma wf_newEngine : wf newEngine.
Proof. reflexivity. Qed.

(** [wf] reads the fields [pending], [worker], [ready], [timers] and
    [nextTimer] only. *)
Lemma wf_same_fields (st st' : Engine) :
  pending st' = pending st -> worker st' = worker st -> ready st' = ready st ->
  timers st' = timers st -> nextTimer st' = nextTimer st ->
  wf st -> wf st'.
Proof. unfold wf. intros -> -> -> -> ->. auto. Qed.

Lemma wf_emit (e : Effect) (st : Engine) : wf st -> wf (emit e st).
Proof. apply wf_same_fields; fields; reflexivity. Qed.

Lemma wf_post (cmd : string) (st : Engine) : wf st -> wf (post cmd st).
Proof. apply wf_same_fields; fields; reflexivity. Qed.

Lemma wf_no_pending (st : Engine) : pending st = None -> timers st = ∅ -> wf st.
Proof. unfold wf. intros -> Ht. exact Ht. Qed.

Lemma wf_rejectPending (reason : string) (st : Engine) :
  wf st -> wf (rejectPending reason st) /\ pending (rejectPending reason st) = None.
Proof.
  unfold rejectPending. intros Hwf. unfold wf in Hwf.
  destruct (pending st) as [p |] eqn:Hp.
  - destruct Hwf as (_ & _ & _ & ms & Ht).
    split; [apply wf_no_pending |]; fields; [reflexivity | | reflexivity].
    rewrite Ht. apply delete_singleton_eq.
  - split; [apply wf_no_pending; assumption | exact Hp].
Qed.

Lemma wf_handleMessage (line : string) (st : Engine) :
  wf st -> wf (handleMessage line st).
Proof.
  unfold handleMessage. intros Hwf.
  destruct (String.eqb line "uciok"); [do 2 apply wf_post; exact Hwf |].
  destruct (String.eqb line "readyok").
  { unfold wf in *. destruct (resolveReady st); fields;
      destruct (pending st); intuition. }
  destruct (pending st) as [p |] eqn:Hp; [| exact Hwf].
  pose proof Hwf as Hwf0. unfold wf in Hwf0. rewrite Hp in Hwf0.
  destruct Hwf0 as (Hw & Hr & Hlt & ms & Ht).
  destruct (startsWith line "info ").
  { unfold wf. fields. destruct (storeInfo_same_request line p) as [-> ->]. eauto 10. }
  destruct (startsWith line "bestmove"); [| exact Hwf].
  apply wf_no_pending; fields; [reflexivity |].
  rewrite Ht. apply delete_singleton_eq.
Qed.

(** The timer of the pending request expires. *)
Lemma fireTimeout_pending (st : Engine) (p : PendingAnalysis) :
  wf st -> pending st = Some p ->
  pending (fireTimeout (timeoutId p) st) = None /\
  timers (fireTimeout (timeoutId p) st) = ∅ /\
  effects (fireTimeout (timeoutId p) st)
  = (effects st
     ++ [PostMessage "stop";
         if match head (bestEffort (results p) (multiPv p)) with
            | Some ev => hasScore ev
            | None => false
            end
         then Resolved (timeoutId p) (bestEffort (results p) (multiPv p))
         else Rejected (timeoutId p) Timeout])%list.
Proof.
  unfold wf. intros Hwf Hp. rewrite Hp in Hwf.
  destruct Hwf as (Hw & Hr & Hlt & ms & Htm).
  unfold fireTimeout. rewrite Htm, lookup_singleton_eq.
  cbn [closureMultiPv]. rewrite pending_clearTimeout, Hp.
  assert (Hstop : effects (post "stop" (clearTimeout (timeoutId p) st))
                  = (effects st ++ [PostMessage "stop"])%list).
  { rewrite effects_post by (fields; exact Hw). fields. reflexivity. }
  assert (Hempty : delete (timeoutId p) (timers st) = ∅).
  { rewrite Htm. apply delete_singleton_eq. }
  destruct (bestEffort (results p) (multiPv p)) as [| ev evs] eqn:Hevs; cbn [head];
    [| destruct (hasScore ev)];
    fields; rewrite Hstop, Hempty, <- app_assoc; auto.
Qed.

Lemma wf_fireTimeout (id : nat) (st : Engine) :
  wf st -> wf (fireTimeout id st).
Proof.
  intros Hwf.
  destruct (timers st !! id) as [t |] eqn:Ht;
    [| unfold fireTimeout; rewrite Ht; exact Hwf].
  destruct (pending st) as [p |] eqn:Hp.
  - assert (Hid : id = timeoutId p).
    { unfold wf in Hwf. rewrite Hp in Hwf. destruct Hwf as (_ & _ & _ & ms & Htm).
      rewrite Htm in Ht. apply lookup_singleton_Some in Ht as [<- _]. reflexivity. }
    subst id.
    destruct (fireTimeout_pending st p Hwf Hp) as (Hnone & Hempty & _).
    apply wf_no_pending; assumption.
  - unfold wf in Hwf. rewrite Hp in Hwf. rewrite Hwf, lookup_empty in Ht. discriminate.
Qed.

Lemma analyzePosition_started (fen : string) (options : AnalyzeOptions) (st : Engine) :
  worker st = true -> ready st = true ->
  exists st',
    analyzePosition fen options st = Started (nextTimer st) st' /\
    worker st' = true /\ ready st' = true /\
    nextTimer st' = S (nextTimer st) /\
    pending st' = Some {| results := ∅; multiPv := default 1 (optMultiPv options);
                          timeoutId := nextTimer st |} /\
    timers st' =
      <[nextTimer st := {| delay := default 8000 (optTimeoutMs options);
                           closureMultiPv := default 1 (optMultiPv options) |}]>
        (match pending st with
         | Some p => delete (timeoutId p) (timers st)
         | None => timers st
         end) /\
    effects st' =
      (effects st
       ++ PostMessage "stop"
          :: match pending st with
             | Some p => [Rejected (timeoutId p) Cancelled]
             | None => []
             end
       ++ [PostMessage ("setoption name MultiPV value "
                        ++ showZ (default 1 (optMultiPv options)));
           PostMessage ("position fen " ++ fen);
           PostMessage (match optMoveTimeMs options with
                        | Some ms => if ms =? 0
                                     then "go depth " ++ showZ (default 18 (optDepth options))
                                     else "go movetime " ++ showZ ms
                        | None => "go depth " ++ showZ (default 18 (optDepth options))
                        end)])%list.
Proof.
  intros Hw Hr. unfold analyzePosition. rewrite Hw, Hr. cbn [negb].
  set (cancelled :=
         match pending (post "stop" st) with
         | Some p =>
             setPending None
               (emit (Rejected (timeoutId p) Cancelled)
                  (clearTimeout (timeoutId p) (post "stop" st)))
         | None => post "stop" st
         end).
  assert (Hc : worker cancelled = true /\ ready cancelled = true /\
               nextTimer cancelled = nextTimer st /\
               timers cancelled = match pending st with
                                  | Some p => delete (timeoutId p) (timers st)
                                  | None => timers st
                                  end /\
               effects cancelled
               = (effects st
                  ++ PostMessage "stop"
                     :: match pending st with
                        | Some p => [Rejected (timeoutId p) Cancelled]
                        | None => []
                        end)%list).
  { unfold cancelled. rewrite pending_post.
    destruct (pending st) as [p |]; fields; rewrite effects_post by exact Hw;
      rewrite <- ?app_assoc; auto. }
  destruct Hc as (Hcw & Hcr & Hcn & Hct & Hce). clearbody cancelled.
  set (tmr := {| delay := default 8000 (optTimeoutMs options);
                 closureMultiPv := default 1 (optMultiPv options) |}).
  destruct (setTimeout tmr cancelled) as [id st1] eqn:Hset.
  assert (Hid : id = nextTimer st).
  { rewrite <- Hcn, <- (id_setTimeout tmr cancelled), Hset. reflexivity. }
  assert (Hst1 : st1 = snd (setTimeout tmr cancelled)) by (rewrite Hset; reflexivity).
  subst id. eexists. split; [reflexivity |].
  rewrite !effects_post by (fields; rewrite Hst1; fields; exact Hcw).
  fields. rewrite Hst1. fields. rewrite Hcw, Hcr, Hcn, Hct, Hce.
  repeat split. rewrite <- !app_assoc. reflexivity.
Qed.

Lemma wf_step (st : Engine) (e : Event) : wf st -> wf (step st e).
Proof.
  intros Hwf. destruct e as [line | fen options | id | error |]; cbn [step].
  - apply wf_handleMessage, Hwf.
  - destruct (worker st) eqn:Hw; [| unfold analyzePosition; rewrite Hw; exact Hwf].
    destruct (ready st) eqn:Hr; [| unfold analyzePosition; rewrite Hw, Hr; exact Hwf].
    destruct (analyzePosition_started fen options st Hw Hr)
      as (st' & -> & Hw' & Hr' & Hn & Hp' & Ht' & _).
    unfold wf. rewrite Hp', Hw', Hr', Hn, Ht'. cbn.
    repeat split; [lia |]. eexists.
    unfold wf in Hwf. destruct (pending st) as [p |].
    + destruct Hwf as (_ & _ & _ & ms & ->). rewrite delete_singleton_eq. reflexivity.
    + rewrite Hwf. reflexivity.
  - apply wf_fireTimeout, Hwf.
  - apply wf_rejectPending, Hwf.
  - unfold quit.
    destruct (wf_rejectPending EngineTerminated st Hwf) as [Hwf' Hnone].
    unfold wf in Hwf'. rewrite Hnone in Hwf'.
    apply wf_no_pending; repeat case_match; fields; assumption.
Qed.

(** Every state the adapter reaches from its constructor satisfies [wf]. *)
Lemma wf_runEvents (es : list Event) : forall st, wf st -> wf (runEvents es st).
Proof.
  induction es as [| e es IH]; intros st Hwf; [exact Hwf |].
  apply (IH (step st e)), wf_step, Hwf.
Qed.

(** *** Lines of a request *)

Lemma handleMessage_info (line : string) (st : Engine) (p : PendingAnalysis) :
  pending st = Some p -> startsWith line "info " = true ->
  handleMessage line st = setPending (Some (storeInfo line p)) st.
Proof.
  intros Hp Hinfo. destruct (info_not_handshake line Hinfo) as (Hu & Hr & _).
  unfold handleMessage. rewrite Hu, Hr, Hp, Hinfo. reflexivity.
Qed.

Lemma handleMessage_bestmove (line : string) (st : Engine) (p : PendingAnalysis) :
  pending st = Some p -> startsWith line "bestmove" = true ->
  handleMessage line st
  = setPending None
      (emit (Resolved (timeoutId p)
               (finalResults p (option_map string_of_list_ascii
                                  (secondField (list_ascii_of_string line)))))
         (clearTimeout (timeoutId p) st)).
Proof.
  intros Hp Hbest. destruct (bestmove_not_handshake line Hbest) as (Hu & Hr & Hi).
  unfold handleMessage. rewrite Hu, Hr, Hp, Hi, Hbest. reflexivity.
Qed.

(** Info lines leave the request pending and settle nothing. *)
Lemma feed_infos (infos : list string) :
  forall (st : Engine) (p : PendingAnalysis),
    pending st = Some p ->
    Forall (fun line => startsWith line "info " = true) infos ->
    exists p', pending (feed infos st) = Some p' /\
               timeoutId p' = timeoutId p /\ multiPv p' = multiPv p /\
               effects (feed infos st) = effects st.
Proof.
  induction infos as [| line infos IH]; intros st p Hp Hall.
  - exists p. auto.
  - apply Forall_cons in Hall as [Hinfo Hall]. rewrite feed_cons.
    rewrite (handleMessage_info line st p Hp Hinfo).
    destruct (IH (setPending (Some (storeInfo line p)) st) (storeInfo line p)
                (pending_setPending _ st) Hall) as (p' & Hp' & Hid & Hmpv & Heff).
    destruct (storeInfo_same_request line p) as [Hid' Hmpv'].
    rewrite effects_setPending in Heff.
    exists p'. repeat split; [exact Hp' | congruence | congruence | exact Heff].
Qed.

Lemma feed_snoc (lines : list string) (line : string) (st : Engine) :
  feed (lines ++ [line]) st = handleMessage line (feed lines st).
Proof. unfold feed. rewrite fold_left_app. reflexivity. Qed.

Lemma lineIndices_from_1 (multiPv : Z) :
  1 <= multiPv -> exists rest, lineIndices multiPv = 1 :: rest.
Proof.
  intros Hpos. unfold lineIndices.
  destruct (Z.to_nat multiPv) as [| n] eqn:Hn; [lia |].
  cbn [seq map]. eexists. reflexivity.
Qed.

Lemma lineIndices_none (multiPv : Z) : multiPv < 1 -> lineIndices multiPv = [].
Proof.
  intros Hneg. unfold lineIndices.
  replace (Z.to_nat multiPv) with 0%nat by lia. reflexivity.
Qed.

Lemma bestEffort_lookup (res : gmap Z Evaluation) (multiPv i : Z) :
  1 <= i <= multiPv ->
  bestEffort res multiPv !! Z.to_nat (i - 1) = Some (lineOrDefault res i).
Proof.
  intros Hi. unfold bestEffort, lineIndices.
  rewrite !list_lookup_fmap, lookup_seq_lt by lia.
  cbn. do 2 f_equal. lia.
Qed.

End StockfishFacts.

Import StockfishFacts.

(** C4. While a request is pending, a worker line replaces the evaluation
    retained at an index only by the evaluation parsed from that line, for
    that index, and only when its depth is at least the retained depth; so
    over any sequence of lines the retained depth never decreases; and a
    line that contains [upperbound] or [lowerbound] changes nothing. *)
Theorem retained_depth_never_decreases (st : Engine) (p : PendingAnalysis) :
  pending st = Some p ->
  (forall line p',
     pending (handleMessage line st) = Some p' ->
     timeoutId p' = timeoutId p /\
     forall i,
       results p' !! i = results p !! i
       \/ exists ev, parseInfoLine line = Some (ev, i) /\
                     results p' !! i = Some ev /\
                     forall old, results p !! i = Some old -> depth old <= depth ev)
  /\
  (forall lines p',
     pending (feed lines st) = Some p' ->
     timeoutId p' = timeoutId p /\
     forall i ev, results p !! i = Some ev ->
                  exists ev', results p' !! i = Some ev' /\ depth ev <= depth ev')
  /\
  (forall line p',
     containsWord "upperbound" line \/ containsWord "lowerbound" line ->
     pending (handleMessage line st) = Some p' ->
     p' = p).
Proof.
  intros Hp. split; [| split].
  - intros line p' Hp'.
    destruct (handleMessage_pending line st p Hp) as [Hsame | [[_ Hinfo] | [_ Hnone]]].
    + rewrite Hsame in Hp'. injection Hp' as <-. split; [reflexivity |].
      intros i. left. reflexivity.
    + rewrite Hinfo in Hp'. injection Hp' as <-.
      split; [apply storeInfo_same_request | apply storeInfo_lookup].
    + rewrite Hnone in Hp'. discriminate.
  - intros lines p' Hp'. exact (feed_depth lines st p p' Hp Hp').
  - intros line p' Hword Hp'.
    destruct (handleMessage_pending line st p Hp) as [Hsame | [[_ Hinfo] | [_ Hnone]]].
    + congruence.
    + rewrite (storeInfo_bound line p (bound_word_found line Hword)) in Hinfo. congruence.
    + congruence.
Qed.

Lemma retained_depth_never_decreases_witness :
  (exists p' ev',
     pending
       (feed ["info depth 10 multipv 1 score cp 99 pv d2d4";
              "info depth 14 multipv 1 score cp 20 upperbound pv e2e4"] searching)
     = Some p' /\
     results p' !! 1 = Some ev' /\ 12 <= depth ev')
  /\ pending
       (handleMessage "info depth 14 multipv 1 score cp 20 upperbound pv e2e4" searching)
     = Some retained12.
Proof.
  destruct (retained_depth_never_decreases searching retained12)
    as (_ & Hmono & Hbound).
  - vm_compute. reflexivity.
  - split.
    + exists retained12.
      destruct (Hmono ["info depth 10 multipv 1 score cp 99 pv d2d4";
                       "info depth 14 multipv 1 score cp 20 upperbound pv e2e4"]
                  retained12) as [_ Hdepth].
      * vm_compute. reflexivity.
      * destruct (Hdepth 1 {| cp := Some 35; mate := None; depth := 12;
                              nodes := Some 4100; bestMove := Some "g1f3";
                              pv := Some "g1f3 b8c6" |}) as (ev' & Hev' & Hd).
        -- vm_compute. reflexivity.
        -- exists ev'. split; [vm_compute; reflexivity | split; [exact Hev' | exact Hd]].
    + destruct (pending (handleMessage _ searching)) as [p' |] eqn:Hp'.
      * f_equal. refine (Hbound _ p' _ Hp'). left.
        exists (list_ascii_of_string "info depth 14 multipv 1 score cp 20 "),
               (list_ascii_of_string " pv e2e4").
        repeat split; reflexivity.
      * revert Hp'. vm_compute. discriminate.
Defined.

(** C5. A call of [analyzePosition] while a request is pending posts
    [stop], rejects the pending promise with the cancellation error, and
    only then installs the new request (empty results, a fresh timer, the
    old timer disarmed) and posts its commands; the new request is then
    resolved by the next [bestmove] line, after any number of info lines. *)
Theorem new_request_cancels_pending
  (fen : string) (options : AnalyzeOptions) (st : Engine) (p : PendingAnalysis) :
  wf st -> pending st = Some p ->
  exists st',
    analyzePosition fen options st = Started (nextTimer st) st' /\
    nextTimer st <> timeoutId p /\
    effects st' =
      (effects st
       ++ [PostMessage "stop";
           Rejected (timeoutId p) Cancelled;
           PostMessage ("setoption name MultiPV value "
                        ++ showZ (default 1 (optMultiPv options)));
           PostMessage ("position fen " ++ fen);
           PostMessage (match optMoveTimeMs options with
                        | Some ms => if ms =? 0
                                     then "go depth " ++ showZ (default 18 (optDepth options))
                                     else "go movetime " ++ showZ ms
                        | None => "go depth " ++ showZ (default 18 (optDepth options))
                        end)])%list /\
    pending st' = Some {| results := ∅; multiPv := default 1 (optMultiPv options);
                          timeoutId := nextTimer st |} /\
    timers st' !! timeoutId p = None /\
    wf st' /\
    forall infos line,
      Forall (fun l => startsWith l "info " = true) infos ->
      startsWith line "bestmove" = true ->
      exists p',
        pending (feed infos st') = Some p' /\
        pending (feed (infos ++ [line]) st') = None /\
        effects (feed (infos ++ [line]) st')
        = (effects st'
           ++ [Resolved (nextTimer st)
                 (finalResults p' (option_map string_of_list_ascii
                                     (secondField (list_ascii_of_string line))))])%list.
Proof.
  intros Hwf Hp.
  pose proof Hwf as Hwf0. unfold wf in Hwf0. rewrite Hp in Hwf0.
  destruct Hwf0 as (Hw & Hr & Hlt & ms & Htm).
  destruct (analyzePosition_started fen options st Hw Hr)
    as (st' & Hcall & Hw' & Hr' & Hn & Hp' & Ht' & Heff).
  rewrite Hp in Ht', Heff.
  exists st'. split; [exact Hcall |]. split; [lia |]. split; [exact Heff |].
  split; [exact Hp' |]. split.
  { rewrite Ht', Htm, delete_singleton_eq, lookup_insert_ne by lia. apply lookup_empty. }
  split.
  { pose proof (wf_step st (Analyze fen options) Hwf) as Hstep.
    cbn [step] in Hstep. rewrite Hcall in Hstep. exact Hstep. }
  intros infos line Hinfos Hbest.
  destruct (feed_infos infos st' _ Hp' Hinfos) as (p' & Hfed & Hid & _ & Hsame).
  exists p'. split; [exact Hfed |].
  rewrite feed_snoc, (handleMessage_bestmove line _ p' Hfed Hbest).
  cbn in Hid. fields. rewrite Hsame, Hid. split; reflexivity.
Qed.

Lemma new_request_cancels_pending_witness :
  exists st',
    analyzePosition Sample.fenBishopGone twoLines searching = Started 1%nat st' /\
    effects (feed ["info depth 9 score cp 12 pv e1e2"; "bestmove e1e2 ponder a6a5"] st')
    = (effects searching
       ++ [PostMessage "stop";
           Rejected 0%nat Cancelled;
           PostMessage "setoption name MultiPV value 2";
           PostMessage ("position fen " ++ Sample.fenBishopGone);
           PostMessage "go depth 14";
           Resolved 1%nat
             [ {| cp := Some 12; mate := None; depth := 9; nodes := None;
                  bestMove := Some "e1e2"; pv := Some "e1e2" |};
               depthOnly 0 ]])%list.
Proof.
  destruct (new_request_cancels_pending Sample.fenBishopGone twoLines searching retained12)
    as (st' & Hcall & _ & Heff & _ & _ & _ & Hresolve).
  - apply (wf_runEvents _ readyEngine). vm_compute. reflexivity.
  - vm_compute. reflexivity.
  - exists st'. split; [exact Hcall |].
    revert Hcall. vm_compute. intros [= <-]. reflexivity.
Defined.

(** C6. When the timer of the pending request expires, the adapter posts
    [stop] and drops the request; the evaluations it assembles hold, for
    each requested index, the retained evaluation or [{ depth: 0 }]; with at
    least one line requested the promise is resolved with them when the
    evaluation retained for line 1 has a [cp] or a [mate], and rejected with
    the timeout error otherwise (also when no line is requested). *)
Theorem timeout_best_effort (st : Engine) (p : PendingAnalysis) :
  wf st -> pending st = Some p ->
  let st' := fireTimeout (timeoutId p) st in
  let evs := bestEffort (results p) (multiPv p) in
  let scored :=
    match results p !! 1 with
    | Some ev => match cp ev, mate ev with None, None => false | _, _ => true end
    | None => false
    end in
  pending st' = None /\
  length evs = Z.to_nat (multiPv p) /\
  (forall i, 1 <= i <= multiPv p ->
             evs !! Z.to_nat (i - 1)
             = Some (match results p !! i with Some ev => ev | None => depthOnly 0 end)) /\
  (1 <= multiPv p ->
   effects st'
   = (effects st
      ++ [PostMessage "stop";
          if scored then Resolved (timeoutId p) evs
          else Rejected (timeoutId p) Timeout])%list) /\
  (multiPv p < 1 ->
   effects st'
   = (effects st ++ [PostMessage "stop"; Rejected (timeoutId p) Timeout])%list).
Proof.
  intros Hwf Hp. cbv zeta.
  destruct (fireTimeout_pending st p Hwf Hp) as (Hnone & _ & Heff).
  split; [exact Hnone |]. split.
  { unfold bestEffort, lineIndices. rewrite !length_map, length_seq. reflexivity. }
  split; [intros i Hi; apply (bestEffort_lookup (results p) (multiPv p) i Hi) |].
  rewrite Heff. split.
  - intros Hpos. destruct (lineIndices_from_1 (multiPv p) Hpos) as [rest Hrest].
    unfold bestEffort at 1. rewrite Hrest. cbn [map head].
    unfold lineOrDefault at 1, hasScore.
    destruct (results p !! 1) as [ev |]; [| reflexivity].
    destruct (cp ev), (mate ev); reflexivity.
  - intros Hneg. unfold bestEffort. rewrite (lineIndices_none _ Hneg). reflexivity.
Qed.

Lemma timeout_best_effort_witness :
  effects (fireTimeout 0 searching)
  = (effects searching
     ++ [PostMessage "stop";
         Resolved 0%nat
           [ {| cp := Some 35; mate := None; depth := 12; nodes := Some 4100;
                bestMove := Some "g1f3"; pv := Some "g1f3 b8c6" |};
             depthOnly 0 ]])%list.
Proof.
  destruct (timeout_best_effort searching retained12) as (_ & _ & _ & Hres & _).
  - apply (wf_runEvents _ readyEngine). vm_compute. reflexivity.
  - vm_compute. reflexivity.
  - change (timeoutId retained12) with 0%nat in Hres.
    rewrite Hres by (vm_compute; discriminate). reflexivity.
Defined.

(** * Further properties *)

(** ** Win chance and the ladder (src/lib/analysis.ts) *)

Module LadderFacts.

Lemma winChance_monotone (a b : R) : (a <= b)%R -> (winChance a <= winChance b)%R.
Proof.
  intros Hab. rewrite !winChance_logistic.
  pose proof (exp_pos (- 0.00368208 * a)) as Ha.
  pose proof (exp_pos (- 0.00368208 * b)) as Hb.
  pose proof (exp_monotone (- 0.00368208 * b) (- 0.00368208 * a) ltac:(lra)) as Hexp.
  unfold Rdiv. apply Rmult_le_compat_l; [lra |].
  apply Rinv_le_contravar; lra.
Qed.

(** The drop in win chance is at most [100 * (c - 1) / (c + 1)] for
    [c = exp (0.00368208 * (a - b) / 2)]. *)
Lemma winChance_drop_tanh (a b : R) :
  (b <= a)%R ->
  ((winChance a - winChance b) * (exp (0.00368208 * (a - b) / 2) + 1)
   <= 100 * (exp (0.00368208 * (a - b) / 2) - 1))%R.
Proof.
  intros Hba. rewrite !winChance_logistic.
  set (u := exp (- 0.00368208 * a)).
  set (c := exp (0.00368208 * (a - b) / 2)).
  assert (Hu : (0 < u)%R) by apply exp_pos.
  assert (Hc : (1 <= c)%R).
  { unfold c. rewrite <- exp_0. apply exp_monotone. nra. }
  assert (Hv : exp (- 0.00368208 * b) = (u * (c * c))%R).
  { unfold u, c. rewrite <- !exp_plus. f_equal. lra. }
  rewrite Hv. clearbody u c.
  assert (Hcc : (0 < c * c)%R) by (apply Rmult_lt_0_compat; lra).
  assert (Hucc : (0 < u * (c * c))%R) by (apply Rmult_lt_0_compat; assumption).
  assert (Heq : (100 / (1 + u) - 100 / (1 + u * (c * c))
                 = 100 * u * (c * c - 1) / ((1 + u) * (1 + u * (c * c))))%R).
  { field. lra. }
  rewrite Heq.
  assert (Hden : (0 < (1 + u) * (1 + u * (c * c)))%R)
    by (apply Rmult_lt_0_compat; lra).
  apply (Rmult_le_reg_r ((1 + u) * (1 + u * (c * c)))); [exact Hden |].
  replace (100 * u * (c * c - 1) / ((1 + u) * (1 + u * (c * c))) * (c + 1)
           * ((1 + u) * (1 + u * (c * c))))%R
    with (100 * u * (c * c - 1) * (c + 1))%R by (field; lra).
  assert (Hsq : (0 <= (c - 1) * ((1 - u * c) * (1 - u * c)))%R).
  { apply Rmult_le_pos; [lra | apply (Rle_0_sqr (1 - u * c))]. }
  lra.
Qed.

(** A drop of at most [2 * x / 0.00368208] centipawns costs at most [T]
    points, when [1 / (1 - x) <= (100 + T) / (100 - T)]. *)
Lemma winChance_drop_within (a b x T : R) :
  (b <= a)%R -> (0.00368208 * (a - b) / 2 <= x)%R -> (x < 1)%R ->
  (0 <= T < 100)%R -> (100 - T <= (100 + T) * (1 - x))%R ->
  (winChance a - winChance b <= T)%R.
Proof.
  intros Hba Hx Hx1 HT Hnum.
  pose proof (winChance_drop_tanh a b Hba) as Htanh.
  set (c := exp (0.00368208 * (a - b) / 2)) in *.
  assert (Hc1 : (1 <= c)%R).
  { unfold c. rewrite <- exp_0. apply exp_monotone. nra. }
  assert (Hcx : (c * (1 - x) <= 1)%R).
  { pose proof (exp_monotone _ _ Hx) as Hmono. fold c in Hmono.
    pose proof (exp_times_one_minus x Hx1) as Hexp.
    pose proof (exp_pos x) as Hpos.
    apply Rle_trans with (exp x * (1 - x))%R; [| exact Hexp].
    apply Rmult_le_compat_r; lra. }
  clearbody c.
  apply (Rmult_le_reg_r (c + 1)); [lra |].
  apply Rle_trans with (100 * (c - 1))%R; [exact Htanh |].
  (* 100 (c - 1) <= T (c + 1)  <=>  c (100 - T) <= 100 + T *)
  assert (Hk : (c * (100 - T) <= 100 + T)%R).
  { apply Rle_trans with (c * ((100 + T) * (1 - x)))%R.
    - apply Rmult_le_compat_l; lra.
    - replace (c * ((100 + T) * (1 - x)))%R with ((100 + T) * (c * (1 - x)))%R by lra.
      replace (100 + T)%R with ((100 + T) * 1)%R at 2 by lra.
      apply Rmult_le_compat_l; lra. }
  lra.
Qed.

(** For integer scores, the win-chance loss stays below each threshold of
    the ladder as long as the loss stays below the matching one. *)
Lemma wcLoss_below (sb sa : Z) :
  let wcLoss := (winChance (IZR sb) - winChance (IZR sa))%R in
  (sb - sa <= 250 -> (wcLoss <= 30)%R) /\
  (sb - sa <= 100 -> (wcLoss <= 20)%R) /\
  (sb - sa <= 30 -> (wcLoss <= 10)%R).
Proof.
  cbv zeta.
  assert (Hneg : sb - sa <= 0 -> (winChance (IZR sb) - winChance (IZR sa) <= 0)%R).
  { intros Hle. apply IZR_le in Hle. rewrite minus_IZR in Hle.
    pose proof (winChance_monotone (IZR sb) (IZR sa) ltac:(lra)). lra. }
  assert (Hpos : forall D x T,
             0 < sb - sa <= D -> (0.00368208 * IZR D / 2 <= x)%R -> (x < 1)%R ->
             (0 <= T < 100)%R -> (100 - T <= (100 + T) * (1 - x))%R ->
             (winChance (IZR sb) - winChance (IZR sa) <= T)%R).
  { intros D x T [Hlo Hhi] Hx Hx1 HT Hnum.
    apply IZR_lt in Hlo. apply IZR_le in Hhi. rewrite minus_IZR in Hlo, Hhi.
    apply (winChance_drop_within _ _ x T); try assumption; lra. }
  repeat split; intros Hd;
    (destruct (Z_le_gt_dec (sb - sa) 0) as [Hle | Hgt];
     [specialize (Hneg Hle); lra |]).
  - apply (Hpos 250 0.46026%R 30%R); [lia | lra ..].
  - apply (Hpos 100 0.184104%R 20%R); [lia | lra ..].
  - apply (Hpos 30 0.0552312%R 10%R); [lia | lra ..].
Qed.

(** The ladder of [classifyMove] is the ladder on the loss alone. *)
Lemma ladder_is_ladderByLoss (sb sa : Z) (isBest : bool) :
  ladder (Z.max 0 (sb - sa)) sb (winChance (IZR sb) - winChance (IZR sa)) isBest
  = ladderByLoss (Z.max 0 (sb - sa)) sb isBest.
Proof.
  destruct (wcLoss_below sb sa) as (H30 & H20 & H10).
  unfold ladder, ladderByLoss.
  set (cpl := Z.max 0 (sb - sa)).
  destruct (250 <? cpl) eqn:E250.
  - cbn [orb]. apply Z.ltb_lt in E250.
    destruct (sb <? -500); [| reflexivity].
    replace (cpl <=? 100) with false by (symmetry; apply Z.leb_gt; lia).
    replace (cpl <=? 250) with false by (symmetry; apply Z.leb_gt; lia).
    reflexivity.
  - apply Z.ltb_ge in E250.
    rewrite (Rgtb_false _ 30) by (apply H30; unfold cpl in E250; lia). cbn [orb].
    destruct (100 <? cpl) eqn:E100; [reflexivity |].
    apply Z.ltb_ge in E100.
    rewrite (Rgtb_false _ 20) by (apply H20; unfold cpl in E100; lia). cbn [orb].
    destruct (30 <? cpl) eqn:E30; [reflexivity |].
    apply Z.ltb_ge in E30.
    rewrite (Rgtb_false _ 10) by (apply H10; unfold cpl in E30; lia). cbn [orb].
    reflexivity.
Qed.

End LadderFacts.

Import LadderFacts.

(** X1. The ladder of [classifyMove] depends on the loss alone: a win-chance
    loss above 30, 20 or 10 occurs only with a loss above 250, 100 or 30, so
    the ladder is the ladder on the loss; in particular a move with a loss
    above 250 is a [blunder] whatever the score before was. *)
Theorem ladder_ignores_win_chance (sb sa : Z) (isBest : bool) :
  let cpl := Z.max 0 (sb - sa) in
  let wcLoss := (winChance (IZR sb) - winChance (IZR sa))%R in
  (Rgtb wcLoss 30 = true -> 250 < cpl) /\
  (Rgtb wcLoss 20 = true -> 100 < cpl) /\
  (Rgtb wcLoss 10 = true -> 30 < cpl) /\
  ladder cpl sb wcLoss isBest = ladderByLoss cpl sb isBest /\
  (250 < cpl -> ladder cpl sb wcLoss isBest = blunder).
Proof.
  cbv zeta. destruct (wcLoss_below sb sa) as (H30 & H20 & H10).
  assert (Hgt : forall T D,
             (sb - sa <= D -> (winChance (IZR sb) - winChance (IZR sa) <= T)%R) ->
             0 <= D ->
             Rgtb (winChance (IZR sb) - winChance (IZR sa)) T = true ->
             D < Z.max 0 (sb - sa)).
  { intros T D Hbound HD Hb.
    destruct (Z_le_gt_dec (sb - sa) D) as [Hle | Hgt']; [| lia].
    rewrite (Rgtb_false _ T (Hbound Hle)) in Hb. discriminate. }
  split; [apply (Hgt 30%R 250 H30); lia |].
  split; [apply (Hgt 20%R 100 H20); lia |].
  split; [apply (Hgt 10%R 30 H10); lia |].
  split; [apply ladder_is_ladderByLoss |].
  intros Hbig. rewrite ladder_is_ladderByLoss. unfold ladderByLoss.
  apply Z.ltb_lt in Hbig. rewrite Hbig. reflexivity.
Qed.

Lemma ladder_ignores_win_chance_witness :
  ladder (Z.max 0 (-600 - -900)) (-600)
    (winChance (IZR (-600)) - winChance (IZR (-900))) false = blunder.
Proof.
  apply (ladder_ignores_win_chance (-600) (-900) false). reflexivity.
Defined.

(** [classifyMove] past its early returns. *)
Lemma classifyMove_normal (api : ChessApi) (params : Params)
  (beforeMaterial afterMaterial : Material) :
  endsGame api (move params) = false ->
  truthy (isOnlyLegalMove params) = false ->
  (ply (move params) <=? openingPlyLimit params) && (lossOf params <=? 25) = false ->
  materialByColor api (fenBefore (move params)) = Some beforeMaterial ->
  materialByColor api (fenAfter (move params)) = Some afterMaterial ->
  classifyMove api params = Ok (verdictTable api params beforeMaterial afterMaterial).
Proof.
  intros Hgo Hforced Hbook Hbm Ham.
  unfold verdictTable. rewrite Hgo, Hforced, Hbook.
  unfold brilliantCondition, greatCondition, lossOf, isBestMove, netSacrifice,
    scoreBeforeMover, scoreAfterMover in *.
  past_terminal Hgo. rewrite Hforced, Hbook, Hbm, Ham.
  rewrite ladder_is_ladderByLoss. unfold Math_round.
  set (sb := evalToCpFromTurnPerspective (evalBefore params)).
  set (sa := - evalToCpFromTurnPerspective (evalAfter params)).
  set (cpl := Z.max 0 (sb - sa)).
  set (isBest := String.eqb (lan (move params)) (bestMoveLan params)).
  set (lad := ladderByLoss cpl sb isBest).
  set (net := _ - _ - (_ - _)).
  destruct (secondBestEval params) as [sbe |].
  - destruct (150 <=? - evalToCpFromTurnPerspective sbe - sa), (-200 <? sb),
      isBest, (2 <=? net), (cpl <=? 15), (sb <? 600), (-300 <? sb), (-50 <? sa),
      (cpl <=? 10); cbn; try reflexivity; destruct lad; reflexivity.
  - destruct isBest, (2 <=? net), (cpl <=? 15), (sb <? 600), (-300 <? sb), (-50 <? sa),
      (cpl <=? 10); cbn; try reflexivity; destruct lad; reflexivity.
Qed.

(** X2. For a valid move [classifyMove] returns the verdict of the decision
    table [verdictTable]: [best] with loss 0 for a move that ends the game,
    else [forced] with loss 0 under the forced flag, else [book] within the
    opening limit with a loss of at most 25, else, with the loss
    [max 0 (scoreBefore - scoreAfter)], in this order:
    - [brilliant] when the move is the preferred one, the net sacrifice is
      at least 2, the loss at most 15, the score before strictly between
      -300 and 600 and the score after above -50;
    - [great] when the move is the preferred one, the loss is at most 10, a
      second-line evaluation is given, its normalised value negated exceeds
      the score after by at least 150, and the score before is above -200;
    - [best] when the move is the preferred one and the loss is at most 10;
    - the tier of the loss alone, [ladderByLoss], otherwise. *)
Theorem classifyMove_decision_table (api : ChessApi) (params : Params)
  (beforeMaterial afterMaterial : Material) :
  materialByColor api (fenBefore (move params)) = Some beforeMaterial ->
  materialByColor api (fenAfter (move params)) = Some afterMaterial ->
  classifyMove api params = Ok (verdictTable api params beforeMaterial afterMaterial).
Proof.
  intros Hbm Ham.
  destruct (endsGame api (move params)) eqn:Hgo.
  { unfold verdictTable. rewrite Hgo. unfold endsGame in Hgo.
    unfold classifyMove; cbv zeta.
    destruct (endsWith (san (move params)) "#"); [reflexivity |].
    cbn [orb] in Hgo. rewrite Hgo. reflexivity. }
  destruct (truthy (isOnlyLegalMove params)) eqn:Hforced.
  { unfold verdictTable. rewrite Hgo, Hforced. past_terminal Hgo.
    rewrite Hforced. reflexivity. }
  destruct ((ply (move params) <=? openingPlyLimit params) && (lossOf params <=? 25))
    eqn:Hbook.
  { unfold verdictTable. rewrite Hgo, Hforced, Hbook.
    unfold lossOf, scoreBeforeMover, scoreAfterMover in *.
    past_terminal Hgo. rewrite Hforced, Hbook. reflexivity. }
  apply classifyMove_normal; assumption.
Qed.

Lemma classifyMove_decision_table_witness :
  exists beforeMaterial afterMaterial,
    classifyMove Sample.api quietParams
    = Ok (verdictTable Sample.api quietParams beforeMaterial afterMaterial).
Proof.
  eexists. eexists.
  apply classifyMove_decision_table; vm_compute; reflexivity.
Defined.


Lemma ladder_labels (cpl scoreBefore : Z) (wcLoss : R) (isBest : bool) :
  In (ladder cpl scoreBefore wcLoss isBest)
     [blunder; mistake; inaccuracy; good; excellent; best].
Proof. unfold ladder. repeat case_match; cbn; tauto. Qed.

(** X3. The loss in a verdict is 0 for a move that ends the game or is
    forced and [max 0 (scoreBefore - scoreAfter)] otherwise; so, among moves
    that neither end the game nor are forced, the reported loss grows with
    [scoreBefore - scoreAfter]. *)
Theorem reported_loss (api : ChessApi) (params : Params) (v : Verdict) :
  classifyMove api params = Ok v ->
  centipawnLoss v
  = (if endsGame api (move params) || truthy (isOnlyLegalMove params)
     then 0 else lossOf params)
  /\
  forall params' v',
    classifyMove api params' = Ok v' ->
    endsGame api (move params) || truthy (isOnlyLegalMove params) = false ->
    endsGame api (move params') || truthy (isOnlyLegalMove params') = false ->
    scoreBeforeMover params - scoreAfterMover params
    <= scoreBeforeMover params' - scoreAfterMover params' ->
    centipawnLoss v <= centipawnLoss v'.
Proof.
  assert (Hloss : forall q u,
             classifyMove api q = Ok u ->
             centipawnLoss u
             = (if endsGame api (move q) || truthy (isOnlyLegalMove q)
                then 0 else lossOf q)).
  { intros q u. unfold endsGame, lossOf, scoreBeforeMover, scoreAfterMover.
    unfold classifyMove; cbv zeta. unfold Math_round.
    destruct (endsWith (san (move q)) "#"); [intros [= <-]; reflexivity |].
    cbn [orb].
    destruct (match newChess api (fenAfter (move q)) with
              | Some after => isGameOver api after
              | None => false
              end); [intros [= <-]; reflexivity |].
    cbn [orb].
    destruct (truthy (isOnlyLegalMove q)); [intros [= <-]; reflexivity |].
    destruct (_ && _); [intros [= <-]; reflexivity |].
    destruct (materialByColor api (fenBefore (move q))); [| discriminate].
    destruct (materialByColor api (fenAfter (move q))); [| discriminate].
    intros [= <-]. reflexivity. }
  intros Hv. split; [apply Hloss, Hv |].
  intros params' v' Hv' Hn Hn' Hle.
  rewrite (Hloss _ _ Hv), (Hloss _ _ Hv'), Hn, Hn'. unfold lossOf. lia.
Qed.

Lemma reported_loss_witness :
  exists v v',
    classifyMove Sample.api loss10Params = Ok v /\
    classifyMove Sample.api sacrifice_120_40 = Ok v' /\
    centipawnLoss v = 10 /\ centipawnLoss v <= centipawnLoss v'.
Proof.
  assert (H1 : classifyMove Sample.api loss10Params
               = Ok (verdictTable Sample.api loss10Params
                       {| white := 39; black := 39 |} {| white := 36; black := 39 |}))
    by (apply classifyMove_normal; vm_compute; reflexivity).
  assert (H2 : classifyMove Sample.api sacrifice_120_40
               = Ok (verdictTable Sample.api sacrifice_120_40
                       {| white := 39; black := 39 |} {| white := 36; black := 39 |}))
    by (apply classifyMove_normal; vm_compute; reflexivity).
  destruct (reported_loss Sample.api loss10Params _ H1) as [Heq Hmono].
  do 2 eexists. split; [exact H1 |]. split; [exact H2 |].
  split; [exact Heq |].
  apply (Hmono sacrifice_120_40 _ H2); vm_compute; (reflexivity || discriminate).
Defined.


(** X4. A move that is not the preferred one, played past the opening limit
    and neither ending the game nor forced, is classified by its loss alone:
    up to 10 [excellent], up to 30 [good], up to 100 [inaccuracy], up to 250
    [mistake] (an [inaccuracy] up to 150 when the score before was below
    -400), above 250 [blunder]. *)
Theorem loss_tiers (api : ChessApi) (params : Params)
  (beforeMaterial afterMaterial : Material) :
  materialByColor api (fenBefore (move params)) = Some beforeMaterial ->
  materialByColor api (fenAfter (move params)) = Some afterMaterial ->
  endsGame api (move params) = false ->
  truthy (isOnlyLegalMove params) = false ->
  openingPlyLimit params < ply (move params) ->
  isBestMove params = false ->
  exists v,
    classifyMove api params = Ok v /\
    centipawnLoss v = lossOf params /\
    (lossOf params <= 10 -> classification v = excellent) /\
    (10 < lossOf params <= 30 -> classification v = good) /\
    (30 < lossOf params <= 100 -> classification v = inaccuracy) /\
    (100 < lossOf params <= 250 ->
     classification v
     = if (scoreBeforeMover params <? -400) && (lossOf params <=? 150)
       then inaccuracy else mistake) /\
    (250 < lossOf params -> classification v = blunder).
Proof.
  intros Hbm Ham Hgo Hforced Hply Hbest.
  assert (Hbook : (ply (move params) <=? openingPlyLimit params)
                  && (lossOf params <=? 25) = false).
  { apply Z.leb_gt in Hply. rewrite Hply. reflexivity. }
  eexists. split; [apply classifyMove_normal; eassumption |].
  unfold verdictTable, brilliantCondition, greatCondition.
  rewrite Hgo, Hforced, Hbook, Hbest. cbn [andb classification centipawnLoss].
  split; [reflexivity |].
  assert (Hnn : 0 <= lossOf params) by (unfold lossOf; lia).
  unfold ladderByLoss.
  repeat split; intros Hl;
    repeat match goal with
      | |- context [?a <? ?b] =>
          first [ replace (a <? b) with true by (symmetry; apply Z.ltb_lt; lia)
                | replace (a <? b) with false by (symmetry; apply Z.ltb_ge; lia) ]
      end; repeat case_match; reflexivity.
Qed.

Lemma loss_tiers_witness :
  exists v, classifyMove Sample.api loss10Params = Ok v /\ classification v = excellent.
Proof.
  destruct (loss_tiers Sample.api loss10Params
              {| white := 39; black := 39 |} {| white := 36; black := 39 |})
    as (v & Hv & _ & Hex & _); try (vm_compute; reflexivity).
  exists v. split; [exact Hv |]. apply Hex. vm_compute. discriminate.
Defined.

(** X5. A verdict is [forced] exactly when the move does not end the game
    and the forced flag is set, and [book] exactly when, moreover without
    the flag, the ply is within the opening limit and the loss is at most
    25. *)
Theorem forced_and_book_exactly (api : ChessApi) (params : Params) (v : Verdict) :
  classifyMove api params = Ok v ->
  (classification v = forced <->
   endsGame api (move params) = false /\ truthy (isOnlyLegalMove params) = true)
  /\
  (classification v = book <->
   endsGame api (move params) = false /\ truthy (isOnlyLegalMove params) = false /\
   ply (move params) <= openingPlyLimit params /\ lossOf params <= 25).
Proof.
  unfold endsGame, lossOf, scoreBeforeMover, scoreAfterMover.
  unfold classifyMove; cbv zeta.
  set (sb := evalToCpFromTurnPerspective (evalBefore params)).
  set (sa := - evalToCpFromTurnPerspective (evalAfter params)).
  destruct (endsWith (san (move params)) "#");
    [intros [= <-]; cbn; split; split; (discriminate || intros [? ?]; discriminate) |].
  cbn [orb].
  destruct (match newChess api (fenAfter (move params)) with
            | Some after => isGameOver api after
            | None => false
            end);
    [intros [= <-]; cbn; split; split; (discriminate || intros [? ?]; discriminate) |].
  destruct (truthy (isOnlyLegalMove params)).
  { intros [= <-]; cbn. split; split; try tauto; try discriminate.
    intros (_ & Hf & _). discriminate. }
  destruct (ply (move params) <=? openingPlyLimit params) eqn:Hply;
    destruct (Z.max 0 (sb - sa) <=? 25) eqn:H25; cbn [andb].
  { intros [= <-]; cbn. apply Z.leb_le in Hply, H25.
    split; split; try tauto; try discriminate. intros [_ Hf]. discriminate. }
  all: pose proof (ladder_labels (Z.max 0 (sb - sa)) sb
                     (winChance (IZR sb) - winChance (IZR sa))
                     (String.eqb (lan (move params)) (bestMoveLan params))) as Hlad;
    set (lad := ladder _ _ _ _) in *; clearbody lad;
    destruct (materialByColor api (fenBefore (move params))); [| discriminate];
    destruct (materialByColor api (fenAfter (move params))); [| discriminate];
    intros [= <-]; cbn [classification];
    try apply Z.leb_gt in Hply; try apply Z.leb_gt in H25;
    (split; split; [| intros [_ Hf]; discriminate | | intros (_ & _ & ? & ?); lia]);
    intros Hc; exfalso; revert Hc;
    cbn in Hlad; repeat case_match; subst; try discriminate;
    intros ->; intuition congruence.
Qed.

Lemma forced_and_book_exactly_witness :
  exists v,
    classifyMove Sample.api (sacrifice_120_115 10) = Ok v /\
    classification v = book /\
    ply (move (sacrifice_120_115 10)) <= openingPlyLimit (sacrifice_120_115 10) /\
    lossOf (sacrifice_120_115 10) <= 25.
Proof.
  assert (Hv : classifyMove Sample.api (sacrifice_120_115 10)
               = Ok {| classification := book; centipawnLoss := 5 |}).
  { assert (Hgo : endsGame Sample.api (move (sacrifice_120_115 10)) = false)
      by (vm_compute; reflexivity).
    past_terminal Hgo. reflexivity. }
  destruct (forced_and_book_exactly Sample.api (sacrifice_120_115 10) _ Hv)
    as [_ [Hbook _]].
  eexists. split; [exact Hv |]. split; [reflexivity |].
  apply (Hbook eq_refl).
Defined.


(** ** Material and legal moves (src/lib/analysis.ts) *)

Lemma materialOfRow_sums (row : list (option Piece)) :
  forall acc,
    white (materialOfRow acc row) = white acc + sumZ (map (valueFor w) row) /\
    black (materialOfRow acc row) = black acc + sumZ (map (valueFor b) row).
Proof.
  unfold materialOfRow.
  induction row as [| sq row IH]; intros acc; cbn [fold_left map].
  - unfold sumZ. cbn. split; lia.
  - unfold sumZ. cbn [fold_right].
    destruct (IH (match sq with
                  | Some piece =>
                      match pcolor piece with
                      | w => {| white := white acc + PIECE_VALUE (ptype piece);
                                black := black acc |}
                      | b => {| white := white acc;
                                black := black acc + PIECE_VALUE (ptype piece) |}
                      end
                  | None => acc
                  end)) as [Hw Hb].
    fold (sumZ (map (valueFor w) row)) (sumZ (map (valueFor b) row)).
    rewrite Hw, Hb.
    destruct sq as [[t []] |]; cbn; split; lia.
Qed.

Lemma materialOfRows_sums (rows : list (list (option Piece))) :
  forall acc,
    white (fold_left materialOfRow rows acc)
    = white acc + sumZ (map (valueFor w) (concat rows)) /\
    black (fold_left materialOfRow rows acc)
    = black acc + sumZ (map (valueFor b) (concat rows)).
Proof.
  assert (Happ : forall c l1 l2,
             sumZ (map (valueFor c) (l1 ++ l2))
             = sumZ (map (valueFor c) l1) + sumZ (map (valueFor c) l2)).
  { intros c l1 l2. unfold sumZ.
    induction l1 as [| x l1 IH]; cbn [app map fold_right]; [reflexivity |].
    rewrite IH. lia. }
  induction rows as [| row rows IH]; intros acc; cbn [fold_left concat].
  - cbn. split; lia.
  - destruct (IH (materialOfRow acc row)) as [Hw Hb].
    destruct (materialOfRow_sums row acc) as [Hw' Hb'].
    rewrite Hw, Hb, Hw', Hb', !Happ. split; lia.
Qed.

Lemma valueFor_range (c : Color) (sq : option Piece) : 0 <= valueFor c sq <= 9.
Proof. destruct c, sq as [[[] []] |]; cbn; lia. Qed.

Lemma sumZ_values_range (c : Color) (l : list (option Piece)) :
  0 <= sumZ (map (valueFor c) l) <= 9 * Z.of_nat (length l).
Proof.
  unfold sumZ.
  induction l as [| sq l IH]; cbn [map fold_right length]; [lia |].
  pose proof (valueFor_range c sq). lia.
Qed.

(** X6. [materialByColor] throws exactly on the strings [new Chess]
    rejects; otherwise each side's material is the sum of the values of its
    pieces over all the squares of the board (pawn 1, knight and bishop 3,
    rook 5, queen 9, king 0), hence between 0 and 9 times the number of
    squares. *)
Theorem materialByColor_sums (api : ChessApi) (fen : string) :
  (materialByColor api fen = None <-> newChess api fen = None) /\
  forall g, newChess api fen = Some g ->
    exists m,
      materialByColor api fen = Some m /\
      white m = sumZ (map (valueFor w) (concat (board api g))) /\
      black m = sumZ (map (valueFor b) (concat (board api g))) /\
      0 <= white m <= 9 * Z.of_nat (length (concat (board api g))) /\
      0 <= black m <= 9 * Z.of_nat (length (concat (board api g))).
Proof.
  unfold materialByColor. split.
  - destruct (newChess api fen); split; congruence.
  - intros g ->. eexists. split; [reflexivity |].
    unfold materialOfBoard.
    destruct (materialOfRows_sums (board api g) {| white := 0; black := 0 |})
      as [Hw Hb].
    rewrite Hw, Hb. cbn [white black].
    repeat split; try lia; apply sumZ_values_range.
Qed.

Lemma materialByColor_sums_witness :
  exists m, materialByColor Sample.api Sample.fenStalemate = Some m /\
            white m = 9 /\ black m = 0.
Proof.
  destruct (materialByColor_sums Sample.api Sample.fenStalemate) as [_ Hsum].
  edestruct Hsum as (m & Hm & Hw & Hb & _); [vm_compute; reflexivity |].
  exists m. split; [exact Hm |]. rewrite Hw, Hb. vm_compute. split; reflexivity.
Defined.

(** X7. The forced-move test of pass 2 agrees with [countLegalMoves] on
    every string: a move is flagged as forced exactly when
    [countLegalMoves] of the position before it is at most 1, and the
    fallback 20 for a rejected string never counts as forced. *)
Theorem onlyLegalMove_counts (api : ChessApi) (m : ParsedMove) :
  onlyLegalMove api m = (countLegalMoves api (fenBefore m) <=? 1) /\
  0 <= countLegalMoves api (fenBefore m) /\
  (newChess api (fenBefore m) = None ->
   countLegalMoves api (fenBefore m) = 20 /\ onlyLegalMove api m = false).
Proof.
  unfold onlyLegalMove, countLegalMoves.
  destruct (newChess api (fenBefore m)) as [g |].
  - split; [| split; [lia | discriminate]].
    destruct (Nat.leb_spec (length (moves api g)) 1);
      symmetry; [apply Z.leb_le | apply Z.leb_gt]; lia.
  - repeat split; lia.
Qed.

Lemma onlyLegalMove_counts_witness :
  countLegalMoves Sample.api "not a position" = 20
  /\ onlyLegalMove Sample.api
       {| index := 0; ply := 1; san := "e4"; lan := "e2e4";
          fenBefore := "not a position"; fenAfter := Sample.fenOpen; turn := w |}
     = false.
Proof.
  apply (onlyLegalMove_counts Sample.api
           {| index := 0; ply := 1; san := "e4"; lan := "e2e4";
              fenBefore := "not a position"; fenAfter := Sample.fenOpen; turn := w |}).
  vm_compute. reflexivity.
Defined.

(** X8. [winChance] is a percentage, between 0 and 100, and it never
    decreases when the centipawn score increases. *)
Theorem winChance_range_monotone :
  (forall cp : R, (0 <= winChance cp <= 100)%R) /\
  (forall a b : R, (a <= b)%R -> (winChance a <= winChance b)%R).
Proof.
  split; [| exact winChance_monotone].
  intros c. rewrite winChance_logistic.
  pose proof (exp_pos (- 0.00368208 * c)) as Hpos.
  split.
  - apply Rlt_le, Rdiv_lt_0_compat; lra.
  - apply (Rmult_le_reg_r (1 + exp (- 0.00368208 * c))); [lra |].
    unfold Rdiv. rewrite Rmult_assoc, Rinv_l by lra. lra.
Qed.

Lemma winChance_range_monotone_witness :
  (winChance (-9990) <= winChance 9990)%R.
Proof.
  apply (proj2 winChance_range_monotone). lra.
Defined.


(** ** The adapter over whole runs (src/lib/stockfish.ts) *)

Module RunFacts.

Lemma runEvents_snoc (es : list Event) (e : Event) (st : Engine) :
  runEvents (es ++ [e]) st = step (runEvents es st) e.
Proof. unfold runEvents. rewrite fold_left_app. reflexivity. Qed.

Lemma settledCount_app (id : nat) (l1 l2 : list Effect) :
  settledCount id (l1 ++ l2) = (settledCount id l1 + settledCount id l2)%nat.
Proof. unfold settledCount. rewrite List.filter_app, length_app. reflexivity. Qed.

Lemma effects_post_any (cmd : string) (st : Engine) :
  effects (post cmd st) = effects st
  \/ effects (post cmd st) = (effects st ++ [PostMessage cmd])%list.
Proof.
  unfold post. destruct (worker st); [right; apply effects_emit | left; reflexivity].
Qed.

Lemma settledCount_post (id : nat) (cmd : string) (st : Engine) :
  settledCount id (effects (post cmd st)) = settledCount id (effects st).
Proof.
  destruct (effects_post_any cmd st) as [-> | ->]; [reflexivity |].
  rewrite settledCount_app. unfold settledCount at 2. cbn. lia.
Qed.

Lemma settles_self (id : nat) : (id =? id)%nat = true.
Proof. apply Nat.eqb_refl. Qed.

Lemma settledOnce_same (st st' : Engine) :
  (forall id, settledCount id (effects st') = settledCount id (effects st)) ->
  nextTimer st' = nextTimer st -> pending st' = pending st ->
  settledOnce st -> settledOnce st'.
Proof.
  intros Hc Hn Hp (H1 & H2 & H3). unfold settledOnce.
  rewrite Hn, Hp. repeat split; intros; rewrite Hc; auto.
Qed.

(** Settling the pending request keeps the invariant. *)
Lemma settledOnce_settle (st st' : Engine) (p : PendingAnalysis) (e : Effect)
  (others : list Effect) :
  settledOnce st -> wf st -> pending st = Some p ->
  settles (timeoutId p) e = true ->
  (forall id, id <> timeoutId p -> settles id e = false) ->
  (forall id, settledCount id others = 0%nat) ->
  (forall id, settledCount id (effects st')
              = settledCount id (effects st ++ others ++ [e])) ->
  nextTimer st' = nextTimer st -> pending st' = None ->
  settledOnce st'.
Proof.
  intros (H1 & H2 & H3) Hwf Hp He Hother Hothers Heff Hn Hnone.
  unfold wf in Hwf. rewrite Hp in Hwf. destruct Hwf as (_ & _ & Hlt & _).
  assert (Hcount : forall id,
             settledCount id (effects st')
             = (settledCount id (effects st)
                + if (id =? timeoutId p)%nat then 1 else 0)%nat).
  { intros id. rewrite Heff, !settledCount_app, Hothers.
    unfold settledCount at 2. cbn [List.filter].
    destruct (Nat.eqb_spec id (timeoutId p)) as [-> | Hne].
    - rewrite He. cbn. lia.
    - rewrite (Hother id Hne). cbn. lia. }
  unfold settledOnce. rewrite Hn, Hnone.
  repeat split.
  - intros id. rewrite Hcount.
    destruct (Nat.eqb_spec id (timeoutId p)) as [-> | Hne].
    + rewrite (H3 p Hp). lia.
    + specialize (H1 id). lia.
  - intros id Hid. rewrite Hcount.
    destruct (Nat.eqb_spec id (timeoutId p)) as [-> | Hne]; [lia |].
    rewrite (H2 id Hid). lia.
  - discriminate.
Qed.

Lemma settledOnce_rejectPending (reason : string) (st : Engine) :
  settledOnce st -> wf st -> settledOnce (rejectPending reason st).
Proof.
  intros Hs Hwf. unfold rejectPending.
  destruct (pending st) as [p |] eqn:Hp; [| exact Hs].
  apply (settledOnce_settle st _ p (Rejected (timeoutId p) reason) []);
    try assumption; fields; try reflexivity.
  - cbn. apply Nat.eqb_refl.
  - intros id Hne. cbn. apply Nat.eqb_neq. congruence.
Qed.

Lemma settledOnce_handleMessage (line : string) (st : Engine) :
  settledOnce st -> wf st -> settledOnce (handleMessage line st).
Proof.
  intros Hs Hwf. unfold handleMessage.
  destruct (String.eqb line "uciok").
  { apply (settledOnce_same st); fields; try reflexivity; [| assumption].
    intros id. rewrite !settledCount_post. reflexivity. }
  destruct (String.eqb line "readyok").
  { destruct (resolveReady st);
      (apply (settledOnce_same st); fields; try reflexivity; [| assumption]);
      intros id; destruct st; cbn [effects emit markReady]; [| reflexivity].
    rewrite settledCount_app. unfold settledCount at 2. cbn. lia. }
  destruct (pending st) as [p |] eqn:Hp; [| exact Hs].
  destruct (startsWith line "info ").
  { destruct Hs as (H1 & H2 & H3). unfold settledOnce. fields.
    repeat split; try assumption.
    intros p' [= <-]. destruct (storeInfo_same_request line p) as [-> _].
    apply H3. exact Hp. }
  destruct (startsWith line "bestmove"); [| exact Hs].
  apply (settledOnce_settle st _ p
           (Resolved (timeoutId p)
              (finalResults p (option_map string_of_list_ascii
                                 (secondField (list_ascii_of_string line))))) []);
    try assumption; fields; try reflexivity.
  - cbn. apply Nat.eqb_refl.
  - intros id Hne. cbn. apply Nat.eqb_neq. congruence.
Qed.

Lemma settledOnce_fireTimeout (id : nat) (st : Engine) :
  settledOnce st -> wf st -> settledOnce (fireTimeout id st).
Proof.
  intros Hs Hwf.
  destruct (timers st !! id) as [t |] eqn:Ht;
    [| unfold fireTimeout; rewrite Ht; exact Hs].
  destruct (pending st) as [p |] eqn:Hp.
  - assert (Hid : id = timeoutId p).
    { unfold wf in Hwf. rewrite Hp in Hwf. destruct Hwf as (_ & _ & _ & ms & Htm).
      rewrite Htm in Ht. apply lookup_singleton_Some in Ht as [<- _]. reflexivity. }
    subst id.
    destruct (fireTimeout_pending st p Hwf Hp) as (Hnone & _ & Heff).
    assert (Hn : nextTimer (fireTimeout (timeoutId p) st) = nextTimer st).
    { unfold fireTimeout. rewrite Ht. fields. rewrite Hp.
      repeat case_match; fields; reflexivity. }
    set (e := if match head (bestEffort (results p) (multiPv p)) with
                 | Some ev => hasScore ev
                 | None => false
                 end
              then Resolved (timeoutId p) (bestEffort (results p) (multiPv p))
              else Rejected (timeoutId p) Timeout) in *.
    apply (settledOnce_settle st _ p e [PostMessage "stop"]); try assumption.
    + unfold e. case_match; cbn; apply Nat.eqb_refl.
    + intros id Hne. unfold e. case_match; cbn; apply Nat.eqb_neq; congruence.
    + reflexivity.
    + intros id. rewrite Heff. reflexivity.
  - unfold wf in Hwf. rewrite Hp in Hwf. rewrite Hwf, lookup_empty in Ht. discriminate.
Qed.

Lemma settledOnce_analyze (fen : string) (options : AnalyzeOptions) (st st' : Engine)
  (id : nat) :
  settledOnce st -> wf st -> analyzePosition fen options st = Started id st' ->
  settledOnce st'.
Proof.
  intros Hs Hwf Hcall.
  assert (Hw : worker st = true).
  { unfold analyzePosition in Hcall. destruct (worker st); [reflexivity | discriminate]. }
  assert (Hr : ready st = true).
  { unfold analyzePosition in Hcall. rewrite Hw in Hcall. cbn in Hcall.
    destruct (ready st); [reflexivity | discriminate]. }
  destruct (analyzePosition_started fen options st Hw Hr)
    as (st1 & Hcall' & _ & _ & Hn & Hp' & _ & Heff).
  rewrite Hcall in Hcall'. injection Hcall' as _ <-.
  destruct Hs as (H1 & H2 & H3).
  assert (Hcount : forall i,
             settledCount i (effects st')
             = (settledCount i (effects st)
                + match pending st with
                  | Some p => if (timeoutId p =? i)%nat then 1 else 0
                  | None => 0
                  end)%nat).
  { intros i. rewrite Heff, !settledCount_app.
    destruct (pending st) as [p |]; unfold settledCount; cbn;
      [destruct (timeoutId p =? i)%nat |]; cbn; lia. }
  assert (Hold : forall p, pending st = Some p -> (timeoutId p < nextTimer st)%nat).
  { intros p Hp. unfold wf in Hwf. rewrite Hp in Hwf. tauto. }
  unfold settledOnce. rewrite Hn, Hp'. repeat split.
  - intros i. rewrite Hcount. destruct (pending st) as [p |] eqn:Hp.
    + destruct (Nat.eqb_spec (timeoutId p) i) as [<- | Hne].
      * rewrite (H3 p eq_refl). lia.
      * specialize (H1 i). lia.
    + specialize (H1 i). lia.
  - intros i Hi. rewrite Hcount, (H2 i) by lia.
    destruct (pending st) as [p |] eqn:Hp; [| reflexivity].
    specialize (Hold p eq_refl).
    destruct (Nat.eqb_spec (timeoutId p) i); [lia | reflexivity].
  - intros p' [= <-]. cbn [timeoutId]. rewrite Hcount, (H2 (nextTimer st)) by lia.
    destruct (pending st) as [p |] eqn:Hp; [| reflexivity].
    specialize (Hold p eq_refl).
    destruct (Nat.eqb_spec (timeoutId p) (nextTimer st)); [lia | reflexivity].
Qed.

Lemma effects_dropWorker st : effects (dropWorker st) = effects st.
Proof. destruct st; reflexivity. Qed.

Lemma nextTimer_dropWorker st : nextTimer (dropWorker st) = nextTimer st.
Proof. destruct st; reflexivity. Qed.

Lemma settledCount_emit_other (id : nat) (e : Effect) (st : Engine) :
  settles id e = false ->
  settledCount id (effects (emit e st)) = settledCount id (effects st).
Proof.
  intros He. rewrite effects_emit, settledCount_app.
  unfold settledCount at 2. cbn [List.filter]. rewrite He. cbn. lia.
Qed.

Lemma settledOnce_quit (st : Engine) : settledOnce st -> wf st -> settledOnce (quit st).
Proof.
  intros Hs Hwf. unfold quit.
  pose proof (settledOnce_rejectPending EngineTerminated st Hs Hwf) as Hs1.
  set (st1 := rejectPending EngineTerminated st) in *. clearbody st1.
  apply (settledOnce_same st1); [| | | exact Hs1].
  - intros id. rewrite effects_dropWorker.
    destruct (worker (post "quit" st1));
      rewrite ?settledCount_emit_other by reflexivity; apply settledCount_post.
  - rewrite nextTimer_dropWorker.
    destruct (worker (post "quit" st1)); fields; reflexivity.
  - rewrite pending_dropWorker.
    destruct (worker (post "quit" st1)); fields; reflexivity.
Qed.

Lemma settledOnce_step (st : Engine) (e : Event) :
  settledOnce st -> wf st -> settledOnce (step st e).
Proof.
  intros Hs Hwf. destruct e as [line | fen options | id | error |]; cbn [step].
  - apply settledOnce_handleMessage; assumption.
  - destruct (analyzePosition fen options st) as [id st' | |] eqn:Hcall; try exact Hs.
    exact (settledOnce_analyze fen options st st' id Hs Hwf Hcall).
  - apply settledOnce_fireTimeout; assumption.
  - apply settledOnce_rejectPending; assumption.
  - apply settledOnce_quit; assumption.
Qed.

Lemma settledOnce_run (es : list Event) :
  settledOnce (runEvents es newEngine) /\ wf (runEvents es newEngine).
Proof.
  induction es as [| e es IH] using rev_ind.
  - split; [| exact wf_newEngine].
    repeat split; intros; cbn; try lia; discriminate.
  - rewrite runEvents_snoc. destruct IH as [Hs Hwf].
    split; [apply settledOnce_step | apply wf_step]; assumption.
Qed.

End RunFacts.

Import RunFacts.

(** X9. Whatever lines, calls, timer expiries, errors and teardown follow
    the creation of the adapter, the promise of a request is settled
    (resolved or rejected) at most once, and as long as a request is pending
    its promise has not been settled. *)
Theorem settled_at_most_once (es : list Event) :
  (forall id, (settledCount id (effects (runEvents es newEngine)) <= 1)%nat) /\
  (forall p, pending (runEvents es newEngine) = Some p ->
             settledCount (timeoutId p) (effects (runEvents es newEngine)) = 0%nat).
Proof.
  destruct (settledOnce_run es) as [(H1 & _ & H3) _]. split; assumption.
Qed.

Lemma settled_at_most_once_witness :
  settledCount 0 (effects searching) = 0%nat.
Proof.
  destruct (settled_at_most_once
              [Line "uciok"; Line "readyok"; Analyze Sample.fenOpen twoLines;
               Line "info depth 12 seldepth 16 multipv 1 score cp 35 nodes 4100 pv g1f3 b8c6"])
    as [_ Hpending].
  apply (Hpending retained12). vm_compute. reflexivity.
Defined.


(** X10. A timer that is not the pending request's does nothing when it
    expires: in a reachable state only the timer of the pending request is
    armed, so once a request has been resolved, cancelled or rejected, the
    expiry of its timer neither stops the engine nor settles anything. *)
Theorem stale_timer_is_ignored (es : list Event) (id : nat) :
  (forall p, pending (runEvents es newEngine) = Some p -> timeoutId p <> id) ->
  fireTimeout id (runEvents es newEngine) = runEvents es newEngine.
Proof.
  intros Hother. destruct (settledOnce_run es) as [_ Hwf].
  set (st := runEvents es newEngine) in *. clearbody st.
  unfold fireTimeout, wf in *.
  destruct (pending st) as [p |] eqn:Hp.
  - destruct Hwf as (_ & _ & _ & ms & ->).
    rewrite lookup_singleton_ne by (apply Hother; reflexivity). reflexivity.
  - rewrite Hwf, lookup_empty. reflexivity.
Qed.

Lemma stale_timer_is_ignored_witness :
  fireTimeout 0
    (runEvents [Line "uciok"; Line "readyok"; Analyze Sample.fenOpen twoLines;
                Line "bestmove e2e4"] newEngine)
  = runEvents [Line "uciok"; Line "readyok"; Analyze Sample.fenOpen twoLines;
               Line "bestmove e2e4"] newEngine.
Proof.
  apply stale_timer_is_ignored. intros p. vm_compute. discriminate.
Defined.

Lemma effects_markReady st : effects (markReady st) = effects st.
Proof. destruct st; reflexivity. Qed.

Lemma worker_dropWorker st : worker (dropWorker st) = false.
Proof. destruct st; reflexivity. Qed.

(** One event on an adapter without worker, request and timer. *)
Lemma step_after_quit (st : Engine) (ev : Event) :
  worker st = false -> pending st = None -> timers st = ∅ ->
  worker (step st ev) = false /\ pending (step st ev) = None /\
  timers (step st ev) = ∅ /\
  (effects (step st ev) = effects st
   \/ effects (step st ev) = (effects st ++ [ReadyResolved])%list).
Proof.
  intros Hw Hp Ht.
  assert (Hpost : forall cmd, post cmd st = st).
  { intros cmd. unfold post. rewrite Hw. reflexivity. }
  destruct ev as [line | fen options | id | error |]; cbn [step].
  - unfold handleMessage.
    destruct (String.eqb line "uciok"); [rewrite !Hpost; auto |].
    destruct (String.eqb line "readyok").
    + destruct (resolveReady st); fields; rewrite ?effects_markReady; auto.
    + rewrite Hp. auto.
  - unfold analyzePosition. rewrite Hw. auto.
  - unfold fireTimeout. rewrite Ht, lookup_empty. auto.
  - unfold onerror, rejectPending. rewrite Hp. auto.
  - unfold quit, rejectPending. rewrite Hp, Hpost, Hw.
    rewrite worker_dropWorker, pending_dropWorker, timers_dropWorker, effects_dropWorker.
    auto.
Qed.


(** ** What [parseInfoLine] yields (src/lib/stockfish.ts) *)

Module ParseFacts.

Lemma star_continues {A : Type} (f : ascii -> bool) (s : list ascii) :
  forall prev caps (k : @cont A) a,
    star f prev s caps k = Some a ->
    exists ds s' prev',
      s = (ds ++ s')%list /\ Forall (fun c => f c = true) ds /\
      k prev' s' caps = Some a.
Proof.
  induction s as [| c s IH]; intros prev caps k a Hstar; cbn [star] in Hstar.
  - exists [], [], prev. auto.
  - destruct (f c) eqn:Hc.
    + destruct (star f (Some c) s caps k) as [a' |] eqn:Hrec.
      * injection Hstar as <-.
        destruct (IH _ _ _ _ Hrec) as (ds & s' & prev' & -> & Hds & Hk).
        exists (c :: ds), s', prev'. repeat split; auto.
      * exists [], (c :: s), prev. auto.
    + exists [], (c :: s), prev. auto.
Qed.

Lemma run_noGroup {A : Type} (r : re) :
  noGroup r = true ->
  forall prev s caps (k : @cont A) a,
    run r prev s caps k = Some a ->
    exists prev' s', k prev' s' caps = Some a.
Proof.
  induction r as [| c | f | f | r IH | r1 IH1 r2 IH2 | r1 IH1 r2 IH2 | | | | r IH];
    intros Hng prev s caps k a Hrun; cbn [run noGroup] in *; try discriminate.
  - eauto.
  - destruct s as [| d s]; [discriminate |].
    destruct (Ascii.eqb c d); [eauto | discriminate].
  - destruct s as [| d s]; [discriminate |].
    destruct (f d); [eauto | discriminate].
  - destruct s as [| d s]; [discriminate |].
    destruct (f d); [| discriminate].
    destruct (star_continues f s _ _ _ _ Hrun) as (ds & s' & prev' & _ & _ & Hk). eauto.
  - destruct (run r prev s caps k) as [a' |] eqn:Hr; [| eauto].
    injection Hrun as <-. exact (IH Hng _ _ _ _ _ Hr).
  - apply andb_prop in Hng as [Hn1 Hn2].
    destruct (IH1 Hn1 _ _ _ _ _ Hrun) as (prev1 & s1 & Hmid).
    exact (IH2 Hn2 _ _ _ _ _ Hmid).
  - apply andb_prop in Hng as [Hn1 Hn2].
    destruct (run r1 prev s caps k) as [a' |] eqn:Hr.
    + injection Hrun as <-. exact (IH1 Hn1 _ _ _ _ _ Hr).
    + exact (IH2 Hn2 _ _ _ _ _ Hrun).
  - destruct (xorb _ _); [eauto | discriminate].
  - destruct prev; [discriminate | eauto].
  - destruct s; [eauto | discriminate].
Qed.

Lemma run_seq_noGroup {A : Type} (r1 r2 : re) :
  noGroup r1 = true ->
  forall prev s caps (k : @cont A) a,
    run (Seq r1 r2) prev s caps k = Some a ->
    exists prev' s', run r2 prev' s' caps k = Some a.
Proof.
  intros H1 prev s caps k a Hrun.
  change (run (Seq r1 r2) prev s caps k)
    with (run r1 prev s caps (fun prev' s' caps' => run r2 prev' s' caps' k)) in Hrun.
  exact (run_noGroup r1 H1 _ _ _ _ _ Hrun).
Qed.

(** A group [(f+)] captures a non-empty run of characters of the class. *)
Lemma run_group_plus {A : Type} (f : ascii -> bool) prev s caps (k : @cont A) a :
  run (Grp (Plus f)) prev s caps k = Some a ->
  exists d ds s' prev',
    f d = true /\ Forall (fun c => f c = true) ds /\
    k prev' s' (caps ++ [d :: ds])%list = Some a.
Proof.
  cbn [run]. destruct s as [| d s]; [discriminate |].
  destruct (f d) eqn:Hd; [| discriminate].
  intros Hstar.
  destruct (star_continues f s _ _ _ _ Hstar) as (ds & s' & prev' & -> & Hds & Hk).
  exists d, ds, s', prev'. split; [exact Hd |]. split; [exact Hds |].
  replace (firstn (length (d :: ds ++ s') - length s') (d :: ds ++ s'))
    with (d :: ds) in Hk; [exact Hk |].
  replace (length (d :: ds ++ s') - length s')%nat with (length (d :: ds))
    by (cbn; rewrite length_app; lia).
  change (d :: ds ++ s')%list with ((d :: ds) ++ s')%list.
  rewrite firstn_app, Nat.sub_diag, firstn_all. cbn. rewrite app_nil_r. reflexivity.
Qed.

Lemma search_runs (r : re) (s : list ascii) :
  forall prev caps,
    search r prev s = Some caps ->
    exists prev' s', run r prev' s' [] k0 = Some caps.
Proof.
  induction s as [| c s IH]; intros prev caps Hs; cbn [search] in Hs; fold k0 in Hs.
  - destruct (run r prev [] [] k0) eqn:Hr; [| discriminate].
    injection Hs as <-. eauto.
  - destruct (run r prev (c :: s) [] k0) eqn:Hr.
    + injection Hs as <-. eauto.
    + eauto.
Qed.

(** The capture of [a b c (\d+)], for [a], [b], [c] without group. *)
Lemma digits_captured (r1 r2 r3 : re) (line : string) (caps : list (list ascii)) :
  noGroup r1 = true -> noGroup r2 = true -> noGroup r3 = true ->
  exec (seqs [r1; r2; r3; Grp (Plus isDigit)]) line = Some caps ->
  exists d ds, caps = [d :: ds] /\ isDigit d = true /\
               Forall (fun c => isDigit c = true) ds.
Proof.
  intros H1 H2 H3 Hexec. unfold exec in Hexec.
  destruct (search_runs _ _ _ _ Hexec) as (prev & s & Hrun).
  change (seqs [r1; r2; r3; Grp (Plus isDigit)])
    with (Seq r1 (Seq r2 (Seq r3 (Seq (Grp (Plus isDigit)) Eps)))) in Hrun.
  destruct (run_seq_noGroup r1 _ H1 _ _ _ _ _ Hrun) as (p1 & s1 & Hrun1).
  destruct (run_seq_noGroup r2 _ H2 _ _ _ _ _ Hrun1) as (p2 & s2 & Hrun2).
  destruct (run_seq_noGroup r3 _ H3 _ _ _ _ _ Hrun2) as (p3 & s3 & Hrun3).
  change (run (Seq (Grp (Plus isDigit)) Eps) p3 s3 [] k0)
    with (run (Grp (Plus isDigit)) p3 s3 []
            (fun prev' s' caps' => run Eps prev' s' caps' k0)) in Hrun3.
  destruct (run_group_plus isDigit _ _ _ _ _ Hrun3)
    as (d & ds & s' & prev' & Hd & Hds & Hk).
  cbn in Hk. injection Hk as <-. eauto.
Qed.

Lemma digitsToZ_nonneg (cs : list ascii) : 0 <= digitsToZ cs.
Proof.
  unfold digitsToZ.
  assert (H : forall acc, 0 <= acc ->
              0 <= fold_left (fun acc c => 10 * acc + Z.of_nat (code c - 48)) cs acc).
  { induction cs as [| c cs IH]; intros acc Hacc; cbn [fold_left]; [exact Hacc |].
    apply IH. lia. }
  apply H. lia.
Qed.

Lemma digit_not_minus (d : ascii) : isDigit d = true -> Ascii.eqb d "-" = false.
Proof.
  intros Hd. destruct (Ascii.eqb_spec d "-") as [-> | _]; [| reflexivity].
  discriminate.
Qed.

Lemma capturedInt_nonneg (r1 r2 r3 : re) (line : string) (n : Z) :
  noGroup r1 = true -> noGroup r2 = true -> noGroup r3 = true ->
  capturedInt (seqs [r1; r2; r3; Grp (Plus isDigit)]) line = Some n -> 0 <= n.
Proof.
  intros H1 H2 H3. unfold capturedInt.
  destruct (exec _ line) as [caps |] eqn:Hexec; [| discriminate].
  intros [= <-].
  destruct (digits_captured r1 r2 r3 line caps H1 H2 H3 Hexec) as (d & ds & -> & Hd & _).
  unfold group1. cbn [nth parseInt]. rewrite (digit_not_minus d Hd).
  apply digitsToZ_nonneg.
Qed.

Lemma firstToken_split (cs : list ascii) :
  exists rest, cs = (firstToken cs ++ rest)%list /\
    (rest = [] \/ exists c rest', rest = c :: rest' /\ isSpace c = true).
Proof.
  induction cs as [| c cs (rest & Hcs & Hrest)]; cbn [firstToken].
  - exists []. split; [reflexivity | left; reflexivity].
  - destruct (isSpace c) eqn:Hc.
    + exists (c :: cs). split; [reflexivity | right; eauto].
    + exists rest. split; [cbn [app]; f_equal; exact Hcs | exact Hrest].
Qed.

Lemma string_of_chars_app (xs ys : list ascii) :
  string_of_list_ascii (xs ++ ys)
  = string_of_list_ascii xs ++ string_of_list_ascii ys.
Proof. induction xs as [| x xs IH]; cbn; [reflexivity | rewrite IH; reflexivity]. Qed.

Lemma firstToken_starts (cs : list ascii) :
  startsWithMove (string_of_list_ascii cs) (string_of_list_ascii (firstToken cs)).
Proof.
  destruct (firstToken_split cs) as (rest & Hcs & Hrest).
  exists (string_of_list_ascii rest). split.
  - rewrite <- string_of_chars_app, <- Hcs. reflexivity.
  - destruct Hrest as [-> | (c & rest' & -> & Hc)]; [left; reflexivity |].
    right. exists c, (string_of_list_ascii rest'). split; [reflexivity | exact Hc].
Qed.

Lemma parseInfoLine_wellFormed (line : string) (ev : Evaluation) (i : Z) :
  parseInfoLine line = Some (ev, i) ->
  wellFormedLine i ev /\ test reBound line = false.
Proof.
  unfold parseInfoLine.
  destruct (capturedInt reDepth line) as [d |] eqn:Hd; [| discriminate].
  destruct (test reBound line); [discriminate |].
  intros [= <- <-]. split; [| reflexivity].
  unfold wellFormedLine. cbn [depth nodes bestMove pv].
  repeat split.
  - destruct (capturedInt reMultipv line) as [k |] eqn:Hk; [| lia].
    exact (capturedInt_nonneg WordB (Lit "multipv") (Plus isSpace) line k
             eq_refl eq_refl eq_refl Hk).
  - exact (capturedInt_nonneg WordB (Lit "depth") (Plus isSpace) line d
             eq_refl eq_refl eq_refl Hd).
  - intros n Hn.
    exact (capturedInt_nonneg WordB (Lit "nodes") (Plus isSpace) line n
             eq_refl eq_refl eq_refl Hn).
  - intros mv. destruct (exec rePv line); [| discriminate].
    destruct (negb _ && test reLan _) eqn:Hok; [| discriminate].
    intros [= <-]. apply andb_prop in Hok. tauto.
  - destruct (exec rePv line); [eauto |]. intros [x Hx]. discriminate.
  - intros mv. destruct (exec rePv line) as [caps |]; [| discriminate].
    destruct (negb _ && test reLan _); [| discriminate].
    intros [= <-]. eexists. split; [reflexivity |]. apply firstToken_starts.
Qed.

Lemma storeInfo_wellFormed (line : string) (p : PendingAnalysis) :
  (forall i ev, results p !! i = Some ev -> wellFormedLine i ev) ->
  forall i ev, results (storeInfo line p) !! i = Some ev -> wellFormedLine i ev.
Proof.
  intros Hp i ev Hev.
  destruct (storeInfo_lookup line p i) as [Hsame | (ev' & Hparse & Hnew & _)].
  - apply Hp. rewrite <- Hsame. exact Hev.
  - rewrite Hnew in Hev. injection Hev as <-.
    apply (parseInfoLine_wellFormed line ev' i Hparse).
Qed.

Lemma pending_fireTimeout (id : nat) (st : Engine) :
  pending (fireTimeout id st) = pending st \/ pending (fireTimeout id st) = None.
Proof.
  unfold fireTimeout. destruct (timers st !! id); [| auto].
  rewrite pending_clearTimeout.
  destruct (pending st) eqn:Hp; [| left; fields; exact Hp].
  right. repeat case_match; fields; reflexivity.
Qed.

Lemma pending_rejectPending (reason : string) (st : Engine) :
  pending (rejectPending reason st) = None.
Proof. unfold rejectPending. destruct (pending st) eqn:Hp; fields; auto. Qed.

(** The pending request after one event. *)
Lemma pending_step (st : Engine) (e : Event) (p' : PendingAnalysis) :
  pending (step st e) = Some p' ->
  pending st = Some p'
  \/ (exists line p, pending st = Some p /\ p' = storeInfo line p)
  \/ results p' = ∅.
Proof.
  destruct e as [line | fen options | id | error |]; cbn [step]; intros Hp'.
  - destruct (pending st) as [p |] eqn:Hp.
    + destruct (handleMessage_pending line st p Hp) as [Hs | [[_ Hi] | [_ Hn]]].
      * left. congruence.
      * right. left. exists line, p. split; [reflexivity | congruence].
      * congruence.
    + left. rewrite <- Hp'. unfold handleMessage. rewrite Hp.
      repeat case_match; fields; auto.
  - destruct (worker st) eqn:Hw;
      [| unfold analyzePosition in Hp'; rewrite Hw in Hp'; auto].
    destruct (ready st) eqn:Hr;
      [| unfold analyzePosition in Hp'; rewrite Hw, Hr in Hp'; auto].
    destruct (analyzePosition_started fen options st Hw Hr)
      as (st' & Hcall & _ & _ & _ & Hpend & _).
    rewrite Hcall, Hpend in Hp'. injection Hp' as <-. right. right. reflexivity.
  - destruct (pending_fireTimeout id st) as [Hs | Hn]; [left | ]; congruence.
  - unfold onerror in Hp'. rewrite pending_rejectPending in Hp'. discriminate.
  - unfold quit in Hp'. rewrite pending_dropWorker in Hp'.
    assert (Hn : pending (post "quit" (rejectPending EngineTerminated st)) = None)
      by (rewrite pending_post; apply pending_rejectPending).
    destruct (worker (post "quit" (rejectPending EngineTerminated st)));
      rewrite ?pending_emit, Hn in Hp'; discriminate.
Qed.

End ParseFacts.

Import ParseFacts.

Lemma lineIndices_lookup (multiPv i : Z) :
  1 <= i <= multiPv -> lineIndices multiPv !! Z.to_nat (i - 1) = Some i.
Proof.
  intros Hi. unfold lineIndices.
  rewrite list_lookup_fmap, lookup_seq_lt by lia. cbn. f_equal. lia.
Qed.

(** X13. A [bestmove] line resolves the pending request with exactly one
    evaluation per requested line, the retained one or [{ depth: 0 }];
    scores, depth, nodes and principal variation are passed on unchanged, and
    only line 1 has its best move filled in from the [bestmove] line, when
    it has none and the line names a move other than [(none)].  The request
    is then no longer pending and its timer is disarmed. *)
Theorem bestmove_resolves (st : Engine) (p : PendingAnalysis) (line : string) :
  wf st -> pending st = Some p -> startsWith line "bestmove" = true ->
  let mv := option_map string_of_list_ascii (secondField (list_ascii_of_string line)) in
  let usable := truthyStr mv && negb (String.eqb (default "" mv) "(none)") in
  exists evs,
    effects (handleMessage line st)
    = (effects st ++ [Resolved (timeoutId p) evs])%list /\
    pending (handleMessage line st) = None /\
    timers (handleMessage line st) = ∅ /\
    length evs = Z.to_nat (multiPv p) /\
    forall i, 1 <= i <= multiPv p ->
      exists ev,
        evs !! Z.to_nat (i - 1) = Some ev /\
        let kept := lineOrDefault (results p) i in
        cp ev = cp kept /\ mate ev = mate kept /\ depth ev = depth kept /\
        nodes ev = nodes kept /\ pv ev = pv kept /\
        bestMove ev
        = if (i =? 1) && usable && negb (truthyStr (bestMove kept))
          then mv else bestMove kept.
Proof.
  intros Hwf Hp Hbest. cbv zeta.
  rewrite (handleMessage_bestmove line st p Hp Hbest).
  eexists. split; [fields; reflexivity |].
  split; [fields; reflexivity |].
  split.
  { fields. unfold wf in Hwf. rewrite Hp in Hwf.
    destruct Hwf as (_ & _ & _ & ms & ->). apply delete_singleton_eq. }
  split.
  { unfold finalResults, lineIndices. rewrite !length_map, length_seq. reflexivity. }
  intros i Hi. unfold finalResults.
  rewrite list_lookup_fmap, (lineIndices_lookup _ _ Hi). cbn [fmap option_fmap option_map].
  eexists. split; [reflexivity |].
  destruct ((i =? 1) && truthyStr _ && negb (String.eqb _ "(none)")) eqn:Hfill.
  - rewrite <- andb_assoc in Hfill. apply andb_prop in Hfill as [Hi1 Huse].
    rewrite Hi1, Huse. cbn [andb withBestMove cp mate depth nodes pv bestMove].
    repeat split. destruct (truthyStr (bestMove _)); reflexivity.
  - repeat split. rewrite <- andb_assoc in Hfill. rewrite Hfill. reflexivity.
Qed.

Lemma bestmove_resolves_witness :
  exists evs,
    effects (handleMessage "bestmove g1f3 ponder b8c6" searching)
    = (effects searching ++ [Resolved 0 evs])%list /\
    length evs = 2%nat.
Proof.
  destruct (bestmove_resolves searching retained12 "bestmove g1f3 ponder b8c6")
    as (evs & Heff & _ & _ & Hlen & _).
  - apply (wf_runEvents _ readyEngine). vm_compute. reflexivity.
  - vm_compute. reflexivity.
  - reflexivity.
  - exists evs. split; [exact Heff | exact Hlen].
Defined.


Module ReadyFacts.

Lemma readyCount_app (l1 l2 : list Effect) :
  readyCount (l1 ++ l2) = (readyCount l1 + readyCount l2)%nat.
Proof. unfold readyCount. rewrite List.filter_app, length_app. reflexivity. Qed.

(** Every event but the line [readyok] leaves the readiness alone. *)
Lemma step_keeps_ready (st : Engine) (e : Event) :
  isLine "readyok" e = false ->
  ready (step st e) = ready st /\ resolveReady (step st e) = resolveReady st /\
  readyCount (effects (step st e)) = readyCount (effects st).
Proof.
  intros He. destruct st as [wk rd rr pd tm nt ef].
  destruct e as [line | fen options | id | error |]; cbn [step isLine] in *.
  - unfold handleMessage. rewrite He.
    unfold post, setPending, emit, clearTimeout.
    cbn [worker pending].
    repeat case_match; cbn [ready resolveReady effects];
      rewrite ?readyCount_app; cbn; auto with lia.
  - unfold analyzePosition, post, setTimeout, setPending, emit, clearTimeout.
    cbn [worker ready pending negb].
    destruct wk, rd; cbn [negb]; try (cbn; auto; fail).
    destruct pd as [p |]; cbn -[showZ String.append readyCount];
      rewrite ?readyCount_app; cbn -[showZ String.append]; auto with lia.
  - unfold fireTimeout, post, setPending, emit, clearTimeout.
    cbn [timers].
    destruct (tm !! id) as [t |]; [| auto].
    destruct pd as [p |], wk; cbn -[readyCount bestEffort hasScore];
      repeat case_match; cbn -[readyCount];
      rewrite ?readyCount_app; cbn; auto with lia.
  - unfold onerror, rejectPending, setPending, emit, clearTimeout. cbn [pending].
    destruct pd; cbn [ready resolveReady effects];
      rewrite ?readyCount_app; cbn; auto with lia.
  - unfold quit, rejectPending, post, setPending, emit, clearTimeout, dropWorker.
    cbn [pending worker].
    destruct pd, wk; cbn -[readyCount]; rewrite ?readyCount_app; cbn; auto with lia.
Qed.

Lemma step_readyok (st : Engine) :
  resolveReady st = negb (ready st) ->
  readyCount (effects st) = (if ready st then 1 else 0)%nat ->
  ready (step st (Line "readyok")) = true /\
  resolveReady (step st (Line "readyok")) = false /\
  readyCount (effects (step st (Line "readyok"))) = 1%nat.
Proof.
  destruct st as [wk rd rr pd tm nt ef]. cbn [ready resolveReady effects step].
  intros -> Hc. unfold handleMessage. cbn [String.eqb Ascii.eqb Bool.eqb resolveReady].
  destruct rd; cbn -[readyCount] in *; rewrite ?readyCount_app, ?Hc; auto.
Qed.

Lemma isLine_readyok (e : Event) :
  isLine "readyok" e = true -> e = Line "readyok".
Proof.
  destruct e; cbn; try discriminate. intros H. apply String.eqb_eq in H. congruence.
Qed.

Lemma ready_run (es : list Event) :
  let st := runEvents es newEngine in
  resolveReady st = negb (ready st) /\
  readyCount (effects st) = (if ready st then 1 else 0)%nat /\
  ready st = existsb (isLine "readyok") es.
Proof.
  induction es as [| e es IH] using rev_ind; cbv zeta in *.
  - repeat split.
  - rewrite runEvents_snoc, existsb_app. cbn [existsb].
    destruct IH as (Hrr & Hc & Hr). rewrite orb_false_r.
    destruct (isLine "readyok" e) eqn:He.
    + apply isLine_readyok in He. subst e.
      destruct (step_readyok _ Hrr Hc) as (-> & -> & ->).
      rewrite orb_true_r. auto.
    + destruct (step_keeps_ready (runEvents es newEngine) e He) as (-> & -> & ->).
      rewrite orb_false_r. auto.
Qed.

End ReadyFacts.

(** ** The adapter with its [await] (src/lib/stockfish.ts) *)

Module AsyncFacts.

Import Async.

Lemma resolveReady_same (st : Engine) (cmd : string) :
  resolveReady (post cmd st) = resolveReady st.
Proof. destruct st as [[] rd rr pd tm nt ef]; reflexivity. Qed.

(** The fields after the continuation of a call has run. *)
Lemma startRequest_fields (fen : string) (options : AnalyzeOptions) (st : Engine) :
  let st' := snd (startRequest fen options st) in
  fst (startRequest fen options st) = nextTimer st /\
  worker st' = worker st /\ ready st' = ready st /\
  resolveReady st' = resolveReady st /\
  nextTimer st' = S (nextTimer st) /\
  pending st' = Some {| results := ∅; multiPv := default 1 (optMultiPv options);
                        timeoutId := nextTimer st |} /\
  timers st' =
    <[nextTimer st := {| delay := default 8000 (optTimeoutMs options);
                         closureMultiPv := default 1 (optMultiPv options) |}]>
      (match pending st with
       | Some p => delete (timeoutId p) (timers st)
       | None => timers st
       end) /\
  effects st' = (effects st ++ startEffects fen options st)%list.
Proof.
  destruct st as [wk rd rr pd tm nt ef].
  unfold startRequest, startEffects, searchCommands, rejectPending, post, setTimeout,
    setPending, emit, clearTimeout.
  destruct wk, pd as [p |];
    cbn -[showZ String.append app]; rewrite <- ?app_assoc, ?app_nil_r;
    repeat split; reflexivity.
Qed.

(** On a ready adapter with a worker, the call as one step is the
    continuation. *)
Lemma analyzePosition_startRequest (fen : string) (options : AnalyzeOptions)
  (st : Engine) :
  worker st = true -> ready st = true ->
  analyzePosition fen options st
  = Started (fst (startRequest fen options st)) (snd (startRequest fen options st)).
Proof.
  intros Hw Hr. unfold analyzePosition, startRequest, rejectPending.
  rewrite Hw, Hr. cbn [negb].
  destruct (pending (post "stop" st));
    destruct (setTimeout _ _); reflexivity.
Qed.

(** *** One handler on the engine *)


Lemma armed_same_fields (st st' : Engine) :
  pending st' = pending st -> timers st' = timers st -> nextTimer st' = nextTimer st ->
  armed st -> armed st'.
Proof. unfold armed. intros -> -> ->. auto. Qed.

Lemma armed_no_pending (st : Engine) : pending st = None -> timers st = ∅ -> armed st.
Proof. unfold armed. intros -> Ht. exact Ht. Qed.

Lemma armed_rejectPending (reason : string) (st : Engine) :
  armed st -> armed (rejectPending reason st) /\ pending (rejectPending reason st) = None.
Proof.
  unfold rejectPending. intros Ha. unfold armed in Ha.
  destruct (pending st) as [p |] eqn:Hp.
  - destruct Ha as (_ & ms & Ht).
    split; [apply armed_no_pending |]; fields; [reflexivity | | reflexivity].
    rewrite Ht. apply delete_singleton_eq.
  - split; [apply armed_no_pending; assumption | exact Hp].
Qed.

Lemma armed_handleMessage (line : string) (st : Engine) :
  armed st -> armed (handleMessage line st).
Proof.
  unfold handleMessage. intros Ha.
  destruct (String.eqb line "uciok");
    [revert Ha; apply armed_same_fields; fields; reflexivity |].
  destruct (String.eqb line "readyok").
  { revert Ha. apply armed_same_fields; destruct (resolveReady st); fields; reflexivity. }
  destruct (pending st) as [p |] eqn:Hp; [| exact Ha].
  pose proof Ha as Ha0. unfold armed in Ha0. rewrite Hp in Ha0.
  destruct Ha0 as (Hlt & ms & Ht).
  destruct (startsWith line "info ").
  { unfold armed. fields. destruct (storeInfo_same_request line p) as [-> ->]. eauto. }
  destruct (startsWith line "bestmove"); [| exact Ha].
  apply armed_no_pending; fields; [reflexivity |].
  rewrite Ht. apply delete_singleton_eq.
Qed.

Lemma armed_fireTimeout (id : nat) (st : Engine) :
  armed st -> armed (fireTimeout id st).
Proof.
  intros Ha. unfold fireTimeout.
  destruct (timers st !! id) as [t |] eqn:Ht; [| exact Ha].
  rewrite pending_clearTimeout.
  unfold armed in Ha.
  destruct (pending st) as [p |] eqn:Hp.
  - destruct Ha as (_ & ms & Htm).
    assert (Hid : id = timeoutId p).
    { rewrite Htm in Ht. apply lookup_singleton_Some in Ht as [<- _]. reflexivity. }
    subst id.
    assert (Hempty : delete (timeoutId p) (timers st) = ∅).
    { rewrite Htm. apply delete_singleton_eq. }
    apply armed_no_pending; repeat case_match; fields; auto.
  - rewrite Ha, lookup_empty in Ht. discriminate.
Qed.

Lemma armed_quit (st : Engine) : armed st -> armed (quit st) /\ pending (quit st) = None.
Proof.
  intros Ha. unfold quit.
  destruct (armed_rejectPending EngineTerminated st Ha) as [Ha' Hnone].
  unfold armed in Ha'. rewrite Hnone in Ha'.
  split; [apply armed_no_pending |]; repeat case_match; fields; assumption.
Qed.

Lemma armed_step (st : Engine) (e : Stockfish.Event) :
  handlerEvent e = true -> armed st -> armed (Stockfish.step st e).
Proof.
  destruct e as [line | fen options | id | error |]; cbn [Stockfish.step handlerEvent];
    intros He Ha; try discriminate.
  - apply armed_handleMessage, Ha.
  - apply armed_fireTimeout, Ha.
  - apply armed_rejectPending, Ha.
  - apply armed_quit, Ha.
Qed.

Lemma armed_startRequest (fen : string) (options : AnalyzeOptions) (st : Engine) :
  armed st -> armed (snd (startRequest fen options st)).
Proof.
  intros Ha.
  destruct (startRequest_fields fen options st) as (_ & _ & _ & _ & Hn & Hp & Ht & _).
  unfold armed. rewrite Hp, Hn, Ht. cbn [timeoutId multiPv].
  split; [lia |]. eexists.
  unfold armed in Ha. destruct (pending st) as [p |].
  - destruct Ha as (_ & ms & ->). rewrite delete_singleton_eq. reflexivity.
  - rewrite Ha. reflexivity.
Qed.

(** A handler installs no request. *)
Lemma step_installs_nothing (st : Engine) (e : Stockfish.Event) :
  handlerEvent e = true -> pending st = None -> pending (Stockfish.step st e) = None.
Proof.
  destruct e as [line | fen options | id | error |]; cbn [Stockfish.step handlerEvent];
    intros He Hp; try discriminate.
  - unfold handleMessage. rewrite Hp. repeat case_match; fields; exact Hp.
  - destruct (pending_fireTimeout id st) as [-> | ->]; auto.
  - apply pending_rejectPending.
  - unfold quit. rewrite pending_dropWorker.
    repeat case_match; fields; apply pending_rejectPending.
Qed.

(** Readiness is never lost. *)
Lemma step_stays_ready (st : Engine) (e : Stockfish.Event) :
  handlerEvent e = true -> ready st = true -> ready (Stockfish.step st e) = true.
Proof.
  intros He Hr.
  destruct (isLine "readyok" e) eqn:Hl.
  - apply ReadyFacts.isLine_readyok in Hl. subst e. cbn [Stockfish.step].
    unfold handleMessage. cbn [String.eqb Ascii.eqb Bool.eqb].
    destruct (resolveReady st); fields; reflexivity.
  - destruct (ReadyFacts.step_keeps_ready st e Hl) as (-> & _). exact Hr.
Qed.

(** *** The invariant of the adapter *)


Lemma inv_fresh : inv fresh.
Proof.
  unfold inv, fresh. cbn -[readyCount armed].
  repeat split; auto; try discriminate.
Qed.

Lemma readyCount_startEffects (fen : string) (options : AnalyzeOptions) (st : Engine) :
  readyCount (startEffects fen options st) = 0%nat.
Proof.
  unfold startEffects, searchCommands.
  destruct (worker st), (pending st); reflexivity.
Qed.

(** A handler of the engine that is not the line [readyok], on any adapter
    around it. *)
Lemma inv_handler (e : Stockfish.Event) st wt mt n out :
  handlerEvent e = true -> isLine "readyok" e = false ->
  inv (mkAdapter st wt mt n out) ->
  inv (mkAdapter (Stockfish.step st e) wt mt n out).
Proof.
  intros He Hl (Hrr & Hc & Ha & Hp & Hm & Hw & Hout).
  cbn [engine waiting microtasks outcomes] in *.
  destruct (ReadyFacts.step_keeps_ready st e Hl) as (Hr' & Hrr' & Hc').
  unfold inv. cbn [engine waiting microtasks outcomes].
  rewrite Hr', Hrr', Hc'.
  split_and!; try assumption.
  - apply armed_step; assumption.
  - intros Hr. apply step_installs_nothing; auto.
Qed.

Lemma inv_readyok st wt n out :
  inv (mkAdapter st wt [] n out) ->
  inv (if String.eqb "readyok" "readyok" && resolveReady st
       then mkAdapter (handleMessage "readyok" st) [] ([] ++ wt) n out
       else mkAdapter (handleMessage "readyok" st) wt [] n out)
  /\ ready (handleMessage "readyok" st) = true.
Proof.
  intros (Hrr & Hc & Ha & Hp & Hm & Hw & Hout).
  cbn [engine waiting microtasks outcomes] in *.
  destruct (ReadyFacts.step_readyok st Hrr Hc) as (Hr' & Hrr' & Hc').
  cbn [Stockfish.step] in Hr', Hrr', Hc'.
  split; [| exact Hr'].
  assert (Harm : armed (handleMessage "readyok" st)) by (apply armed_handleMessage, Ha).
  cbn [String.eqb Ascii.eqb Bool.eqb andb].
  destruct (resolveReady st) eqn:Hres; unfold inv;
    cbn [engine waiting microtasks outcomes]; rewrite Hr', Hrr', Hc';
    split_and!; try assumption; try reflexivity; try discriminate.
  intros _. apply Hw. destruct (ready st); [reflexivity | discriminate].
Qed.

Lemma inv_resume (s : Suspended) (a : Adapter) :
  ready (engine a) = true -> inv a ->
  inv (resume s a) /\ ready (engine (resume s a)) = true /\
  microtasks (resume s a) = microtasks a /\ waiting (resume s a) = waiting a /\
  calls (resume s a) = calls a.
Proof.
  destruct a as [st wt mt n out]. cbn [engine]. intros Hr (Hrr & Hc & Ha & Hp & Hm & Hw & Hout).
  cbn [engine waiting microtasks outcomes] in *.
  unfold resume. rewrite Hr.
  pose proof (startRequest_fields (sFen s) (sOptions s) st) as Hf.
  pose proof (armed_startRequest (sFen s) (sOptions s) st Ha) as Harm.
  destruct (startRequest (sFen s) (sOptions s) st) as [id st'].
  cbn [fst snd] in Hf, Harm. cbv zeta in Hf.
  destruct Hf as (_ & _ & Hr' & Hrr' & _ & _ & _ & He').
  cbn [engine waiting microtasks calls outcomes].
  split; [| rewrite Hr', Hr; auto].
  unfold inv. cbn [engine waiting microtasks outcomes].
  rewrite Hr', Hrr', He', Hr. rewrite Hr in Hc, Hrr.
  split_and!; try assumption; try discriminate.
  - rewrite ReadyFacts.readyCount_app, readyCount_startEffects, Hc. reflexivity.
  - intros _. exact (Hw Hr).
  - apply Forall_app. split; [exact Hout |]. repeat constructor. discriminate.
Qed.

Lemma inv_resume_all (mt : list Suspended) :
  forall a, ready (engine a) = true -> inv a ->
    let a' := fold_left (fun a' s => resume s a') mt a in
    inv a' /\ ready (engine a') = true /\
    microtasks a' = microtasks a /\ waiting a' = waiting a /\ calls a' = calls a.
Proof.
  induction mt as [| s mt IH]; intros a Hr Hi; cbn [fold_left]; [auto |].
  destruct (inv_resume s a Hr Hi) as (Hi' & Hr' & Hm & Hw & Hc).
  destruct (IH (resume s a) Hr' Hi') as (Hi2 & Hr2 & Hm2 & Hw2 & Hc2).
  cbv zeta. rewrite Hm2, Hw2, Hc2, Hm, Hw, Hc. auto.
Qed.

Lemma inv_forget st wt mt n out :
  inv (mkAdapter st wt mt n out) -> inv (mkAdapter st wt [] n out).
Proof.
  intros (Hrr & Hc & Ha & Hp & Hm & Hw & Hout). unfold inv.
  cbn [engine waiting microtasks outcomes] in *.
  split_and!; try assumption. intros Hr. split; [reflexivity | apply Hm, Hr].
Qed.

Lemma inv_drain (a : Adapter) :
  inv a ->
  inv (drain a) /\ ready (engine (drain a)) = ready (engine a) /\
  microtasks (drain a) = [] /\ waiting (drain a) = waiting a /\
  calls (drain a) = calls a.
Proof.
  destruct a as [st wt mt n out]. intros Hi. unfold drain. cbn [engine waiting calls].
  destruct (ready st) eqn:Hr.
  - apply (inv_resume_all mt (mkAdapter st wt [] n out) Hr (inv_forget _ _ _ _ _ Hi)).
  - destruct Hi as (Hrr & Hc & Ha & Hp & Hm & Hw & Hout).
    cbn [engine waiting microtasks outcomes] in *.
    destruct (Hm Hr) as [-> Hu]. cbn [fold_left engine microtasks waiting calls].
    split_and!; try assumption; try reflexivity.
    unfold inv. cbn [engine waiting microtasks outcomes]. auto 10.
Qed.

Lemma inv_react (a : Adapter) (e : Input) : inv a -> inv (react a e).
Proof.
  intros Hi. destruct e as [line | id | error | fen options | |]; cbn [react].
  - destruct (inv_drain a Hi) as (Hd & _ & Hm & _).
    destruct (drain a) as [st wt mt n out]. cbn [microtasks] in Hm. subst mt.
    destruct (String.eqb line "readyok") eqn:Hl.
    + apply String.eqb_eq in Hl. subst line. apply (inv_readyok st wt n out Hd).
    + cbn [andb]. apply (inv_handler (Line line) st wt [] n out); auto.
  - unfold task. destruct (inv_drain a Hi) as (Hd & _).
    destruct (drain a) as [st wt mt n out].
    apply (inv_handler (TimerExpired id)); auto.
  - unfold task. destruct (inv_drain a Hi) as (Hd & _).
    destruct (drain a) as [st wt mt n out].
    apply (inv_handler (WorkerError error)); auto.
  - destruct a as [st wt mt n out].
    destruct Hi as (Hrr & Hc & Ha & Hp & Hm & Hw & Hout).
    cbn [engine waiting microtasks outcomes] in *.
    destruct (worker st); cbn [negb].
    + destruct (resolveReady st) eqn:Hres; unfold inv;
        cbn [engine waiting microtasks outcomes];
        split_and!; try assumption;
        destruct (ready st); try discriminate; auto.
    + unfold inv. cbn [engine waiting microtasks outcomes].
      split_and!; try assumption.
      * intros Hr. destruct (Hm Hr) as [-> Hu]. split; [reflexivity |].
        apply Forall_app. split; [exact Hu | repeat constructor].
      * apply Forall_app. split; [exact Hout |]. repeat constructor. discriminate.
  - destruct a as [st wt mt n out].
    apply (inv_handler Quit); auto.
  - destruct a as [st wt mt n out]. destruct mt as [| s rest]; [exact Hi |].
    assert (Hr : ready st = true).
    { destruct Hi as (_ & _ & _ & _ & Hm & _). cbn [engine microtasks] in Hm.
      destruct (ready st); [reflexivity |]. destruct (Hm eq_refl). discriminate. }
    apply inv_resume; [exact Hr |].
    destruct Hi as (Hrr & Hc & Ha & Hp & Hm & Hw & Hout). unfold inv.
    cbn [engine waiting microtasks outcomes] in *.
    split_and!; try assumption. rewrite Hr. discriminate.
Qed.

Lemma reacts_snoc (es : list Input) (e : Input) (a : Adapter) :
  reacts (es ++ [e]) a = react (reacts es a) e.
Proof. unfold reacts. rewrite fold_left_app. reflexivity. Qed.

Lemma inv_reacts (es : list Input) : inv (reacts es fresh).
Proof.
  induction es as [| e es IH] using rev_ind; [exact inv_fresh |].
  rewrite reacts_snoc. apply inv_react, IH.
Qed.

(** *** Readiness over a run *)

Lemma ready_react (a : Adapter) (e : Input) :
  inv a -> ready (engine (react a e)) = ready (engine a) || isReadyok e.
Proof.
  intros Hi. destruct e as [line | id | error | fen options | |];
    cbn [react isReadyok]; rewrite ?orb_false_r.
  - destruct (inv_drain a Hi) as (_ & Hr & _).
    destruct (drain a) as [st wt mt n out]. cbn [engine] in Hr. rewrite <- Hr.
    assert (Hh : ready (handleMessage line st)
                 = ready st || String.eqb line "readyok").
    { destruct (String.eqb line "readyok") eqn:Hl.
      - apply String.eqb_eq in Hl. subst line. rewrite orb_true_r.
        unfold handleMessage. cbn [String.eqb Ascii.eqb Bool.eqb].
        destruct (resolveReady st); fields; reflexivity.
      - rewrite orb_false_r.
        apply (ReadyFacts.step_keeps_ready st (Line line)). exact Hl. }
    destruct (String.eqb line "readyok" && resolveReady st); exact Hh.
  - unfold task. destruct (inv_drain a Hi) as (_ & Hr & _).
    destruct (drain a) as [st wt mt n out]. cbn [engine] in *. rewrite <- Hr.
    apply (ReadyFacts.step_keeps_ready st (TimerExpired id)). reflexivity.
  - unfold task. destruct (inv_drain a Hi) as (_ & Hr & _).
    destruct (drain a) as [st wt mt n out]. cbn [engine] in *. rewrite <- Hr.
    apply (ReadyFacts.step_keeps_ready st (WorkerError error)). reflexivity.
  - destruct a as [st wt mt n out]. cbn [engine].
    destruct (negb (worker st)); [reflexivity |].
    destruct (resolveReady st); reflexivity.
  - destruct a as [st wt mt n out]. cbn [engine].
    apply (ReadyFacts.step_keeps_ready st Quit). reflexivity.
  - destruct a as [st wt mt n out]. destruct mt as [| s rest]; [reflexivity |].
    assert (Hr : ready st = true).
    { destruct Hi as (_ & _ & _ & _ & Hm & _). cbn [engine microtasks] in Hm.
      destruct (ready st); [reflexivity |]. destruct (Hm eq_refl). discriminate. }
    cbn [engine]. rewrite Hr. unfold resume. rewrite Hr.
    pose proof (startRequest_fields (sFen s) (sOptions s) st) as Hf.
    destruct (startRequest (sFen s) (sOptions s) st) as [id st'].
    cbn [fst snd] in Hf. cbv zeta in Hf. cbn [engine].
    destruct Hf as (_ & _ & -> & _). exact Hr.
Qed.

Lemma ready_reacts (es : list Input) :
  ready (engine (reacts es fresh)) = existsb isReadyok es.
Proof.
  induction es as [| e es IH] using rev_ind; [reflexivity |].
  rewrite reacts_snoc, existsb_app, ready_react by apply inv_reacts.
  rewrite IH. cbn [existsb]. rewrite orb_false_r. reflexivity.
Qed.

(** *** Without a worker *)


Lemma quietly_refl (st : Engine) : worker st = false -> quietly st st.
Proof. intros Hw. split; [exact Hw |]. exists []. rewrite app_nil_r. auto. Qed.

Lemma quietly_trans (st1 st2 st3 : Engine) :
  quietly st1 st2 -> quietly st2 st3 -> quietly st1 st3.
Proof.
  intros (_ & l1 & He1 & Hl1) (Hw & l2 & He2 & Hl2). split; [exact Hw |].
  exists (l1 ++ l2)%list. rewrite He2, He1, <- app_assoc, forallb_app, Hl1, Hl2. auto.
Qed.

Lemma quietly_handler (st : Engine) (e : Stockfish.Event) :
  handlerEvent e = true -> worker st = false -> quietly st (Stockfish.step st e).
Proof.
  intros He Hw. destruct st as [wk rd rr pd tm nt ef]. cbn [worker] in Hw. subst wk.
  unfold quietly.
  destruct e as [line | fen options | id | error |]; cbn [Stockfish.step handlerEvent] in *;
    try discriminate.
  - unfold handleMessage, post, setPending, emit, clearTimeout, markReady.
    cbn [worker pending resolveReady effects].
    repeat case_match; cbn [worker effects]; (split; [reflexivity |]);
      solve [ exists []; rewrite app_nil_r; auto | eexists [_]; split; reflexivity ].
  - unfold fireTimeout, post, setPending, emit, clearTimeout.
    cbn [timers worker pending effects].
    repeat case_match; cbn [worker effects]; (split; [reflexivity |]);
      solve [ exists []; rewrite app_nil_r; auto | eexists [_]; split; reflexivity ].
  - unfold onerror, rejectPending, setPending, emit, clearTimeout.
    cbn [pending]. destruct pd; cbn [worker effects]; (split; [reflexivity |]);
      solve [ exists []; rewrite app_nil_r; auto | eexists [_]; split; reflexivity ].
  - unfold quit, rejectPending, post, setPending, emit, clearTimeout, dropWorker.
    cbn [pending]. destruct pd; cbn [worker effects]; (split; [reflexivity |]);
      solve [ exists []; rewrite app_nil_r; auto | eexists [_]; split; reflexivity ].
Qed.

Lemma quietly_startRequest (fen : string) (options : AnalyzeOptions) (st : Engine) :
  worker st = false -> quietly st (snd (startRequest fen options st)).
Proof.
  intros Hw.
  destruct (startRequest_fields fen options st) as (_ & Hw' & _ & _ & _ & _ & _ & He).
  split; [rewrite Hw'; exact Hw |].
  eexists. split; [exact He |].
  unfold startEffects. rewrite Hw. destruct (pending st); reflexivity.
Qed.

Lemma quietly_resume (s : Suspended) (a : Adapter) :
  worker (engine a) = false -> quietly (engine a) (engine (resume s a)).
Proof.
  destruct a as [st wt mt n out]. cbn [engine]. intros Hw. unfold resume.
  destruct (ready st); [| apply quietly_refl, Hw].
  pose proof (quietly_startRequest (sFen s) (sOptions s) st Hw) as Hq.
  destruct (startRequest (sFen s) (sOptions s) st) as [id st']. exact Hq.
Qed.

Lemma quietly_resume_all (mt : list Suspended) :
  forall a, worker (engine a) = false ->
    quietly (engine a) (engine (fold_left (fun a' s => resume s a') mt a)).
Proof.
  induction mt as [| s mt IH]; intros a Hw; cbn [fold_left]; [apply quietly_refl, Hw |].
  pose proof (quietly_resume s a Hw) as Hq.
  eapply quietly_trans; [exact Hq |]. apply IH. apply Hq.
Qed.

Lemma quietly_drain (a : Adapter) :
  worker (engine a) = false -> quietly (engine a) (engine (drain a)).
Proof.
  destruct a as [st wt mt n out]. cbn [engine]. intros Hw. unfold drain.
  apply (quietly_resume_all mt (mkAdapter st wt [] n out) Hw).
Qed.

Lemma quietly_task (e : Stockfish.Event) (a : Adapter) :
  handlerEvent e = true -> worker (engine a) = false ->
  quietly (engine a)
    (engine (let 'mkAdapter st wt mt n out := drain a in
             mkAdapter (Stockfish.step st e) wt mt n out)).
Proof.
  intros He Hw. pose proof (quietly_drain a Hw) as Hq.
  destruct (drain a) as [st wt mt n out]. cbn [engine] in *.
  eapply quietly_trans; [exact Hq |]. apply quietly_handler; [exact He | apply Hq].
Qed.

Lemma quietly_react (a : Adapter) (e : Input) :
  worker (engine a) = false -> quietly (engine a) (engine (react a e)).
Proof.
  intros Hw. destruct e as [line | id | error | fen options | |]; cbn [react].
  - pose proof (quietly_task (Line line) a eq_refl Hw) as Hq.
    destruct (drain a) as [st wt mt n out].
    destruct (String.eqb line "readyok" && resolveReady st); exact Hq.
  - apply (quietly_task (TimerExpired id) a eq_refl Hw).
  - apply (quietly_task (WorkerError error) a eq_refl Hw).
  - destruct a as [st wt mt n out]. cbn [engine] in *. rewrite Hw. cbn [negb engine].
    apply quietly_refl, Hw.
  - destruct a as [st wt mt n out]. cbn [engine] in *.
    apply (quietly_handler st Quit eq_refl Hw).
  - destruct a as [st wt mt n out]. destruct mt as [| s rest]; [apply quietly_refl, Hw |].
    apply (quietly_resume s (mkAdapter st wt rest n out) Hw).
Qed.

Lemma quietly_reacts (es : list Input) :
  forall a, worker (engine a) = false -> quietly (engine a) (engine (reacts es a)).
Proof.
  induction es as [| e es IH]; intros a Hw; [apply quietly_refl, Hw |].
  cbn [reacts fold_left]. pose proof (quietly_react a e Hw) as Hq.
  eapply quietly_trans; [exact Hq |]. apply (IH (react a e)). apply Hq.
Qed.

(** *** With nothing in flight *)


Lemma idle_react (a : Adapter) (e : Input) :
  idle a ->
  idle (react a e) /\
  (effects (engine (react a e)) = effects (engine a)
   \/ effects (engine (react a e)) = (effects (engine a) ++ [ReadyResolved])%list).
Proof.
  destruct a as [st wt mt n out]. intros (Hw & Hp & Ht & Hwt & Hmt).
  cbn [engine waiting microtasks] in *. subst wt mt.
  assert (Hh : forall ev,
             idle (mkAdapter (Stockfish.step st ev) [] [] n out) /\
             (effects (Stockfish.step st ev) = effects st
              \/ effects (Stockfish.step st ev) = (effects st ++ [ReadyResolved])%list)).
  { intros ev. destruct (step_after_quit st ev Hw Hp Ht) as (Hw' & Hp' & Ht' & He').
    unfold idle. cbn [engine waiting microtasks]. auto 10. }
  destruct e as [line | id | error | fen options | |];
    cbn [react task drain fold_left engine].
  - destruct (String.eqb line "readyok" && resolveReady st); apply (Hh (Line line)).
  - apply (Hh (TimerExpired id)).
  - apply (Hh (WorkerError error)).
  - rewrite Hw. cbn [negb engine]. unfold idle. cbn [engine waiting microtasks]. auto 10.
  - apply (Hh Quit).
  - unfold idle. cbn [engine waiting microtasks]. auto 10.
Qed.

Lemma idle_reacts (st0 : Engine) (es : list Input) :
  forall a, idle a ->
    (forall e, In e (effects (engine a)) -> In e (effects st0) \/ e = ReadyResolved) ->
    forall e, In e (effects (engine (reacts es a))) -> In e (effects st0) \/ e = ReadyResolved.
Proof.
  induction es as [| ev es IH]; intros a Hidle He; [exact He |].
  cbn [reacts fold_left]. destruct (idle_react a ev Hidle) as (Hidle' & Heff).
  apply (IH (react a ev) Hidle').
  intros e. destruct Heff as [-> | ->]; [apply He |].
  rewrite in_app_iff. cbn. intros [Hin | [<- | []]]; [apply He, Hin | right; reflexivity].
Qed.

(** *** [quit] *)

Lemma quit_fields_armed (st : Engine) :
  armed st ->
  worker (quit st) = false /\ ready (quit st) = ready st /\
  nextTimer (quit st) = nextTimer st /\
  pending (quit st) = None /\ timers (quit st) = ∅ /\
  effects (quit st)
  = (effects st
     ++ match pending st with
        | Some p => [Rejected (timeoutId p) EngineTerminated]
        | None => []
        end
     ++ (if worker st then [PostMessage "quit"; Terminated] else []))%list.
Proof.
  intros Ha. destruct (armed_quit st Ha) as [Ha' Hnone].
  unfold armed in Ha'. rewrite Hnone in Ha'.
  split_and!; try assumption.
  - apply worker_dropWorker.
  - apply (ReadyFacts.step_keeps_ready st Quit). reflexivity.
  - destruct st as [wk rd rr pd tm nt ef]. destruct wk, pd; reflexivity.
  - destruct st as [wk rd rr pd tm nt ef].
    destruct wk, pd; cbn; rewrite <- ?app_assoc, ?app_nil_r; reflexivity.
Qed.

Lemma bestEffort_empty (m : Z) :
  match bestEffort ∅ m with
  | ev :: _ => hasScore ev = false
  | [] => True
  end.
Proof.
  unfold bestEffort. destruct (lineIndices m) as [| i l]; cbn [map]; [exact I |].
  unfold lineOrDefault. rewrite lookup_empty. reflexivity.
Qed.

(** The timer of a request that has received no line rejects it, also
    without a worker. *)
Lemma fireTimeout_empty (st : Engine) (id : nat) (m ms : Z) :
  worker st = false ->
  pending st = Some {| results := ∅; multiPv := m; timeoutId := id |} ->
  timers st !! id = Some {| delay := ms; closureMultiPv := m |} ->
  effects (fireTimeout id st) = (effects st ++ [Rejected id Timeout])%list.
Proof.
  intros Hw Hp Ht. unfold fireTimeout. rewrite Ht.
  rewrite pending_clearTimeout, Hp. cbn [results closureMultiPv].
  assert (Hpost : post "stop" (clearTimeout id st) = clearTimeout id st).
  { unfold post. rewrite worker_clearTimeout, Hw. reflexivity. }
  rewrite Hpost. pose proof (bestEffort_empty m) as Hb.
  destruct (bestEffort ∅ m) as [| ev evs]; [| rewrite Hb]; fields; reflexivity.
Qed.

(** *** The atomic model inside the asynchronous one *)

(** Once the adapter is ready, a run of the atomic model is the run of the
    asynchronous model in which the continuation of every call runs right
    after the call. *)
Lemma atomic_run_is_async (es : list Stockfish.Event) :
  forall a,
    ready (engine a) = true -> resolveReady (engine a) = false ->
    microtasks a = [] ->
    let a' := reacts (flat_map asyncOf es) a in
    engine a' = runEvents es (engine a) /\ microtasks a' = [].
Proof.
  induction es as [| e es IH]; intros a Hr Hrr Hm; cbv zeta; [auto |].
  cbn [flat_map runEvents fold_left]. unfold reacts. rewrite fold_left_app.
  fold (reacts (flat_map asyncOf es)).
  destruct a as [st wt mt n out]. cbn [engine microtasks] in *. subst mt.
  assert (Hstep : exists wt' n' out',
             fold_left react (asyncOf e) (mkAdapter st wt [] n out)
             = mkAdapter (Stockfish.step st e) wt' [] n' out').
  { destruct e as [line | fen options | id | error |];
      cbn [asyncOf fold_left react task drain]; rewrite ?Hrr, ?andb_false_r.
    - eauto.
    - cbn [Stockfish.step]. destruct (worker st) eqn:Hw; cbn [negb].
      + cbn [app]. unfold resume. rewrite Hr. cbn [sFen sOptions].
        rewrite (analyzePosition_startRequest fen options st Hw Hr).
        destruct (startRequest fen options st) as [id st']. cbn [fst snd].
        eauto.
      + unfold analyzePosition. rewrite Hw. cbn [negb]. eauto.
    - eauto.
    - eauto.
    - eauto. }
  destruct Hstep as (wt' & n' & out' & ->).
  assert (Hr' : ready (Stockfish.step st e) = true /\ resolveReady (Stockfish.step st e) = false).
  { destruct e as [line | fen options | id | error |].
    - destruct (isLine "readyok" (Line line)) eqn:Hl.
      + apply ReadyFacts.isLine_readyok in Hl. injection Hl as ->. cbn [Stockfish.step].
        unfold handleMessage. cbn [String.eqb Ascii.eqb Bool.eqb]. rewrite Hrr.
        destruct st; auto.
      + destruct (ReadyFacts.step_keeps_ready st _ Hl) as (-> & -> & _). auto.
    - destruct (ReadyFacts.step_keeps_ready st (Analyze fen options) eq_refl)
        as (-> & -> & _). auto.
    - destruct (ReadyFacts.step_keeps_ready st (TimerExpired id) eq_refl)
        as (-> & -> & _). auto.
    - destruct (ReadyFacts.step_keeps_ready st (WorkerError error) eq_refl)
        as (-> & -> & _). auto.
    - destruct (ReadyFacts.step_keeps_ready st Quit eq_refl) as (-> & -> & _). auto. }
  destruct Hr' as [Hr' Hrr'].
  apply (IH (mkAdapter (Stockfish.step st e) wt' [] n' out') Hr' Hrr' eq_refl).
Qed.

(** The continuations a task runs first are those that would run as
    microtasks, one after the other. *)
Lemma drain_is_microtasks (a : Adapter) :
  drain a = reacts (repeat Microtask (length (microtasks a))) a.
Proof.
  destruct a as [st wt mt n out]. unfold drain. cbn [microtasks].
  revert st out. induction mt as [| s mt IH]; intros st out; [reflexivity |].
  cbn [length repeat reacts fold_left react].
  unfold resume at 2 3.
  destruct (ready st).
  - destruct (startRequest (sFen s) (sOptions s) st) as [id st']. apply IH.
  - apply IH.
Qed.

End AsyncFacts.

Import AsyncFacts.

(** X14. Along every run of the adapter, calls and [quit] interleaved with
    the event loop in any way: the adapter is ready exactly when a line
    [readyok] has been received; the readiness promise is resolved once
    when this happens and never again; a request is pending only on a ready
    adapter; no call throws the not-ready error.  Until [readyok] no
    continuation is due and no call has returned a request: a call on an
    adapter without worker has thrown the unavailable error, and a call on
    a live worker changes nothing on the adapter and posts nothing, it
    waits.  The line [readyok] makes the waiting continuations due, in the
    order of the calls.  A due continuation, when it runs on the ready
    adapter, returns the request of the fresh timer, installs it with no
    line retained, and adds to the effects: [stop], the rejection of the
    request it replaces, and the three commands of the search, the
    commands only when the adapter still has its worker. *)
Theorem ready_exactly_after_readyok (es : list Async.Input) :
  let a := Async.reacts es Async.fresh in
  let st := Async.engine a in
  (ready st = true <-> existsb isReadyok es = true) /\
  readyCount (effects st) = (if ready st then 1 else 0)%nat /\
  (forall p, pending st = Some p -> ready st = true) /\
  (forall c o, In (c, o) (Async.outcomes a) -> o <> Async.Throws Async.NotReady) /\
  (ready st = false ->
   Async.microtasks a = [] /\
   (forall c o, In (c, o) (Async.outcomes a) -> o = Async.Throws Unavailable) /\
   (worker st = true ->
    forall fen options,
      Async.react a (Async.CallAnalyze fen options)
      = {| Async.engine := st;
           Async.waiting :=
             Async.waiting a
             ++ [{| Async.sCall := Async.calls a; Async.sFen := fen;
                    Async.sOptions := options |}];
           Async.microtasks := [];
           Async.calls := S (Async.calls a);
           Async.outcomes := Async.outcomes a |}) /\
   (let a' := Async.react a (Async.Message "readyok") in
    ready (Async.engine a') = true /\
    Async.microtasks a' = Async.waiting a /\ Async.waiting a' = [] /\
    Async.outcomes a' = Async.outcomes a /\
    effects (Async.engine a') = (effects st ++ [ReadyResolved])%list)) /\
  (ready st = true ->
   forall s rest, Async.microtasks a = s :: rest ->
     let a' := Async.react a Async.Microtask in
     Async.microtasks a' = rest /\
     Async.outcomes a'
     = (Async.outcomes a ++ [(Async.sCall s, Async.Returns (nextTimer st))])%list /\
     pending (Async.engine a')
     = Some {| results := ∅;
               multiPv := default 1 (optMultiPv (Async.sOptions s));
               timeoutId := nextTimer st |} /\
     effects (Async.engine a')
     = (effects st ++ startEffects (Async.sFen s) (Async.sOptions s) st)%list).
Proof.
  cbv zeta. pose proof (inv_reacts es) as Hi. pose proof (ready_reacts es) as Hr.
  set (a := Async.reacts es Async.fresh) in *.
  pose proof Hi as (Hrr & Hc & Ha & Hp & Hm & Hw & Hout).
  split; [rewrite Hr; tauto |]. split; [exact Hc |]. split.
  { intros p Hpend. destruct (ready (Async.engine a)); [reflexivity |].
    rewrite (Hp eq_refl) in Hpend. discriminate. }
  split.
  { intros c o Hin. rewrite Forall_forall in Hout.
    apply (Hout (c, o)). apply list_elem_of_In, Hin. }
  split.
  - intros Hnr. destruct (Hm Hnr) as [Hmt Hu]. split; [exact Hmt |]. split.
    { intros c o Hin. rewrite Forall_forall in Hu.
      apply (Hu (c, o)). apply list_elem_of_In, Hin. }
    rewrite Hnr in Hrr. cbn [negb] in Hrr.
    destruct a as [st wt mt n out]. cbn [Async.engine Async.waiting Async.microtasks
      Async.calls Async.outcomes] in *. subst mt. split.
    + intros Hwk fen options. cbn [Async.react]. rewrite Hwk, Hrr. reflexivity.
    + cbn [Async.react Async.drain fold_left].
      cbn [String.eqb Ascii.eqb Bool.eqb andb]. rewrite Hrr.
      cbn [Async.engine Async.waiting Async.microtasks Async.outcomes app].
      unfold handleMessage. cbn [String.eqb Ascii.eqb Bool.eqb]. rewrite Hrr.
      fields. rewrite effects_markReady. auto.
  - intros Hrdy s rest Hmt.
    destruct a as [st wt mt n out]. cbn [Async.engine Async.waiting Async.microtasks
      Async.calls Async.outcomes] in *. subst mt.
    cbn [Async.react]. unfold Async.resume. rewrite Hrdy.
    pose proof (startRequest_fields (Async.sFen s) (Async.sOptions s) st) as Hf.
    destruct (Async.startRequest (Async.sFen s) (Async.sOptions s) st) as [id st'].
    cbn [fst snd] in Hf. cbv zeta in Hf.
    destruct Hf as (-> & _ & _ & _ & _ & Hp' & _ & He').
    cbn [Async.engine Async.microtasks Async.outcomes]. auto.
Qed.

Lemma ready_exactly_after_readyok_witness :
  Async.microtasks
    (Async.reacts [Async.Message "uciok"; Async.CallAnalyze Sample.fenOpen twoLines;
                Async.Message "readyok"] Async.fresh)
  = [{| Async.sCall := 0; Async.sFen := Sample.fenOpen; Async.sOptions := twoLines |}]
  /\
  effects (Async.engine
             (Async.reacts [Async.Message "uciok"; Async.CallAnalyze Sample.fenOpen twoLines;
                         Async.Message "readyok"; Async.Microtask] Async.fresh))
  = [PostMessage "uci"; PostMessage "setoption name Hash value 32";
     PostMessage "isready"; ReadyResolved; PostMessage "stop";
     PostMessage "setoption name MultiPV value 2";
     PostMessage ("position fen " ++ Sample.fenOpen); PostMessage "go depth 14"].
Proof.
  split.
  - destruct (ready_exactly_after_readyok
                [Async.Message "uciok"; Async.CallAnalyze Sample.fenOpen twoLines])
      as (_ & _ & _ & _ & Hwait & _).
    destruct (Hwait eq_refl) as (_ & _ & _ & _ & Hdue & _).
    exact Hdue.
  - destruct (ready_exactly_after_readyok
                [Async.Message "uciok"; Async.CallAnalyze Sample.fenOpen twoLines;
                 Async.Message "readyok"])
      as (_ & _ & _ & _ & _ & Hrun).
    destruct (Hrun eq_refl _ _ eq_refl) as (_ & _ & _ & He).
    exact He.
Defined.

(** X11. [quit], called at any point of any run of the adapter, rejects the
    pending request, if any, with the termination error, posts [quit] and
    terminates the worker if there is one, and leaves no request pending and
    no timer armed.  Afterwards the adapter has no worker for good: every
    later call throws the unavailable error at once, no command is posted
    and nothing is terminated any more.  When no call was suspended at the
    time of [quit], no request is settled afterwards either (a late
    [readyok] can still resolve the readiness promise).  A call that was
    suspended and due on the ready adapter at that time still resumes: it
    posts nothing, but installs its request and arms its timer on the
    adapter without worker, and the timer, when it expires next, rejects the
    request with the timeout error. *)
Theorem quit_is_final (es : list Async.Input) :
  let a := Async.reacts es Async.fresh in
  let st := Async.engine a in
  let q := Async.react a Async.CallQuit in
  Async.engine q = quit st /\
  worker (quit st) = false /\ pending (quit st) = None /\ timers (quit st) = ∅ /\
  effects (quit st)
  = (effects st
     ++ match pending st with
        | Some p => [Rejected (timeoutId p) EngineTerminated]
        | None => []
        end
     ++ (if worker st then [PostMessage "quit"; Terminated] else []))%list /\
  (forall es',
     let a' := Async.reacts es' q in
     worker (Async.engine a') = false /\
     (forall fen options,
        Async.react a' (Async.CallAnalyze fen options)
        = {| Async.engine := Async.engine a';
             Async.waiting := Async.waiting a';
             Async.microtasks := Async.microtasks a';
             Async.calls := S (Async.calls a');
             Async.outcomes :=
               Async.outcomes a' ++ [(Async.calls a', Async.Throws Unavailable)] |}) /\
     (forall e, In e (effects (Async.engine a')) ->
                In e (effects (quit st)) \/ silent e = true) /\
     (Async.waiting a = [] -> Async.microtasks a = [] ->
      forall e, In e (effects (Async.engine a')) ->
                In e (effects (quit st)) \/ e = ReadyResolved)) /\
  (ready st = true ->
   forall s, Async.microtasks a = [s] ->
     let a2 := Async.reacts [Async.CallQuit; Async.Microtask] a in
     worker (Async.engine a2) = false /\
     pending (Async.engine a2)
     = Some {| results := ∅;
               multiPv := default 1 (optMultiPv (Async.sOptions s));
               timeoutId := nextTimer st |} /\
     Async.outcomes a2
     = (Async.outcomes a ++ [(Async.sCall s, Async.Returns (nextTimer st))])%list /\
     effects (Async.engine a2) = effects (quit st) /\
     effects (Async.engine (Async.react a2 (Async.TimerFired (nextTimer st))))
     = (effects (quit st) ++ [Rejected (nextTimer st) Timeout])%list).
Proof.
  cbv zeta. pose proof (inv_reacts es) as Hi.
  set (a := Async.reacts es Async.fresh) in *.
  pose proof Hi as (_ & _ & Ha & _).
  destruct (quit_fields_armed _ Ha) as (Hw & Hrq & Hnq & Hp & Ht & He).
  destruct a as [st wt mt n out].
  cbn [Async.engine Async.waiting Async.microtasks Async.calls Async.outcomes
       Async.react] in *.
  split; [reflexivity |]. split; [exact Hw |]. split; [exact Hp |].
  split; [exact Ht |]. split; [exact He |]. split.
  - intros es'.
    pose proof (quietly_reacts es' (Async.mkAdapter (quit st) wt mt n out) Hw)
      as (Hw' & l & Hl & Hsil).
    cbn [Async.engine] in Hl.
    split; [exact Hw' |]. split; [| split].
    + intros fen options.
      destruct (Async.reacts es' _) as [st' wt' mt' n' out'].
      cbn [Async.engine Async.waiting Async.microtasks Async.calls Async.outcomes
           Async.react] in *.
      rewrite Hw'. reflexivity.
    + intros e. rewrite Hl, in_app_iff. intros [Hin | Hin]; [left; exact Hin |].
      right. rewrite forallb_forall in Hsil. apply Hsil, Hin.
    + intros -> ->.
      apply (idle_reacts (quit st) es' (Async.mkAdapter (quit st) [] [] n out)).
      * unfold idle. cbn [Async.engine Async.waiting Async.microtasks]. auto.
      * cbn [Async.engine]. auto.
  - intros Hr s ->. cbn [Async.reacts fold_left Async.react].
    unfold Async.resume. rewrite Hrq, Hr.
    pose proof (startRequest_fields (Async.sFen s) (Async.sOptions s) (quit st)) as Hf.
    destruct (Async.startRequest (Async.sFen s) (Async.sOptions s) (quit st))
      as [id st'].
    cbn [fst snd] in Hf. cbv zeta in Hf.
    destruct Hf as (-> & Hw' & _ & _ & _ & Hp' & Ht' & He').
    rewrite Hnq in *. rewrite Hw in Hw'.
    assert (He2 : effects st' = effects (quit st)).
    { rewrite He'. unfold startEffects. rewrite Hw, Hp. apply app_nil_r. }
    cbn [Async.engine Async.outcomes].
    split; [exact Hw' |]. split; [exact Hp' |]. split; [reflexivity |].
    split; [exact He2 |].
    unfold Async.task. cbn [Async.drain fold_left Async.engine].
    rewrite <- He2.
    apply (fireTimeout_empty st' (nextTimer st) _
             (default 8000 (optTimeoutMs (Async.sOptions s))) Hw' Hp').
    rewrite Ht', Hp. apply lookup_insert_eq.
Qed.

Lemma quit_is_final_witness :
  let a := Async.reacts [Async.Message "uciok"; Async.Message "readyok";
                      Async.CallAnalyze Sample.fenOpen twoLines] Async.fresh in
  effects (Async.engine
             (Async.reacts [Async.CallQuit; Async.Microtask; Async.TimerFired 0] a))
  = (effects (Async.engine a)
     ++ [PostMessage "quit"; Terminated; Rejected 0 Timeout])%list.
Proof.
  cbv zeta.
  destruct (quit_is_final [Async.Message "uciok"; Async.Message "readyok";
                           Async.CallAnalyze Sample.fenOpen twoLines])
    as (_ & _ & _ & _ & He & _ & Hflight).
  destruct (Hflight eq_refl _ eq_refl) as (_ & _ & _ & _ & Hfire).
  cbv zeta in Hfire.
  change (Async.reacts [Async.CallQuit; Async.Microtask; Async.TimerFired 0] ?a)
    with (Async.react (Async.reacts [Async.CallQuit; Async.Microtask] a)
            (Async.TimerFired 0)).
  etransitivity; [exact Hfire |]. rewrite He. vm_compute. reflexivity.
Defined.


(** *** What is retained *)

Module RetainedFacts.

Import Async.

Lemma retained_step (st : Engine) (e : Stockfish.Event) :
  retainedWellFormed st -> retainedWellFormed (Stockfish.step st e).
Proof.
  intros IH p i ev Hp Hev.
  destruct (pending_step _ e p Hp) as [Hsame | [(line & p0 & Hp0 & ->) | Hempty]].
  - exact (IH p i ev Hsame Hev).
  - apply (storeInfo_wellFormed line p0 (fun i ev => IH p0 i ev Hp0) i ev Hev).
  - rewrite Hempty, lookup_empty in Hev. discriminate.
Qed.

Lemma retained_resume (s : Suspended) (a : Adapter) :
  retainedWellFormed (engine a) -> retainedWellFormed (engine (resume s a)).
Proof.
  destruct a as [st wt mt n out]. cbn [engine]. intros IH. unfold resume.
  destruct (ready st); [| exact IH].
  pose proof (startRequest_fields (sFen s) (sOptions s) st) as Hf.
  destruct (startRequest (sFen s) (sOptions s) st) as [id st'].
  cbn [fst snd] in Hf. cbv zeta in Hf. destruct Hf as (_ & _ & _ & _ & _ & Hp' & _).
  cbn [engine]. intros p i ev Hp Hev. rewrite Hp' in Hp. injection Hp as <-.
  cbn [results] in Hev. rewrite lookup_empty in Hev. discriminate.
Qed.

Lemma retained_resume_all (mt : list Suspended) :
  forall a, retainedWellFormed (engine a) ->
    retainedWellFormed (engine (fold_left (fun a' s => resume s a') mt a)).
Proof.
  induction mt as [| s mt IH]; intros a Ha; cbn [fold_left]; [exact Ha |].
  apply IH, retained_resume, Ha.
Qed.

Lemma retained_task (e : Stockfish.Event) (a : Adapter) :
  retainedWellFormed (engine a) ->
  retainedWellFormed
    (engine (let 'mkAdapter st wt mt n out := drain a in
             mkAdapter (Stockfish.step st e) wt mt n out)).
Proof.
  intros Ha.
  assert (Hd : retainedWellFormed (engine (drain a))).
  { destruct a as [st wt mt n out]. unfold drain.
    apply (retained_resume_all mt (mkAdapter st wt [] n out)), Ha. }
  destruct (drain a) as [st wt mt n out]. cbn [engine] in *.
  apply retained_step, Hd.
Qed.

Lemma retained_react (a : Adapter) (e : Input) :
  retainedWellFormed (engine a) -> retainedWellFormed (engine (react a e)).
Proof.
  intros Ha. destruct e as [line | id | error | fen options | |]; cbn [react].
  - pose proof (retained_task (Line line) a Ha) as Ht.
    destruct (drain a) as [st wt mt n out].
    destruct (String.eqb line "readyok" && resolveReady st); exact Ht.
  - apply (retained_task (TimerExpired id) a Ha).
  - apply (retained_task (WorkerError error) a Ha).
  - destruct a as [st wt mt n out]. cbn [engine] in *.
    destruct (negb (worker st)); [exact Ha |].
    destruct (resolveReady st); exact Ha.
  - destruct a as [st wt mt n out]. cbn [engine] in *.
    apply (retained_step st Quit Ha).
  - destruct a as [st wt mt n out]. destruct mt as [| s rest]; [exact Ha |].
    apply (retained_resume s (mkAdapter st wt rest n out) Ha).
Qed.

Lemma retained_reacts (es : list Input) :
  retainedWellFormed (engine (reacts es fresh)).
Proof.
  induction es as [| e es IH] using rev_ind.
  - intros p i ev Hp. discriminate.
  - rewrite reacts_snoc. apply retained_react, IH.
Qed.

Lemma retained_runEvents (es : list Stockfish.Event) :
  retainedWellFormed (runEvents es newEngine).
Proof.
  induction es as [| e es IH] using rev_ind.
  - intros p i ev Hp. discriminate.
  - rewrite runEvents_snoc. apply retained_step, IH.
Qed.

End RetainedFacts.

(** X12. Whatever events follow the creation of the adapter, every
    evaluation retained for the pending request is well formed: its line
    index, depth and node count are not negative, its best move, when it
    has one, is a move in long algebraic form and the first move of its
    principal variation (the variation starts with it and then ends or goes
    on with white space).  This holds along the runs in which every call is
    one step and along those in which calls are suspended at their [await]
    and resumed later.  An info line that parses to an evaluation carries no
    bound. *)
Theorem retained_evaluations_wellFormed (es : list Event) :
  (forall p i ev,
     pending (runEvents es newEngine) = Some p ->
     results p !! i = Some ev -> wellFormedLine i ev)
  /\
  (forall line ev i,
     parseInfoLine line = Some (ev, i) ->
     wellFormedLine i ev /\ test reBound line = false)
  /\
  (forall (inputs : list Async.Input) p i ev,
     pending (Async.engine (Async.reacts inputs Async.fresh)) = Some p ->
     results p !! i = Some ev -> wellFormedLine i ev).
Proof.
  split; [exact (RetainedFacts.retained_runEvents es) |].
  split; [exact parseInfoLine_wellFormed |].
  intros inputs. exact (RetainedFacts.retained_reacts inputs).
Qed.

Lemma retained_evaluations_wellFormed_witness :
  wellFormedLine 1
    {| cp := Some 35; mate := None; depth := 12; nodes := Some 4100;
       bestMove := Some "g1f3"; pv := Some "g1f3 b8c6" |}.
Proof.
  destruct (retained_evaluations_wellFormed
              [Line "uciok"; Line "readyok"; Analyze Sample.fenOpen twoLines;
               Line "info depth 12 seldepth 16 multipv 1 score cp 35 nodes 4100 pv g1f3 b8c6"])
    as [Hrun _].
  apply (Hrun retained12); vm_compute; reflexivity.
Defined.



(** ** The analysis hook (src/hooks/useStockfish.ts) *)

Module HookFacts.

Import Hook.

Section WithEngine.

Variable api : ChessApi.
Variable engine : nat -> string -> AnalyzeOptions -> outcome (list Evaluation).

Lemma requestsOf_app (l1 l2 : list Call) :
  requestsOf (l1 ++ l2) = (requestsOf l1 ++ requestsOf l2)%list.
Proof. apply flat_map_app. Qed.

Lemma published_app (l1 l2 : list Call) :
  published (l1 ++ l2) = (published l1 ++ published l2)%list.
Proof. apply flat_map_app. Qed.

Lemma published_pass1Calls (T i : Z) (moves : list ParsedMove) :
  published (pass1Calls T i moves) = [].
Proof.
  revert i. induction moves as [| m rest IH]; intros i; [reflexivity |].
  cbn. apply IH.
Qed.

Lemma requestsOf_pass1Calls (T i : Z) (moves : list ParsedMove) :
  length (requestsOf (pass1Calls T i moves)) = (2 * length moves)%nat.
Proof.
  revert i. induction moves as [| m rest IH]; intros i; [reflexivity |].
  cbn. rewrite IH. lia.
Qed.

(** The value pass 1 reports after move [i] of [n]. *)
Lemma progress_range (i n : Z) :
  0 <= i < n -> (0 <= IZR (i * 2 + 2) / IZR (n * 2) * 100 <= 100)%R.
Proof.
  intros Hi.
  assert (Hn : (0 < IZR (n * 2))%R) by (apply IZR_lt; lia).
  assert (Ha : (0 <= IZR (i * 2 + 2))%R) by (apply IZR_le; lia).
  assert (Hb : (IZR (i * 2 + 2) <= IZR (n * 2))%R) by (apply IZR_le; lia).
  assert (Hq : (0 <= IZR (i * 2 + 2) / IZR (n * 2) <= 1)%R).
  { split.
    - apply Rmult_le_pos; [exact Ha | apply Rlt_le, Rinv_0_lt_compat, Hn].
    - apply (Rmult_le_reg_r (IZR (n * 2))); [exact Hn |].
      unfold Rdiv. rewrite Rmult_assoc, Rinv_l by lra. lra. }
  lra.
Qed.

Lemma progress_last (n : Z) :
  0 < n -> (IZR ((n - 1) * 2 + 2) / IZR (n * 2) * 100 = 100)%R.
Proof.
  intros Hn. replace ((n - 1) * 2 + 2) with (n * 2) by lia.
  assert (Hp : (0 < IZR (n * 2))%R) by (apply IZR_lt; lia).
  unfold Rdiv. rewrite Rinv_r by lra. lra.
Qed.

(** *** Every run only adds calls *)

Lemma appends_ret {A : Type} (a : A) : appends (ret a).
Proof.
  intros s. exists []. cbn. rewrite app_nil_r. auto.
Qed.

Lemma appends_throw {A : Type} (e : string) : appends (@throw A e).
Proof.
  intros s. exists []. cbn. rewrite app_nil_r. auto.
Qed.

Lemma appends_lift {A : Type} (r : outcome A) : appends (lift r).
Proof.
  intros s. exists []. cbn. rewrite app_nil_r. auto.
Qed.

Lemma appends_call (c : Call) :
  during c -> requestsOf [c] = [] -> appends (call c).
Proof.
  intros Hc Hr s. exists [c]. cbn [call calls requests snd]. rewrite Hr.
  split; [reflexivity |]. split; [repeat constructor; exact Hc | cbn; lia].
Qed.

Lemma appends_request (fen : string) (options : AnalyzeOptions) :
  appends (request engine fen options).
Proof.
  intros s. exists [AnalyzePosition fen options]. cbn.
  repeat split; [repeat constructor | lia].
Qed.

Lemma appends_bind {A B : Type} (m : M A) (f : A -> M B) :
  appends m -> (forall a, appends (f a)) -> appends (bind m f).
Proof.
  intros Hm Hf s. unfold bind.
  destruct (Hm s) as (l1 & Hc1 & Hd1 & Hr1).
  destruct (m s) as [[a | e] s1]; cbn in *.
  - destruct (Hf a s1) as (l2 & Hc2 & Hd2 & Hr2).
    exists (l1 ++ l2)%list. rewrite Hc2, Hc1, Hr2, Hr1, requestsOf_app, length_app.
    rewrite app_assoc. repeat split; [apply Forall_app; auto | lia].
  - exists l1. auto.
Qed.

Lemma appends_catch {A : Type} (m h : M A) :
  appends m -> appends h -> appends (catch m h).
Proof.
  intros Hm Hh s. unfold catch.
  destruct (Hm s) as (l1 & Hc1 & Hd1 & Hr1).
  destruct (m s) as [[a | e] s1]; cbn in *.
  - exists l1. auto.
  - destruct (Hh s1) as (l2 & Hc2 & Hd2 & Hr2).
    exists (l1 ++ l2)%list. rewrite Hc2, Hc1, Hr2, Hr1, requestsOf_app, length_app.
    rewrite app_assoc. repeat split; [apply Forall_app; auto | lia].
Qed.

Lemma appends_secondBest (m : ParsedMove) (best : string) :
  appends (secondBest engine m best).
Proof.
  unfold secondBest. destruct (String.eqb (lan m) best); [| apply appends_ret].
  apply appends_catch; [| apply appends_ret].
  apply appends_bind; [apply appends_request | intros l; apply appends_ret].
Qed.

Lemma appends_pass1 (n : Z) (moves : list ParsedMove) :
  forall i pe ae, 0 <= i -> i + Z.of_nat (length moves) <= n ->
    appends (pass1 engine (n * 2) i moves pe ae).
Proof.
  induction moves as [| m rest IH]; intros i pe ae Hi Hn; cbn [pass1].
  - apply appends_ret.
  - cbn [length] in Hn.
    apply appends_bind; [apply appends_request | intros l1].
    apply appends_bind; [apply appends_request | intros l2].
    apply appends_bind.
    + apply appends_call; [cbn; apply progress_range; lia | reflexivity].
    + intros _. apply IH; lia.
Qed.

Lemma appends_pass2 (limit : Z) (moves : list ParsedMove) :
  forall i pe ae maps, appends (pass2 api engine limit i moves pe ae maps).
Proof.
  induction moves as [| m rest IH]; intros i pe ae maps; cbn [pass2].
  - apply appends_ret.
  - destruct (mjoin (pe !! i)) as [evb |]; [| apply appends_throw].
    apply appends_bind; [apply appends_secondBest | intros sbe].
    destruct (mjoin (ae !! i)) as [eva |]; [| apply appends_throw].
    apply appends_bind; [apply appends_lift | intros v].
    apply appends_bind; [apply appends_call; [exact I | reflexivity] | intros _; apply IH].
Qed.

Lemma analyzeGame_runs (moves : list ParsedMove) (limit : option Z) :
  moves <> [] ->
  analyzeGame api engine true moves limit start
  = let (r, s) := bothPasses api engine moves (default 10 limit) afterResets in
    (r, {| requests := requests s; calls := calls s ++ [SetIsAnalyzing false] |}).
Proof.
  destruct moves as [| m0 rest]; [congruence | intros _].
  unfold analyzeGame. cbn [negb orb length Nat.eqb].
  unfold bind, call, finally, start, afterResets. cbn [requests calls app].
  destruct (bothPasses _ _ _ _ _) as [r s]. reflexivity.
Qed.

Lemma appends_bothPasses (moves : list ParsedMove) (limit : Z) :
  appends (bothPasses api engine moves limit).
Proof.
  unfold bothPasses. cbv zeta. apply appends_bind.
  - apply appends_pass1; lia.
  - intros evals. apply appends_bind; [apply appends_pass2 | intros _].
    apply appends_call; [cbn; lra | reflexivity].
Qed.

(** *** Pass 1 *)

Lemma pass1_fails (T : Z) (k : nat) (e : string) :
  (forall n fen options, (n < k)%nat -> exists l, engine n fen options = Ok l) ->
  (forall fen options, engine k fen options = Throw e) ->
  forall moves i pe ae s,
    (requests s <= k < requests s + 2 * length moves)%nat ->
    exists s' mid rest,
      pass1 engine T i moves pe ae s = (Throw e, s') /\
      calls s' = (calls s ++ mid)%list /\
      pass1Calls T i moves = (mid ++ rest)%list /\
      requests s' = S k.
Proof.
  intros Hok Hfail.
  intros moves. induction moves as [| m moves IH]; intros i pe ae s Hk; cbn [length] in Hk; [lia |].
  cbn [pass1 pass1Calls]. unfold bind at 1, request at 1.
  destruct (Nat.eq_dec (requests s) k) as [-> | Hne].
  { rewrite Hfail. eexists _, [_], _. cbn. repeat split. }
  destruct (Hok (requests s) (fenBefore m) firstPass ltac:(lia)) as [l1 ->].
  unfold bind at 1, request at 1. cbn [requests calls].
  destruct (Nat.eq_dec (S (requests s)) k) as [<- | Hne'].
  { rewrite Hfail. eexists _, [_; _], _. cbn. rewrite <- app_assoc. repeat split. }
  destruct (Hok (S (requests s)) (fenAfter m) firstPass ltac:(lia)) as [l2 ->].
  unfold bind at 1, call at 1. cbn [requests calls].
  match goal with |- context [pass1 engine T (i + 1) moves ?pe' ?ae' ?s1] =>
    destruct (IH (i + 1) pe' ae' s1) as (s' & mid & rest & Hrun & Hc & Hp & Hr);
      [cbn; lia |] end.
  rewrite Hrun.
  exists s', (AnalyzePosition (fenBefore m) firstPass
              :: AnalyzePosition (fenAfter m) firstPass
              :: SetProgress (IZR (i * 2 + 2) / IZR T * 100) :: mid), rest.
  cbn [calls] in Hc. rewrite Hc, Hp, <- !app_assoc. cbn [app]. repeat split. exact Hr.
Qed.

Lemma pass1_succeeds (T : Z) (before after : nat -> Evaluation) :
  forall moves q pe ae s,
    requests s = (2 * q)%nat ->
    (forall j m, moves !! j = Some m ->
       (exists l, engine (2 * (q + j))%nat (fenBefore m) firstPass = Ok l /\
                  l !! 0%nat = Some (before (q + j)%nat)) /\
       (exists l, engine (2 * (q + j) + 1)%nat (fenAfter m) firstPass = Ok l /\
                  l !! 0%nat = Some (after (q + j)%nat))) ->
    exists s',
      pass1 engine T (Z.of_nat q) moves pe ae s
      = (Ok ((pe ++ map (fun j => Some (before j)) (seq q (length moves)))%list,
             (ae ++ map (fun j => Some (after j)) (seq q (length moves)))%list), s') /\
      requests s' = (2 * (q + length moves))%nat /\
      calls s' = (calls s ++ pass1Calls T (Z.of_nat q) moves)%list.
Proof.
  intros moves. induction moves as [| m moves IH]; intros q pe ae s Hr Hans.
  - cbn. rewrite !app_nil_r. eexists; repeat split. lia.
  - destruct (Hans 0%nat m eq_refl) as [(l1 & He1 & Hl1) (l2 & He2 & Hl2)].
    rewrite Nat.add_0_r in *.
    cbn [pass1 pass1Calls]. unfold bind at 1, request at 1. rewrite Hr, He1.
    unfold bind at 1, request at 1. cbn [requests calls].
    replace (S (2 * q)) with (2 * q + 1)%nat by lia. rewrite He2.
    unfold bind at 1, call at 1. cbn [requests calls].
    rewrite Hl1, Hl2.
    replace (Z.of_nat q + 1) with (Z.of_nat (S q)) by lia.
    match goal with |- context [pass1 engine T _ moves ?pe' ?ae' ?s1] =>
      destruct (IH (S q) pe' ae' s1) as (s' & Hrun & Hr' & Hc) end.
    { cbn. lia. }
    { intros j m' Hj. specialize (Hans (S j) m' Hj).
      replace (q + S j)%nat with (S q + j)%nat in Hans by lia. exact Hans. }
    rewrite Hrun. exists s'. cbn [length seq map]. rewrite <- !app_assoc. cbn [app].
    split; [reflexivity |]. split; [lia |].
    rewrite Hc. cbn [calls]. rewrite <- !app_assoc. reflexivity.
Qed.

(** *** Pass 2 *)

Lemma secondBest_run (m : ParsedMove) (best : string) (s : Run) :
  secondBest engine m best s
  = if String.eqb (lan m) best
    then (Ok (secondOf (engine (requests s) (fenBefore m) secondPass)),
          {| requests := S (requests s);
             calls := calls s ++ [AnalyzePosition (fenBefore m) secondPass] |})
    else (Ok None, s).
Proof.
  unfold secondBest. destruct (String.eqb (lan m) best); [| reflexivity].
  unfold catch, bind, request, secondOf, ret.
  destruct (engine (requests s) (fenBefore m) secondPass) as [l | e]; reflexivity.
Qed.

Lemma classifyMove_valid (params : Params) :
  validMove api (move params) -> exists v, classifyMove api params = Ok v.
Proof.
  intros [[g1 Hg1] [g2 Hg2]].
  unfold classifyMove; cbv zeta. unfold materialByColor.
  rewrite Hg1, Hg2. repeat case_match; eexists; reflexivity.
Qed.

Lemma sameAt_refl (k : Z) (a : AnalysisMap) : sameAt k a a.
Proof. repeat split. Qed.

Lemma sameAt_record (k : Z) (m : ParsedMove) (eva : Evaluation) (best : string)
  (v : Verdict) (a : AnalysisMap) :
  k <> index m -> sameAt k (record m eva best v a) a.
Proof.
  intros Hk. unfold sameAt, record. cbn.
  rewrite !lookup_insert_ne by congruence. repeat split.
Qed.

Lemma sameAt_trans (k : Z) (a1 a2 a3 : AnalysisMap) :
  sameAt k a1 a2 -> sameAt k a2 a3 -> sameAt k a1 a3.
Proof.
  unfold sameAt. intros (? & ? & ? & ? & ?) (? & ? & ? & ? & ?).
  repeat split; congruence.
Qed.

Lemma bestPlayed_length (before : nat -> Evaluation) (moves : list ParsedMove) :
  forall q, (length (bestPlayed before q moves) <= length moves)%nat.
Proof.
  induction moves as [| m rest IH]; intros q; cbn; [lia |].
  rewrite length_app. specialize (IH (S q)).
  destruct (String.eqb _ _); cbn; lia.
Qed.

Lemma pass2_succeeds (limit : Z) (before after : nat -> Evaluation)
  (pe ae : list (option Evaluation)) :
  forall moves q s maps,
    (forall j, (j < length moves)%nat ->
               pe !! (q + j)%nat = Some (Some (before (q + j)%nat)) /\
               ae !! (q + j)%nat = Some (Some (after (q + j)%nat))) ->
    Forall (validMove api) moves ->
    exists s' maps' l,
      pass2 api engine limit q moves pe ae maps s = (Ok maps', s') /\
      calls s' = (calls s ++ l)%list /\
      requestsOf l
      = map (fun m => (fenBefore m, secondPass)) (bestPlayed before q moves) /\
      length (published l) = length moves /\
      last (maps :: published l) = Some maps' /\
      (forall k, ~ In k (map index moves) -> sameAt k maps' maps) /\
      (NoDup (map index moves) ->
       forall j m, moves !! j = Some m ->
         entryFor api limit m (before (q + j)%nat) (after (q + j)%nat)
           (if String.eqb (lan m) (default "" (bestMove (before (q + j)%nat)))
            then secondOf (engine (requests s
                                   + length (bestPlayed before q (take j moves)))%nat
                             (fenBefore m) secondPass)
            else None)
           maps').
Proof.
  intros moves. induction moves as [| m moves IH]; intros q s maps Hev Hvalid.
  - exists s, maps, []. cbn [pass2 ret length map bestPlayed published requestsOf flat_map last].
    rewrite app_nil_r.
    split_and!; try reflexivity; [intros k _; apply sameAt_refl |].
    intros _ j m Hj. discriminate.
  - cbn [pass2].
    destruct (Hev 0%nat ltac:(cbn; lia)) as [Hpe Hae]. rewrite Nat.add_0_r in *.
    rewrite Hpe, Hae. cbn [mjoin option_join mbind option_bind].
    set (best := default "" (bestMove (before q))).
    unfold bind at 1. rewrite secondBest_run.
    set (sbe := if String.eqb (lan m) best
                then secondOf (engine (requests s) (fenBefore m) secondPass) else None).
    set (s1 := if String.eqb (lan m) best
               then {| requests := S (requests s);
                       calls := calls s ++ [AnalyzePosition (fenBefore m) secondPass] |}
               else s).
    replace (if String.eqb (lan m) best then _ else (Ok None, s)) with (Ok sbe, s1)
      by (unfold sbe, s1; destruct (String.eqb (lan m) best); reflexivity).
    inversion Hvalid as [| ? ? Hm Hrest]; subst.
    set (params := {| Analysis.move := m; evalBefore := before q; evalAfter := after q;
                      bestMoveLan := best; Analysis.openingPlyLimit := limit;
                      secondBestEval := sbe;
                      isOnlyLegalMove := Some (onlyLegalMove api m) |}).
    destruct (classifyMove_valid params Hm) as [v Hv].
    unfold bind at 1, lift at 1. rewrite Hv.
    unfold bind at 1, call at 1.
    set (maps1 := record m (after q) best v maps).
    match goal with |- context [pass2 api engine limit (S q) moves pe ae maps1 ?s2] =>
      destruct (IH (S q) s2 maps1) as (s' & maps' & l & Hrun & Hc & Hreq & Hlen & Hlast & Hframe & Hentries);
        [| exact Hrest |] end.
    { intros j Hj. specialize (Hev (S j) ltac:(cbn; lia)).
      replace (q + S j)%nat with (S q + j)%nat in Hev by lia. exact Hev. }
    rewrite Hrun.
    exists s', maps',
      ((if String.eqb (lan m) best then [AnalyzePosition (fenBefore m) secondPass] else [])
       ++ SetAnalysis maps1 :: l)%list.
    split; [reflexivity |].
    split.
    { rewrite Hc. cbn [calls]. unfold s1.
      destruct (String.eqb (lan m) best); cbn [calls app]; rewrite <- ?app_assoc; reflexivity. }
    split.
    { rewrite requestsOf_app. cbn [bestPlayed]. fold best. rewrite map_app.
      f_equal; [destruct (String.eqb (lan m) best); reflexivity |].
      exact Hreq. }
    split.
    { rewrite published_app. replace (published (if String.eqb (lan m) best then _ else [])) with (@nil AnalysisMap)
        by (destruct (String.eqb (lan m) best); reflexivity).
      cbn [app]. change (published (SetAnalysis maps1 :: l)) with (maps1 :: published l).
      cbn [length]. rewrite Hlen. reflexivity. }
    split.
    { rewrite published_app. replace (published (if String.eqb (lan m) best then _ else [])) with (@nil AnalysisMap)
        by (destruct (String.eqb (lan m) best); reflexivity).
      cbn [app]. change (published (SetAnalysis maps1 :: l)) with (maps1 :: published l).
      rewrite <- Hlast. reflexivity. }
    split.
    { intros k Hk. cbn [map In] in Hk.
      apply (sameAt_trans k maps' maps1 maps).
      - apply Hframe. tauto.
      - apply sameAt_record. intros ->. tauto. }
    intros Hnd j m' Hj. cbn [map] in Hnd. apply NoDup_cons in Hnd as [Hnotin Hnd].
    destruct j as [| j]; cbn in Hj.
    + injection Hj as <-. rewrite Nat.add_0_r. fold best. cbn [take bestPlayed length].
      rewrite Nat.add_0_r. fold sbe.
      destruct (Hframe (index m)) as (He & Hcl & Hb & Hl & Hw).
      { rewrite <- list_elem_of_In. exact Hnotin. }
      unfold entryFor. rewrite He, Hb, Hw. unfold maps1, record. cbn.
      rewrite !lookup_insert_eq. repeat split.
      exists v. rewrite Hcl, Hl. cbn. rewrite !lookup_insert_eq. repeat split. exact Hv.
    + specialize (Hentries Hnd j m' Hj).
      replace (q + S j)%nat with (S q + j)%nat by lia.
      cbn [take bestPlayed]. fold best. rewrite length_app.
      replace (requests s + (length (if String.eqb (lan m) best then [m] else [])
                             + length (bestPlayed before (S q) (take j moves))))%nat
        with (requests s1 + length (bestPlayed before (S q) (take j moves)))%nat.
      * exact Hentries.
      * unfold s1. destruct (String.eqb (lan m) best); cbn; lia.
Qed.

(** *** A run whose first pass is answered *)

Lemma analyzeGame_success (moves : list ParsedMove) (limit : option Z)
  (before after : nat -> Evaluation) :
  moves <> [] ->
  Forall (validMove api) moves ->
  firstPassAnswers engine before after moves ->
  exists s mid a,
    analyzeGame api engine true moves limit start = (Ok tt, s) /\
    calls s
    = ([SetIsAnalyzing true; SetProgress 0; SetAnalysis emptyAnalysis]
       ++ pass1Calls (Z.of_nat (length moves) * 2) 0 moves
       ++ mid ++ [SetProgress 100; SetIsAnalyzing false])%list /\
    requestsOf mid
    = map (fun m => (fenBefore m, secondPass)) (bestPlayed before 0 moves) /\
    length (published mid) = length moves /\
    last (published mid) = Some a /\
    (forall k, ~ In k (map index moves) -> sameAt k a emptyAnalysis) /\
    (NoDup (map index moves) ->
     forall j m, moves !! j = Some m ->
       entryFor api (default 10 limit) m (before j) (after j)
         (if String.eqb (lan m) (default "" (bestMove (before j)))
          then secondOf (engine (2 * length moves
                                 + length (bestPlayed before 0 (take j moves)))%nat
                           (fenBefore m) secondPass)
          else None)
         a).
Proof.
  intros Hne Hvalid Hans. rewrite analyzeGame_runs by exact Hne.
  unfold bothPasses. cbv zeta. unfold bind at 1.
  destruct (pass1_succeeds (Z.of_nat (length moves) * 2) before after moves 0%nat
              [] [] afterResets) as (s1 & Hrun1 & Hr1 & Hc1).
  { reflexivity. }
  { intros j m Hj. exact (Hans j m Hj). }
  change (Z.of_nat 0) with 0 in *. rewrite Hrun1. cbn [fst snd app].
  unfold bind at 1.
  destruct (pass2_succeeds (default 10 limit) before after
              (map (fun j => Some (before j)) (seq 0 (length moves)))
              (map (fun j => Some (after j)) (seq 0 (length moves)))
              moves 0%nat s1 emptyAnalysis)
    as (s2 & a & mid & Hrun2 & Hc2 & Hreq & Hlen & Hlast & Hframe & Hentries).
  { intros j Hj. cbn [Nat.add].
    rewrite !list_lookup_fmap, !lookup_seq_lt by exact Hj. split; reflexivity. }
  { exact Hvalid. }
  rewrite Hrun2. unfold call. cbn [requests calls].
  eexists _, mid, a. split; [reflexivity |].
  split.
  { cbn [calls]. rewrite Hc2, Hc1. unfold afterResets. cbn [calls].
    rewrite <- !app_assoc. reflexivity. }
  split; [exact Hreq |]. split; [exact Hlen |].
  split.
  { destruct (published mid) as [| a0 pubs] eqn:Hp.
    - destruct moves; [congruence | cbn in Hlen; discriminate].
    - rewrite <- Hlast. reflexivity. }
  split; [exact Hframe |].
  intros Hnd j m Hj. specialize (Hentries Hnd j m Hj). cbn [Nat.add] in Hentries.
  rewrite Hr1 in Hentries. cbn [Nat.add] in Hentries.
  replace (2 * (0 + length moves))%nat with (2 * length moves)%nat in Hentries by lia.
  exact Hentries.
Qed.

End WithEngine.

End HookFacts.


(** X15. Whatever the engine answers, [analyzeGame] does nothing at all
    without an engine or with no move; otherwise its first calls are
    [setIsAnalyzing(true)], [setProgress(0)] and the reset of the maps, its
    last call is [setIsAnalyzing(false)], also when a request fails, no call
    in between touches [isAnalyzing], and every progress value reported lies
    between 0 and 100. *)
Theorem analyzeGame_brackets (api : ChessApi)
  (engine : nat -> string -> AnalyzeOptions -> outcome (list Evaluation))
  (engineRef : bool) (moves : list ParsedMove) (limit : option Z) :
  let run := Hook.analyzeGame api engine engineRef moves limit Hook.start in
  if negb engineRef || (length moves =? 0)%nat
  then run = (Ok tt, Hook.start)
  else exists mid,
      Hook.calls run.2
      = ([Hook.SetIsAnalyzing true; Hook.SetProgress 0;
          Hook.SetAnalysis Hook.emptyAnalysis]
         ++ mid ++ [Hook.SetIsAnalyzing false])%list /\
      Forall during mid /\
      Hook.requests run.2 = length (requestsOf mid).
Proof.
  cbv zeta. destruct engineRef; [| reflexivity].
  destruct moves as [| m0 rest]; [reflexivity |].
  cbn [negb orb length Nat.eqb].
  rewrite HookFacts.analyzeGame_runs by discriminate.
  destruct (HookFacts.appends_bothPasses api engine (m0 :: rest) (default 10 limit)
              afterResets) as (mid & Hc & Hd & Hr).
  destruct (Hook.bothPasses _ _ _ _ _) as [r s]. cbn [snd Hook.calls Hook.requests] in *.
  exists mid. rewrite Hc, Hr. unfold afterResets. cbn [Hook.calls Hook.requests].
  rewrite <- app_assoc. auto.
Qed.

(** X16. When a request of pass 1 is rejected, [analyzeGame] rejects with
    the same error after that request: the calls made are the resets, a
    prefix of the calls of pass 1 and [setIsAnalyzing(false)]; no request
    follows the rejected one, and nothing but the empty maps has been
    published. *)
Theorem first_pass_failure (api : ChessApi)
  (engine : nat -> string -> AnalyzeOptions -> outcome (list Evaluation))
  (moves : list ParsedMove) (limit : option Z) (k : nat) (e : string) :
  (k < 2 * length moves)%nat ->
  (forall n fen options, (n < k)%nat -> exists l, engine n fen options = Ok l) ->
  (forall fen options, engine k fen options = Throw e) ->
  exists s mid rest,
    Hook.analyzeGame api engine true moves limit Hook.start = (Throw e, s) /\
    Hook.calls s
    = ([Hook.SetIsAnalyzing true; Hook.SetProgress 0;
        Hook.SetAnalysis Hook.emptyAnalysis]
       ++ mid ++ [Hook.SetIsAnalyzing false])%list /\
    pass1Calls (Z.of_nat (length moves) * 2) 0 moves = (mid ++ rest)%list /\
    Hook.requests s = S k /\
    published (Hook.calls s) = [Hook.emptyAnalysis].
Proof.
  intros Hk Hok Hfail.
  assert (Hne : moves <> []) by (destruct moves; [cbn in Hk; lia | discriminate]).
  rewrite HookFacts.analyzeGame_runs by exact Hne.
  unfold Hook.bothPasses. cbv zeta. unfold Hook.bind at 1.
  destruct (HookFacts.pass1_fails engine (Z.of_nat (length moves) * 2) k e Hok Hfail
              moves 0 [] [] afterResets) as (s' & mid & rest & Hrun & Hc & Hp & Hr).
  { cbn. lia. }
  rewrite Hrun. exists {| Hook.requests := Hook.requests s';
                          Hook.calls := Hook.calls s' ++ [Hook.SetIsAnalyzing false] |},
    mid, rest.
  cbn [Hook.calls Hook.requests]. rewrite Hc. unfold afterResets. cbn [Hook.calls].
  split; [reflexivity |]. split; [rewrite <- app_assoc; reflexivity |].
  split; [exact Hp |]. split; [exact Hr |].
  pose proof (HookFacts.published_pass1Calls (Z.of_nat (length moves) * 2) 0 moves) as Hnone.
  rewrite Hp, HookFacts.published_app in Hnone. apply app_eq_nil in Hnone as [Hmid _].
  rewrite !HookFacts.published_app, Hmid. reflexivity.
Qed.

Lemma first_pass_failure_witness :
  exists s,
    Hook.analyzeGame Sample.api failingEngine true [bishopMove] None Hook.start
    = (Throw Timeout, s) /\
    Hook.requests s = 2%nat /\ published (Hook.calls s) = [Hook.emptyAnalysis].
Proof.
  destruct (first_pass_failure Sample.api failingEngine [bishopMove] None 1 Timeout)
    as (s & mid & rest & Hrun & _ & _ & Hr & Hpub).
  - cbn. lia.
  - intros n fen options Hn. exists [cpEval 30 18].
    unfold failingEngine. destruct n; [reflexivity | lia].
  - reflexivity.
  - exists s. auto.
Defined.

(** X17. When every request of pass 1 is answered and the positions are
    valid, [analyzeGame] succeeds whatever the engine answers afterwards,
    rejections included: pass 1 asks for the position before and after each
    move, in order, at depth 18 with one line and 8000 ms, and reports the
    progress after each move; pass 2 asks again, at depth 14 with two lines
    and 5000 ms, exactly for the moves that are the preferred move of the
    evaluation before them, and publishes the maps once per move; the run
    ends with [setProgress(100)] and [setIsAnalyzing(false)], after between
    two and three requests per move. *)
Theorem analysis_requests (api : ChessApi)
  (engine : nat -> string -> AnalyzeOptions -> outcome (list Evaluation))
  (moves : list ParsedMove) (limit : option Z) (before after : nat -> Evaluation) :
  moves <> [] ->
  Forall (validMove api) moves ->
  firstPassAnswers engine before after moves ->
  exists s mid,
    Hook.analyzeGame api engine true moves limit Hook.start = (Ok tt, s) /\
    Hook.calls s
    = ([Hook.SetIsAnalyzing true; Hook.SetProgress 0;
        Hook.SetAnalysis Hook.emptyAnalysis]
       ++ pass1Calls (Z.of_nat (length moves) * 2) 0 moves
       ++ mid ++ [Hook.SetProgress 100; Hook.SetIsAnalyzing false])%list /\
    requestsOf mid
    = map (fun m => (fenBefore m, Hook.secondPass)) (bestPlayed before 0 moves) /\
    length (published mid) = length moves /\
    (2 * length moves <= length (requestsOf (Hook.calls s)) <= 3 * length moves)%nat.
Proof.
  intros Hne Hvalid Hans.
  destruct (HookFacts.analyzeGame_success api engine moves limit before after
              Hne Hvalid Hans) as (s & mid & a & Hrun & Hc & Hreq & Hlen & _).
  exists s, mid. split; [exact Hrun |]. split; [exact Hc |].
  split; [exact Hreq |]. split; [exact Hlen |].
  rewrite Hc, !HookFacts.requestsOf_app, !length_app, Hreq, length_map.
  rewrite HookFacts.requestsOf_pass1Calls.
  pose proof (HookFacts.bestPlayed_length before moves 0). cbn [requestsOf flat_map length app].
  lia.
Qed.

Lemma analysis_requests_witness :
  exists s,
    Hook.analyzeGame Sample.api steadyEngine true [bishopMove] None Hook.start
    = (Ok tt, s) /\
    (2 <= length (requestsOf (Hook.calls s)) <= 3)%nat.
Proof.
  destruct (analysis_requests Sample.api steadyEngine [bishopMove] None
              (fun _ => cpEval 30 18) (fun _ => cpEval (-20) 18))
    as (s & mid & Hrun & _ & _ & _ & Hn).
  - discriminate.
  - repeat constructor; eexists; vm_compute; reflexivity.
  - intros j m Hj. destruct j as [| j]; [| destruct j; discriminate].
    split; eexists; split; reflexivity.
  - exists s. split; [exact Hrun | exact Hn].
Defined.

(** X18. After such a run, with moves of distinct indices, the maps
    published last hold for every move, at its index: the evaluation after
    the move; the preferred move of the evaluation before it, or the empty
    string; the win chance of the score after the move seen from White; and
    the label and loss [classifyMove] gives for the two evaluations of pass 1,
    the forced flag of the position and, as second line, the scored second
    line of the answer to the move's pass-2 request, or none when that
    request was rejected or not made.  The maps hold nothing at other
    indices. *)
Theorem analysis_published (api : ChessApi)
  (engine : nat -> string -> AnalyzeOptions -> outcome (list Evaluation))
  (moves : list ParsedMove) (limit : option Z) (before after : nat -> Evaluation) :
  moves <> [] ->
  Forall (validMove api) moves ->
  firstPassAnswers engine before after moves ->
  NoDup (map index moves) ->
  exists s a,
    Hook.analyzeGame api engine true moves limit Hook.start = (Ok tt, s) /\
    last (published (Hook.calls s)) = Some a /\
    (forall j m, moves !! j = Some m ->
       entryFor api (default 10 limit) m (before j) (after j)
         (if String.eqb (lan m) (default "" (bestMove (before j)))
          then secondOf (engine (2 * length moves
                                 + length (bestPlayed before 0 (take j moves)))%nat
                           (fenBefore m) Hook.secondPass)
          else None)
         a) /\
    (forall k, ~ In k (map index moves) -> sameAt k a Hook.emptyAnalysis).
Proof.
  intros Hne Hvalid Hans Hnd.
  destruct (HookFacts.analyzeGame_success api engine moves limit before after
              Hne Hvalid Hans)
    as (s & mid & a & Hrun & Hc & _ & _ & Hlast & Hframe & Hentries).
  exists s, a. split; [exact Hrun |]. split.
  - rewrite Hc, !HookFacts.published_app, HookFacts.published_pass1Calls.
    cbn [published flat_map app]. rewrite app_nil_r, last_cons, Hlast. reflexivity.
  - split; [exact (Hentries Hnd) | exact Hframe].
Qed.

Lemma analysis_published_witness :
  exists s a,
    Hook.analyzeGame Sample.api steadyEngine true [bishopMove] None Hook.start
    = (Ok tt, s) /\
    last (published (Hook.calls s)) = Some a /\
    Hook.evaluations a !! 2 = Some (cpEval (-20) 18) /\
    Hook.bestMoves a !! 2 = Some "".
Proof.
  destruct (analysis_published Sample.api steadyEngine [bishopMove] None
              (fun _ => cpEval 30 18) (fun _ => cpEval (-20) 18))
    as (s & a & Hrun & Hlast & Hentries & _).
  - discriminate.
  - repeat constructor; eexists; vm_compute; reflexivity.
  - intros j m Hj. destruct j as [| j]; [| destruct j; discriminate].
    split; eexists; split; reflexivity.
  - repeat constructor. intros H. inversion H.
  - destruct (Hentries 0%nat bishopMove eq_refl) as (He & Hb & _).
    exists s, a. auto.
Defined.


(** ** [parsePgnMoves] (src/lib/analysis.ts) *)

Module ParsePgnFacts.

Section WithReplay.

Variable chess : ChessReplay.

(** The positions the replay goes through: [positions !! i] is the game
    before move [i]. *)
Lemma replayFrom_spec (verbose : list VerboseMove) :
  forall (q : nat) (replay : Game chess) (parsed result : list ParsedMove),
    replayFrom chess (Z.of_nat q) replay verbose parsed = Ok result ->
    exists added,
      result = (parsed ++ added)%list /\
      length added = length verbose /\
      (forall i m, added !! i = Some m ->
         index m = Z.of_nat (q + i) /\ ply m = Z.of_nat (q + i) + 1 /\
         exists v, verbose !! i = Some v /\ san m = vSan v /\ lan m = vLan v) /\
      (forall m, added !! 0%nat = Some m ->
         fenBefore m = fen chess replay /\ turn m = turnOf chess replay) /\
      (forall i m m', added !! i = Some m -> added !! S i = Some m' ->
         fenBefore m' = fenAfter m).
Proof.
  induction verbose as [| v rest IH]; intros q replay parsed result Hrun; cbn in Hrun.
  - injection Hrun as <-. exists []. rewrite app_nil_r.
    split_and!; try reflexivity; intros; discriminate.
  - destruct (play chess replay v) as [replay' | e] eqn:Hplay; [| discriminate].
    replace (Z.of_nat q + 1) with (Z.of_nat (S q)) in Hrun by lia.
    apply IH in Hrun as (added & -> & Hlen & Hfields & Hfirst & Hchain).
    eexists (_ :: added). rewrite <- app_assoc. split; [reflexivity |].
    split; [cbn; rewrite Hlen; reflexivity |].
    split; [| split].
    + intros i m Hi. destruct i as [| i]; cbn in Hi.
      * injection Hi as <-. cbn. rewrite Nat.add_0_r.
        split; [reflexivity |]. split; [lia |]. exists v. auto.
      * destruct (Hfields i m Hi) as (Hidx & Hply & Hv).
        replace (q + S i)%nat with (S q + i)%nat by lia. auto.
    + intros m Hm. cbn in Hm. injection Hm as <-. split; reflexivity.
    + intros i m m' Hi Hi'. destruct i as [| i]; cbn in Hi, Hi'.
      * injection Hi as <-. cbn. apply Hfirst. exact Hi'.
      * exact (Hchain i m m' Hi Hi').
Qed.

End WithReplay.

End ParsePgnFacts.

(** X19. The moves [parsePgnMoves] returns are the moves of the game's
    history, in order: move [i] has index [i] and ply [i + 1] and the SAN and
    LAN of the history's move [i]; the first move starts from the initial
    position, and each later move starts from the position the move before
    it ended in; so the indices are distinct. *)
Theorem parsePgnMoves_replays (chess : ChessReplay) (pgn : string)
  (parsed : list ParsedMove) :
  parsePgnMoves chess pgn = Ok parsed ->
  exists verbose,
    loadPgn chess pgn = Ok verbose /\
    length parsed = length verbose /\
    (forall i m, parsed !! i = Some m ->
       index m = Z.of_nat i /\ ply m = Z.of_nat i + 1 /\
       exists v, verbose !! i = Some v /\ san m = vSan v /\ lan m = vLan v) /\
    (forall m, parsed !! 0%nat = Some m ->
       fenBefore m = fen chess (initialGame chess) /\
       turn m = turnOf chess (initialGame chess)) /\
    (forall i m m', parsed !! i = Some m -> parsed !! S i = Some m' ->
       fenBefore m' = fenAfter m) /\
    NoDup (map index parsed).
Proof.
  unfold parsePgnMoves. intros Hrun.
  destruct (loadPgn chess pgn) as [verbose | e]; [| discriminate].
  apply (ParsePgnFacts.replayFrom_spec chess verbose 0%nat) in Hrun
    as (added & -> & Hlen & Hfields & Hfirst & Hchain).
  cbn [app]. exists verbose. split; [reflexivity |]. split; [exact Hlen |].
  split; [exact Hfields |]. split; [exact Hfirst |]. split; [exact Hchain |].
  apply NoDup_alt. intros i j k Hi Hj.
  rewrite list_lookup_fmap in Hi, Hj.
  destruct (added !! i) as [mi |] eqn:Hmi; [| discriminate].
  destruct (added !! j) as [mj |] eqn:Hmj; [| discriminate].
  cbn in Hi, Hj.
  destruct (Hfields i mi Hmi) as (Hii & _). destruct (Hfields j mj Hmj) as (Hjj & _).
  cbn [Nat.add] in *. assert (Z.of_nat i = Z.of_nat j) by congruence. lia.
Qed.

Lemma parsePgnMoves_replays_witness :
  exists verbose,
    loadPgn sampleReplay "1. Ba6" = Ok verbose /\ length [bishopMoveAt0] = length verbose.
Proof.
  destruct (parsePgnMoves_replays sampleReplay "1. Ba6" [bishopMoveAt0])
    as (verbose & Hload & Hlen & _).
  - reflexivity.
  - exists verbose. split; [exact Hload | exact Hlen].
Defined.


(** ** The evaluation bar (src/app/page.tsx, src/components/EvaluationBar.tsx) *)

Module BarFacts.

Lemma barCp_normalises (ev : Evaluation) :
  Bar.barCp (Some ev) = evalToCpFromTurnPerspective ev.
Proof.
  unfold Bar.barCp, evalToCpFromTurnPerspective.
  destruct (mate ev) as [m |]; [| destruct (cp ev); reflexivity].
  cbv zeta. destruct (Z.eq_dec m 0) as [-> | Hm]; [reflexivity |].
  rewrite Z.max_r by lia. reflexivity.
Qed.

Lemma evalToCp_opposite (ev : Evaluation) :
  evalToCpFromTurnPerspective
    {| cp := Some (- evalToCpFromTurnPerspective ev);
       mate := option_map Z.opp (mate ev);
       depth := depth ev; nodes := nodes ev; bestMove := bestMove ev; pv := pv ev |}
  = - evalToCpFromTurnPerspective ev.
Proof.
  unfold evalToCpFromTurnPerspective. cbn [mate cp].
  destruct (mate ev) as [m |]; cbn [option_map]; [| reflexivity].
  cbv zeta. rewrite Z.sgn_opp, Z.abs_opp. lia.
Qed.

Lemma whiteFill_range (c : Z) : (5 <= Bar.whiteFill c <= 95)%R.
Proof.
  unfold Bar.whiteFill, Bar.clamped.
  assert (Hlo : (-1500 <= IZR (Z.max (-1500) (Z.min 1500 c)))%R) by (apply IZR_le; lia).
  assert (Hhi : (IZR (Z.max (-1500) (Z.min 1500 c)) <= 1500)%R) by (apply IZR_le; lia).
  lra.
Qed.

End BarFacts.

(** X20. The score the evaluation bar computes is the normalised score of
    the evaluation it is given, and for the evaluation the page passes it,
    [evalForBar], this is the score after the move seen from White: the score
    [getWhiteCp] gives, and the one whose win chance the hook stores for the
    move.  Before the first move the evaluation is passed on as White's. *)
Theorem bar_shows_white_score (ev : Evaluation) :
  Bar.barCp (Some ev) = evalToCpFromTurnPerspective ev /\
  (forall m : ParsedMove,
     Bar.barCp (Bar.evalForBar (Some ev) (Some m)) = Hook.whiteCp m ev /\
     Bar.getWhiteCp (Some ev) (other (turn m)) = Hook.whiteCp m ev) /\
  Bar.barCp (Bar.evalForBar (Some ev) None) = evalToCpFromTurnPerspective ev /\
  Bar.barCp (Bar.evalForBar None None) = 0.
Proof.
  split; [apply BarFacts.barCp_normalises |]. split; [| split].
  - intros m. unfold Bar.evalForBar, Bar.getWhiteCp, Hook.whiteCp, other. cbv zeta.
    rewrite BarFacts.barCp_normalises.
    destruct (turn m).
    + split; [| reflexivity].
      pose proof (BarFacts.evalToCp_opposite ev) as Ho.
      destruct (mate ev); exact Ho.
    + split; [| reflexivity].
      unfold evalToCpFromTurnPerspective. cbn [mate cp].
      destruct (mate ev); [reflexivity |]. destruct (cp ev); reflexivity.
  - unfold Bar.evalForBar. cbv zeta. rewrite BarFacts.barCp_normalises.
    unfold evalToCpFromTurnPerspective. cbn [mate cp].
    destruct (mate ev); [reflexivity |]. destruct (cp ev); reflexivity.
  - reflexivity.
Qed.

(** X21. The white part of the bar fills between 5 and 95 percent, so the
    second clamp never changes the value; the fill is 50 at score 0, never
    decreases with the score, is 95 from 1500 on and 5 down from -1500, and
    the fills of opposite scores add up to 100. *)
Theorem bar_fill (c : Z) :
  Bar.clampedFill c = Bar.whiteFill c /\
  (5 <= Bar.clampedFill c <= 95)%R /\
  Bar.clampedFill 0 = 50%R /\
  (1500 <= c -> Bar.clampedFill c = 95%R) /\
  (c <= -1500 -> Bar.clampedFill c = 5%R) /\
  (Bar.clampedFill c + Bar.clampedFill (- c) = 100)%R /\
  (forall c', c <= c' -> (Bar.clampedFill c <= Bar.clampedFill c')%R).
Proof.
  assert (Heq : forall x, Bar.clampedFill x = Bar.whiteFill x).
  { intros x. unfold Bar.clampedFill. pose proof (BarFacts.whiteFill_range x) as [Hlo Hhi].
    rewrite Rmin_right by exact Hhi. rewrite Rmax_right by exact Hlo. reflexivity. }
  split; [apply Heq |]. rewrite !Heq.
  split; [apply BarFacts.whiteFill_range |].
  split.
  { unfold Bar.whiteFill, Bar.clamped.
    change (Z.max (-1500) (Z.min 1500 0)) with 0. lra. }
  split; [| split; [| split]].
  - intros Hc. unfold Bar.whiteFill, Bar.clamped.
    replace (Z.max (-1500) (Z.min 1500 c)) with 1500 by lia. lra.
  - intros Hc. unfold Bar.whiteFill, Bar.clamped.
    replace (Z.max (-1500) (Z.min 1500 c)) with (-1500) by lia. lra.
  - unfold Bar.whiteFill, Bar.clamped.
    replace (Z.max (-1500) (Z.min 1500 (- c)))
      with (- Z.max (-1500) (Z.min 1500 c)) by lia.
    rewrite opp_IZR. lra.
  - intros c' Hc. rewrite Heq. unfold Bar.whiteFill, Bar.clamped.
    assert (H : (IZR (Z.max (-1500) (Z.min 1500 c))
                 <= IZR (Z.max (-1500) (Z.min 1500 c')))%R) by (apply IZR_le; lia).
    lra.
Qed.

Lemma bar_fill_witness :
  Bar.clampedFill 9990 = 95%R /\ (Bar.clampedFill 0 <= Bar.clampedFill 300)%R.
Proof.
  split.
  - apply (bar_fill 9990). lia.
  - apply (bar_fill 0). lia.
Defined.


(** ** The board area (src/components/ChessBoardArea.tsx) *)

Module BoardFacts.

(** An anchored expression matches at the start only. *)
Lemma search_anchored (r : re) (c : ascii) (s : list ascii) :
  search (Seq Bol r) (Some c) s = None.
Proof.
  revert c. induction s as [| d s IH]; intros c; cbn; [reflexivity | apply IH].
Qed.

Lemma file_char (c : ascii) :
  oneOf "abcdefgh" c = true ->
  exists f, (f <= 7)%nat /\ c = ascii_of_nat (97 + f).
Proof.
  unfold oneOf. cbn [list_ascii_of_string existsb].
  repeat (match goal with
          | |- context [Ascii.eqb c ?d] => destruct (Ascii.eqb_spec c d) as [-> | _]
          end;
          [ intros _;
            first [ exists 0%nat; split; [lia | reflexivity]
                  | exists 1%nat; split; [lia | reflexivity]
                  | exists 2%nat; split; [lia | reflexivity]
                  | exists 3%nat; split; [lia | reflexivity]
                  | exists 4%nat; split; [lia | reflexivity]
                  | exists 5%nat; split; [lia | reflexivity]
                  | exists 6%nat; split; [lia | reflexivity]
                  | exists 7%nat; split; [lia | reflexivity] ] |]).
  discriminate.
Qed.

Lemma rank_char (c : ascii) :
  oneOf "12345678" c = true ->
  exists r, (r <= 7)%nat /\ c = ascii_of_nat (49 + r).
Proof.
  unfold oneOf. cbn [list_ascii_of_string existsb].
  repeat (match goal with
          | |- context [Ascii.eqb c ?d] => destruct (Ascii.eqb_spec c d) as [-> | _]
          end;
          [ intros _;
            first [ exists 0%nat; split; [lia | reflexivity]
                  | exists 1%nat; split; [lia | reflexivity]
                  | exists 2%nat; split; [lia | reflexivity]
                  | exists 3%nat; split; [lia | reflexivity]
                  | exists 4%nat; split; [lia | reflexivity]
                  | exists 5%nat; split; [lia | reflexivity]
                  | exists 6%nat; split; [lia | reflexivity]
                  | exists 7%nat; split; [lia | reflexivity] ] |]).
  discriminate.
Qed.

(** What [reLan] accepts. *)
Lemma reLan_shape (lan : string) :
  test reLan lan = true ->
  exists c1 c2 c3 c4 promotion,
    lan = String c1 (String c2 (String c3 (String c4 promotion))) /\
    oneOf "abcdefgh" c1 = true /\ oneOf "12345678" c2 = true /\
    oneOf "abcdefgh" c3 = true /\ oneOf "12345678" c4 = true /\
    (promotion = EmptyString \/
     exists p, promotion = String p EmptyString /\ oneOf "qrbn" p = true).
Proof.
  unfold test, exec.
  destruct lan as [| c1 [| c2 [| c3 [| c4 promotion]]]];
    cbn [list_ascii_of_string search]; unfold reLan, seqs; cbn [fold_right run];
    rewrite ?search_anchored; try discriminate.
  - destruct (oneOf "abcdefgh" c1); discriminate.
  - destruct (oneOf "abcdefgh" c1); [| discriminate].
    destruct (oneOf "12345678" c2); discriminate.
  - destruct (oneOf "abcdefgh" c1); [| discriminate].
    destruct (oneOf "12345678" c2); [| discriminate].
    destruct (oneOf "abcdefgh" c3); discriminate.
  - destruct (oneOf "abcdefgh" c1) eqn:H1; [| discriminate].
    destruct (oneOf "12345678" c2) eqn:H2; [| discriminate].
    destruct (oneOf "abcdefgh" c3) eqn:H3; [| discriminate].
    destruct (oneOf "12345678" c4) eqn:H4; [| discriminate].
    intros Hm. exists c1, c2, c3, c4, promotion.
    split; [reflexivity |].
    split; [exact H1 |]. split; [exact H2 |]. split; [exact H3 |]. split; [exact H4 |].
    destruct promotion as [| p [| p' rest]]; [left; reflexivity | right | exfalso].
    + exists p. split; [reflexivity |].
      cbn [list_ascii_of_string] in Hm.
      destruct (oneOf "qrbn" p); [reflexivity | discriminate].
    + cbn [list_ascii_of_string] in Hm.
      destruct (oneOf "qrbn" p); discriminate.
Qed.

Lemma drawn (f r : nat) (o : Board.Orientation) :
  (f <= 7)%nat -> (r <= 7)%nat ->
  Board.squareToPosition (squareName f r) o = drawnAt f r o.
Proof.
  intros Hf Hr. unfold Board.squareToPosition, squareName, drawnAt.
  cbn [Board.charCodeAt0 Board.Number1]. unfold code.
  rewrite !nat_ascii_embedding by lia.
  replace (isDigit (ascii_of_nat (49 + r))) with true.
  2:{ unfold isDigit, between, code. rewrite nat_ascii_embedding by lia.
      symmetry. apply andb_true_intro. split; apply Nat.leb_le; lia. }
  cbn [option_map].
  assert (Hx : (IZR (Z.of_nat (97 + f)) - 97 = INR f)%R).
  { rewrite INR_IZR_INZ, Nat2Z.inj_add, plus_IZR.
    change (Z.of_nat 97) with 97. lra. }
  assert (Hy : (IZR (Z.of_nat (49 + r - 48)) - 1 = INR r)%R).
  { rewrite INR_IZR_INZ. replace (49 + r - 48)%nat with (1 + r)%nat by lia.
    rewrite Nat2Z.inj_add, plus_IZR. change (Z.of_nat 1) with 1. lra. }
  rewrite Hx, Hy. destruct o; reflexivity.
Qed.

Lemma navigate_range (n i : Z) :
  0 <= n -> -1 <= Board.navigate n i <= n - 1.
Proof.
  intros Hn. unfold Board.navigate. destruct (Z.eqb_spec n 0); lia.
Qed.

End BoardFacts.

(** X22. When [lanToSquares] accepts a move, the move is two squares of the
    board, each a file from a to h and a rank from 1 to 8, with at most one
    promotion letter after them; [from] and [to] are these squares, and
    [squareToPosition] puts each at 12.5 times its file and 12.5 times its
    rank from the top for White, mirrored in both directions for Black, so
    never at [NaN] and never off the board.  Every best move parsed from an
    info line is accepted. *)
Theorem lanToSquares_on_board (lan : string) (squares : Board.Squares) :
  Board.lanToSquares lan = Some squares ->
  (exists f1 r1 f2 r2 promotion,
     (f1 <= 7 /\ r1 <= 7 /\ f2 <= 7 /\ r2 <= 7)%nat /\
     lan = (squareName f1 r1 ++ squareName f2 r2 ++ promotion)%string /\
     In promotion [""; "q"; "r"; "b"; "n"] /\
     Board.from squares = squareName f1 r1 /\
     Board.to squares = squareName f2 r2 /\
     forall o,
       Board.squareToPosition (Board.from squares) o = drawnAt f1 r1 o /\
       Board.squareToPosition (Board.to squares) o = drawnAt f2 r2 o)
  /\
  (forall line ev i mv,
     parseInfoLine line = Some (ev, i) -> bestMove ev = Some mv ->
     is_Some (Board.lanToSquares mv)).
Proof.
  intros Hsq. split.
  - unfold Board.lanToSquares in Hsq.
    destruct (test reLan lan) eqn:Ht; [| discriminate]. cbn in Hsq.
    injection Hsq as <-.
    destruct (BoardFacts.reLan_shape lan Ht)
      as (c1 & c2 & c3 & c4 & promotion & -> & H1 & H2 & H3 & H4 & Hp).
    destruct (BoardFacts.file_char c1 H1) as (f1 & Hf1 & ->).
    destruct (BoardFacts.rank_char c2 H2) as (r1 & Hr1 & ->).
    destruct (BoardFacts.file_char c3 H3) as (f2 & Hf2 & ->).
    destruct (BoardFacts.rank_char c4 H4) as (r2 & Hr2 & ->).
    exists f1, r1, f2, r2, promotion.
    split; [lia |]. split; [reflexivity |]. split.
    { destruct Hp as [-> | (p & -> & Hp)]; [left; reflexivity |].
      unfold oneOf in Hp. cbn [list_ascii_of_string existsb] in Hp.
      revert Hp.
      repeat (match goal with
              | |- context [Ascii.eqb p ?d] => destruct (Ascii.eqb_spec p d) as [-> | _]
              end; [intros _; cbn; tauto |]).
      discriminate. }
    cbn [Board.from Board.to]. unfold Board.slice. cbn [substring Nat.sub].
    assert (Hto : substring 0 0 promotion = EmptyString)
      by (destruct promotion; reflexivity).
    rewrite Hto. fold (squareName f1 r1). fold (squareName f2 r2).
    split; [reflexivity |]. split; [reflexivity |].
    intros o. split; apply BoardFacts.drawn; assumption.
  - intros line ev i mv Hparse Hmv.
    destruct (parseInfoLine_wellFormed line ev i Hparse) as [(_ & _ & _ & Hlan & _) _].
    unfold Board.lanToSquares. rewrite (Hlan mv Hmv). cbn. eexists; reflexivity.
Qed.

Lemma lanToSquares_on_board_witness :
  exists f1 r1 f2 r2 promotion,
    "f1a6" = (squareName f1 r1 ++ squareName f2 r2 ++ promotion)%string /\
    Board.squareToPosition "a6" Board.White = drawnAt f2 r2 Board.White.
Proof.
  destruct (lanToSquares_on_board "f1a6" {| Board.from := "f1"; Board.to := "a6" |})
    as [(f1 & r1 & f2 & r2 & promotion & _ & Hlan & _ & _ & _ & Hdraw) _].
  - vm_compute. reflexivity.
  - exists f1, r1, f2, r2, promotion. split; [exact Hlan | apply Hdraw].
Defined.

(** X23. [navigate] passes on an index between -1 and the last move's,
    the given one when it lies in this range and the nearest bound
    otherwise, and -1 when there is no move.  So, starting from -1, after
    any sequence of the keys ArrowRight, ArrowLeft, Home and End the index is
    -1 or the index of a move of the list, Home gives -1 and End the last
    move. *)
Theorem navigation_stays_on_moves (moves : list ParsedMove) (keys : list Board.Key) :
  let n := Z.of_nat (length moves) in
  let current := fold_left (Board.onKeyDown n) keys (-1) in
  (forall index, -1 <= Board.navigate n index <= n - 1) /\
  (forall index, -1 <= index <= n - 1 -> Board.navigate n index = index) /\
  (forall index, moves <> [] -> index < -1 -> Board.navigate n index = -1) /\
  (forall index, n - 1 < index -> Board.navigate n index = n - 1) /\
  -1 <= current <= n - 1 /\
  (current = -1 <-> Board.currentMove moves current = None) /\
  Board.onKeyDown n current Board.Home = -1 /\
  Board.onKeyDown n current Board.End_ = n - 1.
Proof.
  cbv zeta. set (n := Z.of_nat (length moves)).
  assert (Hn : 0 <= n) by (unfold n; lia).
  assert (Hrange : forall index, -1 <= Board.navigate n index <= n - 1)
    by (intros; apply BoardFacts.navigate_range, Hn).
  assert (Hcur : forall start, -1 <= start <= n - 1 ->
                   -1 <= fold_left (Board.onKeyDown n) keys start <= n - 1).
  { induction keys as [| key keys IH]; intros start Hs; [exact Hs |].
    cbn [fold_left]. apply IH. destruct key; apply Hrange. }
  split; [exact Hrange |].
  split; [intros index Hi; unfold Board.navigate; destruct (Z.eqb_spec n 0); lia |].
  split.
  { intros index Hne Hi. unfold Board.navigate.
    destruct (Z.eqb_spec n 0) as [H0 | _]; [reflexivity | lia]. }
  split; [intros index Hi; unfold Board.navigate; destruct (Z.eqb_spec n 0); lia |].
  specialize (Hcur (-1) ltac:(lia)).
  set (current := fold_left (Board.onKeyDown n) keys (-1)) in *.
  split; [exact Hcur |]. split; [| split].
  - unfold Board.currentMove. destruct (Z.leb_spec 0 current) as [Hpos | Hneg].
    + split; [lia |]. intros Hnone. apply lookup_ge_None in Hnone. unfold n in Hcur. lia.
    + split; [reflexivity | lia].
  - cbn. unfold Board.navigate. destruct (Z.eqb_spec n 0); lia.
  - cbn. unfold Board.navigate. destruct (Z.eqb_spec n 0); lia.
Qed.

Lemma navigation_stays_on_moves_witness :
  Board.navigate 1 7 = 0 /\ Board.navigate 1 0 = 0.
Proof.
  destruct (navigation_stays_on_moves [bishopMove] []) as (_ & Hin & _ & Hhigh & _).
  split; [apply (Hhigh 7); cbn; lia | apply (Hin 0); cbn; lia].
Defined.


(** ** The opening limit of the page (src/app/page.tsx) *)

Module OpeningFacts.

Lemma star_all {A : Type} (f : ascii -> bool) (ds : list ascii) :
  forall prev c rest caps (k : @cont A) a,
    Forall (fun d => f d = true) ds -> f c = false ->
    k (lastBefore prev ds) (c :: rest) caps = Some a ->
    star f prev (ds ++ c :: rest) caps k = Some a.
Proof.
  induction ds as [| d ds IH]; intros prev c rest caps k a Hds Hc Hk.
  - cbn [app star]. rewrite Hc. exact Hk.
  - inversion Hds as [| ? ? Hd Hds']; subst. cbn [app star]. rewrite Hd.
    rewrite (IH (Some d) c rest caps k a Hds' Hc Hk). reflexivity.
Qed.

Lemma no_bracket (s : list ascii) :
  forall prev, Forall (fun c => c <> "["%char) s -> search reECO prev s = None.
Proof.
  induction s as [| c s IH]; intros prev Hs; [reflexivity |].
  inversion Hs as [| ? ? Hc Hs']; subst.
  cbn [search]. unfold reECO at 1, seqs. cbn [fold_right run].
  destruct (Ascii.eqb_spec "["%char c) as [<- | _]; [congruence |].
  apply IH, Hs'.
Qed.

(** A [book] verdict is within the opening limit. *)
Lemma book_within_limit (api : ChessApi) (params : Params) (v : Verdict) :
  classifyMove api params = Ok v -> classification v = book ->
  ply (move params) <= openingPlyLimit params.
Proof.
  unfold classifyMove; cbv zeta.
  set (sb := evalToCpFromTurnPerspective (evalBefore params)).
  set (sa := - evalToCpFromTurnPerspective (evalAfter params)).
  destruct (endsWith (san (move params)) "#"); [intros [= <-]; discriminate |].
  destruct (match newChess api (fenAfter (move params)) with
            | Some after => isGameOver api after
            | None => false
            end); [intros [= <-]; discriminate |].
  destruct (truthy (isOnlyLegalMove params)); [intros [= <-]; discriminate |].
  destruct (ply (move params) <=? openingPlyLimit params) eqn:Hply;
    [intros _ _; apply Z.leb_le, Hply |].
  cbn [andb].
  pose proof (ladder_labels (Z.max 0 (sb - sa)) sb
                (winChance (IZR sb) - winChance (IZR sa))
                (String.eqb (lan (move params)) (bestMoveLan params))) as Hlad.
  set (lad := ladder _ _ _ _) in *. clearbody lad.
  destruct (materialByColor api (fenBefore (move params))); [| discriminate].
  destruct (materialByColor api (fenAfter (move params))); [| discriminate].
  intros [= <-]. cbn [classification]. intros Hc. exfalso. revert Hc.
  cbn in Hlad. repeat case_match; subst; try discriminate; intuition congruence.
Qed.

End OpeningFacts.

(** X24. [openingPlyFromPgn] is 12 for a text that holds an ECO tag with a
    code from A00 to E99 between double quotes, after one or more white-space
    characters, wherever the tag stands, and 8 for a text without an opening
    bracket; it is never anything but 8 or 12.  So with the limit the page
    passes on, no move after ply 12 is classified as [book]. *)
Theorem opening_limit (pgn : string) :
  (openingPlyFromPgn pgn = 8 \/ openingPlyFromPgn pgn = 12) /\
  (forall pre spaces c d1 d2 post,
     spaces <> [] -> Forall (fun d => isSpace d = true) spaces ->
     oneOf "ABCDE" c = true -> isDigit d1 = true -> isDigit d2 = true ->
     openingPlyFromPgn (withECO pre spaces c d1 d2 post) = 12) /\
  (Forall (fun c => c <> "["%char) (list_ascii_of_string pgn) ->
   openingPlyFromPgn pgn = 8) /\
  (forall api params v,
     openingPlyLimit params = openingPlyFromPgn pgn ->
     classifyMove api params = Ok v -> classification v = book ->
     ply (move params) <= 12).
Proof.
  split; [unfold openingPlyFromPgn; cbv zeta; destruct (test reECO pgn); auto |].
  split; [| split].
  - intros pre spaces c d1 d2 post Hne Hsp Hc Hd1 Hd2.
    unfold openingPlyFromPgn, test, exec, withECO. cbv zeta.
    rewrite list_ascii_of_string_of_list_ascii.
    assert (Hfound : search reECO None
                       (pre ++ list_ascii_of_string "[ECO" ++ spaces
                        ++ dquote :: c :: d1 :: d2 :: dquote :: "]"%char :: post)%list
                     <> None).
    { apply search_skip. unfold reECO, seqs, Lit.
      cbn [fold_right list_ascii_of_string lit app run Ascii.eqb Bool.eqb].
      destruct spaces as [| d ds]; [congruence |].
      inversion Hsp as [| ? ? Hd Hds]; subst.
      cbn [app]. rewrite Hd.
      erewrite OpeningFacts.star_all; [discriminate | exact Hds | reflexivity |].
      cbn [run]. replace (Ascii.eqb dquote dquote) with true by reflexivity.
      rewrite Hc, Hd1, Hd2. reflexivity. }
    destruct (search reECO None _); [reflexivity | congruence].
  - intros Hnone. unfold openingPlyFromPgn, test, exec. cbv zeta.
    rewrite OpeningFacts.no_bracket by exact Hnone. reflexivity.
  - intros api params v Hlimit Hv Hbook.
    pose proof (OpeningFacts.book_within_limit api params v Hv Hbook) as Hply.
    rewrite Hlimit in Hply. unfold openingPlyFromPgn in Hply. cbv zeta in Hply.
    destruct (test reECO pgn); lia.
Qed.

Lemma opening_limit_witness :
  openingPlyFromPgn
    (withECO (list_ascii_of_string "[Event x] ") [" "%char] "B" "2" "0" []) = 12
  /\ openingPlyFromPgn "1. e4 e5" = 8.
Proof.
  split.
  - apply (opening_limit ""); [discriminate | repeat constructor | reflexivity ..].
  - apply (opening_limit "1. e4 e5"). repeat constructor; discriminate.
Defined.


(** ** The move list (src/components/MovePanel.tsx) *)

Module MovePanelFacts.

Lemma pairs_cons (m : ParsedMove) (rest : list ParsedMove) :
  MovePanel.pairs (m :: rest)
  = match turn m with
    | w =>
        match rest with
        | next :: rest' =>
            match turn next with
            | b =>
                {| MovePanel.moveNumber := MovePanel.ceilHalf (ply m);
                   MovePanel.white := Some m; MovePanel.black := Some next |}
                :: MovePanel.pairs rest'
            | w =>
                {| MovePanel.moveNumber := MovePanel.ceilHalf (ply m);
                   MovePanel.white := Some m; MovePanel.black := None |}
                :: MovePanel.pairs rest
            end
        | [] =>
            [{| MovePanel.moveNumber := MovePanel.ceilHalf (ply m);
                MovePanel.white := Some m; MovePanel.black := None |}]
        end
    | b =>
        {| MovePanel.moveNumber := MovePanel.ceilHalf (ply m);
           MovePanel.white := None; MovePanel.black := Some m |}
        :: MovePanel.pairs rest
    end.
Proof. reflexivity. Qed.

Lemma pairs_flatten (n : nat) :
  forall moves, (length moves <= n)%nat ->
    concat (map movesOf (MovePanel.pairs moves)) = moves.
Proof.
  induction n as [| n IH]; intros moves Hn.
  - destruct moves; [reflexivity | cbn in Hn; lia].
  - destruct moves as [| m [| m' rest]]; [reflexivity | |]; rewrite pairs_cons.
    + destruct (turn m); reflexivity.
    + cbn [length] in Hn. destruct (turn m).
      * destruct (turn m').
        -- cbn [map concat]. rewrite IH by (cbn; lia). reflexivity.
        -- cbn [map concat]. rewrite IH by lia. reflexivity.
      * cbn [map concat]. rewrite IH by (cbn; lia). reflexivity.
Qed.

Lemma pairs_rows (n : nat) :
  forall moves, (length moves <= n)%nat ->
    Forall (fun p =>
              (forall m, MovePanel.white p = Some m -> turn m = w) /\
              (forall m, MovePanel.black p = Some m -> turn m = b) /\
              exists m rest, movesOf p = m :: rest /\
                             MovePanel.moveNumber p = MovePanel.ceilHalf (ply m))
           (MovePanel.pairs moves).
Proof.
  induction n as [| n IH]; intros moves Hn.
  - destruct moves; [constructor | cbn in Hn; lia].
  - destruct moves as [| m [| m' rest]]; [constructor | |]; rewrite pairs_cons.
    + destruct (turn m) eqn:Hm; repeat constructor; cbn;
        try (intros ? [= <-]; exact Hm); try discriminate; eauto.
    + cbn [length] in Hn. destruct (turn m) eqn:Hm.
      * destruct (turn m') eqn:Hm'.
        -- constructor; [| apply IH; cbn; lia].
           cbn. split; [intros ? [= <-]; exact Hm |]. split; [discriminate | eauto].
        -- constructor; [| apply IH; lia].
           cbn. split; [intros ? [= <-]; exact Hm |].
           split; [intros ? [= <-]; exact Hm' | eauto].
      * constructor; [| apply IH; cbn; lia].
        cbn. split; [discriminate |]. split; [intros ? [= <-]; exact Hm | eauto].
Qed.

Lemma fromFirstPly_tail2 (q : nat) (m m' : ParsedMove) (rest : list ParsedMove) :
  (forall i x, (m :: m' :: rest) !! i = Some x ->
     ply x = Z.of_nat (2 * q + i) + 1 /\ turn x = if Nat.even i then w else b) ->
  forall i x, rest !! i = Some x ->
    ply x = Z.of_nat (2 * S q + i) + 1 /\ turn x = if Nat.even i then w else b.
Proof.
  intros H i x Hx. specialize (H (S (S i)) x Hx).
  replace (2 * q + S (S i))%nat with (2 * S q + i)%nat in H by lia. exact H.
Qed.

Lemma pairs_numbered (n : nat) :
  forall moves q, (length moves <= n)%nat ->
    (forall i x, moves !! i = Some x ->
       ply x = Z.of_nat (2 * q + i) + 1 /\ turn x = if Nat.even i then w else b) ->
    forall k p, MovePanel.pairs moves !! k = Some p ->
      MovePanel.moveNumber p = Z.of_nat (q + k) + 1 /\
      MovePanel.white p = moves !! (2 * k)%nat /\
      MovePanel.black p = moves !! (2 * k + 1)%nat /\
      is_Some (MovePanel.white p).
Proof.
  induction n as [| n IH]; intros moves q Hn Hgame k p Hp.
  - destruct moves; [discriminate | cbn in Hn; lia].
  - destruct moves as [| m [| m' rest]]; [discriminate | |]; rewrite pairs_cons in Hp.
    + destruct (Hgame 0%nat m eq_refl) as [Hply Hturn]. cbn in Hturn. rewrite Hturn in Hp.
      destruct k; [| discriminate]. injection Hp as <-. cbn.
      unfold MovePanel.ceilHalf. rewrite Hply.
      split; [| eauto]. rewrite Nat.add_0_r.
      replace (Z.of_nat (2 * q) + 1 + 1) with ((Z.of_nat q + 1) * 2) by lia.
      rewrite Z.div_mul by lia. lia.
    + destruct (Hgame 0%nat m eq_refl) as [Hply Hturn].
      destruct (Hgame 1%nat m' eq_refl) as [_ Hturn'].
      cbn in Hturn, Hturn'. rewrite Hturn, Hturn' in Hp.
      destruct k as [| k].
      * injection Hp as <-. cbn. unfold MovePanel.ceilHalf. rewrite Hply.
        split; [| eauto]. rewrite Nat.add_0_r.
        replace (Z.of_nat (2 * q) + 1 + 1) with ((Z.of_nat q + 1) * 2) by lia.
        rewrite Z.div_mul by lia. lia.
      * cbn [lookup list_lookup] in Hp.
        destruct (IH rest (S q) ltac:(cbn in Hn; lia)
                    (fromFirstPly_tail2 q m m' rest Hgame) k p Hp)
          as (Hnum & Hw & Hb & Hsome).
        replace (q + S k)%nat with (S q + k)%nat by lia.
        replace (2 * S k)%nat with (S (S (2 * k))) by lia.
        replace (S (S (2 * k)) + 1)%nat with (S (S (2 * k + 1))) by lia.
        cbn [lookup list_lookup]. auto.
Qed.

End MovePanelFacts.

(** X25. The rows of the move list hold every move exactly once and in
    order; in a row the white move was played by White and the black move by
    Black, no row is empty, and the row's number is half the ply of its first
    move, rounded up.  For a game from the first ply on, White and Black in
    turn, row [k] holds moves [2k] and [2k + 1] and has number [k + 1], so
    the row numbers, which are the rows' keys, are distinct. *)
Theorem move_rows (moves : list ParsedMove) :
  concat (map movesOf (MovePanel.pairs moves)) = moves /\
  Forall (fun p =>
            (forall m, MovePanel.white p = Some m -> turn m = w) /\
            (forall m, MovePanel.black p = Some m -> turn m = b) /\
            exists m rest, movesOf p = m :: rest /\
                           MovePanel.moveNumber p = MovePanel.ceilHalf (ply m))
         (MovePanel.pairs moves) /\
  (fromFirstPly moves ->
   (forall k p, MovePanel.pairs moves !! k = Some p ->
      MovePanel.moveNumber p = Z.of_nat k + 1 /\
      MovePanel.white p = moves !! (2 * k)%nat /\
      MovePanel.black p = moves !! (2 * k + 1)%nat /\
      is_Some (MovePanel.white p)) /\
   NoDup (map MovePanel.moveNumber (MovePanel.pairs moves))).
Proof.
  split; [apply (MovePanelFacts.pairs_flatten (length moves)); lia |].
  split; [apply (MovePanelFacts.pairs_rows (length moves)); lia |].
  intros Hgame.
  assert (Hrows : forall k p, MovePanel.pairs moves !! k = Some p ->
            MovePanel.moveNumber p = Z.of_nat k + 1 /\
            MovePanel.white p = moves !! (2 * k)%nat /\
            MovePanel.black p = moves !! (2 * k + 1)%nat /\
            is_Some (MovePanel.white p)).
  { intros k p Hp.
    apply (MovePanelFacts.pairs_numbered (length moves) moves 0%nat); [lia | | exact Hp].
    intros i x Hx. exact (Hgame i x Hx). }
  split; [exact Hrows |].
  apply NoDup_alt. intros i j num Hi Hj.
  rewrite list_lookup_fmap in Hi, Hj.
  destruct (MovePanel.pairs moves !! i) as [pi |] eqn:Hpi; [| discriminate].
  destruct (MovePanel.pairs moves !! j) as [pj |] eqn:Hpj; [| discriminate].
  cbn in Hi, Hj.
  destruct (Hrows i pi Hpi) as [Hni _]. destruct (Hrows j pj Hpj) as [Hnj _].
  injection Hi as Hi. injection Hj as Hj. lia.
Qed.

Lemma move_rows_witness :
  NoDup (map MovePanel.moveNumber (MovePanel.pairs [bishopMoveAt0])).
Proof.
  apply (move_rows [bishopMoveAt0]).
  intros i m Hm. destruct i as [| i]; [| destruct i; discriminate].
  injection Hm as <-. split; reflexivity.
Defined.


(** ** The classification summary (src/app/page.tsx) *)

Module SummaryFacts.

Lemma counts_snoc (values : list MoveClassification) (cl : MoveClassification) :
  Summary.classificationCounts (values ++ [cl])
  = match Summary.labelName cl with
    | Some name =>
        <[name := default 0 (Summary.classificationCounts values !! name) + 1]>
          (Summary.classificationCounts values)
    | None => Summary.classificationCounts values
    end.
Proof. unfold Summary.classificationCounts. rewrite fold_left_app. reflexivity. Qed.

Lemma occurrences_snoc (cl v : MoveClassification) (values : list MoveClassification) :
  occurrences cl (values ++ [v])
  = occurrences cl values
    + match Summary.labelName v, Summary.labelName cl with
      | Some a, Some c => if String.eqb a c then 1 else 0
      | _, _ => 0
      end.
Proof.
  unfold occurrences. rewrite List.filter_app, length_app. cbn [List.filter].
  destruct (Summary.labelName v), (Summary.labelName cl);
    try destruct (String.eqb _ _); cbn; lia.
Qed.

(** The count of a label is the number of its occurrences. *)
Lemma counts_occurrences (values : list MoveClassification) :
  forall cl name, Summary.labelName cl = Some name ->
    default 0 (Summary.classificationCounts values !! name) = occurrences cl values.
Proof.
  induction values as [| v values IH] using rev_ind; intros cl name Hname.
  - reflexivity.
  - rewrite counts_snoc, occurrences_snoc, Hname.
    destruct (Summary.labelName v) as [a |] eqn:Ha.
    + destruct (String.eqb_spec a name) as [-> | Hne].
      * rewrite lookup_insert_eq, <- (IH cl name Hname). reflexivity.
      * rewrite lookup_insert_ne by exact Hne. rewrite (IH cl name Hname). lia.
    + rewrite (IH cl name Hname). lia.
Qed.

Lemma counts_positive (values : list MoveClassification) :
  forall name n, Summary.classificationCounts values !! name = Some n -> 1 <= n.
Proof.
  induction values as [| v values IH] using rev_ind; intros name n Hn.
  - unfold Summary.classificationCounts in Hn. cbn in Hn.
    rewrite lookup_empty in Hn. discriminate.
  - rewrite counts_snoc in Hn.
    destruct (Summary.labelName v) as [a |]; [| exact (IH name n Hn)].
    destruct (String.eqb_spec a name) as [-> | Hne].
    + rewrite lookup_insert_eq in Hn. injection Hn as <-.
      destruct (Summary.classificationCounts values !! name) as [n' |] eqn:Hn'; cbn; [| lia].
      specialize (IH name n' Hn'). lia.
    + rewrite lookup_insert_ne in Hn by exact Hne. exact (IH name n Hn).
Qed.

Lemma occurrences_nonneg (cl : MoveClassification) (values : list MoveClassification) :
  0 <= occurrences cl values.
Proof. unfold occurrences. lia. Qed.

(** Every value that is a label is one of [CL_ORDER], once. *)
Lemma classified_split (values : list MoveClassification) :
  classified values = sumZ (map (fun cl => occurrences cl values) Summary.CL_ORDER).
Proof.
  induction values as [| v values IH] using rev_ind; [reflexivity |].
  unfold classified in *. rewrite List.filter_app, length_app, Nat2Z.inj_add, IH.
  unfold Summary.CL_ORDER. cbn [map sumZ]. rewrite !occurrences_snoc.
  destruct v; cbn; lia.
Qed.

End SummaryFacts.

(** X26. The counts of the summary are the numbers of occurrences of the
    labels among the values of the classifications, a label that does not
    occur having no count; the summary lists the labels that occur, each
    once, in the order of [CL_ORDER] and with its count; and the counts it
    shows add up to the number of classified moves. *)
Theorem summary_counts (values : list MoveClassification) :
  (forall cl name, Summary.labelName cl = Some name ->
     Summary.classificationCounts values !! name
     = if occurrences cl values =? 0 then None else Some (occurrences cl values)) /\
  Summary.summary values
  = flat_map (fun cl => if occurrences cl values =? 0 then []
                        else [(cl, occurrences cl values)]) Summary.CL_ORDER /\
  sumZ (map snd (Summary.summary values)) = classified values.
Proof.
  assert (Hsummary :
    Summary.summary values
    = flat_map (fun cl => if occurrences cl values =? 0 then []
                          else [(cl, occurrences cl values)]) Summary.CL_ORDER).
  { unfold Summary.summary, Summary.CL_ORDER. cbn [flat_map Summary.labelName Summary.isLabel negb].
    rewrite !orb_false_r.
    rewrite (SummaryFacts.counts_occurrences values brilliant "brilliant" eq_refl),
      (SummaryFacts.counts_occurrences values great "great" eq_refl),
      (SummaryFacts.counts_occurrences values best "best" eq_refl),
      (SummaryFacts.counts_occurrences values excellent "excellent" eq_refl),
      (SummaryFacts.counts_occurrences values good "good" eq_refl),
      (SummaryFacts.counts_occurrences values book "book" eq_refl),
      (SummaryFacts.counts_occurrences values inaccuracy "inaccuracy" eq_refl),
      (SummaryFacts.counts_occurrences values mistake "mistake" eq_refl),
      (SummaryFacts.counts_occurrences values blunder "blunder" eq_refl),
      (SummaryFacts.counts_occurrences values forced "forced" eq_refl).
    reflexivity. }
  split; [| split; [exact Hsummary |]].
  - intros cl name Hname.
    pose proof (SummaryFacts.counts_occurrences values cl name Hname) as Hcount.
    destruct (Summary.classificationCounts values !! name) as [n |] eqn:Hn.
    + cbn in Hcount. subst n. apply SummaryFacts.counts_positive in Hn.
      destruct (Z.eqb_spec (occurrences cl values) 0); [lia | reflexivity].
    + cbn in Hcount. rewrite <- Hcount. reflexivity.
  - rewrite Hsummary, SummaryFacts.classified_split.
    unfold Summary.CL_ORDER. cbn [flat_map map sumZ app].
    repeat match goal with
           | |- context [occurrences ?cl values =? 0] =>
               destruct (Z.eqb_spec (occurrences cl values) 0) as [-> | _]
           end; cbn; lia.
Qed.

Lemma summary_counts_witness :
  Summary.classificationCounts [best; blunder; best] !! "best" = Some 2.
Proof.
  destruct (summary_counts [best; blunder; best]) as [Hcount _].
  rewrite (Hcount best "best" eq_refl). reflexivity.
Defined.


(** ** What a resolved request carries (src/lib/stockfish.ts) *)

Module DeliverFacts.

Lemma finalResults_nonempty (p : PendingAnalysis) (mv : option string) :
  1 <= multiPv p -> finalResults p mv <> [].
Proof.
  intros Hp. unfold finalResults, lineIndices.
  destruct (Z.to_nat (multiPv p)) as [| n] eqn:Hn; [lia | discriminate].
Qed.

Lemma delivers_app (l1 l2 : list Effect) :
  Forall delivers l1 -> Forall delivers l2 -> Forall delivers (l1 ++ l2).
Proof. intros H1 H2. apply Forall_app. auto. Qed.

Ltac delivered :=
  repeat first
    [ assumption
    | apply delivers_app
    | apply Forall_cons; split
    | apply Forall_nil
    | exact I ].

Lemma step_delivers (st : Engine) (e : Event) :
  asksForLines e ->
  (forall p, pending st = Some p -> 1 <= multiPv p) ->
  Forall delivers (effects st) ->
  (forall p, pending (step st e) = Some p -> 1 <= multiPv p) /\
  Forall delivers (effects (step st e)).
Proof.
  intros He Hp Hd. destruct st as [wk rd rr pd tm nt ef].
  cbn [pending effects] in Hp, Hd.
  destruct e as [line | fen options | id | error |]; cbn [step asksForLines] in *.
  - unfold handleMessage, post, setPending, emit, clearTimeout, markReady.
    cbn [worker pending resolveReady].
    destruct (String.eqb line "uciok").
    { destruct wk; cbn [pending effects]; split; [exact Hp | delivered | exact Hp | exact Hd]. }
    destruct (String.eqb line "readyok").
    { destruct rr; cbn [pending effects]; split; [exact Hp | delivered | exact Hp | exact Hd]. }
    destruct pd as [p |]; [| split; [exact Hp | exact Hd]].
    specialize (Hp p eq_refl).
    destruct (startsWith line "info ").
    { cbn [pending effects]. split; [| exact Hd].
      intros p' [= <-]. unfold storeInfo. repeat case_match; cbn; exact Hp. }
    destruct (startsWith line "bestmove"); cbn [pending effects].
    + split; [discriminate |]. delivered. cbn. apply finalResults_nonempty, Hp.
    + split; [intros p' [= <-]; exact Hp | exact Hd].
  - unfold analyzePosition, post, setTimeout, setPending, emit, clearTimeout.
    cbn [worker ready pending negb].
    destruct wk, rd; cbn [negb pending effects]; try (split; [exact Hp | exact Hd]).
    destruct pd as [p |]; cbn -[showZ String.append];
      (split; [intros p' [= <-]; exact He | delivered]).
  - unfold fireTimeout, post, setPending, emit, clearTimeout. cbn [timers].
    destruct (tm !! id) as [t |]; [| split; [exact Hp | exact Hd]].
    destruct pd as [p |], wk; cbn -[bestEffort hasScore];
      try (split; [exact Hp | exact Hd]);
      destruct (bestEffort (results p) (closureMultiPv t)) as [| ev evs] eqn:Hb;
      try destruct (hasScore ev); cbn [pending effects];
      (split; [discriminate | delivered; cbn; discriminate]).
  - unfold onerror, rejectPending, setPending, emit, clearTimeout. cbn [pending].
    destruct pd; cbn [pending effects];
      [split; [discriminate | delivered] | split; [exact Hp | exact Hd]].
  - unfold quit, rejectPending, post, setPending, emit, clearTimeout, dropWorker.
    cbn [pending worker].
    destruct pd, wk; cbn; (split; [discriminate | delivered]).
Qed.

End DeliverFacts.

(** X27. When every request asks for at least one line, every resolution
    of a request carries at least one evaluation, whatever lines, calls,
    timer expiries, errors and teardown occur: the first element of a
    resolved result, which the hook reads, is always there. *)
Theorem resolutions_carry_lines (es : list Event) :
  Forall asksForLines es ->
  forall id evs,
    In (Resolved id evs) (effects (runEvents es newEngine)) ->
    exists ev, evs !! 0%nat = Some ev.
Proof.
  intros Hes.
  assert (Hinv : (forall p, pending (runEvents es newEngine) = Some p -> 1 <= multiPv p) /\
                 Forall delivers (effects (runEvents es newEngine))).
  { induction es as [| e es IH] using rev_ind.
    - split; [discriminate | repeat constructor].
    - apply Forall_app in Hes as [Hes He]. apply Forall_inv in He.
      destruct (IH Hes) as [Hp Hd]. rewrite runEvents_snoc.
      apply DeliverFacts.step_delivers; assumption. }
  destruct Hinv as [_ Hd]. intros id evs Hin.
  rewrite Forall_forall in Hd. apply list_elem_of_In in Hin. specialize (Hd _ Hin). cbn in Hd.
  destruct evs as [| ev evs]; [congruence | exists ev; reflexivity].
Qed.

Lemma resolutions_carry_lines_witness :
  exists ev,
    [cpEval 35 12; depthOnly 0] !! 0%nat = Some ev.
Proof.
  apply (resolutions_carry_lines
           [Line "uciok"; Line "readyok"; Analyze Sample.fenOpen twoLines;
            Line "info depth 12 multipv 1 score cp 35";
            Line "bestmove (none)"] ltac:(repeat constructor; cbn; lia) 0%nat).
  vm_compute. repeat ((left; reflexivity) || right).
Defined.


(** ** Info lines read back (src/lib/stockfish.ts) *)

Module InfoFacts.

(** *** Decimal numerals *)

Lemma uint_digits (d : Decimal.uint) :
  Forall (fun c => isDigit c = true) (list_ascii_of_string (NilEmpty.string_of_uint d)).
Proof.
  induction d; cbn [NilEmpty.string_of_uint list_ascii_of_string];
    [constructor | constructor; [reflexivity | assumption] ..].
Qed.

Lemma digitsFrom_acc (d : Decimal.uint) :
  forall p, digitsFrom (Z.pos p) (list_ascii_of_string (NilEmpty.string_of_uint d))
            = Z.pos (Pos.of_uint_acc d p).
Proof.
  induction d; intros p;
    cbn [NilEmpty.string_of_uint list_ascii_of_string Pos.of_uint_acc];
    [reflexivity | unfold digitsFrom in *; cbn [fold_left]; rewrite <- IHd; f_equal;
                   unfold code; cbn [nat_of_ascii]; vm_compute (Z.of_nat _); lia ..].
Qed.

Lemma digitsFrom_zero (d : Decimal.uint) :
  digitsFrom 0 (list_ascii_of_string (NilEmpty.string_of_uint d)) = Z.of_N (Pos.of_uint d).
Proof.
  induction d; cbn [NilEmpty.string_of_uint list_ascii_of_string Pos.of_uint];
    [reflexivity | unfold digitsFrom in *; cbn [fold_left]; try exact IHd ..];
    cbn [Z.of_N]; rewrite <- digitsFrom_acc; reflexivity.
Qed.

Lemma to_uint_string (p : positive) :
  NilZero.string_of_uint (Pos.to_uint p) = NilEmpty.string_of_uint (Pos.to_uint p)
  /\ NilEmpty.string_of_uint (Pos.to_uint p) <> "".
Proof.
  pose proof (DecimalPos.Unsigned.of_to p) as H.
  destruct (Pos.to_uint p); [discriminate | split; [reflexivity | discriminate] ..].
Qed.

(** The numeral of a number that is not negative: digits, at least one, and
    [parseInt] reads the number back. *)
Lemma showZ_nonneg (n : Z) :
  0 <= n ->
  exists d ds, list_ascii_of_string (showZ n) = d :: ds /\
               Forall (fun c => isDigit c = true) (d :: ds) /\
               digitsToZ (d :: ds) = n.
Proof.
  intros Hn. destruct n as [| p | p]; [| | lia].
  - exists "0"%char, []. repeat split. repeat constructor.
  - unfold showZ. cbn [Z.to_int NilZero.string_of_int].
    destruct (to_uint_string p) as [-> Hne].
    pose proof (uint_digits (Pos.to_uint p)) as Hd.
    pose proof (digitsFrom_zero (Pos.to_uint p)) as Hv.
    rewrite DecimalPos.Unsigned.of_to in Hv.
    destruct (list_ascii_of_string (NilEmpty.string_of_uint (Pos.to_uint p)))
      as [| d ds] eqn:Hl.
    + exfalso. apply Hne.
      rewrite <- (string_of_list_ascii_of_string (NilEmpty.string_of_uint _)).
      rewrite Hl. reflexivity.
    + exists d, ds. auto.
Qed.

Lemma showZ_neg (n : Z) :
  n < 0 -> list_ascii_of_string (showZ n) = "-"%char :: list_ascii_of_string (showZ (- n)).
Proof.
  intros Hn. destruct n as [| p | p]; [lia | lia |]. reflexivity.
Qed.

(** The numeral of any number: an optional sign and digits, which
    [parseInt] reads back. *)
Lemma showZ_signed (n : Z) :
  exists sign d ds,
    list_ascii_of_string (showZ n) = (sign ++ d :: ds)%list /\
    (sign = [] \/ sign = ["-"%char]) /\
    Forall (fun c => isDigit c = true) (d :: ds) /\
    parseInt (sign ++ d :: ds) = n.
Proof.
  destruct (Z.lt_ge_cases n 0) as [Hneg | Hpos].
  - destruct (showZ_nonneg (- n) ltac:(lia)) as (d & ds & Hs & Hd & Hv).
    exists ["-"%char], d, ds. rewrite showZ_neg, Hs by exact Hneg.
    split; [reflexivity |]. split; [auto |]. split; [exact Hd |].
    cbn [app parseInt Ascii.eqb Bool.eqb]. rewrite Hv. lia.
  - destruct (showZ_nonneg n Hpos) as (d & ds & Hs & Hd & Hv).
    exists [], d, ds. rewrite Hs. split; [reflexivity |]. split; [auto |].
    split; [exact Hd |]. cbn [app parseInt].
    rewrite digit_not_minus by (inversion Hd; assumption). exact Hv.
Qed.

(** *** Searching a line *)

Lemma search_fail (r : re) (prev : option ascii) (c : ascii) (s : list ascii) :
  run r prev (c :: s) [] k0 = None -> search r prev (c :: s) = search r (Some c) s.
Proof. intros Hrun. cbn [search]. fold k0. rewrite Hrun. reflexivity. Qed.

Lemma search_here (r : re) (prev : option ascii) (s : list ascii)
  (caps : list (list ascii)) :
  run r prev s [] k0 = Some caps -> search r prev s = Some caps.
Proof. intros Hrun. destruct s; cbn [search]; fold k0; rewrite Hrun; reflexivity. Qed.

Lemma search_block (r : re) (blk : list ascii) :
  (forall c prev s, In c blk -> run r prev (c :: s) [] k0 = None) ->
  forall prev s, search r prev (blk ++ s) = search r (lastBefore prev blk) s.
Proof.
  induction blk as [| c blk IH]; intros Hfail prev s; [reflexivity |].
  cbn [app]. rewrite search_fail by (apply Hfail; left; reflexivity).
  rewrite IH by (intros; apply Hfail; right; assumption). reflexivity.
Qed.

Lemma search_none (r : re) (s : list ascii) (M : ascii -> bool) :
  (forall prev s', Forall (fun c => M c = true) s' -> run r prev s' [] k0 = None) ->
  Forall (fun c => M c = true) s ->
  forall prev, search r prev s = None.
Proof.
  intros Hfail. induction s as [| c s IH]; intros Hs prev.
  - cbn [search]. fold k0. rewrite (Hfail prev [] Hs). reflexivity.
  - rewrite search_fail by (apply Hfail, Hs).
    apply IH. inversion Hs; assumption.
Qed.

(** *** Where the expressions cannot match *)

Lemma lit_head_fails {A : Type} (a c : ascii) (cs s : list ascii) prev caps (k : @cont A) :
  Ascii.eqb a c = false -> run (lit (a :: cs)) prev (c :: s) caps k = None.
Proof. intros H. cbn [lit run]. rewrite H. reflexivity. Qed.

Lemma lit_fails {A : Type} (M : ascii -> bool) (cs : list ascii) :
  Exists (fun c => M c = false) cs ->
  forall s prev caps (k : @cont A),
    Forall (fun c => M c = true) s -> run (lit cs) prev s caps k = None.
Proof.
  induction cs as [| c cs IH]; intros Hex s prev caps k Hs; [inversion Hex |].
  cbn [lit run]. destruct s as [| d s]; [reflexivity |].
  inversion Hs as [| ? ? Hd Hs']; subst.
  destruct (Ascii.eqb_spec c d) as [-> | Hne]; [| reflexivity].
  apply Exists_cons in Hex as [Hc | Hex]; [congruence |].
  apply IH; assumption.
Qed.

Lemma quiet_not (a c : ascii) : quiet a = false -> quiet c = true -> Ascii.eqb a c = false.
Proof.
  intros Ha Hc. destruct (Ascii.eqb_spec a c) as [-> | _]; [congruence | reflexivity].
Qed.

(** An expression that starts with a word boundary and a letter. *)
Lemma word_head_fails (a : ascii) (cs : list ascii) (rest : re) (c : ascii)
  prev s caps (k : @cont (list (list ascii))) :
  quiet a = false -> quiet c = true ->
  run (Seq WordB (Seq (lit (a :: cs)) rest)) prev (c :: s) caps k = None.
Proof.
  intros Ha Hc. cbn [run lit]. rewrite (quiet_not a c Ha Hc).
  destruct (xorb _ _); reflexivity.
Qed.

Lemma word_fails (M : ascii -> bool) (cs : list ascii) (rest : re)
  prev s caps (k : @cont (list (list ascii))) :
  Exists (fun c => M c = false) cs -> Forall (fun c => M c = true) s ->
  run (Seq WordB (Seq (lit cs) rest)) prev s caps k = None.
Proof.
  intros Hex Hs.
  change (run (Seq WordB (Seq (lit cs) rest)) prev s caps k)
    with (if xorb (wordOpt prev) (wordOpt (head s))
          then run (lit cs) prev s caps (fun prev' s' caps' => run rest prev' s' caps' k)
          else None).
  rewrite (lit_fails M cs Hex) by exact Hs. destruct (xorb _ _); reflexivity.
Qed.

Lemma quiet_reDepth c prev s : quiet c = true -> run reDepth prev (c :: s) [] k0 = None.
Proof. intros Hc. apply (word_head_fails "d"%char); [reflexivity | exact Hc]. Qed.

Lemma quiet_reCp c prev s : quiet c = true -> run reCp prev (c :: s) [] k0 = None.
Proof. intros Hc. apply (word_head_fails "s"%char); [reflexivity | exact Hc]. Qed.

Lemma quiet_reMate c prev s : quiet c = true -> run reMate prev (c :: s) [] k0 = None.
Proof. intros Hc. apply (word_head_fails "s"%char); [reflexivity | exact Hc]. Qed.

Lemma quiet_reNodes c prev s : quiet c = true -> run reNodes prev (c :: s) [] k0 = None.
Proof. intros Hc. apply (word_head_fails "n"%char); [reflexivity | exact Hc]. Qed.

Lemma quiet_rePv c prev s : quiet c = true -> run rePv prev (c :: s) [] k0 = None.
Proof. intros Hc. apply (word_head_fails "p"%char); [reflexivity | exact Hc]. Qed.

Lemma quiet_reMultipv c prev s : quiet c = true -> run reMultipv prev (c :: s) [] k0 = None.
Proof. intros Hc. apply (word_head_fails "m"%char); [reflexivity | exact Hc]. Qed.

Lemma quiet_reBound c prev s : quiet c = true -> run reBound prev (c :: s) [] k0 = None.
Proof.
  intros Hc. unfold reBound, seqs, Lit. cbn [fold_right list_ascii_of_string].
  cbn [run lit].
  rewrite (quiet_not "u"%char c eq_refl Hc), (quiet_not "l"%char c eq_refl Hc).
  destruct (xorb _ _); reflexivity.
Qed.

Lemma has_outsider (cs : list ascii) (x : ascii) :
  In x cs -> pvChar x = false -> Exists (fun c => pvChar c = false) cs.
Proof.
  intros Hin Hx. apply Exists_exists. exists x.
  split; [apply list_elem_of_In, Hin | exact Hx].
Qed.

Lemma moves_reCp prev s :
  Forall (fun c => pvChar c = true) s -> run reCp prev s [] k0 = None.
Proof.
  intros Hs. apply (word_fails pvChar (list_ascii_of_string "score")); [| exact Hs].
  apply (has_outsider _ "s"%char); [cbn; tauto | reflexivity].
Qed.

Lemma moves_reMate prev s :
  Forall (fun c => pvChar c = true) s -> run reMate prev s [] k0 = None.
Proof.
  intros Hs. apply (word_fails pvChar (list_ascii_of_string "score")); [| exact Hs].
  apply (has_outsider _ "s"%char); [cbn; tauto | reflexivity].
Qed.

Lemma moves_reBound prev s :
  Forall (fun c => pvChar c = true) s -> run reBound prev s [] k0 = None.
Proof.
  intros Hs. unfold reBound, seqs, Lit. cbn [fold_right].
  change (run (Seq WordB (Seq (Grp (Alt (lit (list_ascii_of_string "upperbound"))
                                       (lit (list_ascii_of_string "lowerbound"))))
                           (Seq WordB Eps))) prev s [] k0)
    with (if xorb (wordOpt prev) (wordOpt (head s))
          then match run (lit (list_ascii_of_string "upperbound")) prev s []
                       (fun prev' s' caps' =>
                          run (Seq WordB Eps) prev' s'
                            (caps' ++ [firstn (length s - length s') s])%list k0) with
               | Some a => Some a
               | None =>
                   run (lit (list_ascii_of_string "lowerbound")) prev s []
                     (fun prev' s' caps' =>
                        run (Seq WordB Eps) prev' s'
                          (caps' ++ [firstn (length s - length s') s])%list k0)
               end
          else None).
  rewrite (lit_fails pvChar (list_ascii_of_string "upperbound"))
    by (exact Hs || (apply (has_outsider _ "u"%char); [cbn; tauto | reflexivity])).
  rewrite (lit_fails pvChar (list_ascii_of_string "lowerbound"))
    by (exact Hs || (apply (has_outsider _ "l"%char); [cbn; tauto | reflexivity])).
  destruct (xorb _ _); reflexivity.
Qed.

(** *** Where they match *)

Lemma run_lit {A : Type} (cs : list ascii) :
  forall prev s caps (k : @cont A),
    run (lit cs) prev (cs ++ s) caps k = k (lastBefore prev cs) s caps.
Proof.
  induction cs as [| c cs IH]; intros prev s caps k; [reflexivity |].
  cbn [lit run app]. rewrite Ascii.eqb_refl.
  change (run (lit cs) (Some c) (cs ++ s) caps k = k (lastBefore (Some c) cs) s caps).
  apply IH.
Qed.

Lemma star_end {A : Type} (f : ascii -> bool) (ds : list ascii) :
  forall prev caps (k : @cont A) a,
    Forall (fun d => f d = true) ds ->
    k (lastBefore prev ds) [] caps = Some a ->
    star f prev ds caps k = Some a.
Proof.
  induction ds as [| d ds IH]; intros prev caps k a Hds Hk.
  - exact Hk.
  - inversion Hds as [| ? ? Hd Hds']; subst. cbn [star]. rewrite Hd.
    rewrite (IH (Some d) caps k a Hds' Hk). reflexivity.
Qed.

Lemma firstn_prefix {A : Type} (a b : list A) :
  firstn (length (a ++ b) - length b) (a ++ b) = a.
Proof.
  rewrite length_app. replace (length a + length b - length b)%nat with (length a) by lia.
  rewrite firstn_app, Nat.sub_diag, firstn_all. cbn. apply app_nil_r.
Qed.

Lemma digit_not_space (d : ascii) : isDigit d = true -> isSpace d = false.
Proof.
  intros Hd. unfold isDigit, isSpace, between in *.
  apply andb_prop in Hd as [H1 H2]. apply Nat.leb_le in H1, H2.
  repeat (apply orb_false_intro); [apply andb_false_intro2, Nat.leb_gt; lia | |];
    apply Nat.eqb_neq; lia.
Qed.

(** A group of digits, followed by a character that is not one. *)
Lemma run_digits (d : ascii) (ds : list ascii) (c : ascii) (rest : list ascii)
  prev caps :
  Forall (fun x => isDigit x = true) (d :: ds) -> isDigit c = false ->
  run (Seq (Grp (Plus isDigit)) Eps) prev (d :: ds ++ c :: rest) caps k0
  = Some (caps ++ [d :: ds])%list.
Proof.
  intros Hd Hc. inversion Hd as [| ? ? Hd0 Hds]; subst.
  cbn [run]. rewrite Hd0.
  erewrite OpeningFacts.star_all; [reflexivity | exact Hds | exact Hc |].
  cbn [run]. unfold k0. do 3 f_equal.
  exact (firstn_prefix (d :: ds) (c :: rest)).
Qed.

Lemma run_wordB {A : Type} (r : re) prev s caps (k : @cont A) :
  run (Seq WordB r) prev s caps k
  = if xorb (wordOpt prev) (wordOpt (head s)) then run r prev s caps k else None.
Proof. reflexivity. Qed.

Lemma run_seq {A : Type} (r1 r2 : re) prev s caps (k : @cont A) :
  run (Seq r1 r2) prev s caps k
  = run r1 prev s caps (fun prev' s' caps' => run r2 prev' s' caps' k).
Proof. reflexivity. Qed.

Lemma run_plus {A : Type} (f : ascii -> bool) prev d s caps (k : @cont A) :
  f d = true -> run (Plus f) prev (d :: s) caps k = star f (Some d) s caps k.
Proof. intros Hd. cbn [run]. rewrite Hd. reflexivity. Qed.

Lemma star_stop {A : Type} (f : ascii -> bool) prev d s caps (k : @cont A) :
  f d = false -> star f prev (d :: s) caps k = k prev (d :: s) caps.
Proof. intros Hd. cbn [star]. rewrite Hd. reflexivity. Qed.

(** One space, then something else. *)
Lemma run_space {A : Type} (r : re) prev d s caps (k : @cont A) :
  isSpace d = false ->
  run (Seq (Plus isSpace) r) prev (" "%char :: d :: s) caps k
  = run r (Some " "%char) (d :: s) caps k.
Proof.
  intros Hd. rewrite run_seq, run_plus by reflexivity. rewrite star_stop by exact Hd.
  reflexivity.
Qed.

(** [\bword\s+(\d+)] at its word. *)
Lemma run_counter (word : list ascii) (w : ascii) (d : ascii) (ds : list ascii)
  (c : ascii) (rest : list ascii) (prev : option ascii) :
  head word = Some w -> xorb (wordOpt prev) (isWord w) = true ->
  Forall (fun x => isDigit x = true) (d :: ds) -> isDigit c = false ->
  run (Seq WordB (Seq (lit word) (Seq (Plus isSpace) (Seq (Grp (Plus isDigit)) Eps))))
    prev (word ++ " "%char :: d :: ds ++ c :: rest) [] k0
  = Some [d :: ds].
Proof.
  intros Hw Hb Hd Hc. rewrite run_wordB.
  replace (head (word ++ " "%char :: d :: ds ++ c :: rest)) with (Some w)
    by (destruct word; [discriminate | exact (eq_sym Hw)]).
  cbn [wordOpt]. rewrite Hb, run_seq, run_lit.
  rewrite run_space by (apply digit_not_space; inversion Hd; assumption).
  apply (run_digits d ds c rest _ [] Hd Hc).
Qed.

Lemma run_signed (sign : list ascii) (d : ascii) (ds : list ascii) (c : ascii)
  (rest : list ascii) prev caps :
  sign = [] \/ sign = ["-"%char] ->
  Forall (fun x => isDigit x = true) (d :: ds) -> isDigit c = false ->
  run (Seq (Grp (Seq (Opt (Chr "-")) (Plus isDigit))) Eps) prev
    (sign ++ d :: ds ++ c :: rest) caps k0
  = Some (caps ++ [sign ++ d :: ds])%list.
Proof.
  intros Hsign Hd Hc. inversion Hd as [| ? ? Hd0 Hds]; subst.
  destruct Hsign as [-> | ->]; cbn [app run].
  - rewrite (proj2 (Ascii.eqb_neq "-"%char d))
      by (intros <-; discriminate).
    rewrite Hd0.
    erewrite OpeningFacts.star_all; [reflexivity | exact Hds | exact Hc |].
    cbn [run]. unfold k0. do 3 f_equal.
    exact (firstn_prefix (d :: ds) (c :: rest)).
  - rewrite Hd0.
    erewrite OpeningFacts.star_all; [reflexivity | exact Hds | exact Hc |].
    cbn [run]. unfold k0. do 3 f_equal.
    exact (firstn_prefix ("-"%char :: d :: ds) (c :: rest)).
Qed.

(** [\bscore\s+word\s+(-?\d+)] at [score]. *)
Lemma run_score (word : list ascii) (w : ascii) (sign : list ascii) (d : ascii)
  (ds : list ascii) (c : ascii) (rest : list ascii) (prev : option ascii) :
  head word = Some w -> isSpace w = false -> wordOpt prev = false ->
  sign = [] \/ sign = ["-"%char] ->
  Forall (fun x => isDigit x = true) (d :: ds) -> isDigit c = false ->
  run (Seq WordB
         (Seq (lit (list_ascii_of_string "score"))
            (Seq (Plus isSpace)
               (Seq (lit word)
                  (Seq (Plus isSpace)
                     (Seq (Grp (Seq (Opt (Chr "-")) (Plus isDigit))) Eps))))))
    prev
    (list_ascii_of_string "score" ++ " "%char :: word ++ " "%char
       :: sign ++ d :: ds ++ c :: rest) [] k0
  = Some [(sign ++ d :: ds)%list].
Proof.
  intros Hw Hsp Hprev Hsign Hd Hc. rewrite run_wordB.
  cbn [list_ascii_of_string app head wordOpt]. rewrite Hprev. cbn [xorb].
  change (isWord "s") with true. cbv iota.
  change ("s"%char :: "c"%char :: "o"%char :: "r"%char :: "e"%char :: " "%char
          :: word ++ " "%char :: sign ++ d :: ds ++ c :: rest)%list
    with (list_ascii_of_string "score" ++ " "%char :: word ++ " "%char
          :: sign ++ d :: ds ++ c :: rest)%list.
  rewrite run_seq, run_lit.
  destruct word as [| w' word]; [discriminate |]. injection Hw as ->.
  cbn [app]. rewrite run_space by exact Hsp.
  change (w :: word ++ " "%char :: sign ++ d :: ds ++ c :: rest)%list
    with ((w :: word) ++ " "%char :: sign ++ d :: ds ++ c :: rest)%list.
  rewrite run_seq, run_lit.
  assert (Hnext : exists x xs, (sign ++ d :: ds ++ c :: rest)%list = x :: xs
                               /\ isSpace x = false).
  { destruct Hsign as [-> | ->]; cbn [app]; eexists _, _; split; try reflexivity.
    apply digit_not_space. inversion Hd; assumption. }
  destruct Hnext as (x & xs & Hx & Hxs).
  rewrite Hx, run_space by exact Hxs. rewrite <- Hx.
  apply (run_signed sign d ds c rest _ [] Hsign Hd Hc).
Qed.

Lemma run_pv (p : ascii) (ps : list ascii) (prev : option ascii) :
  wordOpt prev = false -> isSpace p = false ->
  Forall (fun x => isDot x = true) (p :: ps) ->
  run rePv prev (list_ascii_of_string "pv" ++ " "%char :: p :: ps) [] k0
  = Some [p :: ps].
Proof.
  intros Hprev Hp Hdot. inversion Hdot as [| ? ? Hp0 Hps]; subst.
  unfold rePv, seqs, Lit. cbn [fold_right]. rewrite run_wordB.
  cbn [list_ascii_of_string app head wordOpt]. rewrite Hprev. cbn [xorb].
  change (isWord "p") with true. cbv iota.
  change ("p"%char :: "v"%char :: " "%char :: p :: ps)
    with (list_ascii_of_string "pv" ++ " "%char :: p :: ps)%list.
  rewrite run_seq, run_lit, run_space by exact Hp.
  cbn [run]. rewrite Hp0.
  erewrite star_end; [reflexivity | exact Hps |].
  cbn [length]. rewrite Nat.sub_0_r.
  change (S (length ps)) with (length (p :: ps)). rewrite firstn_all. reflexivity.
Qed.

Lemma numeral_quiet (ds : list ascii) : numeral ds -> Forall (fun c => quiet c = true) ds.
Proof.
  intros [_ Hd]. eapply Forall_impl; [exact Hd |].
  intros c Hc. unfold quiet. cbn beta in Hc. rewrite Hc. reflexivity.
Qed.

Lemma signed_quiet (cs : list ascii) :
  signedNumeral cs -> Forall (fun c => quiet c = true) cs.
Proof.
  intros (sign & d & ds & -> & Hsign & Hd). apply Forall_app. split.
  - destruct Hsign as [-> | ->]; repeat constructor.
  - eapply Forall_impl; [exact Hd |].
    intros c Hc. unfold quiet. cbn beta in Hc. rewrite Hc. reflexivity.
Qed.

Lemma search_quiet (r : re) (blk : list ascii) :
  (forall c prev s, quiet c = true -> run r prev (c :: s) [] k0 = None) ->
  Forall (fun c => quiet c = true) blk ->
  forall prev s, search r prev (blk ++ s) = search r (lastBefore prev blk) s.
Proof.
  intros Hq Hblk prev s. apply search_block.
  intros c prev' s' Hin. apply Hq.
  rewrite Forall_forall in Hblk. apply Hblk, list_elem_of_In, Hin.
Qed.

Section Line.

Variables D SD I W C N P H TB T PV : list ascii.
Hypothesis HD : numeral D.
Hypothesis HSD : numeral SD.
Hypothesis HI : numeral I.
Hypothesis HC : signedNumeral C.
Hypothesis HN : numeral N.
Hypothesis HP : numeral P.
Hypothesis HH : numeral H.
Hypothesis HTB : numeral TB.
Hypothesis HT : numeral T.
Hypothesis HW : W = str "cp" \/ W = str "mate".
Hypothesis HPV : Forall (fun c => pvChar c = true) PV.

Let QD := numeral_quiet D HD.
Let QSD := numeral_quiet SD HSD.
Let QI := numeral_quiet I HI.
Let QC := signed_quiet C HC.
Let QN := numeral_quiet N HN.
Let QP := numeral_quiet P HP.
Let QH := numeral_quiet H HH.
Let QTB := numeral_quiet TB HTB.
Let QT := numeral_quiet T HT.

Ltac walk HQ :=
  repeat first
    [ rewrite search_fail by reflexivity
    | rewrite search_fail by (apply HQ; reflexivity)
    | rewrite (search_quiet _ D HQ QD)
    | rewrite (search_quiet _ SD HQ QSD)
    | rewrite (search_quiet _ I HQ QI)
    | rewrite (search_quiet _ C HQ QC)
    | rewrite (search_quiet _ N HQ QN)
    | rewrite (search_quiet _ P HQ QP)
    | rewrite (search_quiet _ H HQ QH)
    | rewrite (search_quiet _ TB HQ QTB)
    | rewrite (search_quiet _ T HQ QT) ].

Lemma exec_depth :
  search reDepth None (lineChars D SD I W C N P H TB T PV) = Some [D].
Proof.
  unfold lineChars, str. cbn [list_ascii_of_string app].
  walk quiet_reDepth.
  destruct HD as [Hne Hd]. destruct D as [| d ds]; [congruence |].
  apply search_here.
  apply (run_counter (str "depth") "d"%char d ds " "%char _ (Some " "%char));
    [reflexivity | reflexivity | exact Hd | reflexivity].
Qed.

Lemma exec_multipv :
  search reMultipv None (lineChars D SD I W C N P H TB T PV) = Some [I].
Proof.
  unfold lineChars, str. cbn [list_ascii_of_string app].
  walk quiet_reMultipv.
  destruct HI as [Hne Hd]. destruct I as [| d ds]; [congruence |].
  apply search_here.
  apply (run_counter (str "multipv") "m"%char d ds " "%char _ (Some " "%char));
    [reflexivity | reflexivity | exact Hd | reflexivity].
Qed.

Lemma exec_nodes :
  search reNodes None (lineChars D SD I W C N P H TB T PV) = Some [N].
Proof.
  unfold lineChars, str. destruct HW as [-> | ->]; unfold str; cbn [list_ascii_of_string app];
    walk quiet_reNodes;
    destruct HN as [Hne Hd]; (destruct N as [| d ds]; [congruence |]);
    apply search_here;
    (apply (run_counter (str "nodes") "n"%char d ds " "%char _ (Some " "%char));
     [reflexivity | reflexivity | exact Hd | reflexivity]).
Qed.

Lemma exec_bound :
  search reBound None (lineChars D SD I W C N P H TB T PV) = None.
Proof.
  unfold lineChars, str. destruct HW as [-> | ->]; unfold str; cbn [list_ascii_of_string app];
    walk quiet_reBound;
    apply (search_none reBound PV pvChar); (exact HPV || (intros; apply moves_reBound; assumption)).
Qed.

Lemma exec_cp_cp :
  W = str "cp" ->
  search reCp None (lineChars D SD I W C N P H TB T PV) = Some [C].
Proof.
  intros ->. unfold lineChars, str. cbn [list_ascii_of_string app].
  walk quiet_reCp.
  destruct HC as (sign & d & ds & -> & Hsign & Hd).
  apply search_here. rewrite <- !app_assoc. cbn [app].
  apply (run_score (str "cp") "c"%char sign d ds " "%char _ (Some " "%char));
    [reflexivity | reflexivity | reflexivity | exact Hsign | exact Hd | reflexivity].
Qed.

Lemma exec_mate_mate :
  W = str "mate" ->
  search reMate None (lineChars D SD I W C N P H TB T PV) = Some [C].
Proof.
  intros ->. unfold lineChars, str. cbn [list_ascii_of_string app].
  walk quiet_reMate.
  destruct HC as (sign & d & ds & -> & Hsign & Hd).
  apply search_here. rewrite <- !app_assoc. cbn [app].
  apply (run_score (str "mate") "m"%char sign d ds " "%char _ (Some " "%char));
    [reflexivity | reflexivity | reflexivity | exact Hsign | exact Hd | reflexivity].
Qed.

Lemma exec_cp_mate :
  W = str "mate" ->
  search reCp None (lineChars D SD I W C N P H TB T PV) = None.
Proof.
  intros ->. unfold lineChars, str. cbn [list_ascii_of_string app].
  walk quiet_reCp.
  apply (search_none reCp PV pvChar); (exact HPV || (intros; apply moves_reCp; assumption)).
Qed.

Lemma exec_mate_cp :
  W = str "cp" ->
  search reMate None (lineChars D SD I W C N P H TB T PV) = None.
Proof.
  intros ->. unfold lineChars, str. cbn [list_ascii_of_string app].
  walk quiet_reMate.
  apply (search_none reMate PV pvChar); (exact HPV || (intros; apply moves_reMate; assumption)).
Qed.

Lemma exec_pv (p : ascii) (ps : list ascii) :
  PV = p :: ps -> isSpace p = false ->
  Forall (fun x => isDot x = true) PV ->
  search rePv None (lineChars D SD I W C N P H TB T PV) = Some [PV].
Proof.
  intros -> Hp Hdot. unfold lineChars, str.
  destruct HW as [-> | ->]; unfold str; cbn [list_ascii_of_string app];
    walk quiet_rePv; apply search_here;
    apply (run_pv p ps (Some " "%char)); (reflexivity || assumption).
Qed.

(** The line parses to its numerals and its principal variation. *)
Lemma parse_chars (line m1 : string) (isCp : bool) :
  list_ascii_of_string line = lineChars D SD I W C N P H TB T PV ->
  W = (if isCp then str "cp" else str "mate") ->
  (exists p ps, PV = p :: ps /\ isSpace p = false) ->
  Forall (fun x => isDot x = true) PV ->
  trim PV = PV -> firstToken PV = list_ascii_of_string m1 ->
  m1 <> "" -> test reLan m1 = true ->
  parseInfoLine line
  = Some ({| cp := if isCp then Some (parseInt C) else None;
             mate := if isCp then None else Some (parseInt C);
             depth := parseInt D; nodes := Some (parseInt N);
             bestMove := Some m1; pv := Some (string_of_list_ascii PV) |},
          parseInt I).
Proof.
  intros Hline Hw (p & ps & Hpv & Hp) Hdot Htrim Hfirst Hm1 Hlan.
  unfold parseInfoLine, capturedInt, test, exec. rewrite Hline.
  rewrite exec_depth, exec_bound, exec_nodes, exec_multipv, (exec_pv p ps Hpv Hp Hdot).
  unfold group1. cbn [nth]. rewrite Htrim, Hfirst, string_of_list_ascii_of_string.
  unfold test, exec in Hlan. unfold test, exec.
  destruct (search reLan None (list_ascii_of_string m1)); [| discriminate].
  replace (String.eqb m1 "") with false
    by (symmetry; apply String.eqb_neq; exact Hm1).
  cbn [negb andb].
  destruct isCp.
  - rewrite (exec_cp_cp Hw), (exec_mate_cp Hw). reflexivity.
  - rewrite (exec_cp_mate Hw), (exec_mate_mate Hw). reflexivity.
Qed.

End Line.

Ltac char_cases c :=
  repeat match goal with
         | |- context [Ascii.eqb c ?d] => destruct (Ascii.eqb_spec c d) as [-> | _]
         end.

Lemma moveChar_plain (c : ascii) :
  moveChar c = true -> isSpace c = false /\ isDot c = true /\ pvChar c = true.
Proof.
  intros Hc. unfold pvChar. rewrite Hc. split; [| split; [| reflexivity]]; revert Hc;
    unfold moveChar, oneOf; cbn [list_ascii_of_string existsb];
    char_cases c; try reflexivity; discriminate.
Qed.

Lemma class_moveChar (cs : string) (c : ascii) :
  cs = "abcdefgh" \/ cs = "12345678" \/ cs = "qrbn" ->
  oneOf cs c = true -> moveChar c = true.
Proof.
  intros [-> | [-> | ->]]; unfold moveChar, oneOf; cbn [list_ascii_of_string existsb];
    char_cases c; try reflexivity; discriminate.
Qed.

Lemma lan_moveChars (m : string) :
  test reLan m = true ->
  exists c cs, list_ascii_of_string m = c :: cs /\
               Forall (fun x => moveChar x = true) (c :: cs).
Proof.
  intros Hm.
  destruct (BoardFacts.reLan_shape m Hm)
    as (c1 & c2 & c3 & c4 & promotion & -> & H1 & H2 & H3 & H4 & Hp).
  exists c1, (c2 :: c3 :: c4 :: list_ascii_of_string promotion).
  split; [reflexivity |].
  repeat (apply Forall_cons; split; [eapply class_moveChar; [| eassumption]; tauto |]).
  destruct Hp as [-> | (p & -> & Hp)]; [constructor |].
  repeat constructor. eapply class_moveChar; [| exact Hp]. tauto.
Qed.

Lemma chars_app (a b : string) :
  list_ascii_of_string (a ++ b) = (list_ascii_of_string a ++ list_ascii_of_string b)%list.
Proof.
  induction a as [| c a IH]; [reflexivity |].
  change (c :: list_ascii_of_string (a ++ b)
          = c :: (list_ascii_of_string a ++ list_ascii_of_string b)%list).
  f_equal. exact IH.
Qed.

(** The characters of a principal variation of moves in long algebraic
    form: move characters and single spaces, a move character first and
    last. *)
Lemma pv_shape (m : string) (ms : list string) :
  Forall (fun x => test reLan x = true) (m :: ms) ->
  exists tail,
    list_ascii_of_string (unwords (m :: ms)) = (list_ascii_of_string m ++ tail)%list /\
    (tail = [] \/ exists t, tail = " "%char :: t) /\
    Forall (fun c => pvChar c = true) (list_ascii_of_string (unwords (m :: ms))) /\
    exists body z, list_ascii_of_string (unwords (m :: ms)) = (body ++ [z])%list /\
                   moveChar z = true.
Proof.
  revert m. induction ms as [| m' ms IH]; intros m Hall.
  - inversion Hall as [| ? ? Hm _]; subst.
    destruct (lan_moveChars m Hm) as (c & cs & Hcs & Hmc).
    exists []. cbn [unwords]. rewrite app_nil_r.
    split; [reflexivity |]. split; [auto |]. split.
    + rewrite Hcs. eapply Forall_impl; [exact Hmc |].
      intros x Hx. apply moveChar_plain, Hx.
    + rewrite Hcs. destruct (exists_last (l := c :: cs)) as (body & z & Hz); [discriminate |].
      exists body, z. split; [exact Hz |].
      rewrite Hz in Hmc. apply Forall_app in Hmc as [_ Hlast].
      inversion Hlast; assumption.
  - inversion Hall as [| ? ? Hm Hrest]; subst.
    destruct (IH m' Hrest) as (tail & Htail & _ & Hpv & body & z & Hz & Hzc).
    destruct (lan_moveChars m Hm) as (c & cs & Hcs & Hmc).
    exists (" "%char :: list_ascii_of_string (unwords (m' :: ms))).
    change (unwords (m :: m' :: ms)) with (m ++ " " ++ unwords (m' :: ms)).
    rewrite !chars_app. cbn [list_ascii_of_string app].
    split; [reflexivity |]. split; [eauto |]. split.
    + apply Forall_app. split.
      * rewrite Hcs. eapply Forall_impl; [exact Hmc |].
        intros x Hx. apply moveChar_plain, Hx.
      * constructor; [reflexivity | exact Hpv].
    + exists (list_ascii_of_string m ++ " "%char :: body)%list, z.
      rewrite Hz, <- app_assoc. split; [reflexivity | exact Hzc].
Qed.

Lemma dropSpaces_id (c : ascii) (cs : list ascii) :
  isSpace c = false -> dropSpaces (c :: cs) = c :: cs.
Proof. intros Hc. cbn [dropSpaces]. rewrite Hc. reflexivity. Qed.

Lemma trim_id (c : ascii) (cs body : list ascii) (z : ascii) :
  isSpace c = false -> isSpace z = false -> c :: cs = (body ++ [z])%list ->
  trim (c :: cs) = c :: cs.
Proof.
  intros Hc Hz Hlast. unfold trim. rewrite dropSpaces_id by exact Hc.
  rewrite Hlast, rev_app_distr. cbn [rev app]. rewrite dropSpaces_id by exact Hz.
  change (z :: rev body) with ([z] ++ rev body)%list.
  rewrite rev_app_distr, rev_involutive. reflexivity.
Qed.

Lemma firstToken_word (word tail : list ascii) :
  Forall (fun c => isSpace c = false) word ->
  tail = [] \/ (exists t, tail = " "%char :: t) ->
  firstToken (word ++ tail) = word.
Proof.
  intros Hw Ht. induction Hw as [| c word Hc Hw IH]; cbn [app firstToken].
  - destruct Ht as [-> | (t & ->)]; reflexivity.
  - rewrite Hc, IH. reflexivity.
Qed.

Lemma counter_chars (n : Z) :
  0 <= n ->
  numeral (list_ascii_of_string (showZ n)) /\
  parseInt (list_ascii_of_string (showZ n)) = n.
Proof.
  intros Hn. destruct (showZ_nonneg n Hn) as (d & ds & -> & Hd & Hv).
  split; [split; [discriminate | exact Hd] |].
  cbn [parseInt]. rewrite digit_not_minus by (inversion Hd; assumption). exact Hv.
Qed.

Lemma signed_chars (n : Z) :
  signedNumeral (list_ascii_of_string (showZ n)) /\
  parseInt (list_ascii_of_string (showZ n)) = n.
Proof.
  destruct (showZ_signed n) as (sign & d & ds & -> & Hsign & Hd & Hv).
  split; [exists sign, d, ds; auto | exact Hv].
Qed.

End InfoFacts.

Import InfoFacts.

(** X28. An info line of the protocol parses to what it reports: for
    counters that are not negative, with depth, line index and node count
    at most [Number.MAX_SAFE_INTEGER], a score in centipawns or in moves to
    mate of magnitude at most [Number.MAX_SAFE_INTEGER], and a principal
    variation of moves in long algebraic form, [parseInfoLine] returns the
    depth, the node count, the score (as [cp] or as [mate], the other one
    absent), the principal variation, its first move as best move, and the
    line index. *)
Theorem info_line_parses (f : InfoFields) (m : string) (ms : list string) :
  counters f -> safeScore f -> iPv f = m :: ms ->
  Forall (fun x => test reLan x = true) (m :: ms) ->
  parseInfoLine (infoLine f)
  = Some ({| cp := match iScore f with Cp c => Some c | Mate _ => None end;
             mate := match iScore f with Cp _ => None | Mate k => Some k end;
             depth := iDepth f; nodes := Some (iNodes f);
             bestMove := Some m; pv := Some (unwords (iPv f)) |},
          iMultiPv f).
Proof.
  intros ([HD _] & HSD & [HI _] & [HN _] & HP & HH & HTB & HT) _ Hpv Hlan.
  destruct (counter_chars _ HD) as [ND VD]. destruct (counter_chars _ HSD) as [NSD _].
  destruct (counter_chars _ HI) as [NI VI]. destruct (counter_chars _ HN) as [NN VN].
  destruct (counter_chars _ HP) as [NP _]. destruct (counter_chars _ HH) as [NH _].
  destruct (counter_chars _ HTB) as [NTB _]. destruct (counter_chars _ HT) as [NT _].
  destruct (pv_shape m ms Hlan) as (tail & Htail & Hsep & Hpvc & body & z & Hz & Hzc).
  destruct (lan_moveChars m (Forall_inv Hlan)) as (c & cs & Hcs & Hmc).
  set (score := match iScore f with Cp x => x | Mate x => x end).
  set (isCp := match iScore f with Cp _ => true | Mate _ => false end).
  destruct (signed_chars score) as [NC VC].
  pose proof (parse_chars
                (list_ascii_of_string (showZ (iDepth f)))
                (list_ascii_of_string (showZ (iSelDepth f)))
                (list_ascii_of_string (showZ (iMultiPv f)))
                (if isCp then str "cp" else str "mate")
                (list_ascii_of_string (showZ score))
                (list_ascii_of_string (showZ (iNodes f)))
                (list_ascii_of_string (showZ (iNps f)))
                (list_ascii_of_string (showZ (iHashfull f)))
                (list_ascii_of_string (showZ (iTbhits f)))
                (list_ascii_of_string (showZ (iTime f)))
                (list_ascii_of_string (unwords (m :: ms)))
                ND NSD NI NC NN NP NH NTB NT
                ltac:(destruct isCp; auto) Hpvc
                (infoLine f) m isCp) as Hparse.
  rewrite VD, VI, VN, VC, string_of_list_ascii_of_string in Hparse.
  rewrite Hpv. rewrite Hparse; clear Hparse.
  - unfold isCp, score. destruct (iScore f); reflexivity.
  - unfold infoLine, lineChars, showScore, str. rewrite Hpv.
    unfold isCp, score. destruct (iScore f);
      rewrite !chars_app; cbn [list_ascii_of_string app]; rewrite <- ?app_assoc;
      reflexivity.
  - reflexivity.
  - rewrite Htail, Hcs. cbn [app]. exists c, (cs ++ tail)%list.
    split; [reflexivity |]. apply moveChar_plain. inversion Hmc; assumption.
  - eapply Forall_impl; [exact Hpvc |]. intros x Hx. unfold pvChar in Hx.
    apply orb_prop in Hx as [Hx | Hx]; [apply moveChar_plain, Hx |].
    apply Ascii.eqb_eq in Hx. subst x. reflexivity.
  - rewrite Htail, Hcs in Hz |- *. cbn [app] in Hz |- *.
    apply (trim_id c (cs ++ tail) body z); [| | exact Hz].
    + apply moveChar_plain. inversion Hmc; assumption.
    + apply moveChar_plain, Hzc.
  - rewrite Htail. apply firstToken_word; [| exact Hsep].
    rewrite Hcs. eapply Forall_impl; [exact Hmc |]. intros x Hx. apply moveChar_plain, Hx.
  - intros ->. discriminate.
  - exact (Forall_inv Hlan).
Qed.

Lemma info_line_parses_witness :
  parseInfoLine
    "info depth 12 seldepth 16 multipv 1 score cp -35 nodes 4100 nps 512500 hashfull 0 tbhits 0 time 8 pv g1f3 b8c6"
  = Some ({| cp := Some (-35); mate := None; depth := 12; nodes := Some 4100;
             bestMove := Some "g1f3"; pv := Some "g1f3 b8c6" |}, 1).
Proof.
  apply (info_line_parses sampleInfo "g1f3" ["b8c6"]);
    [unfold counters, MAX_SAFE_INTEGER; cbn; lia
    | unfold safeScore, MAX_SAFE_INTEGER; cbn; lia
    | reflexivity | repeat constructor].
Defined.


(** ** The game list (src/lib/chess-api.ts) *)

Module ChessComFacts.

Import ChessCom.

Lemma insertGame_perm (g : ChessGame) (l : list ChessGame) :
  Permutation (insertGame g l) (g :: l).
Proof.
  induction l as [| h t IH]; cbn [insertGame]; [reflexivity |].
  destruct (end_time h <=? end_time g); [reflexivity |].
  rewrite IH. apply perm_swap.
Qed.

Lemma sortGames_perm (l : list ChessGame) : Permutation (sortGames l) l.
Proof.
  induction l as [| g l IH]; [reflexivity |].
  cbn [sortGames fold_right]. fold (sortGames l).
  rewrite insertGame_perm, IH. reflexivity.
Qed.

Lemma insertGame_sorted (g : ChessGame) (l : list ChessGame) :
  StronglySorted latestFirst l -> StronglySorted latestFirst (insertGame g l).
Proof.
  induction l as [| h t IH]; intros Hs; cbn [insertGame].
  - repeat constructor.
  - apply StronglySorted_inv in Hs as [Ht Hh].
    destruct (Z.leb_spec (end_time h) (end_time g)) as [Hle | Hgt].
    + constructor; [constructor; assumption |].
      constructor; [exact Hle |].
      eapply Forall_impl; [exact Hh |]. unfold latestFirst. intros x Hx. lia.
    + constructor; [apply IH, Ht |].
      rewrite insertGame_perm. constructor; [unfold latestFirst; lia | exact Hh].
Qed.

Lemma sortGames_sorted (l : list ChessGame) : StronglySorted latestFirst (sortGames l).
Proof.
  induction l as [| g l IH]; [constructor |].
  cbn [sortGames fold_right]. apply insertGame_sorted, IH.
Qed.

Lemma withPgn_spec (batch : list (option ChessGame)) (g : ChessGame) :
  g ∈ withPgn batch <-> Some g ∈ batch /\ pgn g <> "".
Proof.
  unfold withPgn. rewrite list_elem_of_omap. split.
  - intros (game & Hin & Hg). unfold hasPgn in Hg.
    destruct game as [g' |]; [| discriminate].
    destruct (String.eqb_spec (pgn g') ""); cbn in Hg; [discriminate |].
    injection Hg as ->. auto.
  - intros [Hin Hp]. exists (Some g). split; [exact Hin |].
    cbn. destruct (String.eqb_spec (pgn g) ""); [contradiction | reflexivity].
Qed.

Lemma lastN_length {A : Type} (n : nat) (l : list A) :
  (length (lastN n l) <= n)%nat /\ exists pre, l = (pre ++ lastN n l)%list.
Proof.
  unfold lastN. split.
  - rewrite length_skipn. lia.
  - exists (firstn (length l - n) l). symmetry. apply firstn_skipn.
Qed.

End ChessComFacts.

(** X29. [fetchPlayerGames] requests nothing and resolves with no game for
    a name that is blank; otherwise its first request is the archive list of
    the trimmed name in lower case, and it rejects with the not-found error
    when the answer is not ok.  After that it requests at most six archives,
    the last ones of the list, latest first, and if none of these requests
    fails it resolves with the games of their bodies that have a PGN (an
    archive that is not ok counts as empty), every one of them exactly as
    often as it occurs there, ordered by end time, latest first. *)
Theorem fetchPlayerGames_latest_first (fetch : string -> ChessCom.Fetched)
  (username : string) :
  let run := ChessCom.fetchPlayerGames fetch username in
  let profile := ChessCom.toLowerCase (trim (list_ascii_of_string username)) in
  (profile = [] -> run = (ChessCom.Resolves [], [])) /\
  (profile <> [] ->
   exists requested,
     run.2 = ChessCom.archivesUrl profile :: requested /\
     (length requested <= 6)%nat /\
     (fetch (ChessCom.archivesUrl profile) = ChessCom.NotOk ->
      run = (ChessCom.Rejects [ChessCom.NotFound], [ChessCom.archivesUrl profile])) /\
     (forall data,
        fetch (ChessCom.archivesUrl profile) = ChessCom.Json data ->
        exists earlier,
          default [] (ChessCom.archives data) = (earlier ++ rev requested)%list /\
          (length requested < 6 -> earlier = [])%nat)) /\
  (forall games,
     run.1 = ChessCom.Resolves games ->
     StronglySorted latestFirst games /\
     Forall (fun g => ChessCom.pgn g <> "") games /\
     exists batches,
       Forall2 (fun archive batch => ChessCom.fetchArchive fetch archive = Ok batch)
         (tail run.2) batches /\
       Permutation games (ChessCom.withPgn (concat batches))).
Proof.
  cbv zeta. unfold ChessCom.fetchPlayerGames.
  set (profile := ChessCom.toLowerCase (trim (list_ascii_of_string username))).
  split; [intros ->; reflexivity |]. split.
  - intros Hne. destruct profile as [| c cs] eqn:Hp; [congruence |]. rewrite <- Hp.
    destruct (fetch (ChessCom.archivesUrl profile)) as [e | | data] eqn:Hf.
    + exists []. cbn. split; [reflexivity |]. split; [lia |].
      split; [discriminate | discriminate].
    + exists []. cbn. split; [reflexivity |]. split; [lia |].
      split; [reflexivity | discriminate].
    + destruct (length (default [] (ChessCom.archives data)) =? 0)%nat eqn:Hlen.
      * exists []. cbn. split; [reflexivity |]. split; [lia |].
        split; [discriminate |]. intros data' [= <-].
        apply Nat.eqb_eq in Hlen.
        destruct (default [] (ChessCom.archives data)); [| discriminate].
        exists []. split; [reflexivity | reflexivity].
      * exists (rev (ChessCom.lastN 6 (default [] (ChessCom.archives data)))).
        cbn [snd]. split; [reflexivity |].
        destruct (ChessComFacts.lastN_length 6 (default [] (ChessCom.archives data)))
          as [Hsix (pre & Hpre)].
        rewrite length_rev. split; [exact Hsix |]. split; [discriminate |].
        intros data' [= <-]. rewrite rev_involutive.
        exists (firstn (length (default [] (ChessCom.archives data)) - 6)
                  (default [] (ChessCom.archives data))).
        split; [symmetry; apply firstn_skipn |].
        intros Hless. unfold ChessCom.lastN in Hless. rewrite length_skipn in Hless.
        replace (length (default [] (ChessCom.archives data)) - 6)%nat with 0%nat by lia.
        reflexivity.
  - intros games. destruct profile as [| c cs] eqn:Hp.
    { intros [= <-]. split; [constructor |]. split; [constructor |].
      exists []. split; [constructor | reflexivity]. }
    rewrite <- Hp.
    destruct (fetch (ChessCom.archivesUrl profile)) as [e | | data]; [discriminate .. |].
    destruct (length (default [] (ChessCom.archives data)) =? 0)%nat.
    { intros [= <-]. split; [constructor |]. split; [constructor |].
      exists []. split; [constructor | reflexivity]. }
    cbn [fst snd tail].
    set (recent := rev (ChessCom.lastN 6 (default [] (ChessCom.archives data)))).
    destruct (ChessCom.errorsOf (map (ChessCom.fetchArchive fetch) recent)) eqn:Herr;
      [| discriminate].
    intros [= <-].
    split; [apply ChessComFacts.sortGames_sorted |]. split.
    + rewrite Forall_forall. intros g Hg.
      rewrite ChessComFacts.sortGames_perm in Hg.
      apply ChessComFacts.withPgn_spec in Hg. tauto.
    + exists (ChessCom.valuesOf (map (ChessCom.fetchArchive fetch) recent)).
      split; [| apply ChessComFacts.sortGames_perm].
      clear -Herr. induction recent as [| a recent IH]; [constructor |].
      cbn [map] in *. unfold ChessCom.errorsOf, ChessCom.valuesOf in *.
      cbn [omap list_omap] in *.
      destruct (ChessCom.fetchArchive fetch a) as [batch | e] eqn:Ha; [| discriminate].
      constructor; [exact Ha | apply IH, Herr].
Qed.

Lemma fetchPlayerGames_latest_first_witness :
  StronglySorted latestFirst [gameAt 200 "1. d4 d5"; gameAt 100 "1. e4 e5"].
Proof.
  apply (fetchPlayerGames_latest_first sampleNetwork "  Anna ").
  vm_compute. reflexivity.
Defined.


(** ** The brilliant label (src/lib/analysis.ts) *)

(** X30. [classifyMove] answers [brilliant] only when the material counts
    of the two positions it is given show a net sacrifice of 2 or more.  So
    when the mover's count after the move is not below the one before and
    the opponent's is not above (between the positions just before and just
    after a move a piece left en prise is still on the board), the verdict
    is never [brilliant]. *)
Theorem brilliant_needs_material_swing (api : ChessApi) (params : Params)
  (beforeMaterial afterMaterial : Material) (v : Verdict) :
  materialByColor api (fenBefore (move params)) = Some beforeMaterial ->
  materialByColor api (fenAfter (move params)) = Some afterMaterial ->
  classifyMove api params = Ok v ->
  (classification v = brilliant ->
   2 <= netSacrifice (turn (move params)) beforeMaterial afterMaterial) /\
  (pick (turn (move params)) beforeMaterial
   <= pick (turn (move params)) afterMaterial ->
   pick (other (turn (move params))) afterMaterial
   <= pick (other (turn (move params))) beforeMaterial ->
   classification v <> brilliant).
Proof.
  intros Hbm Ham Hv. split.
  - apply (brilliant_needs_net_sacrifice api params _ _ v Hbm Ham Hv).
  - intros Hown Hopp Hb.
    pose proof (brilliant_needs_net_sacrifice api params _ _ v Hbm Ham Hv Hb) as Hnet.
    unfold netSacrifice in Hnet. lia.
Qed.

Lemma brilliant_needs_material_swing_witness :
  classifyMove Sample.api enPrise_120_115
  = Ok {| classification := best; centipawnLoss := 5 |} /\
  classification {| classification := best; centipawnLoss := 5 |} <> brilliant.
Proof.
  assert (Hv : classifyMove Sample.api enPrise_120_115
               = Ok {| classification := best; centipawnLoss := 5 |})
    by reflexivity.
  split; [exact Hv |].
  apply (brilliant_needs_material_swing Sample.api enPrise_120_115
           {| white := 5; black := 3 |} {| white := 5; black := 3 |} _
           ltac:(vm_compute; reflexivity) ltac:(vm_compute; reflexivity) Hv).
  - vm_compute. discriminate.
  - vm_compute. discriminate.
Defined.
